(** * SkipListSet: a shallow embedding of [src/skiplist/SkipListSet.hpp]

    The skip list is a grid of heap-allocated [Node]s hanging off a chain of
    heap-allocated level headers ([LNode]s).  The embedding keeps that shape:
    pointers are [option loc] ([None] is [nullptr]), the objects a set owns
    live in two finite maps (one per pointee type, since an [LNode*] and a
    [Node*] never alias), and every member function is a function on that
    state.  Three things the C++ leaves to the machine are made explicit:

    - a null or dangling dereference, a signed overflow and a loop that never
      ends are results of their own ([fault]);
    - [new] may throw [std::bad_alloc]: mutating members run with a budget of
      allocations that still succeed, and [Throw] carries the state the
      caller sees once the exception has left the member;
    - [int] and [unsigned int] are 32 bits wide: values are [Z] and every
      conversion or wrap-around is written out.

    The embedding comes first, then the objects of the concrete scenarios
    and the predicates of the specification; the lemmas and the properties
    of the set follow, and the scenarios close the file. *)

From stdpp Require Import base decidable option numbers list gmap fin_maps sorting.

Set Default Proof Using "Type".
Set Warnings "-clear-no-such-hyp".
Open Scope Z_scope.

(** ** Element type *)

(** What the template asks of [ElementType]: a default value (used only as the
    payload of sentinel keys), [operator==] and [operator<], with the laws of a
    strict total order. *)
Class ElementType (E : Type) := {
  elt_default : E;
  elt_eqb : E → E → bool;
  elt_ltb : E → E → bool;
  elt_eqb_eq : ∀ x y, elt_eqb x y = true ↔ x = y;
  elt_ltb_irrefl : ∀ x, elt_ltb x x = false;
  elt_ltb_trans : ∀ x y z, elt_ltb x y = true → elt_ltb y z = true → elt_ltb x z = true;
  elt_ltb_total : ∀ x y, elt_ltb x y = true ∨ x = y ∨ elt_ltb y x = true
}.

(** ** Machine integers *)

Definition INT_MAX : Z := 2147483647.
Definition INT_MIN : Z := -2147483648.
Definition UINT_MOD : Z := 4294967296.

(** Conversion of an [int] to [unsigned int]. *)
Definition to_unsigned (z : Z) : Z := z mod UINT_MOD.
(** Conversion of an [unsigned int] to [int]. *)
Definition to_int (u : Z) : Z := if u <=? INT_MAX then u else u - UINT_MOD.

(** ** Results *)

Inductive fault :=
| NullDeref        (* a null pointer is dereferenced *)
| Dangling         (* a pointer to an object that is not (or no longer) allocated *)
| Uninitialised    (* an uninitialised pointer is read *)
| SignedOverflow   (* an [int] computation leaves the range of [int] *)
| NoTermination.   (* the loop runs out of the bound given to it *)

(** Result of a [const] member: a value or a fault. *)
Inductive result (A : Type) :=
| Val (a : A)
| Crash (f : fault).
Arguments Val {A} a.
Arguments Crash {A} f.

Definition rbind {A B} (r : result A) (k : A → result B) : result B :=
  match r with
  | Val a => k a
  | Crash f => Crash f
  end.

Notation "'let*' x ':=' r 'in' k" := (rbind r (λ x, k))
  (at level 10, x name, r at level 100, k at level 200).

(** Signed increment and decrement, which overflow into undefined behaviour. *)
Definition int_incr (z : Z) : result Z :=
  if z =? INT_MAX then Crash SignedOverflow else Val (z + 1).
Definition int_decr (z : Z) : result Z :=
  if z =? INT_MIN then Crash SignedOverflow else Val (z - 1).

(** ** Keys *)

Inductive SkipListKind := Normal | NegInf | PosInf.

#[export] Instance SkipListKind_eq_dec : EqDecision SkipListKind.
Proof. solve_decision. Defined.

Definition loc := positive.

Section SkipList.
Context {E : Type} `{ET : ElementType E}.

Record SkipListKey := { kind : SkipListKind; element : E }.

(** [SkipListKey::operator==] *)
Definition key_eqb (k other : SkipListKey) : bool :=
  bool_decide (kind k = kind other)
  && (negb (bool_decide (kind k = Normal)) || elt_eqb (element k) (element other)).

(** [SkipListKey::operator<] *)
Definition key_ltb (k other : SkipListKey) : bool :=
  match kind k with
  | NegInf => negb (bool_decide (kind other = NegInf))
  | PosInf => false
  | Normal =>
      bool_decide (kind other = PosInf)
      || (bool_decide (kind other = Normal) && elt_ltb (element k) (element other))
  end.

(** ** Level testers *)

(** A level tester answers [shouldOccupyNextLevel] from what it was asked
    before (a seeded random engine and a scripted test double alike): [policy]
    maps the earlier questions and the present one to the answer. *)
Record SkipListLevelTester := {
  policy : list E → E → bool;
  asked : list E
}.

Definition shouldOccupyNextLevel (e : E) (t : SkipListLevelTester)
  : bool * SkipListLevelTester :=
  (policy t (asked t) e, {| policy := policy t; asked := asked t ++ [e] |}).

(** ** Heap objects and the set *)

Record Node := { value : SkipListKey; below : option loc; next : option loc }.

(** [LNode] has the same member names as [Node]; they carry an [l] here. *)
Record LNode := { lvalue : Z; lbelow : option loc; lnext : option loc }.

Record SkipListSet := {
  levelTester : SkipListLevelTester;
  elements : Z;
  head : option loc;
  tail : option loc;
  lnodes : gmap loc LNode;     (* the level headers the set owns *)
  nodes : gmap loc Node        (* the nodes (each with its key) the set owns *)
}.

Definition set_levelTester t (s : SkipListSet) :=
  {| levelTester := t; elements := elements s; head := head s; tail := tail s;
     lnodes := lnodes s; nodes := nodes s |}.
Definition set_elements z (s : SkipListSet) :=
  {| levelTester := levelTester s; elements := z; head := head s; tail := tail s;
     lnodes := lnodes s; nodes := nodes s |}.
Definition set_head h (s : SkipListSet) :=
  {| levelTester := levelTester s; elements := elements s; head := h; tail := tail s;
     lnodes := lnodes s; nodes := nodes s |}.
Definition set_tail t (s : SkipListSet) :=
  {| levelTester := levelTester s; elements := elements s; head := head s; tail := t;
     lnodes := lnodes s; nodes := nodes s |}.
Definition set_lnodes m (s : SkipListSet) :=
  {| levelTester := levelTester s; elements := elements s; head := head s; tail := tail s;
     lnodes := m; nodes := nodes s |}.
Definition set_nodes m (s : SkipListSet) :=
  {| levelTester := levelTester s; elements := elements s; head := head s; tail := tail s;
     lnodes := lnodes s; nodes := m |}.

(** The address [new] hands out: one past the largest address in use. *)
Definition fresh_loc {A} (m : gmap loc A) : loc :=
  map_fold (λ a _ r, Pos.max (Pos.succ a) r) 1%positive m.

(** Dereferencing. *)
Definition deref {A} (m : gmap loc A) (p : option loc) : result A :=
  match p with
  | None => Crash NullDeref
  | Some a => match m !! a with
              | None => Crash Dangling
              | Some x => Val x
              end
  end.

(** ** Const members *)

(** The loop of [search]: [p] and [current] are always assigned together, so
    one variable stands for both.  The bound is the number of nodes the loop
    may still visit. *)
Fixpoint search_loop (fuel : nat) (nd : gmap loc Node) (newKey : SkipListKey)
    (minLevel : Z) (p : option loc) (level : Z) : result (option loc) :=
  match p with
  | None => Val None                                    (* return current; *)
  | Some a =>
    match fuel with
    | O => Crash NoTermination
    | S fuel' =>
      let* n := deref nd p in
      if key_eqb (value n) newKey then Val None         (* return nullptr; *)
      else
        let* go_down :=
          match next n with
          | None => Val false
          | Some _ => let* n' := deref nd (next n) in Val (key_ltb newKey (value n'))
          end in
        if (go_down : bool) then
          let* l1 := int_decr level in
          if l1 <? minLevel then Val p                  (* return current; *)
          else search_loop fuel' nd newKey minLevel (below n) l1
        else search_loop fuel' nd newKey minLevel (next n) level
    end
  end.

Definition search (element : E) (minLevel : Z) (s : SkipListSet) : result (option loc) :=
  let* h := deref (lnodes s) (head s) in
  search_loop (size (nodes s)) (nodes s) {| kind := Normal; element := element |}
    minLevel (lnext h) (to_int (lvalue h)).

Definition contains (element : E) (s : SkipListSet) : result bool :=
  let* r := search element 0 s in
  match r with
  | None => Val true
  | Some _ => Val false
  end.

Definition size_ (s : SkipListSet) : Z := to_unsigned (elements s).

Definition levelCount (s : SkipListSet) : result Z :=
  let* h := deref (lnodes s) (head s) in
  Val ((lvalue h + 1) mod UINT_MOD).

Fixpoint getLevel_loop (fuel : nat) (ln : gmap loc LNode) (level : Z) (p : option loc)
  : result (option loc) :=
  match p with
  | None => Val None
  | Some a =>
    match fuel with
    | O => Crash NoTermination
    | S fuel' =>
      let* l := deref ln p in
      if lvalue l =? level then Val p
      else getLevel_loop fuel' ln level (lbelow l)
    end
  end.

Definition getLevel (level : Z) (s : SkipListSet) : result (option loc) :=
  getLevel_loop (size (lnodes s)) (lnodes s) level (head s).

Fixpoint count_loop (fuel : nat) (nd : gmap loc Node) (n : option loc) (counter : Z)
  : result Z :=
  match n with
  | None => Val counter
  | Some a =>
    match fuel with
    | O => Crash NoTermination
    | S fuel' =>
      let* x := deref nd n in
      let* c := int_incr counter in
      count_loop fuel' nd (next x) c
    end
  end.

Definition elementsOnLevel (level : Z) (s : SkipListSet) : result Z :=
  let* list := getLevel level s in
  match list with
  | None => Val 0
  | Some _ =>
    let* l := deref (lnodes s) list in
    let* counter := count_loop (size (nodes s)) (nodes s) (lnext l) 0 in
    if counter - 2 <? INT_MIN then Crash SignedOverflow
    else Val (to_unsigned (counter - 2))
  end.

Fixpoint find_loop (fuel : nat) (nd : gmap loc Node) (newKey : SkipListKey)
    (p : option loc) : result bool :=
  match p with
  | None => Val false
  | Some a =>
    match fuel with
    | O => Crash NoTermination
    | S fuel' =>
      let* x := deref nd p in
      if key_eqb newKey (value x) then Val true
      else find_loop fuel' nd newKey (next x)
    end
  end.

Definition isElementOnLevel (element : E) (level : Z) (s : SkipListSet) : result bool :=
  let* list := getLevel level s in
  match list with
  | None => Val false
  | Some _ =>
    let* l := deref (lnodes s) list in
    find_loop (size (nodes s)) (nodes s) {| kind := Normal; element := element |} (lnext l)
  end.

(** ** Mutating members *)

(** What a member that may allocate comes to: it returns ([Ok], with the new
    state and what is left of the allocation budget), it lets a
    [std::bad_alloc] escape ([Throw], with the state the caller is left
    with), or it runs into undefined behaviour ([Abort]). *)
Inductive outcome (A : Type) :=
| Ok (a : A) (s : SkipListSet) (b : nat)
| Throw (s : SkipListSet) (b : nat)
| Abort (f : fault).
Arguments Ok {A} a s b.
Arguments Throw {A} s b.
Arguments Abort {A} f.

Definition M (A : Type) : Type := SkipListSet → nat → outcome A.

Definition mret {A} (a : A) : M A := λ s b, Ok a s b.

Definition mbind {A B} (m : M A) (k : A → M B) : M B := λ s b,
  match m s b with
  | Ok a s' b' => k a s' b'
  | Throw s' b' => Throw s' b'
  | Abort f => Abort f
  end.

Notation "'let!' x ':=' m 'in' k" := (mbind m (λ x, k))
  (at level 10, x name, m at level 100, k at level 200).
Notation "m ;; k" := (mbind m (λ _, k))
  (at level 100, k at level 200, right associativity).

(** Read from the state. *)
Definition lift {A} (f : SkipListSet → result A) : M A := λ s b,
  match f s with
  | Val a => Ok a s b
  | Crash f => Abort f
  end.

Definition update (f : SkipListSet → SkipListSet) : M unit := λ s b, Ok tt (f s) b.

(** One request to [operator new]: it throws once the budget is used up. *)
Definition alloc : M unit := λ s b,
  match b with
  | O => Throw s O
  | S b' => Ok tt s b'
  end.

(** [try { m } catch (...) { h; throw; }] *)
Definition catch_rethrow {A} (m : M A) (h : M unit) : M A := λ s b,
  match m s b with
  | Throw s' b' =>
      match h s' b' with
      | Ok _ s'' b'' => Throw s'' b''
      | Throw s'' b'' => Throw s'' b''
      | Abort f => Abort f
      end
  | r => r
  end.

(** Placing a constructed object at the address [new] returned. *)
Definition store_Node (n : Node) : M loc := λ s b,
  let a := fresh_loc (nodes s) in Ok a (set_nodes (<[a:=n]> (nodes s)) s) b.
Definition store_LNode (l : LNode) : M loc := λ s b,
  let a := fresh_loc (lnodes s) in Ok a (set_lnodes (<[a:=l]> (lnodes s)) s) b.

(** Assignments through a pointer: [p->next = v], [p->below = v]. *)
Definition write_Node (f : Node → Node) (p : option loc) : M unit :=
  let! n := lift (λ s, deref (nodes s) p) in
  match p with
  | Some a => update (λ s, set_nodes (<[a:=f n]> (nodes s)) s)
  | None => mret tt
  end.
Definition write_LNode (f : LNode → LNode) (p : option loc) : M unit :=
  let! l := lift (λ s, deref (lnodes s) p) in
  match p with
  | Some a => update (λ s, set_lnodes (<[a:=f l]> (lnodes s)) s)
  | None => mret tt
  end.

Definition set_next (p v : option loc) : M unit :=
  write_Node (λ n, {| value := value n; below := below n; next := v |}) p.
Definition set_below (p v : option loc) : M unit :=
  write_Node (λ n, {| value := value n; below := v; next := next n |}) p.
Definition set_lnext (p v : option loc) : M unit :=
  write_LNode (λ l, {| lvalue := lvalue l; lbelow := lbelow l; lnext := v |}) p.
Definition set_lbelow (p v : option loc) : M unit :=
  write_LNode (λ l, {| lvalue := lvalue l; lbelow := v; lnext := lnext l |}) p.

(** [updateTail] *)
Fixpoint updateTail_loop (fuel : nat) (nd : gmap loc Node) (p tl : option loc)
  : result (option loc) :=
  match p with
  | None => Val tl
  | Some _ =>
    match fuel with
    | O => Crash NoTermination
    | S fuel' =>
      let* n := deref nd p in
      updateTail_loop fuel' nd (next n) (match next n with None => p | Some _ => tl end)
    end
  end.

Definition updateTail : M unit :=
  let! h := lift (λ s, deref (lnodes s) (head s)) in
  let! t := lift (λ s, updateTail_loop (size (nodes s)) (nodes s) (lnext h) (tail s)) in
  update (set_tail t).

(** [deleteNode] and [deleteSkipList] *)
Fixpoint deleteNode_loop (fuel : nat) (nd : gmap loc Node) (n : option loc)
  : result (gmap loc Node) :=
  match n with
  | None => Val nd
  | Some a =>
    match fuel with
    | O => Crash NoTermination
    | S fuel' =>
      let* x := deref nd n in
      deleteNode_loop fuel' (delete a nd) (next x)
    end
  end.

Definition deleteNode (node : option loc) (nd : gmap loc Node) : result (gmap loc Node) :=
  deleteNode_loop (size nd) nd node.

Fixpoint deleteSkipList_loop (fuel : nat) (ln : gmap loc LNode) (nd : gmap loc Node)
    (p : option loc) : result (gmap loc LNode * gmap loc Node) :=
  match p with
  | None => Val (ln, nd)
  | Some a =>
    match fuel with
    | O => Crash NoTermination
    | S fuel' =>
      let* l := deref ln p in
      let* nd' := deleteNode (lnext l) nd in
      deleteSkipList_loop fuel' (delete a ln) nd' (lbelow l)
    end
  end.

Definition deleteSkipList (list : option loc) : M unit :=
  let! r := lift (λ s, deleteSkipList_loop (size (lnodes s)) (lnodes s) (nodes s) list) in
  update (λ s, set_nodes r.2 (set_lnodes r.1 s)).

(** The object a constructor starts from: nothing allocated, the pointer
    members not yet pointing anywhere. *)
Definition raw (t : SkipListLevelTester) : SkipListSet :=
  {| levelTester := t; elements := 0; head := None; tail := None;
     lnodes := ∅; nodes := ∅ |}.

(** [SkipListSet(std::unique_ptr<SkipListLevelTester>)].  [temp] is the
    default-initialised local whose value the first two sentinels copy. *)
Definition construct_body (temp : E) : M unit :=
  catch_rethrow
    (update (set_head None);;
     alloc;;
     let! h := store_LNode {| lvalue := 0; lbelow := None; lnext := None |} in
     update (set_head (Some h));;
     alloc;; alloc;; alloc;; alloc;;
     let! pos := store_Node {| value := {| kind := PosInf; element := temp |};
                               below := None; next := None |} in
     let! neg := store_Node {| value := {| kind := NegInf; element := temp |};
                               below := None; next := Some pos |} in
     let! hd := lift (λ s, Val (head s)) in
     set_lnext hd (Some neg);;
     updateTail;;
     update (set_elements 0))
    (let! hd := lift (λ s, Val (head s)) in deleteSkipList hd).

Definition construct (t : SkipListLevelTester) (temp : E) (b : nat) : outcome unit :=
  construct_body temp (raw t) b.

(** [createNewLevel] *)
Definition createNewLevel (element : E) (current : option loc) : M unit :=
  alloc;;
  let! hd := lift (λ s, Val (head s)) in
  let! h := lift (λ s, deref (lnodes s) hd) in
  let! top := store_LNode {| lvalue := (lvalue h + 1) mod UINT_MOD;
                             lbelow := hd; lnext := None |} in
  update (set_head (Some top));;
  (* head->next = new Node(-INF, head->below->next, nullptr) *)
  alloc;; alloc;;
  let! h := lift (λ s, deref (lnodes s) (head s)) in
  let! hb := lift (λ s, deref (lnodes s) (lbelow h)) in
  let! neg := store_Node {| value := {| kind := NegInf; element := elt_default |};
                            below := lnext hb; next := None |} in
  let! hd := lift (λ s, Val (head s)) in
  set_lnext hd (Some neg);;
  (* head->next->next = new Node(element, current, nullptr) *)
  alloc;; alloc;;
  let! mid := store_Node {| value := {| kind := Normal; element := element |};
                            below := current; next := None |} in
  let! h := lift (λ s, deref (lnodes s) (head s)) in
  set_next (lnext h) (Some mid);;
  (* head->next->next->next = new Node(+INF, tail, nullptr) *)
  alloc;; alloc;;
  let! tl := lift (λ s, Val (tail s)) in
  let! pos := store_Node {| value := {| kind := PosInf; element := elt_default |};
                            below := tl; next := None |} in
  let! h := lift (λ s, deref (lnodes s) (head s)) in
  let! n1 := lift (λ s, deref (nodes s) (lnext h)) in
  set_next (next n1) (Some pos);;
  updateTail.

(** [insertNewNode] *)
Definition insertNewNode (n current : option loc) (element : E) : M (option loc) :=
  alloc;; alloc;;
  let! x := lift (λ s, deref (nodes s) n) in
  let! new := store_Node {| value := {| kind := Normal; element := element |};
                            below := current; next := next x |} in
  set_next n (Some new);;
  let! x := lift (λ s, deref (nodes s) n) in
  mret (next x).

(** The promotion loop of [add].  Every round that goes on allocates, so
    the budget of allocations bounds the number of rounds. *)
Fixpoint add_loop (fuel : nat) (element : E) (temp : option loc) (currentLevel : Z)
  : M unit :=
  match fuel with
  | O => λ _ _, Abort NoTermination
  | S fuel' =>
    let! t := lift (λ s, Val (levelTester s)) in
    let ans := shouldOccupyNextLevel element t in
    update (set_levelTester ans.2);;
    if ans.1 then
      let! currentLevel := lift (λ _, int_incr currentLevel) in
      let! h := lift (λ s, deref (lnodes s) (head s)) in
      if to_unsigned currentLevel >? lvalue h then
        createNewLevel element temp;;
        let! h := lift (λ s, deref (lnodes s) (head s)) in
        let! n1 := lift (λ s, deref (nodes s) (lnext h)) in
        add_loop fuel' element (next n1) currentLevel
      else
        let! n := lift (search element currentLevel) in
        let! temp := insertNewNode n temp element in
        add_loop fuel' element temp currentLevel
    else mret tt
  end.

(** [add] *)
Definition add (element : E) : M unit :=
  let! current := lift (search element 0) in
  let! temp :=
    catch_rethrow
      (alloc;; alloc;;
       let! c := lift (λ s, deref (nodes s) current) in
       let! temp := store_Node {| value := {| kind := Normal; element := element |};
                                  below := None; next := next c |} in
       set_next current (Some temp);;
       let! n := lift (λ s, int_incr (elements s)) in
       update (set_elements n);;
       mret (Some temp))
      (mret tt)                        (* delete temp; with temp still null *)
  in
  λ s b, add_loop (S b) element temp 0 s b.

(** ** Copying

    [linkLevels], [linkNext] and [linkBelow] read the source [s] and build a
    grid out of fresh allocations, reachable from their [list] argument
    alone.  The grid under construction is kept in a state of its own (its
    [head] is [list], its stores hold what was allocated for it): for the
    copy constructor that state is the new object, for the copy assignment
    it is the local [temp], installed in the target once complete. *)

Fixpoint linkLevels_loop (fuel : nat) (s : SkipListSet) (p current : option loc) : M unit :=
  match p with
  | None => mret tt
  | Some _ =>
    match fuel with
    | O => λ _ _, Abort NoTermination
    | S fuel' =>
      (* try { temp = new LNode(...); ... } catch (...) { deleteSkipList(temp); throw; }
         where temp is still null when [new] has thrown *)
      alloc;;
      let! pl := lift (λ _, deref (lnodes s) p) in
      let! temp := store_LNode {| lvalue := lvalue pl; lbelow := None; lnext := None |} in
      match current with
      | Some _ => set_lbelow current (Some temp)
      | None => update (set_head (Some temp))
      end;;
      linkLevels_loop fuel' s (lbelow pl) (Some temp)
    end
  end.

Definition linkLevels (s : SkipListSet) : M unit :=
  linkLevels_loop (size (lnodes s)) s (head s) None.

(** The inner loop of [linkNext]: [current] is the level header being
    filled, [curr] the last node linked to it. *)
Fixpoint linkNext_row (fuel : nat) (s : SkipListSet) (n current curr : option loc)
  : M unit :=
  match n with
  | None => mret tt
  | Some _ =>
    match fuel with
    | O => λ _ _, Abort NoTermination
    | S fuel' =>
      alloc;; alloc;;
      let! sn := lift (λ _, deref (nodes s) n) in
      let! temp := store_Node {| value := value sn; below := None; next := None |} in
      match curr with
      | Some _ => set_next curr (Some temp)
      | None => set_lnext current (Some temp)
      end;;
      linkNext_row fuel' s (next sn) current (Some temp)
    end
  end.

Fixpoint linkNext_loop (fuel : nat) (s : SkipListSet) (p current : option loc) : M unit :=
  match p with
  | None => mret tt
  | Some _ =>
    match fuel with
    | O => λ _ _, Abort NoTermination
    | S fuel' =>
      let! pl := lift (λ _, deref (lnodes s) p) in
      linkNext_row (size (nodes s)) s (lnext pl) current None;;
      let! c := lift (λ g, deref (lnodes g) current) in
      linkNext_loop fuel' s (lbelow pl) (lbelow c)
    end
  end.

Definition linkNext (s : SkipListSet) : M unit :=
  let! list := lift (λ g, Val (head g)) in
  linkNext_loop (size (lnodes s)) s (head s) list.

(** The inner loop of [linkBelow]: [p] runs over the level beneath, [curr]
    over the level whose nodes are being linked downwards. *)
Fixpoint linkBelow_row (fuel : nat) (p curr : option loc) : M unit :=
  match p with
  | None => mret tt
  | Some _ =>
    match fuel with
    | O => λ _ _, Abort NoTermination
    | S fuel' =>
      let! cn := lift (λ g, deref (nodes g) curr) in
      let! pn := lift (λ g, deref (nodes g) p) in
      if key_eqb (value cn) (value pn) then
        set_below curr p;;
        let! cn := lift (λ g, deref (nodes g) curr) in
        let! pn := lift (λ g, deref (nodes g) p) in
        linkBelow_row fuel' (next pn) (next cn)
      else linkBelow_row fuel' (next pn) curr
    end
  end.

(** The outer loop of [linkBelow]: one round per level header. *)
Fixpoint linkBelow_loop (fuel : nat) (current : option loc) : M unit :=
  match fuel with
  | O => λ _ _, Abort NoTermination
  | S fuel' =>
    let! c := lift (λ g, deref (lnodes g) current) in
    match lbelow c with
    | None => mret tt
    | Some _ =>
      let! cb := lift (λ g, deref (lnodes g) (lbelow c)) in
      (λ g b, linkBelow_row (size (nodes g)) (lnext cb) (lnext c) g b);;
      linkBelow_loop fuel' (lbelow c)
    end
  end.

Definition linkBelow : M unit :=
  λ g b, linkBelow_loop (S (size (lnodes g))) (head g) g b.

(** The three passes. *)
Definition build (s : SkipListSet) : M unit :=
  linkLevels s;;
  linkNext s;;
  linkBelow.

(** [s.levelTester->clone()]: the call is virtual, so the tester it returns
    is a parameter [cl] of the members that copy; the tester comes out of an
    allocation, which may fail. *)
Definition clone (cl : SkipListLevelTester) : M SkipListLevelTester :=
  alloc;; mret cl.

(** [SkipListSet(const SkipListSet&)].  The constructor never initialises
    [head]: it holds a pointer only once [linkLevels] has assigned one, and
    [None] stands for "not yet assigned" here.  The handler reads it
    whatever its state; so does [linkBelow] when the source has no levels,
    and its dereference then shows as that of a null pointer. *)
Definition copy_construct (cl : SkipListLevelTester) (s : SkipListSet) (b : nat)
  : outcome unit :=
  catch_rethrow
    (build s;;
     updateTail;;
     update (set_elements (elements s));;
     let! t := clone cl in
     update (set_levelTester t))
    (let! hd := lift (λ g, match head g with
                           | None => Crash Uninitialised
                           | Some a => Val (head g)
                           end) in
     deleteSkipList hd)
    (raw cl) b.

(** [operator=(const SkipListSet&)] on the target [this].  Once the grid
    is installed [temp] is null, and the handler deletes nothing. *)
Definition copy_assign (cl : SkipListLevelTester) (s : SkipListSet) : M unit := λ this b,
  match catch_rethrow (build s)
                      (let! temp := lift (λ g, Val (head g)) in deleteSkipList temp)
                      (raw cl) b with
  | Ok _ g b' =>
      (* deleteSkipList(head); head = temp; *)
      match deleteSkipList (head this) this b' with
      | Ok _ _ b'' =>
          (updateTail;;
           update (set_elements (elements s));;
           let! t := clone cl in
           update (set_levelTester t))
            {| levelTester := levelTester this; elements := elements this;
               head := head g; tail := tail this;
               lnodes := lnodes g; nodes := nodes g |} b''
      | Throw _ b'' => Throw this b''
      | Abort f => Abort f
      end
  | Throw _ b' => Throw this b'
  | Abort f => Abort f
  end.

(** ** Moving

    Both members are [noexcept]: were [clone()] to throw, the program would
    end there.  The functions give the two objects when it returns [cl]. *)

(** [SkipListSet(SkipListSet&&)]: the new object and what is left of [s]. *)
Definition move_construct (cl : SkipListLevelTester) (s : SkipListSet)
  : SkipListSet * SkipListSet :=
  ({| levelTester := cl; elements := elements s; head := head s; tail := tail s;
      lnodes := lnodes s; nodes := nodes s |},
   {| levelTester := levelTester s; elements := elements s; head := None; tail := None;
      lnodes := ∅; nodes := ∅ |}).

(** [operator=(SkipListSet&&)]: the target and what is left of [s]. *)
Definition move_assign (cl : SkipListLevelTester) (this s : SkipListSet)
  : SkipListSet * SkipListSet :=
  ({| levelTester := cl; elements := elements s; head := head s; tail := tail s;
      lnodes := lnodes s; nodes := nodes s |},
   {| levelTester := levelTester s; elements := elements s;
      head := head this; tail := tail this;
      lnodes := lnodes this; nodes := nodes this |}).

End SkipList.

Arguments Ok {E A} a s b.
Arguments Throw {E A} s b.
Arguments Abort {E A} f.
Arguments SkipListKey E : clear implicits.
Arguments SkipListLevelTester E : clear implicits.
Arguments SkipListSet E : clear implicits.
Arguments Node E : clear implicits.

Notation "'let!' x ':=' m 'in' k" := (mbind m (λ x, k))
  (at level 10, x name, m at level 100, k at level 200).
Notation "m ;; k" := (mbind m (λ _, k))
  (at level 100, k at level 200, right associativity).

(** * Scenarios: the objects they use *)

(** The element type of the scenarios: [int], without its bounds. *)
#[export] Instance Z_ElementType : ElementType Z.
Proof.
  refine {| elt_default := 0; elt_eqb := Z.eqb; elt_ltb := Z.ltb;
            elt_eqb_eq := Z.eqb_eq; elt_ltb_irrefl := Z.ltb_irrefl |}.
  - intros x y z. rewrite !Z.ltb_lt. lia.
  - intros x y. rewrite !Z.ltb_lt. lia.
Defined.

(** Two test doubles for the level tester: one that never promotes, one that
    promotes each element the first time it is asked about it. *)
Definition never : SkipListLevelTester Z :=
  {| policy := λ _ _, false; asked := [] |}.
Definition once : SkipListLevelTester Z :=
  {| policy := λ h e, negb (existsb (Z.eqb e) h); asked := [] |}.

(** The set that holds 7: constructed with [never], then [add(7)]. *)
Definition set7 : SkipListSet Z :=
  {| levelTester := {| policy := λ _ _, false; asked := [7] |};
     elements := 1;
     head := Some 1%positive; tail := Some 1%positive;
     lnodes := {[ 1%positive := {| lvalue := 0; lbelow := None; lnext := Some 2%positive |} ]};
     nodes :=
       <[ 3%positive := {| value := {| kind := Normal; element := 7 |};
                           below := None; next := Some 1%positive |} ]>
       (<[ 2%positive := {| value := {| kind := NegInf; element := 0 |};
                            below := None; next := Some 3%positive |} ]>
        {[ 1%positive := {| value := {| kind := PosInf; element := 0 |};
                            below := None; next := None |} ]}) |}.

(** Two sets that a failed [add(5)] leaves, on a set constructed with
    [once]: the new top level has its header and no nodes (the fourth
    allocation failed), or its header and the -INF sentinel (the sixth
    failed). *)
Definition torn_top_empty : SkipListSet Z :=
  {| levelTester := {| policy := λ h e, negb (existsb (Z.eqb e) h); asked := [5] |};
     elements := 1;
     head := Some 2%positive; tail := Some 1%positive;
     lnodes :=
       <[ 2%positive := {| lvalue := 1; lbelow := Some 1%positive; lnext := None |} ]>
       {[ 1%positive := {| lvalue := 0; lbelow := None; lnext := Some 2%positive |} ]};
     nodes :=
       <[ 3%positive := {| value := {| kind := Normal; element := 5 |};
                           below := None; next := Some 1%positive |} ]>
       (<[ 2%positive := {| value := {| kind := NegInf; element := 0 |};
                            below := None; next := Some 3%positive |} ]>
        {[ 1%positive := {| value := {| kind := PosInf; element := 0 |};
                            below := None; next := None |} ]}) |}.

Definition torn_top_neg : SkipListSet Z :=
  {| levelTester := {| policy := λ h e, negb (existsb (Z.eqb e) h); asked := [5] |};
     elements := 1;
     head := Some 2%positive; tail := Some 1%positive;
     lnodes :=
       <[ 2%positive := {| lvalue := 1; lbelow := Some 1%positive;
                           lnext := Some 4%positive |} ]>
       {[ 1%positive := {| lvalue := 0; lbelow := None; lnext := Some 2%positive |} ]};
     nodes :=
       <[ 4%positive := {| value := {| kind := NegInf; element := 0 |};
                           below := Some 2%positive; next := None |} ]>
       (<[ 3%positive := {| value := {| kind := Normal; element := 5 |};
                            below := None; next := Some 1%positive |} ]>
        (<[ 2%positive := {| value := {| kind := NegInf; element := 0 |};
                             below := None; next := Some 3%positive |} ]>
         {[ 1%positive := {| value := {| kind := PosInf; element := 0 |};
                             below := None; next := None |} ]})) |}.

(** The copy of [set7] that the copy constructor makes in the heap of
    [set7], with the tester [never]; and what a copy assignment of [set7]
    to that copy leaves of it, in the same heap. *)
Definition set7_copy : SkipListSet Z :=
  {| levelTester := {| policy := λ _ _, false; asked := [] |};
     elements := 1;
     head := Some 2%positive; tail := Some 6%positive;
     lnodes :=
       <[ 2%positive := {| lvalue := 0; lbelow := None; lnext := Some 4%positive |} ]>
       {[ 1%positive := {| lvalue := 0; lbelow := None; lnext := Some 2%positive |} ]};
     nodes :=
       <[ 6%positive := {| value := {| kind := PosInf; element := 0 |};
                           below := None; next := None |} ]>
       (<[ 5%positive := {| value := {| kind := Normal; element := 7 |};
                            below := None; next := Some 6%positive |} ]>
        (<[ 4%positive := {| value := {| kind := NegInf; element := 0 |};
                             below := None; next := Some 5%positive |} ]>
         (<[ 3%positive := {| value := {| kind := Normal; element := 7 |};
                              below := None; next := Some 1%positive |} ]>
          (<[ 2%positive := {| value := {| kind := NegInf; element := 0 |};
                               below := None; next := Some 3%positive |} ]>
           {[ 1%positive := {| value := {| kind := PosInf; element := 0 |};
                               below := None; next := None |} ]})))) |}.

Definition set7_assigned : SkipListSet Z :=
  {| levelTester := {| policy := λ _ _, false; asked := [] |};
     elements := 1;
     head := Some 3%positive; tail := Some 9%positive;
     lnodes :=
       <[ 3%positive := {| lvalue := 0; lbelow := None; lnext := Some 7%positive |} ]>
       {[ 1%positive := {| lvalue := 0; lbelow := None; lnext := Some 2%positive |} ]};
     nodes :=
       <[ 9%positive := {| value := {| kind := PosInf; element := 0 |};
                           below := None; next := None |} ]>
       (<[ 8%positive := {| value := {| kind := Normal; element := 7 |};
                            below := None; next := Some 9%positive |} ]>
        (<[ 7%positive := {| value := {| kind := NegInf; element := 0 |};
                             below := None; next := Some 8%positive |} ]>
         (<[ 3%positive := {| value := {| kind := Normal; element := 7 |};
                              below := None; next := Some 1%positive |} ]>
          (<[ 2%positive := {| value := {| kind := NegInf; element := 0 |};
                               below := None; next := Some 3%positive |} ]>
           {[ 1%positive := {| value := {| kind := PosInf; element := 0 |};
                               below := None; next := None |} ]})))) |}.

(** The set that the same [add(5)] leaves when the eighth allocation fails:
    the new top level has its -INF sentinel and the node of 5, and no +INF
    sentinel. *)
Definition torn_top_short : SkipListSet Z :=
  {| levelTester := {| policy := λ h e, negb (existsb (Z.eqb e) h); asked := [5] |};
     elements := 1;
     head := Some 2%positive; tail := Some 1%positive;
     lnodes :=
       <[ 2%positive := {| lvalue := 1; lbelow := Some 1%positive;
                           lnext := Some 4%positive |} ]>
       {[ 1%positive := {| lvalue := 0; lbelow := None; lnext := Some 2%positive |} ]};
     nodes :=
       <[ 5%positive := {| value := {| kind := Normal; element := 5 |};
                           below := Some 3%positive; next := None |} ]>
       (<[ 4%positive := {| value := {| kind := NegInf; element := 0 |};
                            below := Some 2%positive; next := Some 5%positive |} ]>
        (<[ 3%positive := {| value := {| kind := Normal; element := 5 |};
                             below := None; next := Some 1%positive |} ]>
         (<[ 2%positive := {| value := {| kind := NegInf; element := 0 |};
                              below := None; next := Some 3%positive |} ]>
          {[ 1%positive := {| value := {| kind := PosInf; element := 0 |};
                              below := None; next := None |} ]}))) |}.

(** * Specification

    The grid a state stands for, the invariant of the structure, and the
    predicates in which the members are specified. *)

(** A level as a list: the address and the key of each node, left to right;
    a grid: the address of each level header and its level, top to bottom. *)
Abbreviation row E := (list (loc * SkipListKey E)) (only parsing).
Abbreviation grid E := (list (loc * list (loc * SkipListKey E))) (only parsing).

Section Verification.
Context {E : Type} `{ET : ElementType E}.

Section Specification.
Implicit Types (nd : gmap loc (Node E)) (ln : gmap loc LNode) (r pre post U L : row E).
Implicit Types (rs : list (row E)) (g : grid E) (s z : SkipListSet E) (hs : list (loc * Z)).

(** ** The grid a state represents *)

(** [r] is what following [next] from [p] to null reads. *)
Fixpoint chain (nd : gmap loc (Node E)) (p : option loc) (r : row E) : Prop :=
  match r with
  | [] => p = None
  | (a, k) :: r' =>
      p = Some a ∧ ∃ n, nd !! a = Some n ∧ value n = k ∧ chain nd (next n) r'
  end.

(** [g] is what following [below] from the header [p] to null reads, the
    headers numbered downwards to 0. *)
Fixpoint lchain (ln : gmap loc LNode) (nd : gmap loc (Node E)) (p : option loc)
    (g : grid E) : Prop :=
  match g with
  | [] => p = None
  | (a, r) :: g' =>
      p = Some a ∧ ∃ l, ln !! a = Some l ∧ lvalue l = Z.of_nat (length g')
        ∧ chain nd (lnext l) r ∧ lchain ln nd (lbelow l) g'
  end.

(** [operator<] on the keys of two nodes. *)
Definition key_lt (x y : loc * SkipListKey E) : Prop := key_ltb x.2 y.2 = true.

(** I3: keys strictly increase from left to right. *)
Definition ascending (r : row E) : Prop := StronglySorted key_lt r.

(** A level starts at a -INF sentinel and ends at a +INF sentinel. *)
Definition bracketed (r : row E) : Prop :=
  (∃ a k, r !! 0%nat = Some (a, k) ∧ kind k = NegInf)
  ∧ (∃ b k, last r = Some (b, k) ∧ kind k = PosInf).

(** I2 between a level and the one beneath: every node points down to a
    node of the level beneath that holds an equal key. *)
Definition tower (nd : gmap loc (Node E)) (upper lower : row E) : Prop :=
  ∀ a k, (a, k) ∈ upper →
    ∃ n b k', nd !! a = Some n ∧ below n = Some b ∧ (b, k') ∈ lower ∧ key_eqb k k' = true.

(** The nodes of level 0 point down to nothing. *)
Definition grounded (nd : gmap loc (Node E)) (r : row E) : Prop :=
  ∀ a k, (a, k) ∈ r → ∃ n, nd !! a = Some n ∧ below n = None.

(** I2 on a grid: each level towers onto the one beneath, and the last one
    is grounded. *)
Fixpoint towers (nd : gmap loc (Node E)) (rs : list (row E)) : Prop :=
  match rs with
  | [] => True
  | r :: rs' =>
      match rs' with
      | [] => grounded nd r
      | r' :: _ => tower nd r r'
      end ∧ towers nd rs'
  end.

(** The pointer to the first node of a level. *)
Definition first_addr (r : row E) : option loc :=
  match r with
  | [] => None
  | (a, _) :: _ => Some a
  end.

(** The pointer to the last node of the top level: what [tail] holds. *)
Definition top_last (g : grid E) : option loc :=
  match g with
  | [] => None
  | (_, r) :: _ => fst <$> last r
  end.

(** The invariant of the structure, on the members it is about: [hd]
    leads to the grid [g], every level is bracketed by the sentinels and
    sorted, the levels tower, no node occurs twice, [tl] is the last node
    of the top level, and the number of the top level fits an [int]. *)
Record wf_at (hd tl : option loc) (ln : gmap loc LNode) (nd : gmap loc (Node E))
    (g : grid E) : Prop := {
  wf_shape : lchain ln nd hd g;
  wf_rows : Forall (λ r, bracketed r ∧ ascending r) g.*2;
  wf_towers : towers nd g.*2;
  wf_nodup : NoDup (mjoin g.*2).*1;
  wf_tail : tl = top_last g;
  wf_levels : Z.of_nat (length g) ≤ INT_MAX + 1
}.

(** The set [s] holds the grid [g]. *)
Definition wf (s : SkipListSet E) (g : grid E) : Prop :=
  wf_at (head s) (tail s) (lnodes s) (nodes s) g.

(** ** What [search] returns *)

(** The key [search] makes of its argument. *)
Definition nkey (e : E) : SkipListKey E := {| kind := Normal; element := e |}.

(** A key equal to [k] is on the level. *)
Definition found_in (k : SkipListKey E) (r : row E) : Prop :=
  ∃ a k', (a, k') ∈ r ∧ key_eqb k' k = true.

(** [c] is the rightmost node of the level with a key below [k], and the
    key to its right is above [k]. *)
Definition pred_in (k : SkipListKey E) (r : row E) (c : loc) : Prop :=
  ∃ pre kc d kd post,
    r = pre ++ (c, kc) :: (d, kd) :: post
    ∧ key_ltb kc k = true ∧ key_ltb k kd = true.

(** The levels from the current one down, as [search] needs them. *)
Definition rows_ok nd rs : Prop :=
  Forall (λ r, chain nd (first_addr r) r ∧ bracketed r ∧ ascending r) rs ∧ towers nd rs.

(** The result of [search] on the levels [rs], the last of which is level
    0: null when the key is on a level not below [minLevel], and otherwise
    the node of level [minLevel] after which the key belongs. *)
Definition search_post (k : SkipListKey E) (minLevel : Z) rs
    (res : option loc) : Prop :=
  match res with
  | None => ∃ i r, rs !! i = Some r ∧ Z.of_nat i ≤ Z.of_nat (length rs) - 1 - minLevel
                   ∧ found_in k r
  | Some c => ∃ r, rs !! Z.to_nat (Z.of_nat (length rs) - 1 - minLevel) = Some r
                   ∧ pred_in k r c
  end.

(** The number of nodes of the levels [rs]. *)
Definition weight rs : nat := length (mjoin rs).

(** ** Triples for the mutating members *)

(** From a state and a budget that satisfy [P], [m] either returns with
    [Q], or lets [std::bad_alloc] escape in a state that satisfies [X], or
    stops on a signed overflow; it dereferences no null or dangling pointer
    and its loops end. *)
Definition hoarex {A} (P : SkipListSet E → nat → Prop) (m : M A)
    (Q : A → SkipListSet E → nat → Prop) (X : SkipListSet E → Prop) : Prop :=
  ∀ s b, P s b →
    match m s b with
    | Ok a s' b' => Q a s' b'
    | Throw s' _ => X s'
    | Abort f => f = SignedOverflow
    end.

(** The state is [s0] and fewer than [n] allocations can still succeed. *)
Definition at_ (s0 : SkipListSet E) (n : nat) : SkipListSet E → nat → Prop :=
  λ s b, s = s0 ∧ (b < n)%nat.

(** ** [add] *)

(** The sentinel keys that [createNewLevel] makes. *)
Definition neg_key : SkipListKey E := {| kind := NegInf; element := elt_default |}.
Definition pos_key : SkipListKey E := {| kind := PosInf; element := elt_default |}.

(** The bottom level, and what it means for an element to be in the set. *)
Definition level0 (g : grid E) : row E := default [] (snd <$> last g).

Definition member (e : E) (g : grid E) : Prop := found_in (nkey e) (level0 g).

(** [r'] is [r] with a node for [e] spliced in at its sorted place. *)
Definition spliced (e : E) (r r' : row E) : Prop :=
  ∃ pre c kc a d kd post,
    r = pre ++ (c, kc) :: (d, kd) :: post
    ∧ r' = pre ++ (c, kc) :: (a, nkey e) :: (d, kd) :: post
    ∧ key_ltb kc (nkey e) = true ∧ key_ltb (nkey e) kd = true.

(** A program that adds the elements of a list, first to last. *)
Fixpoint add_all (es : list E) : M unit :=
  match es with
  | [] => mret tt
  | e :: es' => add e;; add_all es'
  end.

(** ** The passes of a copy *)

(** A chain of level headers that have no nodes yet, with their numbers. *)
Fixpoint hskel ln (p : option loc) hs : Prop :=
  match hs with
  | [] => p = None
  | (a, v) :: hs' =>
      p = Some a ∧ ∃ l, ln !! a = Some l ∧ lvalue l = v
        ∧ lnext l = None ∧ hskel ln (lbelow l) hs'
  end.

(** The pointer to the first header of a chain. *)
Definition first_hdr hs : option loc :=
  match hs with
  | [] => None
  | (a, _) :: _ => Some a
  end.

(** The numbers of the levels of a grid, top to bottom. *)
Fixpoint lvals (g : grid E) : list Z :=
  match g with
  | [] => []
  | _ :: g' => Z.of_nat (length g') :: lvals g'
  end.

(** What [linkLevels_loop] has built when it stops, by a return or by an
    exception: the headers [hs], linked behind [current]. *)
Definition linked_levels z (current : option loc) z' hs : Prop :=
  NoDup hs.*1 ∧ (∀ a v, (a, v) ∈ hs → lnodes z !! a = None)
  ∧ hskel (lnodes z') (first_hdr hs) hs
  ∧ match current with
    | Some c => ∃ lc, lnodes z !! c = Some lc ∧ head z' = head z
        ∧ lnodes z' !! c
          = Some {| lvalue := lvalue lc; lbelow := first_hdr hs; lnext := lnext lc |}
    | None => head z' = first_hdr hs
    end
  ∧ (∀ a, is_Some (lnodes z !! a) → Some a ≠ current → lnodes z' !! a = lnodes z !! a)
  ∧ nodes z' = nodes z.

(** What [linkNext_row] has built when it stops, by a return or by an
    exception: the nodes [r'], linked behind [curr] (or behind the header
    [ch] when there is no [curr] yet). *)
Definition linked_row z (ch : loc) (curr : option loc) z' r' : Prop :=
  NoDup r'.*1 ∧ (∀ a k, (a, k) ∈ r' → nodes z !! a = None)
  ∧ chain (nodes z') (first_addr r') r' ∧ grounded (nodes z') r'
  ∧ match curr with
    | Some cu => ∃ ncu, nodes z !! cu = Some ncu ∧ lnodes z' = lnodes z
        ∧ nodes z' !! cu
          = Some {| value := value ncu; below := below ncu; next := first_addr r' |}
    | None => ∃ lch, lnodes z !! ch = Some lch
        ∧ lnodes z'
          = <[ch := {| lvalue := lvalue lch; lbelow := lbelow lch;
                       lnext := first_addr r' |}]> (lnodes z)
    end
  ∧ (∀ a, is_Some (nodes z !! a) → Some a ≠ curr → nodes z' !! a = nodes z !! a)
  ∧ head z' = head z.

(** A chain of level headers with their numbers [vs] and their nodes. *)
Fixpoint vchain ln nd (p : option loc) (g : grid E) (vs : list Z) : Prop :=
  match g, vs with
  | [], [] => p = None
  | (a, r) :: g', v :: vs' =>
      p = Some a ∧ ∃ l, ln !! a = Some l ∧ lvalue l = v
        ∧ chain nd (lnext l) r ∧ vchain ln nd (lbelow l) g' vs'
  | _, _ => False
  end.

(** Headers without nodes are a grid of empty levels. *)
Definition empty_levels hs : grid E := (λ h : loc * Z, (h.1, [])) <$> hs.

(** What [linkNext_loop] has built when it stops: the levels [g'] under the
    headers [hs]. *)
Definition linked_grid z hs z' (g' : grid E) : Prop :=
  g'.*1 = hs.*1
  ∧ vchain (lnodes z') (nodes z') (first_hdr hs) g' hs.*2
  ∧ Forall (grounded (nodes z')) g'.*2
  ∧ NoDup (mjoin g'.*2).*1
  ∧ (∀ a k, (a, k) ∈ mjoin g'.*2 → nodes z !! a = None)
  ∧ (∀ a, is_Some (nodes z !! a) → nodes z' !! a = nodes z !! a)
  ∧ (∀ a, a ∉ hs.*1 → lnodes z' !! a = lnodes z !! a)
  ∧ head z' = head z.

(** What the walk of [linkBelow] relies on: every key of the upper level
    has an equal key on the lower one, and no key of the lower level lies
    beyond all keys of the upper one. *)
Definition matching U L : Prop :=
  (∀ a k, (a, k) ∈ U → ∃ b k', (b, k') ∈ L ∧ key_eqb k k' = true)
  ∧ (∀ b k', (b, k') ∈ L →
       ∃ a k, (a, k) ∈ U ∧ (key_ltb k' k = true ∨ key_eqb k k' = true)).

(** The nodes keep their keys and their links to the right. *)
Definition links_same nd nd' : Prop :=
  ∀ a n, nd !! a = Some n → ∃ n', nd' !! a = Some n' ∧ value n' = value n ∧ next n' = next n.

(** Every level is sorted and matches the one beneath. *)
Fixpoint matchings rs : Prop :=
  match rs with
  | [] => True
  | r :: rs' =>
      ascending r
      ∧ match rs' with
        | [] => True
        | r' :: _ => matching r r'
        end
      ∧ matchings rs'
  end.

(** A grid that [deleteSkipList] can take down: a chain of headers, each
    with a null-terminated chain of nodes, nothing occurring twice. *)
Definition partial z : Prop :=
  ∃ g vs, vchain (lnodes z) (nodes z) (head z) g vs
          ∧ NoDup (mjoin g.*2).*1 ∧ NoDup g.*1.

(** What [build] returns: a grid with the keys of the source, level by
    level, and with its towers linked. *)
Definition built (g : grid E) z' (g' : grid E) : Prop :=
  lchain (lnodes z') (nodes z') (head z') g'
  ∧ towers (nodes z') g'.*2
  ∧ NoDup (mjoin g'.*2).*1
  ∧ Forall2 (λ r r', r'.*2 = r.*2) g.*2 g'.*2.

(** Two grids with the same keys, level by level. *)
Definition same_keys (g g' : grid E) : Prop :=
  Forall2 (λ r r', r'.*2 = r.*2) g.*2 g'.*2.

(** ** The observers on a grid *)

(** The level numbered [level] of a grid. *)
Fixpoint find_level (g : grid E) (level : Z) : option (loc * row E) :=
  match g with
  | [] => None
  | (a, r) :: g' =>
      if Z.of_nat (length g') =? level then Some (a, r) else find_level g' level
  end.

(** [n] increments of an [int] counter. *)
Fixpoint count_from (n : nat) (counter : Z) : result Z :=
  match n with
  | O => Val counter
  | S n' => let* c := int_incr counter in count_from n' c
  end.

(** What [elementsOnLevel] returns on a grid. *)
Definition elements_on (g : grid E) (level : Z) : result Z :=
  match find_level g level with
  | None => Val 0
  | Some (_, r) =>
      let* counter := count_from (length r) 0 in
      if counter - 2 <? INT_MIN then Crash SignedOverflow
      else Val (to_unsigned (counter - 2))
  end.

(** What [isElementOnLevel] returns on a grid. *)
Definition is_on (e : E) (g : grid E) (level : Z) : bool :=
  match find_level g level with
  | None => false
  | Some (_, r) => existsb (key_eqb (nkey e)) r.*2
  end.

(** ** The states of a program *)

(** The set the constructor makes: one level, its two sentinels. *)
Definition fresh_set (t : SkipListLevelTester E) (temp : E) : SkipListSet E :=
  {| levelTester := t; elements := 0;
     head := Some 1%positive; tail := Some 1%positive;
     lnodes := {[ 1%positive := {| lvalue := 0; lbelow := None; lnext := Some 2%positive |} ]};
     nodes :=
       <[ 2%positive := {| value := {| kind := NegInf; element := temp |};
                           below := None; next := Some 1%positive |} ]>
       {[ 1%positive := {| value := {| kind := PosInf; element := temp |};
                           below := None; next := None |} ]} |}.

(** The grid it holds. *)
Definition empty_grid (temp : E) : grid E :=
  [(1%positive, [(2%positive, {| kind := NegInf; element := temp |});
                 (1%positive, {| kind := PosInf; element := temp |})])].

(** The states a program gets to with the public members as long as no
    [add] has let [std::bad_alloc] through: the constructor, then [add]
    when it returns, the copies and the moves (for a move, both the object
    moved to and the one moved from), and the state a failed copy
    assignment leaves.  The state a failed [add] leaves is not among them;
    [attainable], below, has it too. *)
Inductive reachable : SkipListSet E → Prop :=
| reach_construct t temp b s b' :
    construct t temp b = Ok tt s b' → reachable s
| reach_add e s b s' b' :
    reachable s → add e s b = Ok tt s' b' → reachable s'
| reach_copy_construct cl s b c b' :
    reachable s → copy_construct cl s b = Ok tt c b' → reachable c
| reach_copy_assign cl s t b t' b' :
    reachable s → reachable t → copy_assign cl s t b = Ok tt t' b' → reachable t'
| reach_copy_assign_throw cl s t b t' b' :
    reachable s → reachable t → copy_assign cl s t b = Throw t' b' → reachable t'
| reach_move_construct cl s :
    reachable s → reachable (move_construct cl s).1
| reach_moved_from cl s :
    reachable s → reachable (move_construct cl s).2
| reach_move_assign cl t s :
    reachable t → reachable s → reachable (move_assign cl t s).1
| reach_move_assigned_from cl t s :
    reachable t → reachable s → reachable (move_assign cl t s).2.

(** Every state the public members can leave an object in: the states of
    [reachable], and also the state in which [add] leaves the set when it
    lets [std::bad_alloc] through, which the caller goes on to use. *)
Inductive attainable : SkipListSet E → Prop :=
| att_construct t temp b s b' :
    construct t temp b = Ok tt s b' → attainable s
| att_add e s b s' b' :
    attainable s → add e s b = Ok tt s' b' → attainable s'
| att_add_throw e s b s' b' :
    attainable s → add e s b = Throw s' b' → attainable s'
| att_copy_construct cl s b c b' :
    attainable s → copy_construct cl s b = Ok tt c b' → attainable c
| att_copy_assign cl s t b t' b' :
    attainable s → attainable t → copy_assign cl s t b = Ok tt t' b' → attainable t'
| att_copy_assign_throw cl s t b t' b' :
    attainable s → attainable t → copy_assign cl s t b = Throw t' b' → attainable t'
| att_move_construct cl s :
    attainable s → attainable (move_construct cl s).1
| att_moved_from cl s :
    attainable s → attainable (move_construct cl s).2
| att_move_assign cl t s :
    attainable t → attainable s → attainable (move_assign cl t s).1
| att_move_assigned_from cl t s :
    attainable t → attainable s → attainable (move_assign cl t s).2.

(** ** Resources *)

(** [m] never stops on a signed overflow. *)
Definition no_overflow {A} (m : M (E:=E) A) : Prop :=
  ∀ s b, m s b ≠ Abort SignedOverflow.

(** [m] asks for at most [n] allocations: with [n] and [k] more available
    it does not throw, and leaves [k] at least. *)
Definition within_budget {A} (n : nat) (m : M (E:=E) A) : Prop :=
  ∀ s k, match m s (n + k)%nat with
         | Ok _ _ b' => (k ≤ b')%nat
         | Throw _ _ => False
         | Abort _ => True
         end.

(** The allocations a copy of [s] asks for: one per level, two per node. *)
Definition copy_cost (g : grid E) : nat := length g + 2 * weight g.*2.

(** ** Predicates of the properties *)

(** Two sets that the observers cannot tell apart. *)
Definition same_answers (s c : SkipListSet E) : Prop :=
  size_ c = size_ s
  ∧ levelCount c = levelCount s
  ∧ (∀ level, elementsOnLevel level c = elementsOnLevel level s)
  ∧ (∀ e level, isElementOnLevel e level c = isElementOnLevel e level s)
  ∧ (∀ e, contains e c = contains e s).

(** The outcome the specification asks of [search] for an element that is
    present: the node that holds it. *)
Definition yields_matching_node (s : SkipListSet E) (e : E) (minLevel : Z) : Prop :=
  ∃ a n, search e minLevel s = Val (Some a) ∧ nodes s !! a = Some n
         ∧ key_eqb (value n) (nkey e) = true.

(** What an empty set answers. *)
Definition as_empty (s : SkipListSet E) : Prop :=
  size_ s = 0 ∧ ∀ e, contains e s = Val false.

(** ** What [add] does to the levels *)

(** A level after [add(e)] has raised [e] onto it: the same header, and
    a node for [e] spliced in at its sorted place. *)
Definition level_spliced (e : E) (x x' : loc * row E) : Prop :=
  x'.1 = x.1 ∧ spliced e x.2 x'.2.

(** A level that [createNewLevel] has made for [e]: the two sentinels
    and [e] between them. *)
Definition level_of (e : E) (x : loc * row E) : Prop :=
  x.2.*2 = [neg_key; nkey e; pos_key].

(** The grid [g'] is [g] with [e] raised onto the levels 0 to [k]: the
    levels [gb] of [g] that it reaches have it spliced in, the levels [ga]
    above them are as they were, and the levels [tops] were made for it,
    which happens only when it goes past the top of [g]. *)
Definition raised (e : E) (k : nat) (g g' : grid E) : Prop :=
  ∃ tops ga gb gb',
    g = ga ++ gb ∧ g' = tops ++ ga ++ gb'
    ∧ Forall2 (level_spliced e) gb gb'
    ∧ Forall (level_of e) tops
    ∧ (tops ≠ [] → ga = [])
    ∧ Forall (λ x, ¬ found_in (nkey e) x.2) ga
    ∧ S k = (length tops + length gb)%nat.

(** The tester after it was asked about [e] another [n] times. *)
Definition ask_again (t : SkipListLevelTester E) (e : E) (n : nat)
  : SkipListLevelTester E :=
  {| policy := policy t; asked := asked t ++ replicate n e |}.

(** The tester answers true the next [k] times it is asked about [e], and
    false the time after. *)
Definition promotes (t : SkipListLevelTester E) (e : E) (k : nat) : Prop :=
  (∀ i, (i < k)%nat → policy t (asked t ++ replicate i e) e = true)
  ∧ policy t (asked t ++ replicate k e) e = false.

(** The number of elements on the level numbered [level]: its nodes but
    for the two sentinels, and none when there is no such level. *)
Definition level_elements (g : grid E) (level : Z) : nat :=
  match find_level g level with
  | None => 0
  | Some (_, r) => length r - 2
  end.

(** ** What a member leaves alone *)

(** [m] hands on the member [f] of the object as it found it, when it
    returns and when it throws. *)
Definition kept {A X} (f : SkipListSet E → X) (m : M (E:=E) A) : Prop :=
  ∀ s b, match m s b with
         | Ok _ s' _ | Throw s' _ => f s' = f s
         | Abort _ => True
         end.

(** ** What a failed [add] keeps of the invariant *)

(** A level that starts at a -INF sentinel. *)
Definition opened (r : row E) : Prop :=
  ∃ a k, r !! 0%nat = Some (a, k) ∧ kind k = NegInf.

(** I2 between a level and the one beneath, as far as every [add] keeps
    it: every node points down to a node of the set; a node that is not a
    +INF sentinel, to the node of the level beneath with an equal key; a
    +INF sentinel, to the +INF sentinel of the level beneath when that
    level has got one. *)
Definition stower (nd : gmap loc (Node E)) (upper lower : row E) : Prop :=
  ∀ a k, (a, k) ∈ upper →
    ∃ n b, nd !! a = Some n ∧ below n = Some b ∧ is_Some (nd !! b)
      ∧ (kind k ≠ PosInf → ∃ k', (b, k') ∈ lower ∧ key_eqb k k' = true)
      ∧ (kind k = PosInf → bracketed lower → ∃ k', last lower = Some (b, k')).

Fixpoint stowers (nd : gmap loc (Node E)) (rs : list (row E)) : Prop :=
  match rs with
  | [] => True
  | r :: rs' =>
      match rs' with
      | [] => grounded nd r
      | r' :: _ => stower nd r r'
      end ∧ stowers nd rs'
  end.

(** What [tail] holds: a node of the set, and the last node of the top
    level when that level has its +INF sentinel. *)
Definition stail (tl : option loc) (nd : gmap loc (Node E)) (g : grid E) : Prop :=
  match g with
  | [] => tl = None
  | (_, r) :: _ =>
      ∃ t, tl = Some t ∧ is_Some (nd !! t) ∧ (bracketed r → fst <$> last r = Some t)
  end.

(** The invariant that every public member keeps, whether it returns or
    lets [std::bad_alloc] through: [hd] leads to the grid [g]; every level
    is sorted and, unless it has no nodes, starts at a -INF sentinel; only
    the top level can be without nodes; level 0 has both sentinels; the
    levels tower as [stower] has it; no node occurs twice. *)
Record safe_at (hd tl : option loc) (ln : gmap loc LNode) (nd : gmap loc (Node E))
    (g : grid E) : Prop := {
  safe_shape : lchain ln nd hd g;
  safe_rows : Forall (λ r, ascending r ∧ (r = [] ∨ opened r)) g.*2;
  safe_under : Forall (λ r, r ≠ []) (drop 1 g.*2);
  safe_bottom : bracketed (level0 g) ∨ g = [];
  safe_towers : stowers nd g.*2;
  safe_nodup : NoDup (mjoin g.*2).*1;
  safe_tail : stail tl nd g;
  safe_levels : Z.of_nat (length g) ≤ INT_MAX + 1
}.

Definition safe (s : SkipListSet E) (g : grid E) : Prop :=
  safe_at (head s) (tail s) (lnodes s) (nodes s) g.

(** From a state and a budget that satisfy [P], [m] returns with [Q], or
    lets [std::bad_alloc] escape in a state that satisfies [X], or runs
    into undefined behaviour, after which there is no state to speak of. *)
Definition keeps {A} (P : SkipListSet E → nat → Prop) (m : M A)
    (Q : A → SkipListSet E → nat → Prop) (X : SkipListSet E → Prop) : Prop :=
  ∀ s b, P s b →
    match m s b with
    | Ok a s' b' => Q a s' b'
    | Throw s' _ => X s'
    | Abort _ => True
    end.

(** The state is [s0]. *)
Definition is_ (s0 : SkipListSet E) : SkipListSet E → nat → Prop := λ s _, s = s0.
(** The levels from the current one down, as [search] needs them in any
    state. *)
Definition srows_ok nd rs : Prop :=
  Forall (λ r, chain nd (first_addr r) r ∧ ascending r) rs ∧ stowers nd rs.

(** What [search] returns in any state, when it returns a node: the node
    of level [minLevel] after which the key belongs. *)
Definition search_some (k : SkipListKey E) (minLevel : Z) rs (res : option loc) : Prop :=
  ∀ c, res = Some c →
    ∃ r, rs !! Z.to_nat (Z.of_nat (length rs) - 1 - minLevel) = Some r ∧ pred_in k r c.
(** The keys of the levels, as [linkBelow] meets them in any state: every
    level sorted, and every key but +INF found again on the level
    beneath. *)
Fixpoint skeys (rs : list (row E)) : Prop :=
  match rs with
  | [] => True
  | r :: rs' =>
      ascending r ∧ (r = [] ∨ opened r)
      ∧ match rs' with
        | [] => True
        | r' :: _ =>
            ∀ a k, (a, k) ∈ r → kind k ≠ PosInf →
              ∃ b k', (b, k') ∈ r' ∧ key_eqb k k' = true
        end
      ∧ skeys rs'
  end.
(** Objects of the heap that are no part of a grid: the headers [lf] and
    the nodes [nf] are in the stores [ln] and [nd] as they are in [lf] and
    [nf], and none of them is a header or a node of [g]. *)
Definition apart (lf : gmap loc LNode) (nf : gmap loc (Node E))
    (ln : gmap loc LNode) (nd : gmap loc (Node E)) (g : grid E) : Prop :=
  (∀ a x, lf !! a = Some x → ln !! a = Some x ∧ a ∉ g.*1)
  ∧ (∀ a x, nf !! a = Some x → nd !! a = Some x ∧ a ∉ (mjoin g.*2).*1).

(** The invariant of [safe], next to objects that are no part of the set. *)
Definition safe_apart lf nf (s : SkipListSet E) (g : grid E) : Prop :=
  safe s g ∧ apart lf nf (lnodes s) (nodes s) g.

(** ** A copy in the heap of its source

    [copy_construct] gives the new object stores of its own.  In the
    program the new object is built in the heap that holds the source (and
    whatever else): [copy_construct_in] is the same constructor, started on
    stores [ln] and [nd] that hold those objects already. *)
Definition raw_in (ln : gmap loc LNode) (nd : gmap loc (Node E))
    (t : SkipListLevelTester E) : SkipListSet E :=
  {| levelTester := t; elements := 0; head := None; tail := None;
     lnodes := ln; nodes := nd |}.

Definition copy_construct_in (ln : gmap loc LNode) (nd : gmap loc (Node E))
    (cl : SkipListLevelTester E) (s : SkipListSet E) (b : nat) : outcome (E:=E) unit :=
  catch_rethrow
    (build s;;
     updateTail;;
     update (set_elements (elements s));;
     let! t := clone cl in
     update (set_levelTester t))
    (let! hd := lift (λ z, match head z with
                           | None => Crash Uninitialised
                           | Some a => Val (head z)
                           end) in
     deleteSkipList hd)
    (raw_in ln nd cl) b.

(** The object [s] as it is once the heap has become that of [h]: its own
    members, and the stores of [h]. *)
Definition in_heap_of (h s : SkipListSet E) : SkipListSet E :=
  set_nodes (nodes h) (set_lnodes (lnodes h) s).

(** The copy assignment with the target and the source in one heap, the
    stores of [this]: [temp] is built there, the old grid of the target is
    deleted there, and [temp] becomes the grid of the target.  When the
    three passes throw, the handler has deleted what they had built. *)
Definition copy_assign_in (cl : SkipListLevelTester E) (s : SkipListSet E) : M unit :=
  λ this b,
  match catch_rethrow (build s)
                      (let! temp := lift (λ z, Val (head z)) in deleteSkipList temp)
                      (raw_in (lnodes this) (nodes this) cl) b with
  | Ok _ z b' =>
      (* deleteSkipList(head); head = temp; *)
      match deleteSkipList (head this) (in_heap_of z this) b' with
      | Ok _ this1 b'' =>
          (updateTail;;
           update (set_elements (elements s));;
           let! t := clone cl in
           update (set_levelTester t))
            (set_head (head z) this1) b''
      | Throw this1 b'' => Throw this1 b''
      | Abort f => Abort f
      end
  | Throw z b' => Throw (in_heap_of z this) b'
  | Abort f => Abort f
  end.

(** The grids [g] and [g'] have no header and no node in common. *)
Definition disjoint_grids (g g' : grid E) : Prop :=
  (∀ a, a ∈ g.*1 → a ∉ g'.*1)
  ∧ (∀ a, a ∈ (mjoin g.*2).*1 → a ∉ (mjoin g'.*2).*1).

(** The headers and the nodes of [g] are in the heap of [h] what they are
    in the heap of [s]. *)
Definition untouched (g : grid E) (s h : SkipListSet E) : Prop :=
  (∀ a, a ∈ g.*1 → lnodes h !! a = lnodes s !! a)
  ∧ (∀ a, a ∈ (mjoin g.*2).*1 → nodes h !! a = nodes s !! a).

End Specification.

(** No promise about the state an exception leaves. *)
Abbreviation hoare P m Q := (hoarex P m Q (λ _, True)).

(** * Verification *)

(** ** The order on keys *)

Section Keys.
Implicit Types k x y z : SkipListKey E.

Lemma elt_eqb_refl (e : E) : elt_eqb e e = true.
Proof. by apply elt_eqb_eq. Qed.

Lemma elt_ltb_asym (a b : E) : elt_ltb a b = true → elt_ltb b a = false.
Proof.
  intros Hab. destruct (elt_ltb b a) eqn:Hba; [|done].
  by rewrite <- (elt_ltb_irrefl a), (elt_ltb_trans a b a).
Qed.

Ltac key_cases :=
  unfold key_eqb, key_ltb;
  repeat match goal with k : SkipListKey _ |- _ => destruct k as [[] ?] end;
  simpl; repeat case_bool_decide; simpl; try done.

Lemma key_eqb_refl k : key_eqb k k = true.
Proof. key_cases. apply elt_eqb_refl. Qed.

Lemma key_eqb_sym x y : key_eqb x y = key_eqb y x.
Proof.
  key_cases. apply eq_true_iff_eq. rewrite !elt_eqb_eq. naive_solver.
Qed.

Lemma key_eqb_trans x y z : key_eqb x y = true → key_eqb y z = true → key_eqb x z = true.
Proof. key_cases. rewrite !elt_eqb_eq. congruence. Qed.

Lemma key_eqb_kind x y : key_eqb x y = true → kind x = kind y.
Proof. key_cases. Qed.

Lemma key_eqb_normal (e : E) k :
  key_eqb k {| kind := Normal; element := e |} = true ↔ k = {| kind := Normal; element := e |}.
Proof.
  destruct k as [[] e']; key_cases; rewrite ?elt_eqb_eq; naive_solver.
Qed.

Lemma key_ltb_irrefl k : key_ltb k k = false.
Proof. key_cases. apply elt_ltb_irrefl. Qed.

Lemma key_ltb_trans x y z : key_ltb x y = true → key_ltb y z = true → key_ltb x z = true.
Proof. key_cases. apply elt_ltb_trans. Qed.

Lemma key_ltb_eqb_l x y z : key_eqb x y = true → key_ltb x z = key_ltb y z.
Proof. key_cases. rewrite elt_eqb_eq. by intros ->. Qed.

Lemma key_ltb_eqb_r x y z : key_eqb x y = true → key_ltb z x = key_ltb z y.
Proof. key_cases. rewrite elt_eqb_eq. by intros ->. Qed.

Lemma key_ltb_not_eqb x y : key_ltb x y = true → key_eqb x y = false.
Proof.
  key_cases. intros Hlt. destruct (elt_eqb _ _) eqn:Heq; [|done].
  apply elt_eqb_eq in Heq as ->. by rewrite elt_ltb_irrefl in Hlt.
Qed.

Lemma key_ltb_asym x y : key_ltb x y = true → key_ltb y x = false.
Proof. key_cases. apply elt_ltb_asym. Qed.

(** Trichotomy. *)
Lemma key_ltb_total x y : key_eqb x y = false → key_ltb y x = false → key_ltb x y = true.
Proof.
  destruct x as [[] ex], y as [[] ey]; key_cases. intros Hne Hlt.
  destruct (elt_ltb_total ex ey) as [?|[->|?]]; [done| |congruence].
  by rewrite elt_eqb_refl in Hne.
Qed.

End Keys.

(** ** The grid a state represents *)

Section Representation.

(** *** Chains *)

Lemma chain_split nd p pre a k post :
  chain nd p (pre ++ (a, k) :: post) →
  ∃ n, nd !! a = Some n ∧ value n = k ∧ chain nd (next n) post.
Proof.
  revert p. induction pre as [|[a' k'] pre IH]; simpl; intros p.
  - intros (_ & n & ? & ? & ?). eauto.
  - intros (_ & n & _ & _ & Hc). eauto.
Qed.

Lemma chain_lookup nd p r a k :
  chain nd p r → (a, k) ∈ r → ∃ n, nd !! a = Some n ∧ value n = k.
Proof.
  intros Hc (pre & post & ->)%list_elem_of_split.
  apply chain_split in Hc as (n & ? & ? & _). eauto.
Qed.

Lemma chain_next nd p pre a k post :
  chain nd p (pre ++ (a, k) :: post) →
  ∃ n, nd !! a = Some n ∧ value n = k ∧ next n = first_addr post.
Proof.
  intros (n & ? & ? & Hc)%chain_split. exists n. split_and!; [done..|].
  destruct post as [|[a' k'] post]; simpl in *; [done|]. by destruct Hc.
Qed.

Lemma chain_frame nd nd' p r :
  (∀ a k, (a, k) ∈ r → nd' !! a = nd !! a) → chain nd p r → chain nd' p r.
Proof.
  revert p. induction r as [|[a k] r IH]; simpl; intros p Hsame; [done|].
  intros (-> & n & Hn & Hk & Hc). split; [done|]. exists n. split_and!; [|done|].
  - rewrite (Hsame a (value n)); [done|]. subst k. left.
  - apply IH; [|done]. intros a' k' ?. apply (Hsame a' k'). by right.
Qed.

Lemma chain_head nd p r : chain nd p r → p = first_addr r.
Proof. destruct r as [|[a k] r]; simpl; [done|]. by intros [-> _]. Qed.

Lemma chain_inj nd p r1 r2 : chain nd p r1 → chain nd p r2 → r1 = r2.
Proof.
  revert p r2. induction r1 as [|[a k] r1 IH]; intros p [|[a' k'] r2]; simpl.
  - done.
  - intros -> [? _]. done.
  - intros [-> _] ?. done.
  - intros (-> & n & Hn & <- & Hc) (? & n' & Hn' & <- & Hc'). simplify_eq.
    f_equal. by eapply IH.
Qed.

Lemma lchain_inj ln nd p g1 g2 : lchain ln nd p g1 → lchain ln nd p g2 → g1 = g2.
Proof.
  revert p g2. induction g1 as [|[a r] g1 IH]; intros p [|[a' r'] g2]; simpl.
  - done.
  - intros -> [? _]. done.
  - intros [-> _] ?. done.
  - intros (-> & l & Hl & _ & Hc & Hg) (? & l' & Hl' & _ & Hc' & Hg'). simplify_eq.
    f_equal; [f_equal; by eapply chain_inj|by eapply IH].
Qed.

Lemma tower_frame nd nd' upper lower :
  (∀ a k, (a, k) ∈ upper → nd' !! a = nd !! a) → tower nd upper lower → tower nd' upper lower.
Proof.
  intros Hsame Ht a k Hin. destruct (Ht a k Hin) as (n & b & k' & ? & ?).
  exists n, b, k'. by rewrite (Hsame a k).
Qed.

Lemma grounded_frame nd nd' r :
  (∀ a k, (a, k) ∈ r → nd' !! a = nd !! a) → grounded nd r → grounded nd' r.
Proof.
  intros Hsame Ht a k Hin. destruct (Ht a k Hin) as (n & ? & ?).
  exists n. by rewrite (Hsame a k).
Qed.

Lemma tower_mono nd upper lower lower' :
  lower ⊆ lower' → tower nd upper lower → tower nd upper lower'.
Proof.
  intros Hsub Ht a k Hin. destruct (Ht a k Hin) as (n & b & k' & ? & ? & ? & ?).
  exists n, b, k'. split_and!; [done..| |done]. by apply Hsub.
Qed.

Lemma towers_frame nd nd' rs :
  (∀ a k, (a, k) ∈ mjoin rs → nd' !! a = nd !! a) → towers nd rs → towers nd' rs.
Proof.
  induction rs as [|r rs IH]; simpl; [done|]. intros Hsame [H1 H2]. split.
  - destruct rs.
    + eapply grounded_frame; [|done]. intros a k ?. apply (Hsame a k). set_solver.
    + eapply tower_frame; [|done]. intros a k ?. apply (Hsame a k). set_solver.
  - apply IH; [|done]. intros a k ?. apply (Hsame a k). set_solver.
Qed.

Lemma lchain_frame ln ln' nd nd' p g :
  (∀ a r, (a, r) ∈ g → ln' !! a = ln !! a) →
  (∀ a k, (a, k) ∈ mjoin g.*2 → nd' !! a = nd !! a) →
  lchain ln nd p g → lchain ln' nd' p g.
Proof.
  revert p. induction g as [|[a r] g IH]; simpl; intros p Hl Hn; [done|].
  intros (-> & l & ? & ? & Hc & Hg). split; [done|]. exists l. split_and!; [|done|..].
  - rewrite (Hl a r); [done|]. left.
  - eapply chain_frame; [|done]. intros a' k' ?. apply (Hn a' k'). set_solver.
  - apply IH; [| |done].
    + intros a' r' ?. apply (Hl a' r'). by right.
    + intros a' k' ?. apply (Hn a' k'). set_solver.
Qed.

Lemma lchain_rows ln nd p g :
  lchain ln nd p g → Forall (λ r, chain nd (first_addr r) r) g.*2.
Proof.
  revert p. induction g as [|[a r] g IH]; simpl; intros p; [constructor|].
  intros (-> & l & ? & ? & Hc & Hg). constructor; [|by eapply IH].
  simpl. by rewrite <- (chain_head _ _ _ Hc).
Qed.

Lemma lchain_nodes_alloc ln nd p g a k :
  lchain ln nd p g → (a, k) ∈ mjoin g.*2 → is_Some (nd !! a).
Proof.
  intros Hg%lchain_rows (r & Hin & Hr)%list_elem_of_join.
  rewrite Forall_forall in Hg. destruct (chain_lookup _ _ _ _ _ (Hg _ Hr) Hin) as (n & ? & _).
  eauto.
Qed.

Lemma lchain_lnodes_alloc ln nd p g a r :
  lchain ln nd p g → (a, r) ∈ g → is_Some (ln !! a).
Proof.
  revert p. induction g as [|[a' r'] g IH]; simpl; intros p Hg Hin; [by inversion Hin|].
  destruct Hg as (-> & l & ? & ? & Hc & Hg).
  apply elem_of_cons in Hin as [?|Hin]; simplify_eq; eauto.
Qed.

End Representation.

(** ** What [search] returns *)

Section Search.
Implicit Types (nd : gmap loc (Node E)) (r : row E) (rs : list (row E)).

Lemma bracketed_last_kind r pre a k :
  bracketed r → r = pre ++ [(a, k)] → kind k = PosInf.
Proof.
  intros [_ (b & k' & Hl & Hk)] ->. rewrite last_snoc in Hl. by simplify_eq.
Qed.

Lemma nkey_lt_posinf e k : kind k = PosInf → key_ltb (nkey e) k = true.
Proof. unfold key_ltb. simpl. intros ->. done. Qed.

Lemma nkey_lt_neginf e k : kind k = NegInf → key_ltb (nkey e) k = false.
Proof. unfold key_ltb. simpl. intros ->. done. Qed.

Lemma search_loop_spec nd e minLevel fuel : ∀ rs pre a k post,
  rows_ok nd ((pre ++ (a, k) :: post) :: rs) →
  key_ltb (nkey e) k = false →
  0 ≤ minLevel ≤ Z.of_nat (length rs) →
  Z.of_nat (length rs) ≤ INT_MAX →
  (S (length post) + weight rs ≤ fuel)%nat →
  ∃ res, search_loop fuel nd (nkey e) minLevel (Some a) (Z.of_nat (length rs)) = Val res
         ∧ search_post (nkey e) minLevel ((pre ++ (a, k) :: post) :: rs) res.
Proof.
  induction fuel as [|fuel IH]; intros rs pre a k post Hok Hle Hmin Hmax Hfuel; [lia|].
  destruct Hok as [Hrows Htow].
  pose proof (Forall_inv Hrows) as (Hch & Hbr & Hasc). simpl in Hch, Hbr, Hasc.
  destruct (chain_next _ _ _ _ _ _ Hch) as (n & Hn & Hk & Hnext).
  simpl. rewrite Hn. simpl. rewrite Hk.
  destruct (key_eqb k (nkey e)) eqn:Heq.
  { (* the key is met *)
    exists None. split; [done|]. eexists 0%nat, _. split_and!; [done|simpl; lia|].
    exists a, k. split; [|done]. set_solver. }
  assert (Hlt : key_ltb k (nkey e) = true) by by apply key_ltb_total.
  destruct post as [|[d kd] post].
  { (* the current node cannot be the last one *)
    rewrite (nkey_lt_posinf e k) in Hle; [done|].
    by eapply bracketed_last_kind. }
  simpl in Hnext. rewrite Hnext.
  change (pre ++ (a, k) :: (d, kd) :: post) with (pre ++ [(a, k)] ++ (d, kd) :: post) in Hch.
  rewrite app_assoc in Hch.
  destruct (chain_next _ _ _ _ _ _ Hch) as (n' & Hn' & Hk' & _).
  simpl. rewrite Hn'. simpl. rewrite Hk'.
  destruct (key_ltb (nkey e) kd) eqn:Hgt.
  - (* the key to the right is larger *)
    unfold int_decr. destruct (Z.eqb_spec (Z.of_nat (length rs)) INT_MIN) as [Hm|_].
    { unfold INT_MIN in Hm. lia. }
    simpl. destruct (Z.ltb_spec (Z.of_nat (length rs) - 1) minLevel) as [Hstop|Hdown].
    + exists (Some a). split; [done|]. eexists. split.
      * simpl. replace (Z.to_nat _) with 0%nat by lia. done.
      * exists pre, k, d, kd, post. done.
    + destruct rs as [|r' rs]; [simpl in *; lia|].
      simpl in Htow. destruct Htow as [Htw Htow].
      destruct (Htw a k) as (n2 & b & k' & Hn2 & Hb & Hin & Hkk').
      { set_solver. }
      simplify_eq. rewrite Hb.
      apply list_elem_of_split in Hin as (pre' & post' & ->).
      replace (Z.of_nat (length ((pre' ++ (b, k') :: post') :: rs)) - 1)
        with (Z.of_nat (length rs)) by (simpl; lia).
      destruct (IH rs pre' b k' post') as (res & Hres & Hpost).
      * split; [by eapply Forall_inv_tail|done].
      * by rewrite <- (key_ltb_eqb_r _ _ _ Hkk').
      * simpl in *. lia.
      * simpl in *. lia.
      * unfold weight in *. simpl in Hfuel. rewrite !length_app in Hfuel.
        simpl in Hfuel. lia.
      * exists res. split; [done|]. destruct res as [c|]; simpl in *.
        -- destruct Hpost as (r0 & Hlk & Hp). exists r0. split; [|done].
           replace (Z.to_nat _) with (S (Z.to_nat (Z.of_nat (S (length rs)) - 1 - minLevel)))
             by lia.
           done.
        -- destruct Hpost as (i & r0 & Hlk & Hi & Hf). exists (S i), r0.
           split_and!; [done|lia|done].
  - (* the key to the right is not larger: move right *)
    destruct (IH rs (pre ++ [(a, k)]) d kd post) as (res & Hres & Hpost).
    + rewrite <- app_assoc. by split.
    + done.
    + done.
    + done.
    + simpl in Hfuel. lia.
    + exists res. by rewrite <- app_assoc in Hpost.
Qed.

End Search.

(** ** A program logic for the mutating members *)

Section Hoare.

Lemma hoare_bind {A B} P (m : M A) Q (k : A → M B) R X :
  hoarex P m Q X → (∀ a, hoarex (Q a) (k a) R X) → hoarex P (mbind m k) R X.
Proof.
  intros Hm Hk s b HP. specialize (Hm s b HP). unfold mbind.
  destruct (m s b) as [a s' b'| |]; [|done..]. by apply Hk.
Qed.

Lemma hoare_conseq {A} (P P' : SkipListSet E → nat → Prop) (m : M A)
    (Q Q' : A → SkipListSet E → nat → Prop) (X X' : SkipListSet E → Prop) :
  (∀ s b, P' s b → P s b) → (∀ a s b, Q a s b → Q' a s b) → (∀ s, X s → X' s) →
  hoarex P m Q X → hoarex P' m Q' X'.
Proof.
  intros HP HQ HX Hm s b H. specialize (Hm s b (HP _ _ H)).
  destruct (m s b); [by apply HQ|by apply HX|done].
Qed.

Lemma hoare_ret {A} (a : A) (P : SkipListSet E → nat → Prop) Q X :
  (∀ s b, P s b → Q a s b) → hoarex P (mret a) Q X.
Proof. intros H s b HP. by apply H. Qed.

(** A step that is determined by the state and does not allocate. *)
Lemma hoare_step {A B} s0 n (m : M A) (k : A → M B) R X a s1 :
  (∀ b, m s0 b = Ok a s1 b) → hoarex (at_ s1 n) (k a) R X →
  hoarex (at_ s0 n) (mbind m k) R X.
Proof.
  intros Hm Hk s b [-> Hb]. unfold mbind. rewrite Hm. by apply Hk.
Qed.

Lemma hoare_last {A} s0 n (m : M A) a s1 (Q : A → SkipListSet E → nat → Prop) X :
  (∀ b, m s0 b = Ok a s1 b) → (∀ b, (b < n)%nat → Q a s1 b) → hoarex (at_ s0 n) m Q X.
Proof. intros Hm HQ s b [-> Hb]. rewrite Hm. by apply HQ. Qed.

(** An allocation, which succeeds or throws. *)
Lemma hoarex_alloc {B} s0 n (k : unit → M B) R (X : SkipListSet E → Prop) :
  X s0 → hoarex (at_ s0 n) (k tt) R X → hoarex (at_ s0 n) (mbind alloc k) R X.
Proof.
  intros HX Hk s b [-> Hb]. unfold mbind, alloc. destruct b as [|b]; [done|].
  apply Hk. split; [done|lia].
Qed.

Lemma hoare_alloc {B} s0 n (k : unit → M B) R :
  hoarex (at_ s0 n) (k tt) R (λ _, True) →
  hoarex (at_ s0 (S n)) (mbind alloc k) R (λ _, True).
Proof.
  intros Hk s b [-> Hb]. unfold mbind, alloc. destruct b as [|b]; [done|].
  apply Hk. split; [done|lia].
Qed.

Lemma hoare_alloc' {B} s0 n (k : unit → M B) R :
  hoarex (at_ s0 n) (k tt) R (λ _, True) →
  hoarex (at_ s0 n) (mbind alloc k) R (λ _, True).
Proof. by apply hoarex_alloc. Qed.

(** A read that may stop on a signed overflow. *)
Lemma hoare_lift {A B} s0 n (f : SkipListSet E → result A) (k : A → M B) R X :
  match f s0 with
  | Val a => hoarex (at_ s0 n) (k a) R X
  | Crash f => f = SignedOverflow
  end →
  hoarex (at_ s0 n) (mbind (lift f) k) R X.
Proof.
  intros Hk s b [-> Hb]. unfold mbind, lift. destruct (f s0) as [a|]; [|done].
  by apply Hk.
Qed.

Lemma hoare_catch {A} P (m : M A) (h : M unit) Q :
  hoarex P m Q (λ _, True) → (∀ s b, ∀ f, h s b = Abort f → f = SignedOverflow) →
  hoarex P (catch_rethrow m h) Q (λ _, True).
Proof.
  intros Hm Hh s b HP. specialize (Hm s b HP). unfold catch_rethrow.
  destruct (m s b) as [| s' b' |]; [done| |done].
  destruct (h s' b') eqn:Hr; [done..|]. by eapply Hh.
Qed.

(** From a postcondition to the state it holds in. *)
Lemma hoare_post_fix {B} (P : SkipListSet E → Prop) n (m : M B) R X :
  (∀ s1, P s1 → hoarex (at_ s1 n) m R X) →
  hoarex (λ s b, (b < n)%nat ∧ P s) m R X.
Proof. intros H s b [Hb HP]. by apply (H s HP). Qed.

Lemma hoare_post_any {B} (P : SkipListSet E → Prop) (m : M B) R X :
  (∀ s1 n, P s1 → hoarex (at_ s1 n) m R X) → hoarex (λ s _, P s) m R X.
Proof. intros H s b HP. apply (H s (S b) HP). split; [done|lia]. Qed.

End Hoare.

(** ** Splicing a node into a level *)

Section Insert.
Implicit Types (nd : gmap loc (Node E)) (r pre post : row E) (rs : list (row E)) (g : grid E).

#[local] Instance key_lt_trans : Transitive key_lt.
Proof. intros x y z. unfold key_lt. apply key_ltb_trans. Qed.

Lemma ascending_insert pre c d post x :
  ascending (pre ++ c :: d :: post) → key_lt c x → key_lt x d →
  ascending (pre ++ c :: x :: d :: post).
Proof.
  unfold ascending. rewrite !StronglySorted_app, !StronglySorted_cons, !Forall_cons.
  intros (Hpre & Hspre & (Hcd & Hc) & Hd & Hpost) Hcx Hxd.
  split_and!; try done.
  - intros x1 x2 Hx1 Hx2.
    apply elem_of_cons in Hx2 as [->|Hx2]; [apply Hpre; [done|left]|].
    apply elem_of_cons in Hx2 as [->|Hx2]; [|apply Hpre; [done|by right]].
    etrans; [|exact Hcx]. apply Hpre; [done|left].
  - eapply Forall_impl; [exact Hd|]. intros y Hy. by etrans.
Qed.

Lemma bracketed_insert pre c d post x :
  bracketed (pre ++ c :: d :: post) → bracketed (pre ++ c :: x :: d :: post).
Proof.
  intros [(a & k & H0 & Hk) (b & k' & Hl & Hk')]. split.
  - exists a, k. split; [|done]. by destruct pre.
  - exists b, k'. split; [|done].
    rewrite last_app in Hl |- *. simpl in *. done.
Qed.

Lemma chain_cons nd p a k r :
  chain nd p ((a, k) :: r) ↔
  p = Some a ∧ ∃ n, nd !! a = Some n ∧ value n = k ∧ chain nd (next n) r.
Proof. done. Qed.

Lemma chain_insert nd p pre c kc d kd post a nc ke bl :
  chain nd p (pre ++ (c, kc) :: (d, kd) :: post) →
  NoDup (pre ++ (c, kc) :: (d, kd) :: post).*1 →
  nd !! a = None → nd !! c = Some nc →
  chain (<[c := {| value := value nc; below := below nc; next := Some a |}]>
           (<[a := {| value := ke; below := bl; next := Some d |}]> nd))
        p (pre ++ (c, kc) :: (a, ke) :: (d, kd) :: post).
Proof.
  intros Hch Hnd Ha Hc. assert (a ≠ c) by congruence.
  revert p Hch Hnd. induction pre as [|[x kx] pre IH]; intros p Hch Hnd.
  - rewrite app_nil_l in *. apply chain_cons in Hch as (-> & n & Hn & Hk & Hch).
    simplify_eq. pose proof (chain_head _ _ _ Hch) as Hd. simpl in Hd.
    rewrite Hd in Hch.
    apply chain_cons. split; [done|]. eexists. rewrite lookup_insert_eq.
    split; [done|]. split; [done|]. cbn [next].
    apply chain_cons. split; [done|]. eexists.
    rewrite lookup_insert_ne, lookup_insert_eq by done.
    split; [done|]. split; [done|]. cbn [next].
    eapply (chain_frame nd); [|done].
    intros a' k' Hin.
    destruct (chain_lookup _ _ _ _ _ Hch Hin) as (? & ? & _).
    rewrite fmap_cons in Hnd. apply NoDup_cons in Hnd as [Hnc _].
    rewrite !lookup_insert_ne; [done|congruence|].
    intros ->. apply Hnc. apply list_elem_of_fmap. by exists (a', k').
  - rewrite <- !app_comm_cons in *.
    apply chain_cons in Hch as (-> & n & Hn & Hk & Hch).
    rewrite fmap_cons in Hnd. apply NoDup_cons in Hnd as [Hx Hnd].
    apply chain_cons. split; [done|]. exists n. split_and!; [|done|by apply IH].
    rewrite !lookup_insert_ne; [done|congruence|].
    intros ->. apply Hx. apply list_elem_of_fmap. exists (x, kc). split; [done|].
    apply elem_of_app. right. left.
Qed.

Lemma first_addr_insert pre (c d x : loc * SkipListKey E) post :
  first_addr (pre ++ c :: x :: d :: post) = first_addr (pre ++ c :: d :: post).
Proof. by destruct pre. Qed.

Lemma last_insert pre (c d x : loc * SkipListKey E) post :
  last (pre ++ c :: x :: d :: post) = last (pre ++ c :: d :: post).
Proof. by rewrite !last_app. Qed.

(** Replacing one level of a grid. *)
Lemma lchain_update_row ln nd nd' p g1 la r r' g2 :
  lchain ln nd p (g1 ++ (la, r) :: g2) →
  (∀ a k, (a, k) ∈ mjoin g1.*2 ++ mjoin g2.*2 → nd' !! a = nd !! a) →
  chain nd' (first_addr r) r' →
  lchain ln nd' p (g1 ++ (la, r') :: g2).
Proof.
  revert p. induction g1 as [|[a0 r0] g1 IH]; simpl; intros p.
  - intros (-> & l & Hl & Hv & Hc & Hg) Hsame Hc'. split; [done|]. exists l.
    split_and!; [done..| |].
    + by rewrite (chain_head _ _ _ Hc).
    + eapply lchain_frame; [done| |done]. intros a k ?. apply (Hsame a k). done.
  - intros (-> & l & Hl & Hv & Hc & Hg) Hsame Hc'. split; [done|]. exists l.
    split_and!; [done| | |].
    + rewrite Hv. by rewrite !length_app.
    + eapply chain_frame; [|done]. intros a k ?. apply (Hsame a k).
      rewrite <- app_assoc. apply elem_of_app. by left.
    + apply IH; [done| |done]. intros a k ?. apply (Hsame a k).
      rewrite <- app_assoc. apply elem_of_app. by right.
Qed.

Lemma towers_update nd nd' rs1 r r' rs2 :
  towers nd (rs1 ++ r :: rs2) →
  (∀ a k, (a, k) ∈ mjoin rs1 ++ mjoin rs2 → nd' !! a = nd !! a) →
  r ⊆ r' →
  match rs2 with
  | [] => grounded nd' r'
  | rb :: _ => tower nd' r' rb
  end →
  towers nd' (rs1 ++ r' :: rs2).
Proof.
  intros Ht Hsame Hsub Hr'. induction rs1 as [|r0 rs1 IH]; simpl in *.
  - destruct Ht as [_ Ht]. split; [done|].
    eapply towers_frame; [|done]. intros a k ?. by apply (Hsame a k).
  - destruct Ht as [Ht0 Ht]. split.
    + assert (∀ a k, (a, k) ∈ r0 → nd' !! a = nd !! a) as Hr0.
      { intros a k ?. apply (Hsame a k). rewrite <- app_assoc, elem_of_app. by left. }
      destruct rs1 as [|r1 rs1]; simpl in *.
      * eapply tower_frame; [done|]. by eapply tower_mono.
      * by eapply tower_frame.
    + apply IH; [done|]. intros a k ?. apply (Hsame a k).
      rewrite <- app_assoc, elem_of_app. by right.
Qed.

Lemma middle_perm {A} (l1 l2 l3 : list A) (c x : A) :
  l1 ++ (l2 ++ c :: x :: l3) ≡ₚ x :: l1 ++ (l2 ++ c :: l3).
Proof.
  replace (l1 ++ (l2 ++ c :: x :: l3)) with ((l1 ++ l2 ++ [c]) ++ x :: l3)
    by (by rewrite <- !app_assoc).
  replace (l1 ++ (l2 ++ c :: l3)) with ((l1 ++ l2 ++ [c]) ++ l3)
    by (by rewrite <- !app_assoc).
  symmetry. apply Permutation_middle.
Qed.

Lemma addrs_insert g1 la pre (c x d : loc * SkipListKey E) post g2 :
  (mjoin (g1 ++ (la, pre ++ c :: x :: d :: post) :: g2).*2).*1
  ≡ₚ x.1 :: (mjoin (g1 ++ (la, pre ++ c :: d :: post) :: g2).*2).*1.
Proof.
  rewrite !fmap_app, !fmap_cons, !join_app. simpl. rewrite ?fmap_app, ?fmap_cons.
  rewrite <- !app_assoc. simpl. apply middle_perm.
Qed.

Lemma addrs_row_in g1 la r g2 a k :
  (a, k) ∈ r → a ∈ (mjoin (g1 ++ (la, r) :: g2).*2).*1.
Proof.
  intros Hin. apply list_elem_of_fmap. exists (a, k). split; [done|].
  rewrite fmap_app, join_app. apply elem_of_app. right. simpl.
  apply elem_of_app. by left.
Qed.

Lemma wf_insert hd tl ln nd g1 la pre c kc d kd post g2 e bl nc a :
  wf_at hd tl ln nd (g1 ++ (la, pre ++ (c, kc) :: (d, kd) :: post) :: g2) →
  key_ltb kc (nkey e) = true → key_ltb (nkey e) kd = true →
  nd !! c = Some nc → nd !! a = None →
  match g2 with
  | [] => bl = None
  | (_, rb) :: _ => ∃ t k', bl = Some t ∧ (t, k') ∈ rb ∧ key_eqb (nkey e) k' = true
  end →
  wf_at hd tl ln
    (<[c := {| value := value nc; below := below nc; next := Some a |}]>
       (<[a := {| value := nkey e; below := bl; next := Some d |}]> nd))
    (g1 ++ (la, pre ++ (c, kc) :: (a, nkey e) :: (d, kd) :: post) :: g2).
Proof.
  intros [Hsh Hrows Htow Hnd Htl Hlv] Hlt Hgt Hc Ha Hbl.
  set (r := pre ++ (c, kc) :: (d, kd) :: post) in *.
  set (r' := pre ++ (c, kc) :: (a, nkey e) :: (d, kd) :: post).
  set (nd' := <[c:=_]> _).
  assert (a ≠ c) as Hac by congruence.
  assert (∀ x k, (x, k) ∈ mjoin (g1 ++ (la, r) :: g2).*2 → is_Some (nd !! x)) as Halloc.
  { intros x k ?. by eapply lchain_nodes_alloc. }
  assert (r ⊆ r') as Hsub.
  { intros x. unfold r, r'. rewrite !elem_of_app, !elem_of_cons. naive_solver. }
  assert (∀ x k, (x, k) ∈ r → x ≠ c → nd' !! x = nd !! x) as Hrow.
  { intros x k Hin Hxc. unfold nd'. rewrite !lookup_insert_ne; [done| |done].
    intros ->. destruct (Halloc x k) as [? ?]; [|congruence].
    rewrite fmap_app, join_app. apply elem_of_app. right. simpl.
    apply elem_of_app. by left. }
  assert (∀ x k, (x, k) ∈ mjoin g1.*2 ++ mjoin g2.*2 → nd' !! x = nd !! x) as Hframe.
  { intros x k Hin. unfold nd'.
    assert ((x, k) ∈ mjoin (g1 ++ (la, r) :: g2).*2) as Hin'.
    { rewrite fmap_app, join_app. simpl. rewrite !elem_of_app in *. naive_solver. }
    destruct (Halloc x k Hin') as [? ?].
    rewrite !lookup_insert_ne; [done|congruence|].
    intros ->. rewrite fmap_app, join_app, fmap_app in Hnd. simpl in Hnd.
    rewrite fmap_app in Hnd.
    assert (x ∈ r.*1) as Hxr.
    { apply list_elem_of_fmap. exists (x, kc). split; [done|]. unfold r.
      apply elem_of_app. right. left. }
    assert (x ∈ (mjoin g1.*2).*1 ∨ x ∈ (mjoin g2.*2).*1) as Hx.
    { apply elem_of_app in Hin as [?|?]; [left|right];
        apply list_elem_of_fmap; by exists (x, k). }
    apply NoDup_app in Hnd as (_ & Hd1 & Hnd).
    apply NoDup_app in Hnd as (_ & Hd2 & _).
    destruct Hx as [Hx|Hx].
    - apply (Hd1 x Hx). apply elem_of_app. by left.
    - by apply (Hd2 x Hxr). }
  assert (NoDup r.*1) as Hndr.
  { rewrite fmap_app, join_app, fmap_app in Hnd. simpl in Hnd. rewrite fmap_app in Hnd.
    apply NoDup_app in Hnd as (_ & _ & Hnd). by apply NoDup_app in Hnd as (? & _). }
  assert (chain nd (first_addr r) r) as Hchr.
  { apply lchain_rows in Hsh. rewrite Forall_forall in Hsh. apply Hsh.
    rewrite fmap_app. apply elem_of_app. right. left. }
  split.
  - eapply lchain_update_row; [done|done|].
    unfold r, r' in *.
    rewrite <- (first_addr_insert pre (c, kc) (d, kd) (a, nkey e) post).
    rewrite (first_addr_insert pre (c, kc) (d, kd) (a, nkey e) post).
    by apply chain_insert.
  - rewrite fmap_app, fmap_cons, Forall_app, Forall_cons in Hrows |- *. simpl in *.
    destruct Hrows as (? & [Hbr Hasc] & ?). split_and!; [done| | |done].
    + by apply bracketed_insert.
    + by apply ascending_insert.
  - rewrite fmap_app, fmap_cons in Htow |- *. simpl in *.
    eapply towers_update; [done|done|done|].
    assert (∀ x k, (x, k) ∈ r' → (x, k) = (a, nkey e) ∨ (x, k) ∈ r) as Hr'.
    { intros x k. unfold r, r'. rewrite !elem_of_app, !elem_of_cons. naive_solver. }
    assert (match g2.*2 with
            | [] => grounded nd r
            | rb :: _ => tower nd r rb
            end) as Hold.
    { clear -Htow. induction g1 as [|? g1 IH]; simpl in *; [by destruct Htow|].
      apply IH. by destruct Htow. }
    destruct g2 as [|[lb rb] g2]; simpl in *.
    + intros x k [Heq|Hin]%Hr'.
      * simplify_eq. eexists. unfold nd'.
        rewrite lookup_insert_ne, lookup_insert_eq by done. done.
      * destruct (Hold x k Hin) as (n & Hn & Hb).
        destruct (decide (x = c)) as [->|Hxc].
        -- simplify_eq. eexists. unfold nd'. rewrite lookup_insert_eq. done.
        -- exists n. by rewrite (Hrow x k).
    + intros x k [Heq|Hin]%Hr'.
      * simplify_eq. destruct Hbl as (t & k' & -> & Hin & Hk).
        eexists _, t, k'. unfold nd'.
        rewrite lookup_insert_ne, lookup_insert_eq by done. done.
      * destruct (Hold x k Hin) as (n & b & k' & Hn & Hb & Hinb & Hk).
        destruct (decide (x = c)) as [->|Hxc].
        -- simplify_eq. eexists _, b, k'. unfold nd'. rewrite lookup_insert_eq. done.
        -- exists n, b, k'. by rewrite (Hrow x k).
  - unfold r'. rewrite addrs_insert. apply NoDup_cons. split; [|done].
    simpl. intros ((x & k) & -> & Hin)%list_elem_of_fmap.
    destruct (Halloc _ _ Hin) as [? ?]. simpl in *. congruence.
  - rewrite Htl. destruct g1 as [|[? ?] g1]; simpl; [|done].
    unfold r, r'. by rewrite last_insert.
  - by rewrite length_app in Hlv |- *.
Qed.

End Insert.

(** ** The helpers of [add] *)

Section Steps.
Implicit Types (nd : gmap loc (Node E)) (r pre post : row E) (rs : list (row E)) (g : grid E).
Implicit Types (s : SkipListSet E).

Lemma fresh_loc_spec {A} (m : gmap loc A) : m !! fresh_loc m = None.
Proof.
  cut (∀ a, is_Some (m !! a) → (a < fresh_loc m)%positive).
  { intros Hlt. destruct (m !! fresh_loc m) eqn:Hm; [|done].
    specialize (Hlt (fresh_loc m) (mk_is_Some _ _ Hm)). lia. }
  unfold fresh_loc.
  apply (map_fold_weak_ind
           (λ (acc : positive) (m' : gmap loc A), ∀ a, is_Some (m' !! a) → (a < acc)%positive)).
  - intros a [? Ha]. by rewrite lookup_empty in Ha.
  - intros i x m' acc Hi IH a [y Ha].
    destruct (decide (i = a)) as [->|Hne].
    + lia.
    + rewrite lookup_insert_ne in Ha by done. specialize (IH a (mk_is_Some _ _ Ha)). lia.
Qed.

Lemma alloc_size {A} (m : gmap loc A) (l : list loc) :
  NoDup l → (∀ x, x ∈ l → is_Some (m !! x)) → (length l ≤ size m)%nat.
Proof.
  intros Hnd Hin. rewrite <- size_dom, <- (size_list_to_set (C:=gset loc) l Hnd).
  apply subseteq_size. intros x Hx%elem_of_list_to_set. by apply elem_of_dom, Hin.
Qed.

Lemma set_next_ok s c n v b :
  nodes s !! c = Some n →
  set_next (Some c) v s b
  = Ok tt (set_nodes (<[c := {| value := value n; below := below n; next := v |}]>
                        (nodes s)) s) b.
Proof. intros Hn. unfold set_next, write_Node, mbind, lift. simpl. by rewrite Hn. Qed.

Lemma set_lnext_ok s c l v b :
  lnodes s !! c = Some l →
  set_lnext (Some c) v s b
  = Ok tt (set_lnodes (<[c := {| lvalue := lvalue l; lbelow := lbelow l; lnext := v |}]>
                         (lnodes s)) s) b.
Proof. intros Hn. unfold set_lnext, write_LNode, mbind, lift. simpl. by rewrite Hn. Qed.

Lemma updateTail_loop_spec nd r : ∀ p tl fuel,
  chain nd p r → (length r ≤ fuel)%nat →
  updateTail_loop fuel nd p tl = Val (match last r with
                                      | Some x => Some x.1
                                      | None => tl
                                      end).
Proof.
  induction r as [|[a k] r IH]; intros p tl fuel Hc Hf.
  - simpl in Hc. subst. by destruct fuel.
  - apply chain_cons in Hc as (-> & n & Hn & Hk & Hc).
    destruct fuel as [|fuel]; [simpl in Hf; lia|]. simpl. rewrite Hn. simpl.
    rewrite (IH _ _ fuel Hc) by (simpl in Hf; lia).
    pose proof (chain_head _ _ _ Hc) as Hh. rewrite Hh.
    by destruct r as [|[a' k'] r].
Qed.

Lemma chain_length nd p r : chain nd p r → NoDup r.*1 → (length r ≤ size nd)%nat.
Proof.
  intros Hc Hnd. rewrite <- (length_fmap fst). apply alloc_size; [done|].
  intros x ((a & k) & -> & Hin)%list_elem_of_fmap.
  destruct (chain_lookup _ _ _ _ _ Hc Hin) as (n & ? & _). eauto.
Qed.

Lemma updateTail_ok s la l r b :
  head s = Some la → lnodes s !! la = Some l → chain (nodes s) (lnext l) r →
  NoDup r.*1 → r ≠ [] →
  updateTail s b = Ok tt (set_tail (fst <$> last r) s) b.
Proof.
  intros Hh Hl Hc Hnd Hr. unfold updateTail, mbind, lift, update. rewrite Hh. simpl.
  rewrite Hl. simpl.
  rewrite (updateTail_loop_spec _ r _ _ _ Hc) by by eapply chain_length.
  destruct (last r) eqn:Hlast; [done|]. by apply last_None in Hlast.
Qed.

End Steps.

(** ** A new top level *)

Section NewLevel.
Implicit Types (nd : gmap loc (Node E)) (r pre post : row E) (rs : list (row E)) (g : grid E).
Implicit Types (s : SkipListSet E).

Lemma hoare_store_Node {B} s0 n (x : Node E) (k : loc → M B) R X :
  (∀ a, nodes s0 !! a = None →
        hoarex (at_ (set_nodes (<[a:=x]> (nodes s0)) s0) n) (k a) R X) →
  hoarex (at_ s0 n) (mbind (store_Node x) k) R X.
Proof.
  intros Hk. eapply hoare_step; [intros b; reflexivity|]. apply Hk, fresh_loc_spec.
Qed.

Lemma hoare_store_LNode {B} s0 n (x : LNode) (k : loc → M B) R X :
  (∀ a, lnodes s0 !! a = None →
        hoarex (at_ (set_lnodes (<[a:=x]> (lnodes s0)) s0) n) (k a) R X) →
  hoarex (at_ s0 n) (mbind (store_LNode x) k) R X.
Proof.
  intros Hk. eapply hoare_step; [intros b; reflexivity|]. apply Hk, fresh_loc_spec.
Qed.

Lemma lchain_cons ln nd p a r g :
  lchain ln nd p ((a, r) :: g) ↔
  p = Some a ∧ ∃ l, ln !! a = Some l ∧ lvalue l = Z.of_nat (length g)
    ∧ chain nd (lnext l) r ∧ lchain ln nd (lbelow l) g.
Proof. done. Qed.

Lemma wf_new_level hd tl ln nd ln' nd' la r g top neg mid pos e t kt :
  wf_at hd tl ln nd ((la, r) :: g) →
  (∀ x, is_Some (nd !! x) → nd' !! x = nd !! x) →
  (∀ x, is_Some (ln !! x) → ln' !! x = ln !! x) →
  nd !! neg = None → nd !! mid = None → nd !! pos = None →
  neg ≠ mid → mid ≠ pos → neg ≠ pos →
  ln' !! top = Some {| lvalue := Z.of_nat (S (length g)); lbelow := hd; lnext := Some neg |} →
  nd' !! neg = Some {| value := neg_key; below := first_addr r; next := Some mid |} →
  nd' !! mid = Some {| value := nkey e; below := Some t; next := Some pos |} →
  nd' !! pos = Some {| value := pos_key; below := tl; next := None |} →
  (t, kt) ∈ r → key_eqb (nkey e) kt = true →
  Z.of_nat (S (length g)) ≤ INT_MAX →
  wf_at (Some top) (Some pos) ln' nd'
    ((top, [(neg, neg_key); (mid, nkey e); (pos, pos_key)]) :: (la, r) :: g).
Proof.
  intros Hwf Hfn Hfl Hneg Hmid Hpos ? ? ? Htop Hn1 Hn2 Hn3 Ht Hkt Hmax.
  pose proof Hwf as [Hsh Hrows Htow Hnd Htl Hlv].
  assert (∀ x k, (x, k) ∈ mjoin ((la, r) :: g).*2 → nd' !! x = nd !! x) as Hframe.
  { intros x k ?. apply Hfn. by eapply lchain_nodes_alloc. }
  assert (∀ x, x ∈ (mjoin ((la, r) :: g).*2).*1 → is_Some (nd !! x)) as Halloc.
  { intros x ((y & k) & -> & Hin)%list_elem_of_fmap. by eapply lchain_nodes_alloc. }
  pose proof (Forall_inv Hrows) as [Hbr Hasc]. simpl in Hbr, Hasc.
  destruct Hbr as [(a0 & k0 & Hr0 & Hk0) (b0 & kb & Hlast & Hkb)].
  split.
  - apply lchain_cons. split; [done|]. eexists. split; [done|]. split; [done|]. split.
    + cbn [lnext]. apply chain_cons. split; [done|]. eexists.
      split; [done|]. split; [done|]. cbn [next].
      apply chain_cons. split; [done|]. eexists.
      split; [done|]. split; [done|]. cbn [next].
      apply chain_cons. split; [done|]. eexists.
      split; [done|]. split; [done|]. done.
    + eapply lchain_frame; [| |done].
      * intros x r' ?. apply Hfl. by eapply lchain_lnodes_alloc.
      * done.
  - rewrite fmap_cons. apply Forall_cons. split; [|done]. split.
    + split; [by exists neg, neg_key|by exists pos, pos_key].
    + unfold ascending. repeat constructor.
  - rewrite fmap_cons. split; [|by eapply towers_frame].
    rewrite fmap_cons. cbn [snd].
    intros x k Hin. apply elem_of_cons in Hin as [Hin|Hin].
    { simplify_eq. destruct r as [|[a1 k1] r]; [done|]. simpl in Hr0. simplify_eq.
      eexists _, a0, k0. split_and!; [done|done|left|].
      unfold key_eqb. simpl. rewrite Hk0. done. }
    apply elem_of_cons in Hin as [Hin|Hin].
    { simplify_eq. eexists _, t, kt. done. }
    apply elem_of_cons in Hin as [Hin|Hin]; [|by inversion Hin].
    simplify_eq. eexists _, b0, kb. split_and!; [done| | |].
    + cbn [below]. simpl. by rewrite Hlast.
    + by apply last_Some_elem_of.
    + unfold key_eqb. simpl. rewrite Hkb. done.
  - change (NoDup (neg :: mid :: pos :: (mjoin ((la, r) :: g).*2).*1)).
    rewrite !NoDup_cons. split_and!; [| | |done].
    + rewrite !elem_of_cons. intros [?|[?|Hin]]; [done..|].
      destruct (Halloc _ Hin). congruence.
    + rewrite !elem_of_cons. intros [?|Hin]; [done..|].
      destruct (Halloc _ Hin). congruence.
    + intros Hin. destruct (Halloc _ Hin). congruence.
  - done.
  - simpl in *. lia.
Qed.

End NewLevel.

(** ** [createNewLevel], [search] and [insertNewNode] on a well-formed set *)

Section AddSteps.
Implicit Types (nd : gmap loc (Node E)) (r pre post : row E) (rs : list (row E)) (g : grid E).
Implicit Types (s : SkipListSet E).

Lemma wf_head s la r g :
  wf s ((la, r) :: g) →
  head s = Some la ∧ ∃ l, lnodes s !! la = Some l ∧ lvalue l = Z.of_nat (length g)
    ∧ lnext l = first_addr r ∧ chain (nodes s) (lnext l) r.
Proof.
  intros [Hsh _ _ _ _ _]. apply lchain_cons in Hsh as (? & l & ? & ? & Hc & _).
  split; [done|]. exists l. split_and!; [done..| |done]. by eapply chain_head.
Qed.

Lemma createNewLevel_spec s0 n la r g e t kt :
  wf s0 ((la, r) :: g) → (t, kt) ∈ r → key_eqb (nkey e) kt = true →
  Z.of_nat (S (length g)) ≤ INT_MAX →
  hoare (at_ s0 (S n)) (createNewLevel e (Some t))
    (λ _ s b, (b < n)%nat ∧ ∃ top neg mid pos,
        wf s ((top, [(neg, neg_key); (mid, nkey e); (pos, pos_key)]) :: (la, r) :: g)
        ∧ elements s = elements s0 ∧ levelTester s = levelTester s0).
Proof.
  intros Hwf Ht Hkt Hmax.
  destruct (wf_head _ _ _ _ Hwf) as (Hh & h & Hl & Hv & Hnx & Hch).
  unfold createNewLevel.
  eapply hoare_alloc.
  eapply hoare_step; [intros b; reflexivity|].
  eapply hoare_lift. simpl. rewrite Hh. simpl. rewrite Hl.
  eapply hoare_store_LNode. intros top Htop.
  eapply hoare_step; [intros b; reflexivity|].
  eapply hoare_alloc'. eapply hoare_alloc'.
  eapply hoare_lift. simpl. rewrite lookup_insert_eq.
  assert (top ≠ la) as Hne by congruence.
  eapply hoare_lift. simpl. rewrite lookup_insert_ne by done. rewrite Hl.
  eapply hoare_store_Node. simpl. intros neg Hneg.
  eapply hoare_step; [intros b; reflexivity|].
  eapply hoare_step; [intros b; apply set_lnext_ok; simpl; apply lookup_insert_eq|].
  eapply hoare_alloc'. eapply hoare_alloc'.
  eapply hoare_store_Node. simpl. intros mid Hmid.
  assert (mid ≠ neg) by (intros ->; by rewrite lookup_insert_eq in Hmid).
  rewrite lookup_insert_ne in Hmid by done.
  eapply hoare_lift. simpl. rewrite lookup_insert_eq.
  eapply hoare_step; [intros b; apply set_next_ok; simpl|].
  { rewrite lookup_insert_ne by done. apply lookup_insert_eq. }
  eapply hoare_alloc'. eapply hoare_alloc'.
  eapply hoare_step; [intros b; reflexivity|].
  eapply hoare_store_Node. simpl. intros pos Hpos.
  assert (pos ≠ neg) by (intros ->; by rewrite lookup_insert_eq in Hpos).
  rewrite lookup_insert_ne in Hpos by done.
  assert (pos ≠ mid) by (intros ->; by rewrite lookup_insert_eq in Hpos).
  rewrite lookup_insert_ne in Hpos by done.
  rewrite lookup_insert_ne in Hpos by done.
  eapply hoare_lift. simpl. rewrite lookup_insert_eq.
  eapply hoare_lift. simpl. rewrite lookup_insert_ne, lookup_insert_eq by done.
  eapply hoare_step; [intros b; apply set_next_ok; simpl|].
  { rewrite !lookup_insert_ne by done. apply lookup_insert_eq. }
  simpl.
  match goal with |- hoare (at_ ?s _) _ _ => set (s1 := s) end.
  assert (wf_at (Some top) (Some pos) (lnodes s1) (nodes s1)
            ((top, [(neg, neg_key); (mid, nkey e); (pos, pos_key)]) :: (la, r) :: g))
    as Hwf1.
  { assert (∀ x, is_Some (nodes s0 !! x) → nodes s1 !! x = nodes s0 !! x) as Hfn.
    { intros x [? Hx]. unfold s1. simpl. rewrite !lookup_insert_ne; [done|congruence..]. }
    assert (∀ x, is_Some (lnodes s0 !! x) → lnodes s1 !! x = lnodes s0 !! x) as Hfl.
    { intros x [? Hx]. unfold s1. simpl. rewrite !lookup_insert_ne; [done|congruence..]. }
    assert (lnodes s1 !! top
            = Some {| lvalue := Z.of_nat (S (length g)); lbelow := head s0;
                      lnext := Some neg |}) as Hl1.
    { unfold s1. simpl. rewrite lookup_insert_eq, Hh. do 2 f_equal. simpl.
      rewrite Hv, Z.mod_small; [lia|]. unfold INT_MAX, UINT_MOD in *. lia. }
    assert (nodes s1 !! neg
            = Some {| value := neg_key; below := first_addr r; next := Some mid |}) as Hn1.
    { unfold s1. simpl. rewrite !lookup_insert_ne by done.
      rewrite lookup_insert_eq. by rewrite Hnx. }
    assert (nodes s1 !! mid
            = Some {| value := nkey e; below := Some t; next := Some pos |}) as Hn2.
    { unfold s1. simpl. by rewrite lookup_insert_eq. }
    assert (nodes s1 !! pos
            = Some {| value := pos_key; below := tail s0; next := None |}) as Hn3.
    { unfold s1. simpl. rewrite lookup_insert_ne by done. by rewrite lookup_insert_eq. }
    by eapply (wf_new_level (head s0) (tail s0) (lnodes s0) (nodes s0)). }
  eapply hoare_last.
  - intros b. eapply (updateTail_ok s1 top _ [(neg, neg_key); (mid, nkey e); (pos, pos_key)]).
    + done.
    + unfold s1. simpl. apply lookup_insert_eq.
    + destruct Hwf1 as [Hsh _ _ _ _ _]. apply lchain_cons in Hsh as (_ & l & Hl1 & _ & Hc & _).
      unfold s1 in Hl1. simpl in Hl1. rewrite lookup_insert_eq in Hl1. simplify_eq. done.
    + simpl. rewrite !NoDup_cons, !elem_of_cons, !elem_of_nil.
      split_and!; [naive_solver..|constructor].
    + done.
  - intros b Hb. split; [done|]. exists top, neg, mid, pos. split_and!; [|done..].
    destruct Hwf1. split; done.
Qed.

Lemma wf_rows_ok s g : wf s g → rows_ok (nodes s) g.*2.
Proof.
  intros [Hsh Hrows Htow _ _ _]. split; [|done].
  apply lchain_rows in Hsh. rewrite Forall_forall in *. intros r Hr.
  destruct (Hrows r Hr). split_and!; [|done..]. by apply Hsh.
Qed.

Lemma wf_weight s g : wf s g → (weight g.*2 ≤ size (nodes s))%nat.
Proof.
  intros [Hsh _ _ Hnd _ _]. unfold weight. rewrite <- (length_fmap fst).
  apply alloc_size; [done|].
  intros x ((a & k) & -> & Hin)%list_elem_of_fmap. by eapply lchain_nodes_alloc.
Qed.

Lemma wf_row_node s g1 la pre c kc post g2 :
  wf s (g1 ++ (la, pre ++ (c, kc) :: post) :: g2) →
  ∃ nc, nodes s !! c = Some nc ∧ value nc = kc ∧ next nc = first_addr post.
Proof.
  intros [Hrows _]%wf_rows_ok. rewrite Forall_forall in Hrows.
  destruct (Hrows (pre ++ (c, kc) :: post)) as (Hc & _).
  { rewrite fmap_app. apply elem_of_app. right. left. }
  by eapply chain_next.
Qed.

(** [search] on a well-formed set. *)
Lemma search_spec s g e minLevel :
  wf s g → g ≠ [] → 0 ≤ minLevel ≤ Z.of_nat (length g) - 1 →
  ∃ res, search e minLevel s = Val res ∧ search_post (nkey e) minLevel g.*2 res.
Proof.
  intros Hwf Hne Hmin. destruct g as [|[la r] g]; [done|].
  destruct (wf_head _ _ _ _ Hwf) as (Hh & h & Hl & Hv & Hnx & Hch).
  pose proof (wf_rows_ok _ _ Hwf) as Hok. pose proof (wf_weight _ _ Hwf) as Hw.
  pose proof (wf_levels _ _ _ _ _ Hwf) as Hlv.
  destruct Hok as [Hrows Htow]. pose proof (Forall_inv Hrows) as (_ & Hbr & _).
  destruct Hbr as [(a0 & k0 & Hr0 & Hk0) _].
  destruct r as [|[a1 k1] r]; [done|]. simpl in Hr0. simplify_eq.
  unfold search. rewrite Hh. simpl. rewrite Hl. simpl. rewrite Hnx, Hv. simpl.
  assert (to_int (Z.of_nat (length g)) = Z.of_nat (length g.*2)) as ->.
  { rewrite length_fmap. unfold to_int. simpl in Hlv.
    destruct (Z.leb_spec (Z.of_nat (length g)) INT_MAX); [done|lia]. }
  destruct (search_loop_spec (nodes s) e minLevel (size (nodes s)) g.*2 [] a0 k0 r)
    as (res & Hres & Hpost).
  - by split.
  - by apply nkey_lt_neginf.
  - rewrite length_fmap. simpl in Hmin. lia.
  - rewrite length_fmap. simpl in Hlv. lia.
  - unfold weight in *. rewrite fmap_cons in Hw. simpl in Hw.
    rewrite length_app in Hw. simpl in Hw. lia.
  - by exists res.
Qed.

Lemma insertNewNode_spec s0 n g1 la pre c kc d kd post g2 e bl :
  wf s0 (g1 ++ (la, pre ++ (c, kc) :: (d, kd) :: post) :: g2) →
  key_ltb kc (nkey e) = true → key_ltb (nkey e) kd = true →
  match g2 with
  | [] => bl = None
  | (_, rb) :: _ => ∃ t k', bl = Some t ∧ (t, k') ∈ rb ∧ key_eqb (nkey e) k' = true
  end →
  hoare (at_ s0 (S n)) (insertNewNode (Some c) bl e)
    (λ res s b, (b < n)%nat ∧ ∃ a, res = Some a
        ∧ wf s (g1 ++ (la, pre ++ (c, kc) :: (a, nkey e) :: (d, kd) :: post) :: g2)
        ∧ elements s = elements s0 ∧ levelTester s = levelTester s0).
Proof.
  intros Hwf Hlt Hgt Hbl.
  destruct (wf_row_node _ _ _ _ _ _ _ _ Hwf) as (nc & Hc & Hk & Hnx). simpl in Hnx.
  unfold insertNewNode.
  eapply hoare_alloc. eapply hoare_alloc'.
  eapply hoare_lift. simpl. rewrite Hc.
  eapply hoare_store_Node. intros a Ha. assert (a ≠ c) by congruence.
  eapply hoare_step; [intros b; apply set_next_ok; simpl|].
  { rewrite lookup_insert_ne by done. exact Hc. }
  eapply hoare_lift. simpl. rewrite lookup_insert_eq.
  eapply hoare_last; [intros b; reflexivity|].
  intros b Hb. split; [done|]. exists a. split_and!; [done| |done..].
  unfold wf. simpl. rewrite Hnx. by eapply wf_insert.
Qed.

End AddSteps.

(** ** [add] keeps the invariant *)

Section Add.
Implicit Types (nd : gmap loc (Node E)) (r pre post : row E) (rs : list (row E)) (g : grid E).
Implicit Types (s : SkipListSet E).

Lemma pred_not_found k r c : ascending r → pred_in k r c → ¬ found_in k r.
Proof.
  intros Hasc (pre & kc & d & kd & post & -> & Hlt & Hgt) (a & k' & Hin & Heq).
  unfold ascending in Hasc.
  change (pre ++ (c, kc) :: (d, kd) :: post)
    with (pre ++ [(c, kc)] ++ (d, kd) :: post) in Hasc, Hin.
  rewrite app_assoc in Hasc, Hin.
  apply StronglySorted_app in Hasc as (Hcross & Hl & Hr).
  apply elem_of_app in Hin as [Hin|Hin].
  - (* to the left: below [kc], hence below [k] *)
    assert (key_ltb k' k = true) as Hk'.
    { apply elem_of_app in Hin as [Hin|Hin].
      - apply (key_ltb_trans _ kc); [|done].
        apply StronglySorted_app in Hl as (Hl & _). apply (Hl (a, k') (c, kc)); [done|left].
      - apply list_elem_of_singleton in Hin. by simplify_eq. }
    apply key_ltb_not_eqb in Hk'. congruence.
  - (* to the right: above [kd], hence above [k] *)
    assert (key_ltb k k' = true) as Hk'.
    { apply elem_of_cons in Hin as [Hin|Hin]; [by simplify_eq|].
      apply (key_ltb_trans _ kd); [done|].
      apply StronglySorted_cons in Hr as [Hr _]. rewrite Forall_forall in Hr.
      by apply (Hr (a, k')). }
    apply key_ltb_not_eqb in Hk'. rewrite key_eqb_sym in Hk'. congruence.
Qed.

Lemma tower_found nd k r r' : tower nd r r' → found_in k r → found_in k r'.
Proof.
  intros Ht (a & k1 & Hin & Heq). destruct (Ht a k1 Hin) as (n & b & k2 & _ & _ & Hin' & Hk).
  exists b, k2. split; [done|]. apply (key_eqb_trans _ k1); [|done].
  by rewrite key_eqb_sym.
Qed.

Lemma towers_found_down nd k rs r0 r :
  towers nd (rs ++ [r0]) → r ∈ rs → found_in k r → found_in k r0.
Proof.
  revert r. induction rs as [|r1 rs IH]; intros r Ht Hin Hf; [by inversion Hin|].
  simpl in Ht. destruct Ht as [Ht1 Ht].
  assert (found_in k r1 → found_in k r0) as Hr1.
  { intros Hf1. destruct rs as [|r2 rs]; simpl in *.
    - by eapply tower_found.
    - apply (IH r2 Ht); [left|]. by eapply tower_found. }
  apply elem_of_cons in Hin as [->|Hin]; [by apply Hr1|]. by apply (IH r).
Qed.

Lemma wf_set_levelTester s t g : wf s g → wf (set_levelTester t s) g.
Proof. done. Qed.

Lemma wf_set_elements s z g : wf s g → wf (set_elements z s) g.
Proof. done. Qed.

Lemma add_loop_spec e el fuel : ∀ g1 la r g2 t s0,
  wf s0 (g1 ++ (la, r) :: g2) → (t, nkey e) ∈ r →
  Forall (λ r', ¬ found_in (nkey e) r') g1.*2 → elements s0 = el →
  hoare (at_ s0 fuel) (add_loop fuel e (Some t) (Z.of_nat (length g2)))
    (λ _ s' _, ∃ g', wf s' g' ∧ last g' = last (g1 ++ (la, r) :: g2) ∧ elements s' = el).
Proof.
  induction fuel as [|fuel IH]; intros g1 la r g2 t s0 Hwf Ht Hnf Hel.
  { intros s b [_ Hb]. lia. }
  cbn [add_loop].
  eapply hoare_step; [intros b; reflexivity|].
  eapply hoare_step; [intros b; reflexivity|].
  destruct (shouldOccupyNextLevel e (levelTester s0)) as [ans t'] eqn:Hans. cbn [fst snd].
  apply (wf_set_levelTester _ t') in Hwf.
  set (s1 := set_levelTester t' s0) in *.
  assert (elements s1 = el) as Hel1 by done. clearbody s1. clear Hel Hans s0.
  destruct ans.
  2:{ apply hoare_ret. intros s b [-> _]. by exists (g1 ++ (la, r) :: g2). }
  eapply hoare_lift. unfold int_incr.
  destruct (Z.eqb_spec (Z.of_nat (length g2)) INT_MAX) as [|Hmax]; [done|].
  pose proof (wf_levels _ _ _ _ _ Hwf) as Hlv.
  assert (Z.of_nat (length g2) < INT_MAX) as Hmax'.
  { rewrite length_app in Hlv. simpl in Hlv. lia. }
  destruct (decide (g1 = [])) as [->|Hg1].
  - (* the level above does not exist yet *)
    rewrite app_nil_l in *.
    destruct (wf_head _ _ _ _ Hwf) as (Hh & h & Hl & Hv & _).
    eapply hoare_lift. simpl. rewrite Hh. simpl. rewrite Hl.
    unfold to_unsigned. rewrite Z.mod_small by (unfold INT_MAX, UINT_MOD in *; lia).
    rewrite Hv. destruct (Z.gtb_spec (Z.of_nat (length g2) + 1) (Z.of_nat (length g2)));
      [|lia].
    eapply hoare_bind.
    { eapply (createNewLevel_spec s1 fuel); [done|done|apply key_eqb_refl|lia]. }
    intros []. apply hoare_post_fix.
    intros s2 (top & neg & mid & pos & Hwf2 & Hel2 & _).
    destruct (wf_head _ _ _ _ Hwf2) as (Hh2 & h2 & Hl2 & _ & Hnx2 & Hch2).
    eapply hoare_lift. simpl. rewrite Hh2. simpl. rewrite Hl2.
    apply chain_cons in Hch2 as (Hnx2' & n2 & Hn2 & _ & Hch2).
    pose proof (chain_head _ _ _ Hch2) as Hnn. simpl in Hnn.
    eapply hoare_lift. simpl. rewrite Hnx2'. simpl. rewrite Hn2. rewrite Hnn.
    replace (Z.of_nat (length g2) + 1) with (Z.of_nat (length ((la, r) :: g2)))
      by (simpl; lia).
    eapply hoare_conseq; [done| |done|eapply (IH [] top _ ((la, r) :: g2) mid s2)].
    + intros _ s' b' (g' & ? & Hlast & ?). exists g'. split_and!; [done| |done].
      rewrite Hlast. done.
    + done.
    + set_solver.
    + constructor.
    + congruence.
  - (* the level above exists: find the place there *)
    destruct (exists_last Hg1) as (g1' & [la' r'] & ->).
    assert (∃ h, head s1 = Some h ∧ ∃ l, lnodes s1 !! h = Some l
              ∧ lvalue l = Z.of_nat (length g1' + length g2 + 1)) as (hd & Hh & l & Hl & Hv).
    { destruct g1' as [|[l0 r0] g1']; simpl in Hwf;
        destruct (wf_head _ _ _ _ Hwf) as (Hh & h & Hl & Hv & _);
        exists l0 || exists la'; (split; [done|]); exists h; (split; [done|]);
        rewrite Hv; simpl; rewrite ?length_app; simpl; lia. }
    eapply hoare_lift. simpl. rewrite Hh. simpl. rewrite Hl.
    unfold to_unsigned. rewrite Z.mod_small by (unfold INT_MAX, UINT_MOD in *; lia).
    rewrite Hv.
    destruct (Z.gtb_spec (Z.of_nat (length g2) + 1) (Z.of_nat (length g1' + length g2 + 1)));
      [lia|].
    destruct (search_spec s1 _ e (Z.of_nat (length g2) + 1) Hwf) as (res & Hres & Hpost).
    { by destruct g1'. }
    { rewrite !length_app. simpl. lia. }
    eapply hoare_lift. rewrite Hres.
    rewrite <- app_assoc in Hwf, Hpost. simpl in Hwf, Hpost.
    rewrite fmap_app, fmap_cons in Hnf. apply Forall_app in Hnf as [Hnf1 Hnf2].
    apply Forall_inv in Hnf2. simpl in Hnf2.
    destruct res as [c|]; simpl in Hpost.
    2:{ (* the element is on no level above *)
      exfalso. destruct Hpost as (i & r0 & Hi & Hle & Hf).
      rewrite fmap_app, fmap_cons in Hi. rewrite length_fmap, length_app in Hle.
      simpl in Hle.
      destruct (decide (i < length g1'.*2)%nat) as [Hlt|Hge].
      - rewrite lookup_app_l in Hi by done.
        rewrite Forall_forall in Hnf1. apply (Hnf1 r0); [|done].
        by eapply list_elem_of_lookup_2.
      - rewrite length_fmap in Hge.
        assert (i = length g1'.*2) as -> by (rewrite length_fmap; lia).
        rewrite list_lookup_middle in Hi by done. by simplify_eq. }
    destruct Hpost as (r0 & Hi & pre & kc & d & kd & post & -> & Hlt & Hgt).
    rewrite fmap_app, fmap_cons in Hi.
    replace (Z.to_nat _) with (length g1'.*2) in Hi.
    2:{ rewrite length_app. simpl. rewrite !length_fmap. lia. }
    rewrite list_lookup_middle in Hi by done. simpl in Hi. simplify_eq.
    eapply hoare_bind.
    { eapply (insertNewNode_spec s1 fuel); [done..|].
      exists t, (nkey e). split_and!; [done..|]. apply key_eqb_refl. }
    intros res. apply hoare_post_fix.
    intros s2 (a & -> & Hwf2 & Hel2 & _).
    replace (Z.of_nat (length g2) + 1) with (Z.of_nat (length ((la, r) :: g2)))
      by (simpl; lia).
    eapply hoare_conseq;
      [done| |done
      |eapply (IH g1' la' (pre ++ (c, kc) :: (a, nkey e) :: (d, kd) :: post)
                 ((la, r) :: g2) a s2)].
    + intros _ s' b' (g' & ? & Hlast & ?). exists g'. split_and!; [done| |done].
      rewrite Hlast, <- app_assoc. simpl. by rewrite !last_app, !last_cons_cons.
    + done.
    + set_solver.
    + done.
    + congruence.
Qed.

Lemma wf_ascending s g r : wf s g → r ∈ g.*2 → ascending r.
Proof.
  intros Hwf Hr. pose proof (wf_rows _ _ _ _ _ Hwf) as Hrows.
  rewrite Forall_forall in Hrows. by destruct (Hrows r Hr).
Qed.

Lemma level0_snoc g la r : level0 (g ++ [(la, r)]) = r.
Proof. unfold level0. by rewrite last_snoc. Qed.

(** [search] at level 0 tells whether the element is in the set. *)
Lemma search0_spec s g e :
  wf s g → g ≠ [] →
  (member e g ∧ search e 0 s = Val None)
  ∨ (¬ member e g ∧ ∃ c, search e 0 s = Val (Some c) ∧ pred_in (nkey e) (level0 g) c).
Proof.
  intros Hwf Hne. destruct (exists_last Hne) as (g1 & [l0 r0] & ->).
  unfold member. rewrite level0_snoc.
  destruct (search_spec s _ e 0 Hwf Hne) as (res & Hres & Hpost).
  { rewrite length_app. simpl. lia. }
  rewrite fmap_app in Hpost. simpl in Hpost.
  destruct res as [c|]; simpl in Hpost.
  - right. destruct Hpost as (r1 & Hi & Hp).
    replace (Z.to_nat _) with (length g1.*2) in Hi
      by (rewrite length_app; simpl; lia).
    rewrite list_lookup_middle in Hi by done. simplify_eq.
    split; [|by exists c]. apply (pred_not_found _ _ c); [|done].
    eapply wf_ascending; [done|]. rewrite fmap_app. apply elem_of_app. right. left.
  - left. split; [|done]. destruct Hpost as (i & r1 & Hi & _ & Hf).
    apply list_elem_of_lookup_2, elem_of_app in Hi as [Hin|Hin].
    + pose proof (wf_towers _ _ _ _ _ Hwf) as Ht. rewrite fmap_app in Ht.
      by eapply towers_found_down.
    + apply list_elem_of_singleton in Hin. by subst.
Qed.

Lemma contains_spec s g e :
  wf s g → g ≠ [] →
  (member e g ∧ contains e s = Val true) ∨ (¬ member e g ∧ contains e s = Val false).
Proof.
  intros Hwf Hne. unfold contains.
  destruct (search0_spec s g e Hwf Hne) as [[? ->]|[? (c & -> & _)]]; [by left|by right].
Qed.

(** Adding an element that is in the set runs into the null pointer that
    [search] returned for it. *)
Lemma add_member s g e b :
  wf s g → g ≠ [] → member e g → add e s (S (S b)) = Abort NullDeref.
Proof.
  intros Hwf Hne Hm.
  destruct (search0_spec s g e Hwf Hne) as [[_ Hs]|[? _]]; [|done].
  unfold add, mbind, lift. rewrite Hs. done.
Qed.

Lemma add_member_low s g e b :
  wf s g → g ≠ [] → member e g → (b < 2)%nat → ∃ b', add e s b = Throw s b'.
Proof.
  intros Hwf Hne Hm Hb.
  destruct (search0_spec s g e Hwf Hne) as [[_ Hs]|[? _]]; [|done].
  unfold add, mbind, lift. rewrite Hs.
  destruct b as [|[|b]]; [by eexists..|lia].
Qed.

(** Adding an element that is not in the set. *)
Lemma add_spec s0 g e :
  wf s0 g → g ≠ [] → ¬ member e g →
  hoare (λ s _, s = s0) (add e)
    (λ _ s' _, ∃ g', wf s' g' ∧ g' ≠ [] ∧ spliced e (level0 g) (level0 g')
                     ∧ elements s' = elements s0 + 1).
Proof.
  intros Hwf Hne Hnm s b ->.
  cut (hoare (at_ s0 (S b)) (add e)
         (λ _ s' _, ∃ g', wf s' g' ∧ g' ≠ [] ∧ spliced e (level0 g) (level0 g')
                          ∧ elements s' = elements s0 + 1)).
  { intros H. apply H. split; [done|lia]. }
  destruct (search0_spec s0 g e Hwf Hne) as [[? _]|[_ (c & Hs & Hp)]]; [done|].
  destruct (exists_last Hne) as (g1 & [l0 r0] & ->). rewrite level0_snoc in *.
  destruct Hp as (pre & kc & d & kd & post & -> & Hlt & Hgt).
  destruct (wf_row_node _ _ _ _ _ _ _ _ Hwf) as (nc & Hc & Hk & Hnx). simpl in Hnx.
  assert (Forall (λ r', ¬ found_in (nkey e) r') g1.*2) as Hnf.
  { apply Forall_forall. intros r' Hr' Hf. apply Hnm. unfold member.
    rewrite level0_snoc. pose proof (wf_towers _ _ _ _ _ Hwf) as Ht.
    rewrite fmap_app in Ht. by eapply towers_found_down. }
  unfold add.
  eapply hoare_lift. rewrite Hs.
  eapply hoare_bind.
  { apply hoare_catch; [|by intros ? ? ?].
    eapply hoare_alloc'. eapply hoare_alloc'.
    eapply hoare_lift. simpl. rewrite Hc.
    eapply hoare_store_Node. intros a Ha. assert (a ≠ c) by congruence.
    eapply hoare_step; [intros b'; apply set_next_ok; simpl|].
    { rewrite lookup_insert_ne by done. exact Hc. }
    eapply hoare_lift. simpl. unfold int_incr.
    destruct (Z.eqb_spec (elements s0) INT_MAX); [done|].
    eapply hoare_step; [intros b'; reflexivity|].
    eapply (hoare_last _ _ _ _ _
              (λ temp s _, ∃ a, temp = Some a ∧ elements s = elements s0 + 1
                 ∧ wf s (g1 ++ [(l0, pre ++ (c, kc) :: (a, nkey e) :: (d, kd) :: post)])));
      [intros b'; reflexivity|].
    intros b' _. exists a. split_and!; [done..|].
    unfold wf. simpl. rewrite Hnx. by eapply wf_insert. }
  intros temp s1 b1 (a & -> & Hel & Hwf1).
  assert ((a, nkey e) ∈ pre ++ (c, kc) :: (a, nkey e) :: (d, kd) :: post) as Hin
    by set_solver.
  pose proof (add_loop_spec e (elements s0 + 1) (S b1) g1 l0 _ [] a s1 Hwf1 Hin Hnf Hel
                s1 b1 (conj eq_refl (Nat.lt_succ_diag_r _))) as Hloop.
  change (Z.of_nat (length (@nil (loc * list (loc * SkipListKey E))))) with 0 in Hloop.
  cbn beta.
  destruct (add_loop (S b1) e (Some a) 0 s1 b1) as [[] s' b'| |]; [|done..].
  destruct Hloop as (g' & Hwf' & Hlast & Hel'). exists g'. split_and!; [done| | |done].
  - intros ->. by rewrite last_snoc in Hlast.
  - unfold level0 at 1. rewrite Hlast, last_snoc. simpl.
    by exists pre, c, kc, a, d, kd, post.
Qed.

End Add.

(** ** Copying a grid: the level headers *)

Section LinkLevels.
Implicit Types (nd : gmap loc (Node E)) (ln : gmap loc LNode) (r pre post : row E).
Implicit Types (rs : list (row E)) (g : grid E) (s z : SkipListSet E).
Implicit Types (hs : list (loc * Z)).

Lemma hskel_frame ln ln' p hs :
  (∀ a v, (a, v) ∈ hs → ln' !! a = ln !! a) → hskel ln p hs → hskel ln' p hs.
Proof.
  revert p. induction hs as [|[a v] hs IH]; simpl; intros p Hsame; [done|].
  intros (-> & l & Hl & Hv & Hn & Hs). split; [done|]. exists l. split_and!; [|done..|].
  - rewrite (Hsame a v); [done|left].
  - apply IH; [|done]. intros a' v' ?. apply (Hsame a' v'). by right.
Qed.

Lemma hskel_head ln p hs : hskel ln p hs → p = first_hdr hs.
Proof. destruct hs as [|[a v] hs]; simpl; [done|]. by intros [-> _]. Qed.

Lemma set_lbelow_ok s c l v b :
  lnodes s !! c = Some l →
  set_lbelow (Some c) v s b
  = Ok tt (set_lnodes (<[c := {| lvalue := lvalue l; lbelow := v; lnext := lnext l |}]>
                         (lnodes s)) s) b.
Proof. intros Hn. unfold set_lbelow, write_LNode, mbind, lift. simpl. by rewrite Hn. Qed.

Lemma set_below_ok s c n v b :
  nodes s !! c = Some n →
  set_below (Some c) v s b
  = Ok tt (set_nodes (<[c := {| value := value n; below := v; next := next n |}]>
                        (nodes s)) s) b.
Proof. intros Hn. unfold set_below, write_Node, mbind, lift. simpl. by rewrite Hn. Qed.

Lemma linked_levels_nil z current :
  match current with
  | Some c => ∃ lc, lnodes z !! c = Some lc ∧ lbelow lc = None
  | None => head z = None
  end →
  linked_levels z current z [].
Proof.
  intros Hcur. split_and!; try done.
  - constructor.
  - by intros a v ?%elem_of_nil.
  - destruct current as [c|]; [|done]. destruct Hcur as ([? ? ?] & Hc & Hb).
    simpl in Hb. subst. eexists. split_and!; done.
Qed.

Lemma linked_levels_cons z current z' hs temp v :
  lnodes z !! temp = None →
  match current with
  | Some c => ∃ lc, lnodes z !! c = Some lc
  | None => True
  end →
  linked_levels
    (match current with
     | Some c =>
         match lnodes z !! c with
         | Some lc =>
             set_lnodes (<[c := {| lvalue := lvalue lc; lbelow := Some temp;
                                   lnext := lnext lc |}]>
                           (<[temp := {| lvalue := v; lbelow := None; lnext := None |}]>
                              (lnodes z))) z
         | None => z
         end
     | None =>
         set_head (Some temp)
           (set_lnodes (<[temp := {| lvalue := v; lbelow := None; lnext := None |}]>
                          (lnodes z)) z)
     end) (Some temp) z' hs →
  linked_levels z current z' ((temp, v) :: hs).
Proof.
  intros Htemp Hcur (Hnd & Hfresh & Hsk & (lt & Hlt & Hhd & Hlt') & Hframe & Hn).
  destruct current as [c|].
  - destruct Hcur as (lc & Hc). rewrite Hc in *. simpl in *.
    assert (temp ≠ c) by congruence.
    rewrite lookup_insert_ne, lookup_insert_eq in Hlt by done. simplify_eq.
    split_and!.
    + simpl. apply NoDup_cons. split; [|done].
      intros ((a' & v') & -> & Hin)%list_elem_of_fmap. specialize (Hfresh _ _ Hin).
      simpl in Hfresh. rewrite lookup_insert_ne, lookup_insert_eq in Hfresh by done. done.
    + intros a' v' [?|Hin]%elem_of_cons; [by simplify_eq|]. specialize (Hfresh _ _ Hin).
      destruct (decide (c = a')) as [->|?]; [by rewrite lookup_insert_eq in Hfresh|].
      rewrite lookup_insert_ne in Hfresh by done.
      destruct (decide (temp = a')) as [->|?]; [done|].
      by rewrite lookup_insert_ne in Hfresh.
    + simpl. split; [done|]. eexists. split; [exact Hlt'|]. done.
    + exists lc. split_and!; [done|done|].
      rewrite Hframe.
      * by rewrite lookup_insert_eq.
      * rewrite lookup_insert_eq. eauto.
      * congruence.
    + intros a' [? Ha'] Hne. rewrite Hframe.
      * rewrite !lookup_insert_ne; [done|congruence..].
      * rewrite !lookup_insert_ne; [eauto|congruence..].
      * congruence.
    + done.
  - simpl in *. rewrite lookup_insert_eq in Hlt. simplify_eq.
    split_and!.
    + simpl. apply NoDup_cons. split; [|done].
      intros ((a' & v') & -> & Hin)%list_elem_of_fmap. specialize (Hfresh _ _ Hin).
      simpl in Hfresh. by rewrite lookup_insert_eq in Hfresh.
    + intros a' v' [?|Hin]%elem_of_cons; [by simplify_eq|]. specialize (Hfresh _ _ Hin).
      destruct (decide (temp = a')) as [->|?]; [by rewrite lookup_insert_eq in Hfresh|].
      by rewrite lookup_insert_ne in Hfresh.
    + simpl. split; [done|]. eexists. split; [exact Hlt'|]. done.
    + done.
    + intros a' [? Ha'] Hne. rewrite Hframe.
      * rewrite !lookup_insert_ne; [done|congruence..].
      * rewrite !lookup_insert_ne; [eauto|congruence..].
      * congruence.
    + done.
Qed.

Lemma linkLevels_loop_spec s : ∀ gsuf fuel p current z n,
  lchain (lnodes s) (nodes s) p gsuf → (length gsuf ≤ fuel)%nat →
  match current with
  | Some c => ∃ lc, lnodes z !! c = Some lc ∧ lbelow lc = None
  | None => head z = None
  end →
  hoarex (at_ z n) (linkLevels_loop fuel s p current)
    (λ _ z' _, ∃ hs, linked_levels z current z' hs ∧ hs.*2 = lvals gsuf)
    (λ z', ∃ hs, linked_levels z current z' hs).
Proof.
  induction gsuf as [|[a r] gsuf IH]; intros fuel p current z n Hsrc Hfuel Hcur.
  - simpl in Hsrc. subst p.
    replace (linkLevels_loop fuel s None current) with (mret (E:=E) tt) by by destruct fuel.
    apply hoare_ret. intros ? b [-> _]. exists []. split; [|done].
    by apply linked_levels_nil.
  - apply lchain_cons in Hsrc as (-> & l & Hl & Hv & _ & Hsrc).
    destruct fuel as [|fuel]; [simpl in Hfuel; lia|]. cbn [linkLevels_loop].
    eapply hoarex_alloc.
    { exists []. by apply linked_levels_nil. }
    eapply hoare_lift. simpl. rewrite Hl.
    eapply hoare_store_LNode. intros temp Htemp.
    set (new := {| lvalue := lvalue l; lbelow := None; lnext := None |}).
    pose proof (linked_levels_cons z current) as Hcons.
    destruct current as [c|].
    + destruct Hcur as (lc & Hc & Hb). assert (temp ≠ c) by congruence.
      eapply hoare_step; [intros b; apply set_lbelow_ok; simpl|].
      { rewrite lookup_insert_ne by done. exact Hc. }
      simpl. rewrite Hc in Hcons.
      eapply hoare_conseq;
        [done| | |eapply (IH fuel _ (Some temp)); [done|simpl in Hfuel; lia|]].
      3:{ exists new. simpl. rewrite lookup_insert_ne, lookup_insert_eq by done. done. }
      * intros _ z' b (hs & Hlink & Hvals). exists ((temp, lvalue l) :: hs). split.
        -- apply Hcons; [done|eauto|done].
        -- rewrite fmap_cons. cbn [snd lvals]. by rewrite Hvals, Hv.
      * intros z' (hs & Hlink). exists ((temp, lvalue l) :: hs).
        apply Hcons; [done|eauto|done].
    + eapply hoare_step; [intros b; reflexivity|]. simpl.
      eapply hoare_conseq;
        [done| | |eapply (IH fuel _ (Some temp)); [done|simpl in Hfuel; lia|]].
      3:{ exists new. simpl. rewrite lookup_insert_eq. done. }
      * intros _ z' b (hs & Hlink & Hvals). exists ((temp, lvalue l) :: hs). split.
        -- by apply Hcons.
        -- rewrite fmap_cons. cbn [snd lvals]. by rewrite Hvals, Hv.
      * intros z' (hs & Hlink). exists ((temp, lvalue l) :: hs). by apply Hcons.
Qed.

End LinkLevels.

(** ** Copying a grid: the nodes of each level *)

Section LinkNext.
Implicit Types (nd : gmap loc (Node E)) (ln : gmap loc LNode) (r pre post : row E).
Implicit Types (rs : list (row E)) (g : grid E) (s z : SkipListSet E).
Implicit Types (hs : list (loc * Z)).

Lemma linked_row_nil z ch curr :
  match curr with
  | Some cu => ∃ ncu, nodes z !! cu = Some ncu ∧ next ncu = None
  | None => ∃ lch, lnodes z !! ch = Some lch ∧ lnext lch = None
  end →
  linked_row z ch curr z [].
Proof.
  intros Hcur. split_and!; try done.
  - constructor.
  - by intros a k ?%elem_of_nil.
  - by intros a k ?%elem_of_nil.
  - destruct curr as [cu|].
    + destruct Hcur as ([? ? ?] & Hc & Hb). simpl in Hb. subst. eexists. done.
    + destruct Hcur as ([? ? ?] & Hc & Hb). simpl in Hb. subst. eexists.
      split; [done|]. simpl. by rewrite insert_id.
Qed.

Lemma linked_row_cons z ch curr z' r' temp k :
  nodes z !! temp = None →
  match curr with
  | Some cu => ∃ ncu, nodes z !! cu = Some ncu
  | None => ∃ lch, lnodes z !! ch = Some lch
  end →
  linked_row
    (match curr with
     | Some cu =>
         match nodes z !! cu with
         | Some ncu =>
             set_nodes (<[cu := {| value := value ncu; below := below ncu;
                                   next := Some temp |}]>
                          (<[temp := {| value := k; below := None; next := None |}]>
                             (nodes z))) z
         | None => z
         end
     | None =>
         match lnodes z !! ch with
         | Some lch =>
             set_lnodes (<[ch := {| lvalue := lvalue lch; lbelow := lbelow lch;
                                    lnext := Some temp |}]> (lnodes z))
               (set_nodes (<[temp := {| value := k; below := None; next := None |}]>
                             (nodes z)) z)
         | None => z
         end
     end) ch (Some temp) z' r' →
  linked_row z ch curr z' ((temp, k) :: r').
Proof.
  intros Htemp Hcur (Hnd & Hfresh & Hch & Hgr & (nt & Hnt & Hln & Hnt') & Hframe & Hhd).
  destruct curr as [cu|].
  - destruct Hcur as (ncu & Hc). rewrite Hc in *. simpl in *.
    assert (temp ≠ cu) by congruence.
    rewrite lookup_insert_ne, lookup_insert_eq in Hnt by done. simplify_eq.
    split_and!.
    + simpl. apply NoDup_cons. split; [|done].
      intros ((a' & k') & -> & Hin)%list_elem_of_fmap. specialize (Hfresh _ _ Hin).
      simpl in Hfresh. rewrite lookup_insert_ne, lookup_insert_eq in Hfresh by done. done.
    + intros a' k' [?|Hin]%elem_of_cons; [by simplify_eq|]. specialize (Hfresh _ _ Hin).
      destruct (decide (cu = a')) as [->|?]; [by rewrite lookup_insert_eq in Hfresh|].
      rewrite lookup_insert_ne in Hfresh by done.
      destruct (decide (temp = a')) as [->|?]; [done|].
      by rewrite lookup_insert_ne in Hfresh.
    + apply chain_cons. split; [done|]. eexists. split; [exact Hnt'|]. done.
    + intros a' k' [?|Hin]%elem_of_cons; [|by eapply Hgr]. simplify_eq. eexists. done.
    + exists ncu. split_and!; [done|done|]. rewrite Hframe.
      * by rewrite lookup_insert_eq.
      * rewrite lookup_insert_eq. eauto.
      * congruence.
    + intros a' [? Ha'] Hne. rewrite Hframe.
      * rewrite !lookup_insert_ne; [done|congruence..].
      * rewrite !lookup_insert_ne; [eauto|congruence..].
      * congruence.
    + done.
  - destruct Hcur as (lch & Hc). rewrite Hc in *. simpl in *.
    rewrite lookup_insert_eq in Hnt. simplify_eq.
    split_and!.
    + simpl. apply NoDup_cons. split; [|done].
      intros ((a' & k') & -> & Hin)%list_elem_of_fmap. specialize (Hfresh _ _ Hin).
      simpl in Hfresh. by rewrite lookup_insert_eq in Hfresh.
    + intros a' k' [?|Hin]%elem_of_cons; [by simplify_eq|]. specialize (Hfresh _ _ Hin).
      destruct (decide (temp = a')) as [->|?]; [by rewrite lookup_insert_eq in Hfresh|].
      by rewrite lookup_insert_ne in Hfresh.
    + apply chain_cons. split; [done|]. eexists. split; [exact Hnt'|]. done.
    + intros a' k' [?|Hin]%elem_of_cons; [|by eapply Hgr]. simplify_eq. eexists. done.
    + exists lch. done.
    + intros a' [? Ha'] Hne. rewrite Hframe.
      * rewrite !lookup_insert_ne; [done|congruence..].
      * rewrite !lookup_insert_ne; [eauto|congruence..].
      * congruence.
    + done.
Qed.

Lemma linkNext_row_spec s : ∀ rsrc fuel nptr ch curr z n,
  chain (nodes s) nptr rsrc → (length rsrc ≤ fuel)%nat →
  match curr with
  | Some cu => ∃ ncu, nodes z !! cu = Some ncu ∧ next ncu = None
  | None => ∃ lch, lnodes z !! ch = Some lch ∧ lnext lch = None
  end →
  hoarex (at_ z n) (linkNext_row fuel s nptr (Some ch) curr)
    (λ _ z' _, ∃ r', linked_row z ch curr z' r' ∧ r'.*2 = rsrc.*2)
    (λ z', ∃ r', linked_row z ch curr z' r').
Proof.
  induction rsrc as [|[a k] rsrc IH]; intros fuel nptr ch curr z n Hsrc Hfuel Hcur.
  - simpl in Hsrc. subst nptr.
    replace (linkNext_row fuel s None (Some ch) curr) with (mret (E:=E) tt)
      by by destruct fuel.
    apply hoare_ret. intros ? b [-> _]. exists []. split; [|done].
    by apply linked_row_nil.
  - apply chain_cons in Hsrc as (-> & sn & Hsn & Hk & Hsrc).
    destruct fuel as [|fuel]; [simpl in Hfuel; lia|]. cbn [linkNext_row].
    assert (∃ r', linked_row z ch curr z r') as HX.
    { exists []. by apply linked_row_nil. }
    eapply hoarex_alloc; [done|]. eapply hoarex_alloc; [done|].
    eapply hoare_lift. simpl. rewrite Hsn.
    eapply hoare_store_Node. intros temp Htemp.
    set (new := {| value := value sn; below := None; next := None |}).
    pose proof (linked_row_cons z ch curr) as Hcons.
    destruct curr as [cu|].
    + destruct Hcur as (ncu & Hc & Hb). assert (temp ≠ cu) by congruence.
      eapply hoare_step; [intros b; apply set_next_ok; simpl|].
      { rewrite lookup_insert_ne by done. exact Hc. }
      simpl. rewrite Hc in Hcons.
      eapply hoare_conseq;
        [done| | |eapply (IH fuel _ ch (Some temp)); [done|simpl in Hfuel; lia|]].
      3:{ exists new. simpl. rewrite lookup_insert_ne, lookup_insert_eq by done. done. }
      * intros _ z' b (r' & Hlink & Hkeys). exists ((temp, value sn) :: r'). split.
        -- apply Hcons; [done|eauto|done].
        -- rewrite !fmap_cons. cbn [snd]. by rewrite Hkeys, Hk.
      * intros z' (r' & Hlink). exists ((temp, value sn) :: r').
        apply Hcons; [done|eauto|done].
    + destruct Hcur as (lch & Hc & Hb).
      eapply hoare_step; [intros b; apply set_lnext_ok; simpl; exact Hc|].
      simpl. rewrite Hc in Hcons.
      eapply hoare_conseq;
        [done| | |eapply (IH fuel _ ch (Some temp)); [done|simpl in Hfuel; lia|]].
      3:{ exists new. simpl. rewrite lookup_insert_eq. done. }
      * intros _ z' b (r' & Hlink & Hkeys). exists ((temp, value sn) :: r'). split.
        -- apply Hcons; [done|eauto|done].
        -- rewrite !fmap_cons. cbn [snd]. by rewrite Hkeys, Hk.
      * intros z' (r' & Hlink). exists ((temp, value sn) :: r').
        apply Hcons; [done|eauto|done].
Qed.

Lemma vchain_lchain ln nd p g : vchain ln nd p g (lvals g) ↔ lchain ln nd p g.
Proof.
  revert p. induction g as [|[a r] g IH]; intros p; simpl; [done|].
  split; intros (-> & l & ? & ? & ? & ?); (split; [done|]); exists l;
    split_and!; try done; by apply IH.
Qed.

Lemma vchain_frame ln ln' nd nd' p g vs :
  (∀ a r, (a, r) ∈ g → ln' !! a = ln !! a) →
  (∀ a k, (a, k) ∈ mjoin g.*2 → nd' !! a = nd !! a) →
  vchain ln nd p g vs → vchain ln' nd' p g vs.
Proof.
  revert p vs. induction g as [|[a r] g IH]; intros p [|v vs] Hl Hn; simpl; try done.
  intros (-> & l & ? & ? & Hc & Hg). split; [done|]. exists l. split_and!; [|done|..].
  - rewrite (Hl a r); [done|left].
  - eapply chain_frame; [|done]. intros a' k' ?. apply (Hn a' k').
    rewrite fmap_cons. simpl. apply elem_of_app. by left.
  - apply IH; [| |done].
    + intros a' r' ?. apply (Hl a' r'). by right.
    + intros a' k' ?. apply (Hn a' k'). rewrite fmap_cons. simpl. apply elem_of_app.
      by right.
Qed.

Lemma hskel_vchain ln nd p hs : hskel ln p hs → vchain ln nd p (empty_levels hs) hs.*2.
Proof.
  revert p. induction hs as [|[a v] hs IH]; intros p; simpl; [done|].
  intros (-> & l & ? & ? & Hn & ?). split; [done|]. exists l.
  split_and!; [done..| |by apply IH]. by rewrite Hn.
Qed.

Lemma empty_levels_nodes hs : mjoin (empty_levels hs).*2 = [].
Proof. induction hs as [|[a v] hs IH]; [done|]. simpl. done. Qed.

Lemma empty_levels_fst hs : (empty_levels hs).*1 = hs.*1.
Proof. induction hs as [|[a v] hs IH]; [done|]. simpl. by f_equal. Qed.

Lemma linked_grid_empty z hs :
  hskel (lnodes z) (first_hdr hs) hs → linked_grid z hs z (empty_levels hs).
Proof.
  intros Hsk. split_and!; try done.
  - apply empty_levels_fst.
  - by apply hskel_vchain.
  - apply Forall_forall. intros r ((a & r') & -> & Hin)%list_elem_of_fmap.
    apply list_elem_of_fmap in Hin as ((a' & v) & Heq & _). simplify_eq.
    by intros ? ? ?%elem_of_nil.
  - rewrite empty_levels_nodes. constructor.
  - rewrite empty_levels_nodes. by intros a k ?%elem_of_nil.
Qed.

Lemma linked_grid_cons z ch v hs z1 r' z' g' lch :
  lnodes z !! ch = Some lch → lvalue lch = v → lbelow lch = first_hdr hs →
  ch ∉ hs.*1 →
  linked_row z ch None z1 r' → linked_grid z1 hs z' g' →
  linked_grid z ((ch, v) :: hs) z' ((ch, r') :: g').
Proof.
  intros Hlch Hv Hb Hch (Hndr & Hfresh & Hchain & Hgr & (lch' & Hlch' & Hln1) & Hframe1 & Hhd1)
    (Hg1 & Hvc & Hgr' & Hnd' & Hfresh' & Hframe' & Hlframe & Hhd').
  simplify_eq.
  assert (∀ a k, (a, k) ∈ r' → is_Some (nodes z1 !! a)) as Hr'alloc.
  { intros a' k' Hin. destruct (chain_lookup _ _ _ _ _ Hchain Hin) as (? & ? & _). eauto. }
  split_and!.
  - rewrite !fmap_cons. cbn [fst]. by rewrite Hg1.
  - simpl. split; [done|]. eexists. split_and!.
    + rewrite Hlframe by done. rewrite Hln1. apply lookup_insert_eq.
    + done.
    + simpl. eapply chain_frame; [|done]. intros a' k' Hin.
      by apply Hframe', (Hr'alloc a' k').
    + simpl. by rewrite Hb.
  - rewrite fmap_cons. apply Forall_cons. split; [|done].
    eapply grounded_frame; [|done]. intros a' k' Hin.
    by apply Hframe', (Hr'alloc a' k').
  - rewrite fmap_cons. simpl. rewrite fmap_app. apply NoDup_app. split_and!; [done| |done].
    intros x ((a1 & k1) & -> & Hin1)%list_elem_of_fmap
             ((a2 & k2) & Heq & Hin2)%list_elem_of_fmap.
    simpl in Heq. subst. destruct (Hr'alloc _ _ Hin1) as [? Hx].
    rewrite (Hfresh' _ _ Hin2) in Hx. done.
  - intros a' k'. rewrite fmap_cons. simpl. intros [Hin|Hin]%elem_of_app.
    + by eapply Hfresh.
    + destruct (nodes z !! a') eqn:Hz; [|done].
      rewrite <- (Hframe1 a'), (Hfresh' a' k') in Hz; [done|done|eauto|done].
  - intros a' Ha'. rewrite Hframe'; [by apply Hframe1|]. rewrite Hframe1; [done..|].
    done.
  - intros a' Ha'. rewrite fmap_cons in Ha'. apply not_elem_of_cons in Ha' as [? ?].
    rewrite Hlframe by done. rewrite Hln1. by rewrite lookup_insert_ne.
  - congruence.
Qed.

Lemma linkNext_loop_spec s : ∀ gsuf fuel p hs z n,
  lchain (lnodes s) (nodes s) p gsuf →
  Forall (λ r, (length r ≤ size (nodes s))%nat) gsuf.*2 →
  (length gsuf ≤ fuel)%nat →
  hskel (lnodes z) (first_hdr hs) hs → NoDup hs.*1 → length hs = length gsuf →
  hoarex (at_ z n) (linkNext_loop fuel s p (first_hdr hs))
    (λ _ z' _, ∃ g', linked_grid z hs z' g'
                     ∧ Forall2 (λ r r', r'.*2 = r.*2) gsuf.*2 g'.*2)
    (λ z', ∃ g', linked_grid z hs z' g').
Proof.
  induction gsuf as [|[a r] gsuf IH]; intros fuel p hs z n Hsrc Hlen Hfuel Hsk Hnd Hhs.
  - simpl in Hsrc. subst p. destruct hs; [|done].
    replace (linkNext_loop fuel s None (first_hdr [])) with (mret (E:=E) tt)
      by by destruct fuel.
    apply hoare_ret. intros ? b [-> _]. exists []. split; [|constructor].
    by apply (linked_grid_empty _ []).
  - apply lchain_cons in Hsrc as (-> & pl & Hpl & Hv & Hrow & Hsrc).
    destruct hs as [|[ch v] hs]; [done|]. simpl in Hhs.
    rewrite fmap_cons in Hnd. apply NoDup_cons in Hnd as [Hch Hnd].
    pose proof Hsk as Hsk0.
    simpl in Hsk. destruct Hsk as (_ & lch & Hlch & Hlv & Hlnx & Hsk).
    rewrite fmap_cons in Hlen. apply Forall_cons in Hlen as [Hlen1 Hlen].
    destruct fuel as [|fuel]; [simpl in Hfuel; lia|]. cbn [linkNext_loop].
    eapply hoare_lift. simpl. rewrite Hpl.
    pose proof (hskel_head _ _ _ Hsk) as Hb.
    eapply hoare_bind.
    { eapply hoare_conseq;
        [done|intros a0 z1 b1 H; exact H|
        |eapply (linkNext_row_spec s r _ _ ch None z n); [done|done|by exists lch]].
      intros z1 (r' & Hrow1). exists ((ch, r') :: empty_levels hs).
      eapply linked_grid_cons; [done..|].
      apply linked_grid_empty.
      destruct Hrow1 as (_ & _ & _ & _ & (lch' & Hlch' & Hln1) & _).
      rewrite <- Hb. eapply hskel_frame; [|done]. intros a' v' Ha'.
      rewrite Hln1, lookup_insert_ne; [done|]. intros ->. apply Hch.
      apply list_elem_of_fmap. by exists (a', v'). }
    intros []. intros z1 b1 (r' & Hrow1 & Hkeys).
    cut (hoarex (at_ z1 (S b1))
           (let! c := lift (λ z0, deref (lnodes z0) (Some ch)) in
            linkNext_loop fuel s (lbelow pl) (lbelow c))
           (λ _ z' _, ∃ g', linked_grid z ((ch, v) :: hs) z' g'
                            ∧ Forall2 (λ r r', r'.*2 = r.*2) ((a, r) :: gsuf).*2 g'.*2)
           (λ z', ∃ g', linked_grid z ((ch, v) :: hs) z' g')).
    { intros H. apply H. split; [done|lia]. }
    pose proof Hrow1 as (_ & _ & _ & _ & (lch' & Hlch' & Hln1) & _). simplify_eq.
    eapply hoare_lift. simpl. rewrite Hln1, lookup_insert_eq. simpl. rewrite Hb.
    assert (hskel (lnodes z1) (first_hdr hs) hs) as Hsk1.
    { rewrite <- Hb. eapply hskel_frame; [|done]. intros a' v' Ha'.
      rewrite Hln1, lookup_insert_ne; [done|]. intros ->. apply Hch.
      apply list_elem_of_fmap. by exists (a', v'). }
    eapply hoare_conseq;
      [done| | |eapply (IH fuel _ hs z1); try done; simpl in Hfuel; lia].
    + intros _ z' b (g' & Hgrid & Hf2). exists ((ch, r') :: g'). split.
      * by eapply linked_grid_cons.
      * rewrite !fmap_cons. by constructor.
    + intros z' (g' & Hgrid). exists ((ch, r') :: g'). by eapply linked_grid_cons.
Qed.

End LinkNext.

(** ** Copying a grid: the links downwards *)

Section LinkBelow.
Implicit Types (nd : gmap loc (Node E)) (ln : gmap loc LNode) (r pre post U L : row E).
Implicit Types (rs : list (row E)) (g : grid E) (s z : SkipListSet E).

Lemma ascending_cons x r : ascending (x :: r) ↔ Forall (key_lt x) r ∧ ascending r.
Proof. apply StronglySorted_cons. Qed.

Lemma matching_nil_r U : matching U [] → U = [].
Proof.
  intros [H _]. destruct U as [|[a k] U]; [done|].
  destruct (H a k) as (? & ? & ?%elem_of_nil & _); [left|done].
Qed.

Lemma matching_cons_r U l L : matching U (l :: L) → U ≠ [].
Proof.
  intros [_ H] ->. destruct l as [b k]. destruct (H b k) as (? & ? & ?%elem_of_nil & _);
    [left|done].
Qed.

Lemma matching_step_eq a u U b l L :
  ascending ((a, u) :: U) → ascending ((b, l) :: L) →
  matching ((a, u) :: U) ((b, l) :: L) → key_eqb u l = true → matching U L.
Proof.
  intros [HU _]%ascending_cons [HL _]%ascending_cons [H1 H2] Heq.
  rewrite Forall_forall in HU, HL. split.
  - intros a' k Hin. destruct (H1 a' k) as (b' & k' & Hin' & Hk); [by right|].
    apply elem_of_cons in Hin' as [?|?]; [|by eauto]. simplify_eq. exfalso.
    specialize (HU _ Hin). unfold key_lt in HU. simpl in HU.
    apply key_ltb_not_eqb in HU.
    rewrite (key_eqb_trans u l k) in HU; [done|done|by rewrite key_eqb_sym].
  - intros b' k' Hin. destruct (H2 b' k') as (a' & k & Hin' & Hk); [by right|].
    apply elem_of_cons in Hin' as [?|?]; [|by eauto]. simplify_eq. exfalso.
    specialize (HL _ Hin). unfold key_lt in HL. simpl in HL.
    rewrite <- (key_ltb_eqb_l _ _ _ Heq) in HL.
    destruct Hk as [Hk|Hk].
    + apply key_ltb_asym in Hk. congruence.
    + apply key_ltb_not_eqb in HL. congruence.
Qed.

Lemma matching_step_ne a u U b l L :
  ascending ((a, u) :: U) → ascending ((b, l) :: L) →
  matching ((a, u) :: U) ((b, l) :: L) → key_eqb u l = false →
  matching ((a, u) :: U) L.
Proof.
  intros [HU _]%ascending_cons [HL _]%ascending_cons [H1 H2] Hne.
  rewrite Forall_forall in HU, HL. split; [|intros b' k' ?; apply (H2 b' k'); by right].
  assert (key_ltb l u = true) as Hlu.
  { destruct (H1 a u) as (b1 & k1 & Hin1 & Hk1); [left|].
    apply elem_of_cons in Hin1 as [?|Hin1]; [simplify_eq; congruence|].
    specialize (HL _ Hin1). unfold key_lt in HL. simpl in HL.
    by rewrite (key_ltb_eqb_r _ _ _ Hk1). }
  intros a' k Hin. destruct (H1 a' k Hin) as (b' & k' & Hin' & Hk).
  apply elem_of_cons in Hin' as [?|?]; [|by eauto]. simplify_eq. exfalso.
  apply elem_of_cons in Hin as [?|Hin]; [simplify_eq; congruence|].
  specialize (HU _ Hin). unfold key_lt in HU. simpl in HU.
  pose proof (key_ltb_trans _ _ _ Hlu HU) as Hlk.
  rewrite (key_ltb_eqb_r _ _ _ Hk) in Hlk. by rewrite key_ltb_irrefl in Hlk.
Qed.

Lemma links_same_refl nd : links_same nd nd.
Proof. intros a n ?. by exists n. Qed.

Lemma links_same_trans nd1 nd2 nd3 :
  links_same nd1 nd2 → links_same nd2 nd3 → links_same nd1 nd3.
Proof.
  intros H12 H23 a n Hn. destruct (H12 a n Hn) as (n2 & Hn2 & ? & ?).
  destruct (H23 a n2 Hn2) as (n3 & ? & ? & ?). exists n3. split_and!; congruence.
Qed.

Lemma chain_links_same nd nd' p r : links_same nd nd' → chain nd p r → chain nd' p r.
Proof.
  intros Hs. revert p. induction r as [|[a k] r IH]; intros p; simpl; [done|].
  intros (-> & n & Hn & Hk & Hc). split; [done|].
  destruct (Hs a n Hn) as (n' & Hn' & Hv & Hnx). exists n'.
  split_and!; [done|congruence|]. rewrite Hnx. by apply IH.
Qed.

Lemma vchain_links_same ln nd nd' p g vs :
  links_same nd nd' → vchain ln nd p g vs → vchain ln nd' p g vs.
Proof.
  intros Hs. revert p vs. induction g as [|[a r] g IH]; intros p [|v vs]; simpl; try done.
  intros (-> & l & ? & ? & Hc & Hg). split; [done|]. exists l.
  split_and!; [done..| |by apply IH]. by eapply chain_links_same.
Qed.

Lemma linkBelow_row_spec X : ∀ L fuel p U z n,
  chain (nodes z) p L → chain (nodes z) (first_addr U) U →
  ascending U → ascending L → matching U L → NoDup (U ++ L).*1 →
  (length L ≤ fuel)%nat →
  hoarex (at_ z n) (linkBelow_row fuel p (first_addr U))
    (λ _ z' _, tower (nodes z') U L ∧ links_same (nodes z) (nodes z')
               ∧ (∀ a, a ∉ U.*1 → nodes z' !! a = nodes z !! a)
               ∧ lnodes z' = lnodes z ∧ head z' = head z) X.
Proof.
  induction L as [|[b0 l0] L IH]; intros fuel p U z n HL HU HaU HaL Hm Hnd Hfuel.
  - simpl in HL. subst p.
    replace (linkBelow_row fuel None (first_addr U)) with (mret (E:=E) tt)
      by by destruct fuel.
    apply hoare_ret. intros ? b [-> _]. apply matching_nil_r in Hm as ->.
    split_and!; try done.
    + by intros ? ? ?%elem_of_nil.
    + apply links_same_refl.
  - destruct fuel as [|fuel]; [simpl in Hfuel; lia|].
    destruct U as [|[a0 u0] U]; [by apply matching_cons_r in Hm|].
    apply chain_cons in HL as (-> & pn & Hpn & Hpk & HL).
    apply chain_cons in HU as (_ & cn & Hcn & Hck & HU).
    simpl first_addr. cbn [linkBelow_row].
    rewrite fmap_app, !fmap_cons in Hnd. simpl in Hnd.
    apply NoDup_cons in Hnd as [Ha0 Hnd].
    assert (a0 ≠ b0) as Hab.
    { intros ->. apply Ha0. apply elem_of_app. right. left. }
    assert (NoDup (U ++ (b0, l0) :: L).*1) as Hnd1 by by rewrite fmap_app.
    assert (NoDup (((a0, u0) :: U) ++ L).*1) as Hnd2.
    { rewrite fmap_app, fmap_cons. simpl. apply NoDup_cons. split.
      - intros Hin. apply Ha0. apply elem_of_app in Hin as [?|?]; apply elem_of_app;
          [by left|right; by right].
      - apply NoDup_app in Hnd as (? & Hd & Hl). apply NoDup_cons in Hl as [_ Hl].
        apply NoDup_app. split_and!; [done| |done]. intros x Hx Hx'. apply (Hd x Hx).
        by right. }
    eapply hoare_lift. simpl. rewrite Hcn.
    eapply hoare_lift. simpl. rewrite Hpn. rewrite Hck, Hpk.
    destruct (key_eqb u0 l0) eqn:Heq.
    + eapply hoare_step; [intros b; apply set_below_ok; exact Hcn|].
      eapply hoare_lift. simpl. rewrite lookup_insert_eq.
      eapply hoare_lift. simpl. rewrite lookup_insert_ne by done. rewrite Hpn. simpl.
      set (z1 := set_nodes _ z).
      assert (∀ a, a ≠ a0 → nodes z1 !! a = nodes z !! a) as Hz1.
      { intros a ?. unfold z1. simpl. by rewrite lookup_insert_ne. }
      pose proof (chain_head _ _ _ HU) as HhU. rewrite HhU.
      eapply hoare_conseq; [done| |done|eapply (IH fuel _ U z1)].
      * intros _ z' b (Ht & Hs & Hf & Hln & Hhd). split_and!.
        -- intros a k [?|Hin]%elem_of_cons.
           ++ simplify_eq. eexists _, b0, (value pn).
              rewrite Hf.
              ** unfold z1. simpl. rewrite lookup_insert_eq.
                 split_and!; [done|done|left|done].
              ** intros Hin. apply Ha0. apply elem_of_app. by left.
           ++ destruct (Ht a k Hin) as (n' & b' & k' & ? & ? & ? & ?).
              exists n', b', k'. split_and!; [done..| |done]. by right.
        -- eapply links_same_trans; [|done]. intros a n' Hn'.
           destruct (decide (a = a0)) as [->|?].
           ++ simplify_eq. eexists. unfold z1. simpl. rewrite lookup_insert_eq. done.
           ++ exists n'. by rewrite Hz1.
        -- intros a Ha. apply not_elem_of_cons in Ha as [? ?].
           rewrite Hf by done. by apply Hz1.
        -- done.
        -- done.
      * eapply chain_frame; [|done]. intros a k Hin. apply Hz1. intros ->.
        apply Ha0. apply elem_of_app. right. right. apply list_elem_of_fmap.
        by exists (a0, k).
      * rewrite <- HhU. eapply chain_frame; [|done]. intros a k Hin. apply Hz1. intros ->.
        apply Ha0. apply elem_of_app. left. apply list_elem_of_fmap. by exists (a0, k).
      * by apply ascending_cons in HaU as [_ ?].
      * by apply ascending_cons in HaL as [_ ?].
      * by eapply matching_step_eq.
      * apply NoDup_app in Hnd as (? & Hd & Hl).
        apply NoDup_cons in Hl as [_ Hl]. rewrite fmap_app.
        apply NoDup_app. split_and!; [done| |done]. intros x Hx Hx'. apply (Hd x Hx).
        by right.
      * simpl in Hfuel. lia.
    + change (Some a0) with (first_addr ((a0, u0) :: U)).
      eapply hoare_conseq; [done| |done|eapply (IH fuel _ ((a0, u0) :: U) z)].
      * intros _ z' b (Ht & Hs & Hf & Hln & Hhd). split_and!; try done.
        eapply tower_mono; [|done]. intros x ?. by right.
      * done.
      * apply chain_cons. split; [done|]. by exists cn.
      * done.
      * by apply ascending_cons in HaL as [_ ?].
      * by eapply matching_step_ne.
      * done.
      * simpl in Hfuel. lia.
Qed.

End LinkBelow.

(** ** Copying a grid: the links downwards, level after level *)

Section LinkBelowLoop.
Implicit Types (nd : gmap loc (Node E)) (ln : gmap loc LNode) (r pre post U L : row E).
Implicit Types (rs : list (row E)) (g : grid E) (s z : SkipListSet E).

Lemma linkBelow_loop_spec X : ∀ g fuel ch U vs z n,
  vchain (lnodes z) (nodes z) (Some ch) ((ch, U) :: g) vs →
  matchings (U :: g.*2) → NoDup (mjoin (U :: g.*2)).*1 →
  Forall (grounded (nodes z)) (U :: g.*2) →
  (length g < fuel)%nat →
  hoarex (at_ z n) (linkBelow_loop fuel (Some ch))
    (λ _ z' _, towers (nodes z') (U :: g.*2) ∧ links_same (nodes z) (nodes z')
               ∧ (∀ a, a ∉ (mjoin (U :: g.*2)).*1 → nodes z' !! a = nodes z !! a)
               ∧ lnodes z' = lnodes z ∧ head z' = head z) X.
Proof.
  induction g as [|[cl L] g IH]; intros fuel ch U vs z n Hvc Hm Hnd Hgr Hfuel.
  - destruct fuel as [|fuel]; [lia|]. destruct vs as [|v vs]; [done|].
    simpl in Hvc. destruct Hvc as (_ & l & Hl & _ & _ & Hvc).
    assert (lbelow l = None) as Hb by by destruct vs.
    cbn [linkBelow_loop]. eapply hoare_lift. simpl. rewrite Hl. rewrite Hb.
    apply hoare_ret. intros ? b [-> _]. split; [|split; [apply links_same_refl|done]].
    simpl. split; [|done]. by apply Forall_inv in Hgr.
  - destruct fuel as [|fuel]; [lia|]. destruct vs as [|v vs]; [done|].
    pose proof Hvc as Hvc0.
    simpl in Hvc. destruct Hvc as (_ & l & Hl & _ & HU & Hvc).
    destruct vs as [|v' vs]; [done|]. pose proof Hvc as Hvc1.
    destruct Hvc as (Hb & l2 & Hl2 & _ & HL & _).
    cbn [linkBelow_loop]. eapply hoare_lift. simpl. rewrite Hl. rewrite Hb.
    eapply hoare_lift. simpl. rewrite Hl2.
    pose proof (chain_head _ _ _ HU) as HhU. pose proof (chain_head _ _ _ HL) as HhL.
    rewrite fmap_cons in Hm, Hnd, Hgr. cbn [snd] in Hm, Hnd, Hgr.
    destruct Hm as (HaU & HmUL & Hm).
    simpl in Hnd. rewrite !fmap_app in Hnd.
    apply Forall_cons in Hgr as [HgU Hgr].
    assert (NoDup (U ++ L).*1) as HndUL.
    { rewrite fmap_app. rewrite app_assoc in Hnd. by apply NoDup_app in Hnd as (? & _). }
    assert (NoDup (mjoin (L :: g.*2)).*1) as Hndt.
    { simpl. rewrite fmap_app. by apply NoDup_app in Hnd as (_ & _ & ?). }
    assert (∀ a, a ∈ (mjoin (L :: g.*2)).*1 → a ∉ U.*1) as Hdisj.
    { intros a Ha HaU'. apply NoDup_app in Hnd as (_ & Hd & _). apply (Hd a HaU').
      simpl in Ha. by rewrite fmap_app in Ha. }
    eapply hoare_bind.
    { intros s b [-> Hb']. rewrite HhU, HhL.
      apply (linkBelow_row_spec X L (size (nodes z)) (first_addr L) U z n); try done.
      - by rewrite <- HhL.
      - by rewrite <- HhU.
      - destruct Hm as (? & _). done.
      - eapply chain_length; [done|]. rewrite fmap_app in HndUL.
        by apply NoDup_app in HndUL as (_ & _ & ?). }
    intros []. apply hoare_post_any. intros z1 n1 (Ht & Hs & Hf & Hln & Hhd).
    eapply hoare_conseq; [done| |done|eapply (IH fuel cl L (v' :: vs) z1)].
    + intros _ z' b (Ht' & Hs' & Hf' & Hln' & Hhd').
      split; [|split; [|split; [|split]]].
      * change (tower (nodes z') U L ∧ towers (nodes z') (L :: g.*2)). split; [|done].
        eapply tower_frame; [|done]. intros a k Hin. apply Hf'. intros Hin'.
        apply (Hdisj a Hin'). apply list_elem_of_fmap. by exists (a, k).
      * by eapply links_same_trans.
      * intros a Ha.
        change (a ∉ (U ++ mjoin (L :: g.*2)).*1) in Ha. rewrite fmap_app in Ha.
        apply not_elem_of_app in Ha as [? ?]. rewrite Hf'; [by apply Hf|done].
      * congruence.
      * congruence.
    + rewrite Hln, <- Hb. by eapply vchain_links_same.
    + done.
    + done.
    + apply Forall_forall. intros r Hr. rewrite Forall_forall in Hgr.
      eapply grounded_frame; [|by apply Hgr]. intros a k Hin. apply Hf.
      apply Hdisj. apply list_elem_of_fmap. exists (a, k). split; [done|].
      apply list_elem_of_join. by exists r.
    + simpl in Hfuel. lia.
Qed.

End LinkBelowLoop.

(** ** Copying a grid: the three passes together *)

Section Build.
Implicit Types (nd : gmap loc (Node E)) (ln : gmap loc LNode) (r pre post U L : row E).
Implicit Types (rs : list (row E)) (g : grid E) (s z : SkipListSet E).

Lemma lchain_lvalue ln nd p g a r :
  lchain ln nd p g → (a, r) ∈ g →
  ∃ l, ln !! a = Some l ∧ lvalue l < Z.of_nat (length g).
Proof.
  revert p. induction g as [|[a' r'] g IH]; intros p Hg Hin; [by inversion Hin|].
  apply lchain_cons in Hg as (-> & l & Hl & Hv & _ & Hg).
  apply elem_of_cons in Hin as [?|Hin].
  - simplify_eq. exists l. split; [done|]. simpl. lia.
  - destruct (IH _ Hg Hin) as (l' & ? & ?). exists l'. split; [done|]. simpl. lia.
Qed.

Lemma lchain_nodup ln nd p g : lchain ln nd p g → NoDup g.*1.
Proof.
  revert p. induction g as [|[a r] g IH]; intros p Hg; [constructor|].
  pose proof Hg as Hg0. apply lchain_cons in Hg as (-> & l & Hl & Hv & _ & Hg).
  rewrite fmap_cons. apply NoDup_cons. split; [|by eapply IH].
  intros ((a' & r') & Heq & Hin)%list_elem_of_fmap. simpl in Heq. subst a'.
  destruct (lchain_lvalue _ _ _ _ _ _ Hg Hin) as (l' & ? & ?). simplify_eq. lia.
Qed.

Lemma lchain_size ln nd p g : lchain ln nd p g → (length g ≤ size ln)%nat.
Proof.
  intros Hg. rewrite <- (length_fmap fst). apply alloc_size; [by eapply lchain_nodup|].
  intros x ((a & r) & -> & Hin)%list_elem_of_fmap. by eapply lchain_lnodes_alloc.
Qed.

Lemma lvals_length g : length (lvals g) = length g.
Proof. induction g; simpl; congruence. Qed.

Lemma lvals_same g g' : length g = length g' → lvals g = lvals g'.
Proof.
  revert g'. induction g as [|x g IH]; intros [|x' g'] Hlen; simpl in *; try done.
  f_equal; [congruence|]. apply IH. congruence.
Qed.

(** Sortedness and sentinels are properties of the keys alone. *)
Lemma ascending_keys r r' : r'.*2 = r.*2 → ascending r → ascending r'.
Proof.
  revert r'. induction r as [|[a k] r IH]; intros r' Heq Hasc.
  { destruct r'; [constructor|done]. }
  destruct r' as [|[a' k'] r']; [done|].
  rewrite !fmap_cons in Heq. simpl in Heq. injection Heq as -> Heq.
  apply ascending_cons in Hasc as [Hall Hasc]. apply ascending_cons.
  split; [|by apply IH].
  apply Forall_forall. intros [b kb] Hin.
  assert (kb ∈ r.*2) as ((b0 & k0) & -> & Hin0)%list_elem_of_fmap.
  { rewrite <- Heq. apply list_elem_of_fmap. by exists (b, kb). }
  rewrite Forall_forall in Hall. apply (Hall _ Hin0).
Qed.

Lemma bracketed_keys r r' : r'.*2 = r.*2 → bracketed r → bracketed r'.
Proof.
  intros Heq [(a & k & H0 & Hk) (b & k' & Hl & Hk')]. split.
  - assert (r'.*2 !! 0%nat = Some k) as H0'.
    { by rewrite Heq, list_lookup_fmap, H0. }
    rewrite list_lookup_fmap in H0'. destruct (r' !! 0%nat) as [[a' k0]|]; [|done].
    simpl in H0'. simplify_eq. by exists a', k.
  - assert (last r'.*2 = Some k') as Hl'.
    { by rewrite Heq, fmap_last, Hl. }
    rewrite fmap_last in Hl'. destruct (last r') as [[b' k0]|]; [|done].
    simpl in Hl'. simplify_eq. by exists b', k'.
Qed.

Lemma keys_elem r r' a k : r'.*2 = r.*2 → (a, k) ∈ r' → ∃ a0, (a0, k) ∈ r.
Proof.
  intros Heq Hin.
  assert (k ∈ r.*2) as ((a0 & k0) & -> & Hin0)%list_elem_of_fmap.
  { rewrite <- Heq. apply list_elem_of_fmap. by exists (a, k). }
  by exists a0.
Qed.

Lemma matching_keys U L U' L' :
  U'.*2 = U.*2 → L'.*2 = L.*2 → matching U L → matching U' L'.
Proof.
  intros HU HL [H1 H2]. split.
  - intros a k Hin. destruct (keys_elem _ _ _ _ HU Hin) as (a0 & Hin0).
    destruct (H1 _ _ Hin0) as (b & k' & Hin1 & Hk).
    destruct (keys_elem L' L b k') as (b' & Hin'); [done|done|]. by exists b', k'.
  - intros b k' Hin. destruct (keys_elem _ _ _ _ HL Hin) as (b0 & Hin0).
    destruct (H2 _ _ Hin0) as (a & k & Hin1 & Hk).
    destruct (keys_elem U' U a k) as (a' & Hin'); [done|done|]. by exists a', k.
Qed.

Lemma tower_matching nd U L : tower nd U L → bracketed U → matching U L.
Proof.
  intros Ht [_ (b & kp & Hl & Hkp)]. split.
  - intros a k Hin. destruct (Ht a k Hin) as (_ & b' & k' & _ & _ & ? & ?). by exists b', k'.
  - intros b' k' _. exists b, kp. split; [by apply last_Some_elem_of|].
    unfold key_ltb, key_eqb. rewrite Hkp. destruct (kind k') eqn:Hk; simpl; auto.
Qed.

Lemma matchings_keys rs rs' :
  Forall2 (λ r r', r'.*2 = r.*2) rs rs' → matchings rs → matchings rs'.
Proof.
  induction 1 as [|r r' rs rs' Hr Hrs IH]; [done|]. simpl.
  intros (Ha & Hm & Hms). split_and!; [by eapply ascending_keys| |by apply IH].
  destruct Hrs as [|r2 r2' ? ? Hr2 _]; [done|]. by eapply matching_keys.
Qed.

Lemma towers_matchings nd rs :
  Forall (λ r, bracketed r ∧ ascending r) rs → towers nd rs → matchings rs.
Proof.
  induction rs as [|r rs IH]; [done|].
  intros [[Hbr Ha] Hrows]%Forall_cons [Ht Htow]. simpl.
  split_and!; [done| |by apply IH]. destruct rs; [done|]. by eapply tower_matching.
Qed.

Lemma wf_matchings s g : wf s g → matchings g.*2.
Proof. intros [_ Hrows Htow _ _ _]. by eapply towers_matchings. Qed.

Lemma deleteNode_loop_spec r : ∀ nd p fuel,
  chain nd p r → NoDup r.*1 → (length r ≤ fuel)%nat →
  ∃ nd', deleteNode_loop fuel nd p = Val nd' ∧ (∀ a, a ∉ r.*1 → nd' !! a = nd !! a).
Proof.
  induction r as [|[a k] r IH]; intros nd p fuel Hc Hnd Hfuel.
  - simpl in Hc. subst. exists nd. by destruct fuel.
  - apply chain_cons in Hc as (-> & n & Hn & _ & Hc).
    destruct fuel as [|fuel]; [simpl in Hfuel; lia|].
    rewrite fmap_cons in Hnd. apply NoDup_cons in Hnd as [Ha Hnd].
    simpl. rewrite Hn. simpl.
    destruct (IH (delete a nd) (next n) fuel) as (nd' & Hd & Hf).
    + eapply chain_frame; [|done]. intros a' k' Hin. apply lookup_delete_ne. intros ->.
      apply Ha. apply list_elem_of_fmap. by exists (a', k').
    + done.
    + simpl in Hfuel. lia.
    + exists nd'. split; [done|]. intros a' Ha'.
      apply not_elem_of_cons in Ha' as [? ?]. rewrite Hf by done.
      by apply lookup_delete_ne.
Qed.

Lemma vchain_alloc ln nd p g vs a r : vchain ln nd p g vs → (a, r) ∈ g → is_Some (ln !! a).
Proof.
  revert p vs. induction g as [|[a' r'] g IH]; intros p [|v vs] Hg Hin; simpl in Hg;
    try done; [by inversion Hin|].
  destruct Hg as (-> & l & ? & ? & Hc & Hg).
  apply elem_of_cons in Hin as [?|Hin]; simplify_eq; eauto.
Qed.

Lemma deleteSkipList_loop_spec g : ∀ ln nd p vs fuel,
  vchain ln nd p g vs → NoDup (mjoin g.*2).*1 → NoDup g.*1 → (length g ≤ fuel)%nat →
  ∃ res, deleteSkipList_loop fuel ln nd p = Val res.
Proof.
  induction g as [|[a r] g IH]; intros ln nd p vs fuel Hvc Hnd Hndh Hfuel.
  - destruct vs; [|done]. simpl in Hvc. subst. eexists. by destruct fuel.
  - destruct vs as [|v vs]; [done|]. simpl in Hvc.
    destruct Hvc as (-> & l & Hl & _ & Hc & Hvc).
    destruct fuel as [|fuel]; [simpl in Hfuel; lia|].
    rewrite fmap_cons in Hnd. rewrite fmap_cons in Hndh. simpl in Hnd.
    rewrite fmap_app in Hnd.
    apply NoDup_app in Hnd as (Hndr & Hdisj & Hnd). apply NoDup_cons in Hndh as [Ha Hndh].
    simpl. rewrite Hl. simpl. unfold deleteNode.
    destruct (deleteNode_loop_spec r nd (lnext l) (size nd)) as (nd' & -> & Hf);
      [done|done|by eapply chain_length|]. simpl.
    eapply (IH _ _ _ vs); [|done|done|simpl in Hfuel; lia].
    eapply vchain_frame; [| |done].
    + intros a' r' Hin. apply lookup_delete_ne. intros ->. apply Ha.
      apply list_elem_of_fmap. by exists (a', r').
    + intros a' k' Hin. apply Hf. intros Hin'. apply (Hdisj a' Hin').
      apply list_elem_of_fmap. by exists (a', k').
Qed.

Lemma deleteSkipList_ok z b :
  partial z → ∃ z', deleteSkipList (head z) z b = Ok tt z' b.
Proof.
  intros (g & vs & Hvc & Hnd & Hndh).
  destruct (deleteSkipList_loop_spec g _ _ _ vs (size (lnodes z)) Hvc Hnd Hndh) as (res & Hres).
  { rewrite <- (length_fmap fst). apply alloc_size; [done|].
    intros x ((a & r) & -> & Hin)%list_elem_of_fmap. by eapply vchain_alloc. }
  unfold deleteSkipList, mbind, lift, update. rewrite Hres. by eexists.
Qed.

Lemma wf_partial s g : wf s g → partial s.
Proof.
  intros [Hsh _ _ Hnd _ _]. exists g, (lvals g). split_and!; [|done|by eapply lchain_nodup].
  by apply vchain_lchain.
Qed.

End Build.

(** ** Copying a grid: what [build] returns *)

Section BuildSpec.
Implicit Types (nd : gmap loc (Node E)) (ln : gmap loc LNode) (r pre post U L : row E).
Implicit Types (rs : list (row E)) (g : grid E) (s z : SkipListSet E).

Lemma row_length_weight r rs : r ∈ rs → (length r ≤ weight rs)%nat.
Proof.
  unfold weight. induction rs as [|r' rs IH]; intros Hin; [by inversion Hin|].
  simpl. rewrite length_app. apply elem_of_cons in Hin as [->|Hin]; [lia|].
  specialize (IH Hin). lia.
Qed.

Lemma build_spec s g cl n :
  wf s g → g ≠ [] →
  hoarex (at_ (raw cl) n) (build s) (λ _ z' _, ∃ g', built g z' g') partial.
Proof.
  intros Hwf Hne. pose proof (wf_shape _ _ _ _ _ Hwf) as Hsh.
  pose proof (lchain_size _ _ _ _ Hsh) as Hsz.
  unfold build. eapply hoare_bind.
  { eapply hoare_conseq;
      [done|intros a z1 b1 H; exact H|
      |apply (linkLevels_loop_spec s g (size (lnodes s)) (head s) None (raw cl) n);
         [done|done|done]].
    intros z' (hs & Hnd & _ & Hsk & Hhd & _ & Hn). exists (empty_levels hs), hs.*2.
    rewrite empty_levels_nodes, empty_levels_fst. split_and!; [|constructor|done].
    rewrite Hhd. by apply hskel_vchain. }
  intros []. apply hoare_post_any. intros z1 n1 (hs & Hlink & Hvals).
  destruct Hlink as (Hnd & _ & Hsk & Hhd & _ & Hn).
  assert (length hs = length g) as Hlen.
  { by rewrite <- (length_fmap snd hs), Hvals, lvals_length. }
  eapply hoare_bind.
  { unfold linkNext. eapply hoare_step; [intros b; reflexivity|]. rewrite Hhd.
    eapply hoare_conseq;
      [done|intros a z2 b2 H; exact H|
      |apply (linkNext_loop_spec s g (size (lnodes s)) (head s) hs z1 n1); try done].
    - intros z' (g' & Hg1 & Hvc & _ & Hnd' & _ & _ & _ & Hhd'). exists g', hs.*2.
      split_and!; [|done|by rewrite Hg1]. by rewrite Hhd', Hhd.
    - apply Forall_forall. intros r Hr. etrans; [by apply row_length_weight|].
      by eapply wf_weight. }
  intros []. intros z2 b2 (g' & Hgrid & Hkeys).
  destruct Hgrid as (Hg1 & Hvc & Hgr & Hnd' & _ & _ & _ & Hhd').
  destruct hs as [|[ch v] hs]; [by destruct g|].
  destruct g' as [|[ch2 U] g']; [done|].
  rewrite !fmap_cons in Hg1. simpl in Hg1. injection Hg1 as -> Hg1.
  unfold linkBelow. rewrite Hhd', Hhd. simpl first_hdr.
  assert (matchings (U :: g'.*2)) as Hm.
  { eapply (matchings_keys g.*2); [done|]. by eapply wf_matchings. }
  assert (length g' < size (lnodes z2))%nat as Hfuel.
  { cut (length ((ch, U) :: g') ≤ size (lnodes z2))%nat; [simpl; lia|].
    rewrite <- (length_fmap fst). apply alloc_size.
    - rewrite fmap_cons. simpl. by rewrite Hg1.
    - intros x ((a & r) & -> & Hin)%list_elem_of_fmap. by eapply vchain_alloc. }
  pose proof (linkBelow_loop_spec partial g' (S (size (lnodes z2))) ch U _ z2 (S b2)
                Hvc Hm Hnd' Hgr (Nat.lt_lt_succ_r _ _ Hfuel) z2 b2
                (conj eq_refl (Nat.lt_succ_diag_r _))) as Hlb.
  destruct (linkBelow_loop (S (size (lnodes z2))) (Some ch) z2 b2) as [[] z3 b3| |];
    [|done..].
  destruct Hlb as (Ht & Hs & _ & Hln & Hhd3).
  exists ((ch, U) :: g'). split_and!; [|done|done|done].
  apply vchain_lchain. rewrite Hhd3, Hhd', Hhd, Hln. simpl first_hdr.
  replace (lvals ((ch, U) :: g')) with (((ch, v) :: hs).*2).
  - by eapply vchain_links_same.
  - rewrite Hvals. apply lvals_same. apply Forall2_length in Hkeys.
    by rewrite !length_fmap in Hkeys.
Qed.

End BuildSpec.

(** ** Copy construction and copy assignment *)

Section Copy.
Implicit Types (nd : gmap loc (Node E)) (ln : gmap loc LNode) (r : row E).
Implicit Types (rs : list (row E)) (g : grid E) (s z c t : SkipListSet E).

Lemma same_keys_length g g' : same_keys g g' → length g' = length g.
Proof.
  intros H%Forall2_length. by rewrite !length_fmap in H.
Qed.

Lemma same_keys_refl g : same_keys g g.
Proof. unfold same_keys. by apply Forall_Forall2_diag, Forall_forall. Qed.

Lemma rows_keys rs rs' :
  Forall2 (λ r r', r'.*2 = r.*2) rs rs' →
  Forall (λ r, bracketed r ∧ ascending r) rs →
  Forall (λ r, bracketed r ∧ ascending r) rs'.
Proof.
  induction 1 as [|r r' rs rs' Hr _ IH]; [done|].
  intros [[Hb Ha] Hrs]%Forall_cons. constructor; [|by apply IH].
  split; [by eapply bracketed_keys|by eapply ascending_keys].
Qed.

Lemma built_wf g z g' :
  Forall (λ r, bracketed r ∧ ascending r) g.*2 →
  Z.of_nat (length g) ≤ INT_MAX + 1 →
  built g z g' →
  wf_at (head z) (top_last g') (lnodes z) (nodes z) g'.
Proof.
  intros Hrows Hlev (Hsh & Htow & Hnd & Hk). split; try done.
  - by eapply rows_keys.
  - by rewrite (same_keys_length g g').
Qed.

Lemma bracketed_nonempty r : bracketed r → r ≠ [].
Proof. intros [(a & k & H0 & _) _] ->. done. Qed.

(** The tail of the copy, its element count and its tester. *)
Lemma finish_copy g z g' el cl b :
  g ≠ [] →
  Forall (λ r, bracketed r ∧ ascending r) g.*2 →
  Z.of_nat (length g) ≤ INT_MAX + 1 →
  built g z g' →
  match (updateTail;; update (set_elements el);;
         let! t := clone cl in update (set_levelTester t)) z b with
  | Ok _ c _ => wf c g' ∧ elements c = el ∧ levelTester c = cl
  | Throw c _ => wf c g' ∧ elements c = el ∧ levelTester c = levelTester z
  | Abort _ => False
  end.
Proof.
  intros Hne Hrows Hlev Hb.
  pose proof (built_wf _ _ _ Hrows Hlev Hb) as Hwf.
  destruct Hb as (Hsh & _ & Hnd & Hk).
  destruct g' as [|[la r] g''].
  { apply same_keys_length in Hk. destruct g; [done|discriminate Hk]. }
  apply lchain_cons in Hsh as (Hh & l & Hl & _ & Hc & _).
  assert (bracketed r) as Hbr.
  { pose proof (wf_rows _ _ _ _ _ Hwf) as Hr. rewrite fmap_cons in Hr.
    by apply Forall_cons in Hr as [[? _] _]. }
  assert (NoDup r.*1) as Hndr.
  { rewrite fmap_cons in Hnd. simpl in Hnd. rewrite fmap_app in Hnd.
    by apply NoDup_app in Hnd as [? _]. }
  unfold mbind at 1.
  rewrite (updateTail_ok z la l r b Hh Hl Hc Hndr (bracketed_nonempty _ Hbr)).
  unfold mbind, update, clone, alloc, mret. destruct b; simpl; by split_and!.
Qed.

(** The copy constructor: when it returns, the new object holds a grid with
    the keys of the source. *)
Lemma copy_construct_spec cl s g b :
  wf s g → g ≠ [] →
  match copy_construct cl s b with
  | Ok _ c _ => ∃ g', wf c g' ∧ same_keys g g' ∧ elements c = elements s ∧ levelTester c = cl
  | Throw _ _ => True
  | Abort f => f = SignedOverflow ∨ f = Uninitialised
  end.
Proof.
  intros Hwf Hne. unfold copy_construct, catch_rethrow.
  pose proof (build_spec s g cl (S b) Hwf Hne (raw cl) b
                (conj eq_refl (Nat.lt_succ_diag_r _))) as Hb.
  unfold mbind at 1.
  destruct (build s (raw cl) b) as [[] z b'|z b'|f].
  - destruct Hb as (g' & Hb).
    pose proof (finish_copy g z g' (elements s) cl b' Hne
                  (wf_rows _ _ _ _ _ Hwf) (wf_levels _ _ _ _ _ Hwf) Hb) as Hf.
    match type of Hf with match ?m with _ => _ end =>
      destruct m as [[] c b''|c b''|f] end; [| |done].
    + destruct Hf as (? & ? & ?). exists g'. split_and!; try done. apply Hb.
    + destruct Hf as (Hwfc & _).
      destruct (deleteSkipList_ok c b'' (wf_partial _ _ Hwfc)) as (c' & Hdel).
      unfold mbind, lift.
      destruct (head c) eqn:Hhc; [|by right]. by rewrite Hdel.
  - destruct (deleteSkipList_ok z b' Hb) as (z' & Hdel).
    unfold mbind, lift. destruct (head z) eqn:Hhz; [|by right]. by rewrite Hdel.
  - by left.
Qed.

(** The copy assignment.  A failure while the grid is built leaves the
    target as it was; when the member returns, the target holds a grid with
    the keys of the source; a failure of [clone], the one allocation
    after the old grid is gone, leaves the target with the new grid and its
    old tester. *)
Lemma copy_assign_spec cl s g t b :
  wf s g → g ≠ [] → partial t →
  match copy_assign cl s t b with
  | Ok _ t' _ =>
      ∃ g', wf t' g' ∧ same_keys g g' ∧ elements t' = elements s ∧ levelTester t' = cl
  | Throw t' _ =>
      t' = t
      ∨ (∃ z b', build s (raw cl) b = Ok tt z b')
        ∧ ∃ g', wf t' g' ∧ same_keys g g' ∧ elements t' = elements s
                ∧ levelTester t' = levelTester t
  | Abort f => f = SignedOverflow
  end.
Proof.
  intros Hwf Hne Ht. unfold copy_assign, catch_rethrow.
  pose proof (build_spec s g cl (S b) Hwf Hne (raw cl) b
                (conj eq_refl (Nat.lt_succ_diag_r _))) as Hb.
  destruct (build s (raw cl) b) as [[] z b'|z b'|f]; [| |done].
  - destruct Hb as (g' & Hb).
    destruct (deleteSkipList_ok t b' Ht) as (t0 & ->).
    set (z' := {| levelTester := levelTester t; elements := elements t;
                  head := head z; tail := tail t;
                  lnodes := lnodes z; nodes := nodes z |}).
    assert (built g z' g') as Hb' by exact Hb.
    pose proof (finish_copy g z' g' (elements s) cl b' Hne
                  (wf_rows _ _ _ _ _ Hwf) (wf_levels _ _ _ _ _ Hwf) Hb') as Hf.
    match type of Hf with match ?m with _ => _ end =>
      destruct m as [[] c b''|c b''|f] end; [| |done].
    + destruct Hf as (? & ? & ?). exists g'. split_and!; try done. apply Hb.
    + destruct Hf as (? & ? & ?). right. split; [by eauto|].
      exists g'. split_and!; try done. apply Hb.
  - destruct (deleteSkipList_ok z b' Hb) as (z' & Hdel).
    unfold mbind, lift. rewrite Hdel. by left.
Qed.

(** A failure while the replacement grid is built: the target is the one
    the caller had. *)
Lemma copy_assign_build_throws cl s g t b z b' :
  wf s g → g ≠ [] →
  build s (raw cl) b = Throw z b' →
  copy_assign cl s t b = Throw t b'.
Proof.
  intros Hwf Hne Hrun. unfold copy_assign, catch_rethrow.
  pose proof (build_spec s g cl (S b) Hwf Hne (raw cl) b
                (conj eq_refl (Nat.lt_succ_diag_r _))) as Hb.
  rewrite Hrun in *.
  destruct (deleteSkipList_ok z b' Hb) as (z' & Hdel).
  unfold mbind, lift. by rewrite Hdel.
Qed.

(** A source that was moved from cannot be copied: [linkBelow] reads
    [list->below] with [list] null. *)
Lemma build_moved_from cl s b :
  head s = None → build s (raw cl) b = Abort NullDeref.
Proof.
  intros Hh. unfold build, linkLevels, linkNext, linkBelow, mbind, lift. rewrite Hh.
  destruct (size (lnodes s)); simpl; done.
Qed.

End Copy.

(** ** The observers, in terms of the grid *)

Section Queries.
Implicit Types (nd : gmap loc (Node E)) (ln : gmap loc LNode) (r : row E).
Implicit Types (rs : list (row E)) (g : grid E) (s z c t : SkipListSet E).

Lemma levelCount_spec s g :
  wf s g → g ≠ [] → levelCount s = Val (Z.of_nat (length g)).
Proof.
  intros Hwf Hne. destruct g as [|[la r] g']; [done|].
  destruct (wf_head _ _ _ _ Hwf) as (Hh & l & Hl & Hv & _).
  pose proof (wf_levels _ _ _ _ _ Hwf) as Hlev.
  unfold levelCount. rewrite Hh. simpl. rewrite Hl. simpl. f_equal.
  rewrite Hv. simpl length in *. unfold INT_MAX, UINT_MOD in *.
  rewrite Z.mod_small; lia.
Qed.

Lemma getLevel_loop_spec ln nd level g : ∀ p fuel,
  lchain ln nd p g → (length g ≤ fuel)%nat →
  getLevel_loop fuel ln level p = Val (fst <$> find_level g level).
Proof.
  induction g as [|[a r] g IH]; intros p fuel Hg Hf.
  - simpl in Hg. subst. by destruct fuel.
  - apply lchain_cons in Hg as (-> & l & Hl & Hv & _ & Hg).
    destruct fuel as [|fuel]; [simpl in Hf; lia|]. simpl. rewrite Hl. simpl.
    rewrite Hv. destruct (Z.of_nat (length g) =? level); [done|].
    apply IH; [done|]. simpl in Hf. lia.
Qed.

Lemma getLevel_spec s g level :
  wf s g → getLevel level s = Val (fst <$> find_level g level).
Proof.
  intros Hwf. unfold getLevel. eapply getLevel_loop_spec; [apply Hwf|].
  eapply lchain_size, Hwf.
Qed.

Lemma find_level_elem g level a r : find_level g level = Some (a, r) → (a, r) ∈ g.
Proof.
  induction g as [|[a' r'] g IH]; simpl; [done|].
  destruct (Z.of_nat (length g) =? level).
  - intros [= -> ->]. left.
  - intros H. right. by apply IH.
Qed.

Lemma lchain_level ln nd p g a r :
  lchain ln nd p g → (a, r) ∈ g → ∃ l, ln !! a = Some l ∧ chain nd (lnext l) r.
Proof.
  revert p. induction g as [|[a' r'] g IH]; intros p Hg Hin; [by inversion Hin|].
  apply lchain_cons in Hg as (-> & l & Hl & _ & Hc & Hg).
  apply elem_of_cons in Hin as [[= -> ->]|Hin]; [by eauto|]. by eapply IH.
Qed.

Lemma wf_row_length s g a r : wf s g → (a, r) ∈ g → (length r ≤ size (nodes s))%nat.
Proof.
  intros Hwf Hin. etrans; [|by eapply wf_weight].
  apply row_length_weight, list_elem_of_fmap. by exists (a, r).
Qed.

Lemma count_loop_spec nd r : ∀ p fuel counter,
  chain nd p r → (length r ≤ fuel)%nat →
  count_loop fuel nd p counter = count_from (length r) counter.
Proof.
  induction r as [|[a k] r IH]; intros p fuel counter Hc Hf.
  - simpl in Hc. subst. by destruct fuel.
  - apply chain_cons in Hc as (-> & n & Hn & _ & Hc).
    destruct fuel as [|fuel]; [simpl in Hf; lia|]. simpl. rewrite Hn. simpl.
    destruct (int_incr counter) as [c'|]; [|done]. simpl.
    apply IH; [done|]. simpl in Hf. lia.
Qed.

Lemma find_loop_spec nd k r : ∀ p fuel,
  chain nd p r → (length r ≤ fuel)%nat →
  find_loop fuel nd k p = Val (existsb (key_eqb k) r.*2).
Proof.
  induction r as [|[a k'] r IH]; intros p fuel Hc Hf.
  - simpl in Hc. subst. by destruct fuel.
  - apply chain_cons in Hc as (-> & n & Hn & Hv & Hc).
    destruct fuel as [|fuel]; [simpl in Hf; lia|]. simpl. rewrite Hn. simpl.
    rewrite Hv. destruct (key_eqb k k'); [done|]. simpl.
    apply IH; [done|]. simpl in Hf. lia.
Qed.

Lemma elementsOnLevel_spec s g level :
  wf s g → elementsOnLevel level s = elements_on g level.
Proof.
  intros Hwf. unfold elementsOnLevel, elements_on. rewrite (getLevel_spec s g level Hwf).
  destruct (find_level g level) as [[a r]|] eqn:Hfl; [|done]. simpl.
  apply find_level_elem in Hfl.
  destruct (lchain_level _ _ _ _ _ _ (wf_shape _ _ _ _ _ Hwf) Hfl) as (l & Hl & Hc).
  rewrite Hl. simpl.
  by rewrite (count_loop_spec _ r _ _ _ Hc (wf_row_length _ _ _ _ Hwf Hfl)).
Qed.

Lemma isElementOnLevel_spec s g e level :
  wf s g → isElementOnLevel e level s = Val (is_on e g level).
Proof.
  intros Hwf. unfold isElementOnLevel, is_on. rewrite (getLevel_spec s g level Hwf).
  destruct (find_level g level) as [[a r]|] eqn:Hfl; [|done]. simpl.
  apply find_level_elem in Hfl.
  destruct (lchain_level _ _ _ _ _ _ (wf_shape _ _ _ _ _ Hwf) Hfl) as (l & Hl & Hc).
  rewrite Hl. simpl.
  by rewrite (find_loop_spec _ _ r _ _ Hc (wf_row_length _ _ _ _ Hwf Hfl)).
Qed.

(** *** Grids with the same keys answer alike *)

Lemma find_level_keys g g' level :
  same_keys g g' →
  match find_level g level, find_level g' level with
  | Some (_, r), Some (_, r') => r'.*2 = r.*2
  | None, None => True
  | _, _ => False
  end.
Proof.
  unfold same_keys. revert g'.
  induction g as [|[a r] g IH]; intros [|[a' r'] g'] Hk; try by inversion Hk.
  rewrite !fmap_cons in Hk. apply Forall2_cons in Hk as [Hr Hk]. simpl in Hr. simpl.
  rewrite (same_keys_length g g' Hk).
  destruct (Z.of_nat (length g) =? level); [done|]. by apply IH.
Qed.

Lemma elements_on_keys g g' level :
  same_keys g g' → elements_on g' level = elements_on g level.
Proof.
  intros Hk. pose proof (find_level_keys g g' level Hk) as H. unfold elements_on.
  destruct (find_level g level) as [[a r]|], (find_level g' level) as [[a' r']|];
    try done.
  apply (f_equal length) in H. rewrite !length_fmap in H. by rewrite H.
Qed.

Lemma is_on_keys e g g' level :
  same_keys g g' → is_on e g' level = is_on e g level.
Proof.
  intros Hk. pose proof (find_level_keys g g' level Hk) as H. unfold is_on.
  destruct (find_level g level) as [[a r]|], (find_level g' level) as [[a' r']|];
    try done.
  by rewrite H.
Qed.

Lemma found_in_keys k r r' : r'.*2 = r.*2 → found_in k r → found_in k r'.
Proof.
  intros Heq (a & k' & Hin & Hk).
  assert (k' ∈ r'.*2) as ((a' & k0) & -> & Hin')%list_elem_of_fmap.
  { rewrite Heq. apply list_elem_of_fmap. by exists (a, k'). }
  by exists a', k0.
Qed.

Lemma level0_keys g g' : same_keys g g' → (level0 g').*2 = (level0 g).*2.
Proof.
  unfold same_keys, level0. intros Hk.
  assert (∀ rs rs' : list (row E), Forall2 (λ r r', r'.*2 = r.*2) rs rs' →
          (default [] (last rs')).*2 = (default [] (last rs)).*2) as Hlast.
  { induction 1 as [|r r' rs rs' Hr Hrs IH]; [done|].
    destruct Hrs as [|r2 r2' rs rs' ? ?]; [done|]. by rewrite !last_cons_cons. }
  rewrite <- !fmap_last. by apply Hlast.
Qed.

Lemma member_keys e g g' : same_keys g g' → member e g ↔ member e g'.
Proof.
  intros Hk%level0_keys. unfold member. split; apply found_in_keys; done.
Qed.

Lemma contains_keys s g c g' e :
  wf s g → g ≠ [] → wf c g' → same_keys g g' → contains e c = contains e s.
Proof.
  intros Hs Hne Hc Hk.
  assert (g' ≠ []) as Hne'.
  { intros ->. apply same_keys_length in Hk. by destruct g. }
  pose proof (member_keys e g g' Hk) as Hm.
  destruct (contains_spec s g e Hs Hne) as [[? ->]|[? ->]],
           (contains_spec c g' e Hc Hne') as [[? ->]|[? ->]]; tauto.
Qed.

(** [contains] answers by the keys of level 0. *)
Lemma contains_existsb s g e :
  wf s g → g ≠ [] → contains e s = Val (existsb (key_eqb (nkey e)) (level0 g).*2).
Proof.
  intros Hwf Hne.
  assert (member e g ↔ existsb (key_eqb (nkey e)) (level0 g).*2 = true) as Hm.
  { unfold member, found_in. rewrite existsb_exists. split.
    - intros (a & k' & Hin & Hk). exists k'. split; [|by rewrite key_eqb_sym].
      apply list_elem_of_In, list_elem_of_fmap. by exists (a, k').
    - intros (k' & Hin & Hk).
      apply list_elem_of_In, list_elem_of_fmap in Hin as ((a & k0) & -> & Hin).
      exists a, k0. split; [done|]. by rewrite key_eqb_sym. }
  destruct (contains_spec s g e Hwf Hne) as [[H ->]|[H ->]]; f_equal.
  - symmetry. by apply Hm.
  - symmetry. apply not_true_is_false. by rewrite <- Hm.
Qed.

End Queries.

(** ** Construction, moves, and the states a program can reach *)

Section Lifecycle.
Implicit Types (nd : gmap loc (Node E)) (ln : gmap loc LNode) (r : row E).
Implicit Types (rs : list (row E)) (g : grid E) (s z c : SkipListSet E).

Lemma construct_returns t temp b :
  construct t temp (5 + b) = Ok tt (fresh_set t temp) b.
Proof. vm_compute. reflexivity. Qed.

Lemma construct_spec t temp b s b' :
  construct t temp b = Ok tt s b' → s = fresh_set t temp.
Proof.
  destruct b as [|[|[|[|[|b]]]]]; try (vm_compute; discriminate).
  change (S (S (S (S (S b))))) with (5 + b)%nat. rewrite construct_returns.
  by intros [= <- _].
Qed.

Lemma wf_fresh_set t temp : wf (fresh_set t temp) (empty_grid temp).
Proof.
  split.
  - apply lchain_cons. split; [done|]. eexists. split; [by vm_compute|].
    split; [done|]. split; [|done].
    apply chain_cons. split; [done|]. eexists. split; [by vm_compute|].
    split; [done|].
    apply chain_cons. split; [done|]. eexists. split; [by vm_compute|]. done.
  - constructor; [|constructor]. split.
    + split; eexists _, _; by split.
    + repeat constructor.
  - split; [|done]. intros a k Hin.
    apply elem_of_cons in Hin as [[= -> ->]|Hin]; [by eexists; split; [by vm_compute|]|].
    apply elem_of_cons in Hin as [[= -> ->]|Hin]; [by eexists; split; [by vm_compute|]|].
    by inversion Hin.
  - simpl. apply NoDup_cons. split; [|apply NoDup_singleton].
    intros Hin%list_elem_of_singleton. done.
  - done.
  - simpl. unfold INT_MAX. lia.
Qed.

Lemma empty_grid_no_member temp e : ¬ member e (empty_grid temp).
Proof.
  intros (a & k & Hin & Hk). unfold level0, empty_grid in Hin. simpl in Hin.
  apply key_eqb_kind in Hk.
  apply elem_of_cons in Hin as [[= -> ->]|Hin]; [done|].
  apply elem_of_cons in Hin as [[= -> ->]|Hin]; [done|]. by inversion Hin.
Qed.

(** *** Moves *)

Lemma wf_nil s : wf s [] ↔ head s = None ∧ tail s = None.
Proof.
  split.
  - intros [Hsh _ _ _ Ht _]. done.
  - intros [Hh Ht]. split; try done; simpl; constructor.
Qed.

Lemma move_construct_spec cl s g :
  wf s g → wf (move_construct cl s).1 g ∧ wf (move_construct cl s).2 [].
Proof.
  intros Hwf. split; [by destruct Hwf|]. by apply wf_nil.
Qed.

Lemma move_assign_spec cl t s g gt :
  wf s g → wf t gt → wf (move_assign cl t s).1 g ∧ wf (move_assign cl t s).2 gt.
Proof.
  intros Hs Ht. split; [by destruct Hs|by destruct Ht].
Qed.

(** *** A set that was moved from *)

Lemma search_null e m s : head s = None → search e m s = Crash NullDeref.
Proof. intros Hh. unfold search. by rewrite Hh. Qed.

Lemma contains_null e s : head s = None → contains e s = Crash NullDeref.
Proof. intros Hh. unfold contains. by rewrite search_null. Qed.

Lemma levelCount_null s : head s = None → levelCount s = Crash NullDeref.
Proof. intros Hh. unfold levelCount. by rewrite Hh. Qed.

Lemma add_null e s b : head s = None → add e s b = Abort NullDeref.
Proof. intros Hh. unfold add, mbind, lift. by rewrite search_null. Qed.

Lemma copy_construct_null cl s b : head s = None → copy_construct cl s b = Abort NullDeref.
Proof.
  intros Hh. unfold copy_construct, catch_rethrow, mbind.
  by rewrite build_moved_from.
Qed.

Lemma copy_assign_null cl s t b : head s = None → copy_assign cl s t b = Abort NullDeref.
Proof.
  intros Hh. unfold copy_assign, catch_rethrow. by rewrite build_moved_from.
Qed.

Lemma wf_head_null s g : wf s g → head s = None → g = [].
Proof.
  intros [Hsh _ _ _ _ _] Hh. destruct g as [|[a r] g]; [done|].
  apply lchain_cons in Hsh as (? & _). congruence.
Qed.

Lemma wf_head_some s g : wf s g → head s ≠ None → g ≠ [].
Proof. intros [Hsh _ _ _ _ _] Hh ->. done. Qed.

Lemma add_returns e s g b s' b' :
  wf s g → add e s b = Ok tt s' b' →
  g ≠ [] ∧ ¬ member e g
  ∧ ∃ g', wf s' g' ∧ g' ≠ [] ∧ spliced e (level0 g) (level0 g')
          ∧ elements s' = elements s + 1.
Proof.
  intros Hwf Hrun. destruct g as [|x g0] eqn:Hg.
  { apply wf_nil in Hwf as [Hh _]. by rewrite add_null in Hrun. }
  rewrite <- Hg in *. assert (g ≠ []) as Hne by by rewrite Hg.
  split; [done|].
  destruct (contains_spec s g e Hwf Hne) as [[Hm _]|[Hm _]].
  - destruct (decide (b < 2)%nat) as [Hb|Hb].
    + destruct (add_member_low s g e b Hwf Hne Hm Hb) as (b0 & Hr). congruence.
    + destruct b as [|[|b]]; [lia..|]. rewrite (add_member s g e b Hwf Hne Hm) in Hrun. done.
  - split; [done|].
    pose proof (add_spec s g e Hwf Hne Hm s b eq_refl) as Hs. by rewrite Hrun in Hs.
Qed.

Lemma add_returns_wf e s g b s' b' :
  wf s g → add e s b = Ok tt s' b' → ∃ g', wf s' g'.
Proof.
  intros Hwf Hrun.
  destruct (add_returns e s g b s' b' Hwf Hrun) as (_ & _ & g' & ? & _). by exists g'.
Qed.

Lemma reachable_wf s : reachable s → ∃ g, wf s g.
Proof.
  induction 1 as [t temp b s b' Hrun|e s b s' b' _ [g Hwf] Hrun
                  |cl s b c b' _ [g Hwf] Hrun
                  |cl s t b t' b' _ [g Hwf] _ [gt Hwft] Hrun
                  |cl s t b t' b' _ [g Hwf] _ [gt Hwft] Hrun
                  |cl s _ [g Hwf]|cl s _ [g Hwf]
                  |cl t s _ [gt Hwft] _ [g Hwf]|cl t s _ [gt Hwft] _ [g Hwf]].
  - apply construct_spec in Hrun as ->. exists (empty_grid temp). apply wf_fresh_set.
  - by apply (add_returns_wf e s g b s' b').
  - destruct (head s) eqn:Hh; [|by rewrite copy_construct_null in Hrun].
    assert (g ≠ []) as Hne by (eapply wf_head_some; [done|congruence]).
    pose proof (copy_construct_spec cl s g b Hwf Hne) as Hs. rewrite Hrun in Hs.
    destruct Hs as (g' & ? & _). by exists g'.
  - destruct (head s) eqn:Hh; [|by rewrite copy_assign_null in Hrun].
    assert (g ≠ []) as Hne by (eapply wf_head_some; [done|congruence]).
    pose proof (copy_assign_spec cl s g t b Hwf Hne (wf_partial _ _ Hwft)) as Hs.
    rewrite Hrun in Hs. destruct Hs as (g' & ? & _). by exists g'.
  - destruct (head s) eqn:Hh; [|by rewrite copy_assign_null in Hrun].
    assert (g ≠ []) as Hne by (eapply wf_head_some; [done|congruence]).
    pose proof (copy_assign_spec cl s g t b Hwf Hne (wf_partial _ _ Hwft)) as Hs.
    rewrite Hrun in Hs. destruct Hs as [->|[_ (g' & ? & _)]]; [by exists gt|by exists g'].
  - exists g. apply (move_construct_spec cl s g Hwf).
  - exists []. apply (move_construct_spec cl s g Hwf).
  - exists g. apply (move_assign_spec cl t s g gt Hwf Hwft).
  - exists gt. apply (move_assign_spec cl t s g gt Hwf Hwft).
Qed.

End Lifecycle.

(** ** [search] at a level, and what a run of [add]s leaves *)

Section Levels.
Implicit Types (nd : gmap loc (Node E)) (ln : gmap loc LNode) (r : row E).
Implicit Types (rs : list (row E)) (g : grid E) (s z : SkipListSet E).

Lemma towers_found_below nd k rs r0 rest r :
  towers nd (rs ++ r0 :: rest) → r ∈ rs → found_in k r → found_in k r0.
Proof.
  revert r. induction rs as [|r1 rs IH]; intros r Ht Hin Hf; [by inversion Hin|].
  simpl in Ht. destruct Ht as [Ht1 Ht].
  assert (found_in k r1 → found_in k r0) as Hr1.
  { intros Hf1. destruct rs as [|r2 rs]; simpl in *.
    - by eapply tower_found.
    - apply (IH r2 Ht); [left|]. by eapply tower_found. }
  apply elem_of_cons in Hin as [->|Hin]; [by apply Hr1|]. by apply (IH r).
Qed.

(** [search] at the level numbered [length g2]: null when the key is on that
    level, and otherwise the node of that level after which it belongs. *)
Lemma search_level_spec s g1 la r g2 e :
  wf s (g1 ++ (la, r) :: g2) →
  (found_in (nkey e) r ∧ search e (Z.of_nat (length g2)) s = Val None)
  ∨ (¬ found_in (nkey e) r
     ∧ ∃ c, search e (Z.of_nat (length g2)) s = Val (Some c) ∧ pred_in (nkey e) r c).
Proof.
  intros Hwf.
  destruct (search_spec s _ e (Z.of_nat (length g2)) Hwf) as (res & Hres & Hpost).
  { by destruct g1. }
  { rewrite length_app. simpl. lia. }
  rewrite fmap_app, fmap_cons in Hpost. simpl in Hpost.
  assert (length (g1.*2 ++ r :: g2.*2) = (length g1 + S (length g2))%nat) as Hlen.
  { rewrite length_app. simpl. by rewrite !length_fmap. }
  destruct res as [c|]; simpl in Hpost.
  - right. destruct Hpost as (r1 & Hi & Hp).
    replace (Z.to_nat _) with (length g1.*2) in Hi
      by (rewrite Hlen, length_fmap; lia).
    rewrite list_lookup_middle in Hi by done. simplify_eq.
    split; [|by exists c]. apply (pred_not_found _ _ c); [|done].
    eapply wf_ascending; [done|]. rewrite fmap_app. apply elem_of_app. right. left.
  - left. split; [|done]. destruct Hpost as (i & r1 & Hi & Hle & Hf).
    rewrite Hlen in Hle.
    destruct (decide (i = length g1.*2)) as [->|Hne].
    + rewrite list_lookup_middle in Hi by done. by simplify_eq.
    + rewrite lookup_app_l in Hi by (rewrite length_fmap in *; lia).
      pose proof (wf_towers _ _ _ _ _ Hwf) as Ht. rewrite fmap_app in Ht.
      apply list_elem_of_lookup_2 in Hi. by eapply towers_found_below.
Qed.

(** One round of the loop of [search] at a node whose right neighbour holds
    a larger key: the node is returned when the level is [minLevel] (or
    lower), and [below] is followed only when it is higher. *)
Lemma search_loop_down fuel nd newKey minLevel a n a' n' level :
  nd !! a = Some n → key_eqb (value n) newKey = false →
  next n = Some a' → nd !! a' = Some n' → key_ltb newKey (value n') = true →
  level ≠ INT_MIN →
  search_loop (S fuel) nd newKey minLevel (Some a) level =
    if level - 1 <? minLevel then Val (Some a)
    else search_loop fuel nd newKey minLevel (below n) (level - 1).
Proof.
  intros Hn Hne Hnx Hn' Hlt Hlev. simpl. rewrite Hn. simpl. rewrite Hne, Hnx. simpl.
  rewrite Hn'. simpl. rewrite Hlt. unfold int_decr.
  destruct (Z.eqb_spec level INT_MIN); [done|]. done.
Qed.

Lemma towers_lookup nd rs i r r' :
  towers nd rs → rs !! i = Some r → rs !! S i = Some r' → tower nd r r'.
Proof.
  revert i. induction rs as [|r0 rs IH]; intros i Ht Hi Hi'; [done|].
  destruct Ht as [Ht0 Ht]. destruct i as [|i].
  - simpl in Hi, Hi'. simplify_eq. destruct rs as [|r1 rs]; [done|].
    simpl in Hi'. by simplify_eq.
  - by apply (IH i).
Qed.

(** Above level 0 every node points down to a node of the set. *)
Lemma wf_below s g i r a k :
  wf s g → g.*2 !! i = Some r → (S i < length g)%nat → (a, k) ∈ r →
  ∃ n b, nodes s !! a = Some n ∧ below n = Some b ∧ is_Some (nodes s !! b).
Proof.
  intros Hwf Hi Hlt Hin.
  destruct (lookup_lt_is_Some_2 g.*2 (S i)) as [r' Hi']; [by rewrite length_fmap|].
  pose proof (towers_lookup _ _ _ _ _ (wf_towers _ _ _ _ _ Hwf) Hi Hi') as Ht.
  destruct (Ht a k Hin) as (n & b & k' & Hn & Hb & Hin' & _).
  exists n, b. split_and!; [done..|].
  eapply lchain_nodes_alloc; [apply Hwf|]. apply list_elem_of_join.
  exists r'. split; [done|]. by eapply list_elem_of_lookup_2.
Qed.

(** *** Membership after [add] *)

Lemma spliced_found e e' r r' :
  spliced e r r' → found_in (nkey e') r' ↔ found_in (nkey e') r ∨ e' = e.
Proof.
  intros (pre & c & kc & a & d & kd & post & -> & -> & _ & _). unfold found_in. split.
  - intros (x & k & Hin & Hk).
    rewrite elem_of_app, !elem_of_cons in Hin.
    destruct Hin as [Hin|[Hin|[Hin|[Hin|Hin]]]].
    + left. exists x, k. split; [|done]. rewrite elem_of_app. by left.
    + left. exists x, k. split; [|done]. rewrite elem_of_app, !elem_of_cons. tauto.
    + right. simplify_eq. unfold nkey in Hk. apply key_eqb_normal in Hk. by simplify_eq.
    + left. exists x, k. split; [|done]. rewrite elem_of_app, !elem_of_cons. tauto.
    + left. exists x, k. split; [|done]. rewrite elem_of_app, !elem_of_cons. tauto.
  - intros [(x & k & Hin & Hk)| ->].
    + exists x, k. split; [|done]. rewrite elem_of_app, !elem_of_cons in *. tauto.
    + exists a, (nkey e). split; [|apply key_eqb_refl].
      rewrite elem_of_app, !elem_of_cons. tauto.
Qed.

Lemma add_all_spec es : ∀ s g b s' b',
  wf s g → g ≠ [] → add_all es s b = Ok tt s' b' →
  (NoDup es ∧ ∀ e, e ∈ es → ¬ member e g)
  ∧ ∃ g', wf s' g' ∧ g' ≠ [] ∧ ∀ e, member e g' ↔ member e g ∨ e ∈ es.
Proof.
  induction es as [|e0 es IH]; intros s g b s' b' Hwf Hne Hrun.
  - simpl in Hrun. injection Hrun as <- _. split.
    { split; [constructor|]. intros e Hin. by apply elem_of_nil in Hin. }
    exists g. split_and!; [done..|].
    intros e. rewrite elem_of_nil. tauto.
  - simpl in Hrun. unfold mbind in Hrun.
    destruct (add e0 s b) as [[] s1 b1| |] eqn:Hadd; [|done..].
    destruct (add_returns e0 s g b s1 b1 Hwf Hadd)
      as (_ & Hnm & g1 & Hwf1 & Hne1 & Hsp & _).
    destruct (IH s1 g1 b1 s' b' Hwf1 Hne1 Hrun)
      as ((Hnd & Hfresh) & g' & Hwf' & Hne' & Hmem).
    assert (∀ e, member e g1 ↔ member e g ∨ e = e0) as Hm1.
    { intros e. unfold member. by rewrite (spliced_found _ _ _ _ Hsp). }
    split.
    { split.
      - apply NoDup_cons. split; [|done]. intros Hin. apply (Hfresh e0 Hin).
        apply Hm1. by right.
      - intros e [->|Hin]%elem_of_cons; [done|]. intros Hm. apply (Hfresh e Hin).
        apply Hm1. by left. }
    exists g'. split_and!; [done..|].
    intros e. rewrite Hmem, Hm1, elem_of_cons. tauto.
Qed.

Lemma existsb_elt (e : E) es : existsb (elt_eqb e) es = true ↔ e ∈ es.
Proof.
  rewrite existsb_exists. split.
  - intros (x & Hin & ->%elt_eqb_eq). by apply list_elem_of_In.
  - intros Hin. exists e. split; [by apply list_elem_of_In|apply elt_eqb_refl].
Qed.

(** With fewer than two allocations left [add] gives up before it has
    touched the set. *)
Lemma add_low_budget e s b c :
  search e 0 s = Val c → (b < 2)%nat → add e s b = Throw s 0.
Proof.
  intros Hs Hb. unfold add, mbind, lift. rewrite Hs.
  destruct b as [|[|b]]; [done..|lia].
Qed.

End Levels.

(** ** Runs of [add] that are sure to return *)

Section AddReturns.
Implicit Types (g : grid E) (s : SkipListSet E).

(** [add] of an element that is not in the set, which the tester does not
    promote, with two allocations available and the count below [INT_MAX]. *)
Lemma add_returns_ok e s g b :
  wf s g → g ≠ [] → ¬ member e g →
  policy (levelTester s) (asked (levelTester s)) e = false →
  elements s ≠ INT_MAX →
  ∃ s', add e s (S (S b)) = Ok tt s' b ∧ policy (levelTester s') = policy (levelTester s).
Proof.
  intros Hwf Hne Hnm Hpol Hel.
  destruct (search0_spec s g e Hwf Hne) as [[? _]|[_ (c & Hs & Hp)]]; [done|].
  destruct (exists_last Hne) as (g1 & [l0 r0] & ->). rewrite level0_snoc in *.
  destruct Hp as (pre & kc & d & kd & post & -> & Hlt & Hgt).
  destruct (wf_row_node _ _ _ _ _ _ _ _ Hwf) as (nc & Hc & Hk & Hnx).
  pose proof (fresh_loc_spec (nodes s)) as Hfresh.
  assert (fresh_loc (nodes s) ≠ c) as Hac by congruence.
  unfold add, mbind, lift, catch_rethrow, alloc, store_Node, set_next, write_Node,
    update, mret.
  rewrite Hs. simpl. rewrite Hc. simpl.
  unfold mbind, lift, update, mret. simpl. rewrite lookup_insert_ne by done. rewrite Hc.
  unfold int_incr. simpl. destruct (Z.eqb_spec (elements s) INT_MAX); [done|]. simpl.
  rewrite Hpol. by eexists.
Qed.

(** With a tester that never promotes, elements that are new and distinct,
    and two allocations for each, the [add]s all return. *)
Lemma add_all_returns es : ∀ s g b,
  wf s g → g ≠ [] → NoDup es → (∀ e, e ∈ es → ¬ member e g) →
  (∀ h e, policy (levelTester s) h e = false) →
  elements s + Z.of_nat (length es) ≤ INT_MAX →
  ∃ s', add_all es s (2 * length es + b)%nat = Ok tt s' b.
Proof.
  induction es as [|e0 es IH]; intros s g b Hwf Hne Hnd Hfresh Hpol Hel.
  { by exists s. }
  apply NoDup_cons in Hnd as [Hnin Hnd]. simpl length in *.
  replace (2 * S (length es) + b)%nat with (S (S (2 * length es + b)))%nat by lia.
  destruct (add_returns_ok e0 s g (2 * length es + b)%nat Hwf Hne) as (s1 & Hadd & Hpol1).
  { apply Hfresh. left. }
  { apply Hpol. }
  { lia. }
  destruct (add_returns e0 s g _ s1 _ Hwf Hadd) as (_ & _ & g1 & Hwf1 & Hne1 & Hsp & Hel1).
  destruct (IH s1 g1 b Hwf1 Hne1 Hnd) as (s' & Hrun).
  - intros e Hin Hm. unfold member in Hm. rewrite (spliced_found _ _ _ _ Hsp) in Hm.
    destruct Hm as [Hm| ->]; [|done]. apply (Hfresh e); [by right|done].
  - intros h e. rewrite Hpol1. apply Hpol.
  - lia.
  - exists s'. cbn [add_all]. unfold mbind. by rewrite Hadd.
Qed.

End AddReturns.

(** ** The copying members do no [int] arithmetic *)

Section NoOverflow.
Implicit Types (s z : SkipListSet E).

Lemma noov_ret {A} (a : A) : no_overflow (mret a).
Proof. by intros s b. Qed.

Lemma noov_bind {A B} (m : M A) (k : A → M B) :
  no_overflow m → (∀ a, no_overflow (k a)) → no_overflow (mbind m k).
Proof.
  intros Hm Hk s b. unfold mbind. specialize (Hm s b).
  destruct (m s b) as [a s' b'| |f]; [apply Hk|done|].
  intros [= ->]. by apply Hm.
Qed.

Lemma noov_lift {A} (f : SkipListSet E → result A) :
  (∀ s, f s ≠ Crash SignedOverflow) → no_overflow (lift f).
Proof.
  intros Hf s b. unfold lift. specialize (Hf s). destruct (f s); congruence.
Qed.

Lemma noov_update (f : SkipListSet E → SkipListSet E) : no_overflow (update f).
Proof. by intros s b. Qed.

Lemma noov_alloc : no_overflow alloc.
Proof. intros s b. unfold alloc. by destruct b. Qed.

Lemma noov_catch {A} (m : M A) (h : M unit) :
  no_overflow m → no_overflow h → no_overflow (catch_rethrow m h).
Proof.
  intros Hm Hh s b. unfold catch_rethrow. specialize (Hm s b).
  destruct (m s b) as [a s' b'|s' b'|f]; [done| |done].
  specialize (Hh s' b'). destruct (h s' b') as [| |f]; [done..|].
  intros [= ->]. by apply Hh.
Qed.

Lemma deref_no_overflow {A} (m : gmap loc A) p : deref m p ≠ Crash SignedOverflow.
Proof. unfold deref. destruct p as [a|]; [|done]. by destruct (m !! a). Qed.

Lemma noov_deref {A} (f : SkipListSet E → gmap loc A) (p : SkipListSet E → option loc) :
  no_overflow (lift (λ s, deref (f s) (p s))).
Proof. apply noov_lift. intros s. apply deref_no_overflow. Qed.

Lemma noov_store_Node n : no_overflow (store_Node (E:=E) n).
Proof. by intros s b. Qed.

Lemma noov_store_LNode l : no_overflow (store_LNode (E:=E) l).
Proof. by intros s b. Qed.

Lemma noov_write_Node f p : no_overflow (write_Node (E:=E) f p).
Proof.
  apply noov_bind; [apply (noov_deref nodes (λ _, p))|].
  intros n. destruct p; [apply noov_update|apply noov_ret].
Qed.

Lemma noov_write_LNode f p : no_overflow (write_LNode (E:=E) f p).
Proof.
  apply noov_bind; [apply (noov_deref lnodes (λ _, p))|].
  intros n. destruct p; [apply noov_update|apply noov_ret].
Qed.

Lemma updateTail_loop_no_overflow fuel : ∀ (nd : gmap loc (Node E)) p tl,
  updateTail_loop fuel nd p tl ≠ Crash SignedOverflow.
Proof.
  induction fuel as [|fuel IH]; intros nd p tl; destruct p as [a|]; simpl; try done.
  destruct (nd !! a); simpl; [apply IH|done].
Qed.

Lemma noov_updateTail : no_overflow updateTail.
Proof.
  apply noov_bind; [apply (noov_deref lnodes head)|]. intros h.
  apply noov_bind; [|intros; apply noov_update].
  apply noov_lift. intros s. apply updateTail_loop_no_overflow.
Qed.

Lemma deleteNode_loop_no_overflow fuel : ∀ (nd : gmap loc (Node E)) n,
  deleteNode_loop fuel nd n ≠ Crash SignedOverflow.
Proof.
  induction fuel as [|fuel IH]; intros nd n; destruct n as [a|]; simpl; try done.
  destruct (nd !! a); simpl; [apply IH|done].
Qed.

Lemma deleteSkipList_loop_no_overflow fuel : ∀ ln (nd : gmap loc (Node E)) p,
  deleteSkipList_loop fuel ln nd p ≠ Crash SignedOverflow.
Proof.
  induction fuel as [|fuel IH]; intros ln nd p; destruct p as [a|]; simpl; try done.
  destruct (ln !! a) as [l|]; simpl; [|done].
  pose proof (deleteNode_loop_no_overflow (size nd) nd (lnext l)) as Hd.
  unfold deleteNode. destruct (deleteNode_loop _ nd (lnext l)); simpl; [apply IH|congruence].
Qed.

Lemma noov_deleteSkipList list : no_overflow (deleteSkipList list).
Proof.
  apply noov_bind; [|intros; apply noov_update].
  apply noov_lift. intros s. apply deleteSkipList_loop_no_overflow.
Qed.

Lemma noov_linkLevels_loop s fuel : ∀ p current,
  no_overflow (linkLevels_loop fuel s p current).
Proof.
  induction fuel as [|fuel IH]; intros p current; destruct p as [a|]; simpl;
    try apply noov_ret; [by intros ? ?|].
  apply noov_bind; [apply noov_alloc|]. intros _.
  apply noov_bind; [apply (noov_deref (λ _, lnodes s) (λ _, Some a))|]. intros pl.
  apply noov_bind; [apply noov_store_LNode|]. intros temp.
  apply noov_bind; [|intros; apply IH].
  destruct current; [apply noov_write_LNode|apply noov_update].
Qed.

Lemma noov_linkNext_row s fuel : ∀ n current curr,
  no_overflow (linkNext_row fuel s n current curr).
Proof.
  induction fuel as [|fuel IH]; intros n current curr; destruct n as [a|]; simpl;
    try apply noov_ret; [by intros ? ?|].
  apply noov_bind; [apply noov_alloc|]. intros _.
  apply noov_bind; [apply noov_alloc|]. intros _.
  apply noov_bind; [apply (noov_deref (λ _, nodes s) (λ _, Some a))|]. intros sn.
  apply noov_bind; [apply noov_store_Node|]. intros temp.
  apply noov_bind; [|intros; apply IH].
  destruct curr; [apply noov_write_Node|apply noov_write_LNode].
Qed.

Lemma noov_linkNext_loop s fuel : ∀ p current,
  no_overflow (linkNext_loop fuel s p current).
Proof.
  induction fuel as [|fuel IH]; intros p current; destruct p as [a|]; simpl;
    try apply noov_ret; [by intros ? ?|].
  apply noov_bind; [apply (noov_deref (λ _, lnodes s) (λ _, Some a))|]. intros pl.
  apply noov_bind; [apply noov_linkNext_row|]. intros _.
  apply noov_bind; [apply (noov_deref lnodes (λ _, current))|]. intros c.
  apply IH.
Qed.

Lemma noov_linkBelow_row fuel : ∀ p curr,
  no_overflow (linkBelow_row fuel p curr).
Proof.
  induction fuel as [|fuel IH]; intros p curr; destruct p as [a|]; simpl;
    try apply noov_ret; [by intros ? ?|].
  apply noov_bind; [apply (noov_deref nodes (λ _, curr))|]. intros cn.
  apply noov_bind; [apply (noov_deref nodes (λ _, Some a))|]. intros pn.
  destruct (key_eqb (value cn) (value pn)); [|apply IH].
  apply noov_bind; [apply noov_write_Node|]. intros _.
  apply noov_bind; [apply (noov_deref nodes (λ _, curr))|]. intros cn'.
  apply noov_bind; [apply (noov_deref nodes (λ _, Some a))|]. intros pn'.
  apply IH.
Qed.

Lemma noov_linkBelow_loop fuel : ∀ current,
  no_overflow (linkBelow_loop fuel current).
Proof.
  induction fuel as [|fuel IH]; intros current; simpl; [by intros ? ?|].
  apply noov_bind; [apply (noov_deref lnodes (λ _, current))|]. intros c.
  destruct (lbelow c) as [cb|] eqn:Hcb; [|apply noov_ret].
  apply noov_bind; [apply (noov_deref lnodes (λ _, Some cb))|]. intros l.
  apply noov_bind; [|intros; apply IH].
  intros z b. apply noov_linkBelow_row.
Qed.

Lemma noov_build s : no_overflow (build s).
Proof.
  apply noov_bind; [apply noov_linkLevels_loop|]. intros _.
  apply noov_bind.
  - apply noov_bind; [by apply noov_lift|]. intros list. apply noov_linkNext_loop.
  - intros _ z b. apply noov_linkBelow_loop.
Qed.

Lemma noov_clone cl : no_overflow (clone cl).
Proof. apply noov_bind; [apply noov_alloc|]. intros _. apply noov_ret. Qed.

Lemma noov_finish el cl :
  no_overflow (updateTail;; update (set_elements el);;
                      let! t := clone cl in update (set_levelTester t)).
Proof.
  apply noov_bind; [apply noov_updateTail|]. intros _.
  apply noov_bind; [apply noov_update|]. intros _.
  apply noov_bind; [apply noov_clone|]. intros t. apply noov_update.
Qed.

Lemma copy_assign_no_overflow cl s (t : SkipListSet E) b :
  copy_assign cl s t b ≠ Abort SignedOverflow.
Proof.
  unfold copy_assign.
  pose proof (noov_catch (build s)
                (let! temp := lift (λ g, Val (head g)) in deleteSkipList temp)
                (noov_build s)) as Hc.
  specialize (Hc ltac:(apply noov_bind; [by apply noov_lift|intros; apply noov_deleteSkipList])
                 (raw cl) b).
  destruct (catch_rethrow _ _ (raw cl) b) as [[] z b'|z b'|f]; [|done|done].
  pose proof (noov_deleteSkipList (head t) t b') as Hd.
  destruct (deleteSkipList (head t) t b') as [[] t0 b''|t0 b''|f]; [|done|done].
  apply noov_finish.
Qed.

Lemma copy_construct_no_overflow cl s b :
  copy_construct cl s b ≠ Abort SignedOverflow.
Proof.
  unfold copy_construct. apply noov_catch.
  - apply noov_bind; [apply noov_build|]. intros _. apply noov_finish.
  - apply noov_bind; [|intros; apply noov_deleteSkipList].
    apply noov_lift. intros z. by destruct (head z).
Qed.

End NoOverflow.

(** ** How many allocations a copy asks for *)

Section Budget.
Implicit Types (g : grid E) (s z : SkipListSet E).

Lemma wb_weaken {A} n n' (m : M A) :
  within_budget n m → (n ≤ n')%nat → within_budget n' m.
Proof.
  intros Hm Hle s k. specialize (Hm s (k + (n' - n))%nat).
  replace (n + (k + (n' - n)))%nat with (n' + k)%nat in Hm by lia.
  destruct (m s (n' + k)%nat); [lia|done..].
Qed.

Lemma wb_ret {A} (a : A) : within_budget 0 (mret a).
Proof. intros s k. simpl. lia. Qed.

Lemma wb_lift {A} (f : SkipListSet E → result A) : within_budget 0 (lift f).
Proof. intros s k. unfold lift. destruct (f s); simpl; [lia|done]. Qed.

Lemma wb_update (f : SkipListSet E → SkipListSet E) : within_budget 0 (update f).
Proof. intros s k. simpl. lia. Qed.

Lemma wb_alloc : within_budget 1 alloc.
Proof. intros s k. simpl. lia. Qed.

Lemma wb_store_Node n : within_budget 0 (store_Node n).
Proof. intros s k. simpl. lia. Qed.

Lemma wb_store_LNode l : within_budget 0 (store_LNode l).
Proof. intros s k. simpl. lia. Qed.

Lemma wb_bind {A B} n n' (m : M A) (f : A → M B) :
  within_budget n m → (∀ a, within_budget n' (f a)) → within_budget (n + n') (mbind m f).
Proof.
  intros Hm Hf s k. unfold mbind. specialize (Hm s (n' + k)%nat).
  replace (n + n' + k)%nat with (n + (n' + k))%nat by lia.
  destruct (m s (n + (n' + k))%nat) as [a s' b'| |]; [|done..].
  specialize (Hf a s' (b' - n')%nat).
  replace (n' + (b' - n'))%nat with b' in Hf by lia.
  destruct (f a s' b'); [lia|done..].
Qed.

(** Reading a value that is known beforehand. *)
Lemma wb_read {A B} n (r : result A) (a : A) (f : A → M B) :
  r = Val a → within_budget n (f a) → within_budget n (mbind (lift (λ _, r)) f).
Proof. intros -> Hf s k. unfold mbind, lift. apply Hf. Qed.

Lemma wb_catch {A} n (m : M A) (h : M unit) :
  within_budget n m → within_budget n (catch_rethrow m h).
Proof.
  intros Hm s k. unfold catch_rethrow. specialize (Hm s k).
  by destruct (m s (n + k)%nat).
Qed.

Lemma wb_write_Node f p : within_budget 0 (write_Node (E:=E) f p).
Proof.
  apply (wb_bind 0 0); [apply wb_lift|].
  intros n. destruct p; [apply wb_update|apply wb_ret].
Qed.

Lemma wb_write_LNode f p : within_budget 0 (write_LNode (E:=E) f p).
Proof.
  apply (wb_bind 0 0); [apply wb_lift|].
  intros n. destruct p; [apply wb_update|apply wb_ret].
Qed.

Lemma wb_linkLevels_loop s g : ∀ p fuel current,
  lchain (lnodes s) (nodes s) p g →
  within_budget (length g) (linkLevels_loop fuel s p current).
Proof.
  induction g as [|[a r] g IH]; intros p fuel current Hg.
  - simpl in Hg. subst. destruct fuel; apply wb_ret.
  - apply lchain_cons in Hg as (-> & l & Hl & _ & _ & Hg).
    destruct fuel as [|fuel]; [by intros ? ?|]. simpl.
    apply (wb_bind 1 (length g)); [apply wb_alloc|]. intros _.
    eapply wb_read; [by rewrite Hl|].
    apply (wb_bind 0 (length g)); [apply wb_store_LNode|]. intros temp.
    apply (wb_bind 0 (length g)); [|intros _; by apply IH].
    destruct current; [apply wb_write_LNode|apply wb_update].
Qed.

Lemma wb_linkNext_row s r : ∀ n fuel current curr,
  chain (nodes s) n r →
  within_budget (2 * length r) (linkNext_row fuel s n current curr).
Proof.
  induction r as [|[a k] r IH]; intros n fuel current curr Hc.
  - simpl in Hc. subst. destruct fuel; apply wb_ret.
  - apply chain_cons in Hc as (-> & x & Hx & _ & Hc).
    destruct fuel as [|fuel]; [by intros ? ?|]. simpl linkNext_row.
    apply (wb_weaken (1 + (1 + 2 * length r))); [|simpl; lia].
    apply wb_bind; [apply wb_alloc|]. intros _.
    apply wb_bind; [apply wb_alloc|]. intros _.
    eapply wb_read; [by rewrite Hx|].
    apply (wb_bind 0); [apply wb_store_Node|]. intros temp.
    apply (wb_bind 0); [|intros _; by apply IH].
    destruct curr; [apply wb_write_Node|apply wb_write_LNode].
Qed.

Lemma wb_linkNext_loop s g : ∀ p fuel current,
  lchain (lnodes s) (nodes s) p g →
  within_budget (2 * weight g.*2) (linkNext_loop fuel s p current).
Proof.
  induction g as [|[a r] g IH]; intros p fuel current Hg.
  - simpl in Hg. subst. destruct fuel; apply wb_ret.
  - apply lchain_cons in Hg as (-> & l & Hl & _ & Hc & Hg).
    destruct fuel as [|fuel]; [by intros ? ?|]. simpl linkNext_loop.
    apply (wb_weaken (2 * length r + (0 + 2 * weight g.*2))).
    2:{ unfold weight. rewrite fmap_cons. simpl. rewrite length_app. lia. }
    eapply wb_read; [by rewrite Hl|].
    apply wb_bind; [by apply wb_linkNext_row|]. intros _.
    apply wb_bind; [apply wb_lift|]. intros c. by apply IH.
Qed.

Lemma wb_linkBelow_row fuel : ∀ p curr,
  within_budget 0 (linkBelow_row (E:=E) fuel p curr).
Proof.
  induction fuel as [|fuel IH]; intros p curr; destruct p as [a|]; simpl;
    try apply wb_ret; [by intros ? ?|].
  apply (wb_bind 0 0); [apply wb_lift|]. intros cn.
  apply (wb_bind 0 0); [apply wb_lift|]. intros pn.
  destruct (key_eqb (value cn) (value pn)); [|apply IH].
  apply (wb_bind 0 0); [apply wb_write_Node|]. intros _.
  apply (wb_bind 0 0); [apply wb_lift|]. intros cn'.
  apply (wb_bind 0 0); [apply wb_lift|]. intros pn'.
  apply IH.
Qed.

Lemma wb_linkBelow_loop fuel : ∀ current,
  within_budget 0 (linkBelow_loop (E:=E) fuel current).
Proof.
  induction fuel as [|fuel IH]; intros current; simpl; [by intros ? ?|].
  apply (wb_bind 0 0); [apply wb_lift|]. intros c.
  destruct (lbelow c) as [cb|]; [|apply wb_ret].
  apply (wb_bind 0 0); [apply wb_lift|]. intros l.
  apply (wb_bind 0 0); [|intros; apply IH].
  intros z k. apply wb_linkBelow_row.
Qed.

Lemma wb_build s g : wf s g → within_budget (copy_cost g) (build s).
Proof.
  intros Hwf. pose proof (wf_shape _ _ _ _ _ Hwf) as Hsh. unfold build, copy_cost.
  apply wb_bind; [by apply wb_linkLevels_loop|]. intros _.
  apply (wb_weaken (2 * weight g.*2 + 0)); [|lia].
  apply wb_bind.
  - apply (wb_bind 0); [apply wb_lift|]. intros list. by apply wb_linkNext_loop.
  - intros _ z k. apply wb_linkBelow_loop.
Qed.

Lemma copy_cost_size s g : wf s g → (copy_cost g ≤ size (lnodes s) + 2 * size (nodes s))%nat.
Proof.
  intros Hwf. unfold copy_cost.
  pose proof (lchain_size _ _ _ _ (wf_shape _ _ _ _ _ Hwf)).
  pose proof (wf_weight _ _ Hwf). lia.
Qed.

(** With that many allocations available the three passes return. *)
Lemma build_returns cl s g k :
  wf s g → g ≠ [] →
  ∃ z b', build s (raw cl) (copy_cost g + k)%nat = Ok tt z b' ∧ (k ≤ b')%nat
          ∧ ∃ g', built g z g'.
Proof.
  intros Hwf Hne.
  pose proof (wb_build s g Hwf (raw cl) k) as Hwb.
  pose proof (build_spec s g cl (S (copy_cost g + k)) Hwf Hne (raw cl) (copy_cost g + k)%nat
                (conj eq_refl (Nat.lt_succ_diag_r _))) as Hb.
  pose proof (noov_build s (raw cl) (copy_cost g + k)%nat) as Hno.
  destruct (build s (raw cl) (copy_cost g + k)%nat) as [[] z b'| |f]; [|done|congruence].
  by exists z, b'.
Qed.

Lemma copy_construct_returns cl s g b :
  wf s g → g ≠ [] → (copy_cost g + 1 ≤ b)%nat →
  ∃ c b', copy_construct cl s b = Ok tt c b'.
Proof.
  intros Hwf Hne Hb. replace b with (copy_cost g + (b - copy_cost g))%nat by lia.
  destruct (build_returns cl s g (b - copy_cost g) Hwf Hne) as (z & b' & Hrun & Hle & g' & Hg').
  unfold copy_construct, catch_rethrow. unfold mbind at 1. rewrite Hrun.
  pose proof (finish_copy g z g' (elements s) cl b' Hne
                (wf_rows _ _ _ _ _ Hwf) (wf_levels _ _ _ _ _ Hwf) Hg') as Hf.
  assert (within_budget 1 (updateTail;; update (set_elements (elements s));;
                           let! t := clone cl in update (set_levelTester (E:=E) t))) as Hwb.
  { apply (wb_bind 0 1).
    - apply (wb_bind 0 0); [apply wb_lift|]. intros h.
      apply (wb_bind 0 0); [apply wb_lift|]. intros t. apply wb_update.
    - intros _. apply (wb_bind 0 1); [apply wb_update|]. intros _.
      apply (wb_bind 1 0); [|intros; apply wb_update].
      apply (wb_bind 1 0); [apply wb_alloc|]. intros _. apply wb_ret. }
  specialize (Hwb z (b' - 1)%nat). replace (1 + (b' - 1))%nat with b' in Hwb by lia.
  match type of Hf with match ?m with _ => _ end =>
    destruct m as [[] c b''|c b''|f] end; [by eauto|done..].
Qed.

Lemma copy_assign_returns cl s g (t : SkipListSet E) b :
  wf s g → g ≠ [] → partial t → (copy_cost g + 1 ≤ b)%nat →
  ∃ t' b', copy_assign cl s t b = Ok tt t' b'.
Proof.
  intros Hwf Hne Ht Hb. replace b with (copy_cost g + (b - copy_cost g))%nat by lia.
  destruct (build_returns cl s g (b - copy_cost g) Hwf Hne) as (z & b' & Hrun & Hle & g' & Hg').
  unfold copy_assign, catch_rethrow. rewrite Hrun.
  destruct (deleteSkipList_ok t b' Ht) as (t0 & ->).
  set (z' := {| levelTester := levelTester t; elements := elements t;
                head := head z; tail := tail t;
                lnodes := lnodes z; nodes := nodes z |}).
  assert (built g z' g') as Hb' by exact Hg'.
  pose proof (finish_copy g z' g' (elements s) cl b' Hne
                (wf_rows _ _ _ _ _ Hwf) (wf_levels _ _ _ _ _ Hwf) Hb') as Hf.
  assert (within_budget 1 (updateTail;; update (set_elements (elements s));;
                           let! t := clone cl in update (set_levelTester (E:=E) t))) as Hwb.
  { apply (wb_bind 0 1).
    - apply (wb_bind 0 0); [apply wb_lift|]. intros h.
      apply (wb_bind 0 0); [apply wb_lift|]. intros t1. apply wb_update.
    - intros _. apply (wb_bind 0 1); [apply wb_update|]. intros _.
      apply (wb_bind 1 0); [|intros; apply wb_update].
      apply (wb_bind 1 0); [apply wb_alloc|]. intros _. apply wb_ret. }
  specialize (Hwb z' (b' - 1)%nat). replace (1 + (b' - 1))%nat with b' in Hwb by lia.
  match type of Hf with match ?m with _ => _ end =>
    destruct m as [[] c b''|c b''|f] end; [by eauto|done..].
Qed.

End Budget.

(** ** A logic for what a member keeps *)

Section KeepsLogic.
Implicit Types (nd : gmap loc (Node E)) (ln : gmap loc LNode) (r pre post U L : row E).
Implicit Types (rs : list (row E)) (g : grid E) (s z : SkipListSet E).

Lemma keeps_bind {A B} P (m : M A) Q (k : A → M B) R X :
  keeps P m Q X → (∀ a, keeps (Q a) (k a) R X) → keeps P (mbind m k) R X.
Proof.
  intros Hm Hk s b HP. specialize (Hm s b HP). unfold mbind.
  destruct (m s b) as [a s' b'| |]; [|done..]. by apply Hk.
Qed.

Lemma keeps_conseq {A} (P P' : SkipListSet E → nat → Prop) (m : M A)
    (Q Q' : A → SkipListSet E → nat → Prop) (X X' : SkipListSet E → Prop) :
  (∀ s b, P' s b → P s b) → (∀ a s b, Q a s b → Q' a s b) → (∀ s, X s → X' s) →
  keeps P m Q X → keeps P' m Q' X'.
Proof.
  intros HP HQ HX Hm s b H. specialize (Hm s b (HP _ _ H)).
  destruct (m s b); [by apply HQ|by apply HX|done].
Qed.

Lemma keeps_ret {A} (a : A) (P : SkipListSet E → nat → Prop) Q X :
  (∀ s b, P s b → Q a s b) → keeps P (mret a) Q X.
Proof. intros H s b HP. by apply H. Qed.

Lemma keeps_step {A B} s0 (m : M A) (k : A → M B) R X a s1 :
  (∀ b, m s0 b = Ok a s1 b) → keeps (is_ s1) (k a) R X →
  keeps (is_ s0) (mbind m k) R X.
Proof. intros Hm Hk s b ->. unfold mbind. rewrite Hm. by apply Hk. Qed.

Lemma keeps_last {A} s0 (m : M A) a s1 (Q : A → SkipListSet E → nat → Prop) X :
  (∀ b, m s0 b = Ok a s1 b) → (∀ b, Q a s1 b) → keeps (is_ s0) m Q X.
Proof. intros Hm HQ s b ->. rewrite Hm. by apply HQ. Qed.

Lemma keeps_alloc {B} s0 (k : unit → M B) R (X : SkipListSet E → Prop) :
  X s0 → keeps (is_ s0) (k tt) R X → keeps (is_ s0) (mbind alloc k) R X.
Proof.
  intros HX Hk s b ->. unfold mbind, alloc. destruct b as [|b]; [done|]. by apply Hk.
Qed.

Lemma keeps_lift {A B} s0 (f : SkipListSet E → result A) (k : A → M B) R X :
  match f s0 with
  | Val a => keeps (is_ s0) (k a) R X
  | Crash _ => True
  end →
  keeps (is_ s0) (mbind (lift f) k) R X.
Proof.
  intros Hk s b ->. unfold mbind, lift. destruct (f s0) as [a|]; [|done]. by apply Hk.
Qed.

Lemma keeps_store_Node {B} s0 (x : Node E) (k : loc → M B) R X :
  (∀ a, nodes s0 !! a = None →
        keeps (is_ (set_nodes (<[a:=x]> (nodes s0)) s0)) (k a) R X) →
  keeps (is_ s0) (mbind (store_Node x) k) R X.
Proof.
  intros Hk. eapply keeps_step; [intros b; reflexivity|]. apply Hk, fresh_loc_spec.
Qed.

Lemma keeps_store_LNode {B} s0 (x : LNode) (k : loc → M B) R X :
  (∀ a, lnodes s0 !! a = None →
        keeps (is_ (set_lnodes (<[a:=x]> (lnodes s0)) s0)) (k a) R X) →
  keeps (is_ s0) (mbind (store_LNode x) k) R X.
Proof.
  intros Hk. eapply keeps_step; [intros b; reflexivity|]. apply Hk, fresh_loc_spec.
Qed.

Lemma keeps_post {B} (P : SkipListSet E → Prop) (m : M B) R X :
  (∀ s1, P s1 → keeps (is_ s1) m R X) → keeps (λ s _, P s) m R X.
Proof. intros H s b HP. by apply (H s HP). Qed.

End KeepsLogic.

(** ** The invariant of an intact set, and the one every set has *)

Section SafeInvariant.
Implicit Types (nd : gmap loc (Node E)) (ln : gmap loc LNode) (r pre post U L : row E).
Implicit Types (rs : list (row E)) (g : grid E) (s z : SkipListSet E).

Lemma bracketed_opened r : bracketed r → opened r.
Proof. by intros [? _]. Qed.

Lemma tower_stower nd U L :
  tower nd U L → (∀ a k, (a, k) ∈ L → is_Some (nd !! a)) → ascending L → stower nd U L.
Proof.
  intros Ht Hal HaL a k Hin. destruct (Ht a k Hin) as (n & b & k' & Hn & Hb & Hin' & Hk).
  exists n, b. split_and!; [done|done|by eapply Hal|by eauto|].
  intros Hpos [_ (c & kc & Hl & Hkc)]. exists k'.
  apply list_elem_of_split in Hin' as (pre & post & ->).
  destruct post as [|x post]; [by rewrite last_snoc|]. exfalso.
  assert (kind k' = PosInf) as Hk' by (by rewrite <- (key_eqb_kind _ _ Hk)).
  unfold ascending in HaL. apply StronglySorted_app in HaL as (_ & _ & HaL).
  apply StronglySorted_cons in HaL as [HaL _].
  apply Forall_inv in HaL. unfold key_lt, key_ltb in HaL. simpl in HaL.
  by rewrite Hk' in HaL.
Qed.

Lemma towers_stowers nd rs :
  towers nd rs → Forall ascending rs →
  (∀ a k, (a, k) ∈ mjoin rs → is_Some (nd !! a)) → stowers nd rs.
Proof.
  induction rs as [|r rs IH]; [done|]. intros [Ht Hts] [Ha Has]%Forall_cons Hal.
  split.
  - destruct rs as [|r' rs]; [done|]. apply tower_stower; [done| |].
    + intros a k ?. apply (Hal a k). simpl. set_solver.
    + by apply Forall_inv in Has.
  - apply IH; [done..|]. intros a k ?. apply (Hal a k). simpl. set_solver.
Qed.

Lemma wf_safe s g : wf s g → safe s g.
Proof.
  intros Hwf. pose proof Hwf as [Hsh Hrows Htow Hnd Htl Hlv].
  assert (∀ a k, (a, k) ∈ mjoin g.*2 → is_Some (nodes s !! a)) as Hal.
  { intros a k ?. by eapply lchain_nodes_alloc. }
  split; try done.
  - eapply Forall_impl; [exact Hrows|]. intros r [? ?]. split; [done|].
    right. by apply bracketed_opened.
  - destruct g as [|x g]; simpl; [done|]. rewrite fmap_cons in Hrows.
    apply Forall_cons in Hrows as [_ Hrows].
    eapply Forall_impl; [exact Hrows|]. intros r [[(a & k & H0 & _) _] _] ->. done.
  - destruct (decide (g = [])) as [->|Hne]; [by right|left].
    destruct (exists_last Hne) as (g1 & [l0 r0] & ->). rewrite level0_snoc.
    rewrite Forall_forall in Hrows. apply Hrows. rewrite fmap_app. set_solver.
  - apply towers_stowers; [done| |done].
    eapply Forall_impl; [exact Hrows|]. by intros r [_ ?].
  - unfold stail. destruct g as [|[la r] g]; [done|].
    simpl in Htl. rewrite fmap_cons in Hrows. apply Forall_cons in Hrows as [[Hbr _] _].
    simpl in Hbr. destruct Hbr as [_ (b & k & Hl & _)].
    exists b. rewrite Htl, Hl. split_and!; [done| |done].
    apply (Hal b k). simpl. apply elem_of_app. left. by apply last_Some_elem_of.
Qed.

Lemma stower_tower nd U L : stower nd U L → bracketed L → ascending U → tower nd U L.
Proof.
  intros Ht Hbr HaU a k Hin. destruct (Ht a k Hin) as (n & b & Hn & Hb & _ & Hnp & Hp).
  exists n, b. destruct (decide (kind k = PosInf)) as [Hk|Hk].
  - destruct (Hp Hk Hbr) as (k' & Hl). exists k'. split_and!; [done|done| |].
    + by apply last_Some_elem_of.
    + destruct Hbr as [_ (c & kc & Hl' & Hkc)]. simplify_eq.
      unfold key_eqb. rewrite Hk, Hkc. done.
  - destruct (Hnp Hk) as (k' & ? & ?). by exists k'.
Qed.

Lemma safe_wf s g : safe s g → Forall bracketed g.*2 → wf s g.
Proof.
  intros [Hsh Hrows Hun Hbot Htow Hnd Htl Hlv] Hbr. split; try done.
  - rewrite Forall_forall in *. intros r Hr. split; [by apply Hbr|by apply Hrows].
  - clear -Htow Hbr Hrows. induction g.*2 as [|r rs IH]; [done|].
    apply Forall_cons in Hbr as [Hb Hbs]. apply Forall_cons in Hrows as [[Ha _] Hrs].
    destruct Htow as [Ht Hts]. split; [|by apply IH].
    destruct rs as [|r' rs]; [done|]. apply stower_tower; [done| |done].
    by apply Forall_inv in Hbs.
  - unfold stail in Htl. destruct g as [|[la r] g]; [done|].
    destruct Htl as (t & -> & _ & Ht). simpl. symmetry. apply Ht.
    by apply Forall_inv in Hbr.
Qed.

End SafeInvariant.

(** ** [search] in any state *)

Section SafeSearch.
Implicit Types (nd : gmap loc (Node E)) (ln : gmap loc LNode) (r pre post U L : row E).
Implicit Types (rs : list (row E)) (g : grid E) (s z : SkipListSet E).

Lemma key_ltb_not_posinf (k k' : SkipListKey E) : key_ltb k k' = true → kind k ≠ PosInf.
Proof. unfold key_ltb. by destruct (kind k). Qed.

Lemma ssearch_loop_spec nd e minLevel fuel : ∀ rs pre a k post,
  srows_ok nd ((pre ++ (a, k) :: post) :: rs) →
  key_ltb (nkey e) k = false →
  0 ≤ minLevel ≤ Z.of_nat (length rs) →
  Z.of_nat (length rs) ≤ INT_MAX →
  (S (length post) + weight rs ≤ fuel)%nat →
  ∃ res, search_loop fuel nd (nkey e) minLevel (Some a) (Z.of_nat (length rs)) = Val res
         ∧ search_some (nkey e) minLevel ((pre ++ (a, k) :: post) :: rs) res.
Proof.
  induction fuel as [|fuel IH]; intros rs pre a k post Hok Hle Hmin Hmax Hfuel; [lia|].
  destruct Hok as [Hrows Htow].
  pose proof (Forall_inv Hrows) as (Hch & Hasc). simpl in Hch, Hasc.
  destruct (chain_next _ _ _ _ _ _ Hch) as (n & Hn & Hk & Hnext).
  simpl. rewrite Hn. simpl. rewrite Hk.
  destruct (key_eqb k (nkey e)) eqn:Heq.
  { exists None. split; [done|]. by intros c. }
  assert (Hlt : key_ltb k (nkey e) = true) by by apply key_ltb_total.
  destruct post as [|[d kd] post].
  { (* the level ends here: the loop runs off its end *)
    simpl in Hnext. rewrite Hnext. simpl. exists None. split; [by destruct fuel|].
    by intros c. }
  simpl in Hnext. rewrite Hnext.
  change (pre ++ (a, k) :: (d, kd) :: post) with (pre ++ [(a, k)] ++ (d, kd) :: post) in Hch.
  rewrite app_assoc in Hch.
  destruct (chain_next _ _ _ _ _ _ Hch) as (n' & Hn' & Hk' & _).
  simpl. rewrite Hn'. simpl. rewrite Hk'.
  destruct (key_ltb (nkey e) kd) eqn:Hgt.
  - unfold int_decr. destruct (Z.eqb_spec (Z.of_nat (length rs)) INT_MIN) as [Hm|_].
    { unfold INT_MIN in Hm. lia. }
    simpl. destruct (Z.ltb_spec (Z.of_nat (length rs) - 1) minLevel) as [Hstop|Hdown].
    + exists (Some a). split; [done|]. intros c [= <-]. eexists. split.
      * simpl. replace (Z.to_nat _) with 0%nat by lia. done.
      * exists pre, k, d, kd, post. done.
    + destruct rs as [|r' rs]; [simpl in *; lia|].
      simpl in Htow. destruct Htow as [Htw Htow].
      destruct (Htw a k) as (n2 & b & Hn2 & Hb & _ & Hnp & _).
      { set_solver. }
      destruct (Hnp (key_ltb_not_posinf _ _ Hlt)) as (k' & Hin & Hkk').
      simplify_eq. rewrite Hb.
      apply list_elem_of_split in Hin as (pre' & post' & ->).
      replace (Z.of_nat (length ((pre' ++ (b, k') :: post') :: rs)) - 1)
        with (Z.of_nat (length rs)) by (simpl; lia).
      destruct (IH rs pre' b k' post') as (res & Hres & Hpost).
      * split; [by eapply Forall_inv_tail|done].
      * by rewrite <- (key_ltb_eqb_r _ _ _ Hkk').
      * simpl in *. lia.
      * simpl in *. lia.
      * unfold weight in *. simpl in Hfuel. rewrite !length_app in Hfuel.
        simpl in Hfuel. lia.
      * exists res. split; [done|]. intros c Hc.
        destruct (Hpost c Hc) as (r0 & Hlk & Hp). exists r0. split; [|done].
        simpl length in Hlk, Hdown |- *.
        replace (Z.to_nat (Z.of_nat (S (S (length rs))) - 1 - minLevel))
          with (S (Z.to_nat (Z.of_nat (S (length rs)) - 1 - minLevel))) by lia.
        done.
  - destruct (IH rs (pre ++ [(a, k)]) d kd post) as (res & Hres & Hpost).
    + rewrite <- app_assoc. by split.
    + done.
    + done.
    + done.
    + simpl in Hfuel. lia.
    + exists res. by rewrite <- app_assoc in Hpost.
Qed.

Lemma safe_head s la r g :
  safe s ((la, r) :: g) →
  head s = Some la ∧ ∃ l, lnodes s !! la = Some l ∧ lvalue l = Z.of_nat (length g)
    ∧ lnext l = first_addr r ∧ chain (nodes s) (lnext l) r.
Proof.
  intros [Hsh _ _ _ _ _ _ _]. apply lchain_cons in Hsh as (? & l & ? & ? & Hc & _).
  split; [done|]. exists l. split_and!; [done..| |done]. by eapply chain_head.
Qed.

Lemma safe_rows_ok s g : safe s g → srows_ok (nodes s) g.*2.
Proof.
  intros [Hsh Hrows _ _ Htow _ _ _]. split; [|done].
  apply lchain_rows in Hsh. rewrite Forall_forall in *. intros r Hr.
  destruct (Hrows r Hr). split; [|done]. by apply Hsh.
Qed.

Lemma safe_weight s g : safe s g → (weight g.*2 ≤ size (nodes s))%nat.
Proof.
  intros [Hsh _ _ _ _ Hnd _ _]. unfold weight. rewrite <- (length_fmap fst).
  apply alloc_size; [done|].
  intros x ((a & k) & -> & Hin)%list_elem_of_fmap. by eapply lchain_nodes_alloc.
Qed.

Lemma safe_row_node s g1 la pre c kc post g2 :
  safe s (g1 ++ (la, pre ++ (c, kc) :: post) :: g2) →
  ∃ nc, nodes s !! c = Some nc ∧ value nc = kc ∧ next nc = first_addr post.
Proof.
  intros [Hrows _]%safe_rows_ok. rewrite Forall_forall in Hrows.
  destruct (Hrows (pre ++ (c, kc) :: post)) as (Hc & _).
  { rewrite fmap_app. apply elem_of_app. right. left. }
  by eapply chain_next.
Qed.

(** [search] returns in every state that has a grid, and a node it returns
    is the one after which the element belongs on level [minLevel]. *)
Lemma ssearch_spec s g e minLevel :
  safe s g → g ≠ [] → 0 ≤ minLevel ≤ Z.of_nat (length g) - 1 →
  ∃ res, search e minLevel s = Val res ∧ search_some (nkey e) minLevel g.*2 res.
Proof.
  intros Hwf Hne Hmin. destruct g as [|[la r] g]; [done|].
  destruct (safe_head _ _ _ _ Hwf) as (Hh & h & Hl & Hv & Hnx & Hch).
  pose proof (safe_rows_ok _ _ Hwf) as Hok. pose proof (safe_weight _ _ Hwf) as Hw.
  pose proof (safe_levels _ _ _ _ _ Hwf) as Hlv.
  pose proof (safe_rows _ _ _ _ _ Hwf) as Hr. rewrite fmap_cons in Hr.
  apply Forall_inv in Hr as [_ Hop]. simpl in Hop.
  unfold search. rewrite Hh. simpl. rewrite Hl. simpl. rewrite Hnx, Hv.
  destruct Hop as [->|(a0 & k0 & Hr0 & Hk0)].
  { simpl. exists None. split; [by destruct (size (nodes s))|]. by intros c. }
  destruct r as [|[a1 k1] r]; [done|]. simpl in Hr0. simplify_eq. simpl first_addr.
  assert (to_int (Z.of_nat (length g)) = Z.of_nat (length g.*2)) as ->.
  { rewrite length_fmap. unfold to_int. simpl in Hlv.
    destruct (Z.leb_spec (Z.of_nat (length g)) INT_MAX); [done|lia]. }
  destruct (ssearch_loop_spec (nodes s) e minLevel (size (nodes s)) g.*2 [] a0 k0 r)
    as (res & Hres & Hpost).
  - done.
  - by apply nkey_lt_neginf.
  - rewrite length_fmap. simpl in Hmin. lia.
  - rewrite length_fmap. simpl in Hlv. lia.
  - unfold weight in *. rewrite fmap_cons in Hw. simpl in Hw.
    rewrite length_app in Hw. simpl in Hw. lia.
  - by exists res.
Qed.

(** [search] at the level numbered [length g2], in any state: it returns,
    and a node it returns is the one after which the element belongs on
    that level. *)
Lemma ssearch_level_spec s g1 la r g2 e :
  safe s (g1 ++ (la, r) :: g2) →
  ∃ res, search e (Z.of_nat (length g2)) s = Val res
         ∧ ∀ c, res = Some c → pred_in (nkey e) r c.
Proof.
  intros Hwf.
  destruct (ssearch_spec s _ e (Z.of_nat (length g2)) Hwf) as (res & Hres & Hpost).
  { by destruct g1. }
  { rewrite length_app. simpl. lia. }
  exists res. split; [done|]. intros c Hc.
  destruct (Hpost c Hc) as (r0 & Hi & Hp).
  rewrite fmap_app, fmap_cons in Hi.
  replace (Z.to_nat _) with (length g1.*2) in Hi.
  2:{ rewrite length_app. simpl. rewrite !length_fmap. lia. }
  rewrite list_lookup_middle in Hi by done. by simplify_eq.
Qed.

Lemma stowers_lookup nd rs i r r' :
  stowers nd rs → rs !! i = Some r → rs !! S i = Some r' → stower nd r r'.
Proof.
  revert i. induction rs as [|r0 rs IH]; intros i Ht Hi Hi'; [done|].
  destruct Ht as [Ht0 Ht]. destruct i as [|i].
  - simpl in Hi, Hi'. simplify_eq. destruct rs as [|r1 rs]; [done|].
    simpl in Hi'. by simplify_eq.
  - by apply (IH i).
Qed.

(** In any state, every node of a level above level 0 points down to a
    node of the set. *)
Lemma safe_below s g i r a k :
  safe s g → g.*2 !! i = Some r → (S i < length g)%nat → (a, k) ∈ r →
  ∃ n b, nodes s !! a = Some n ∧ below n = Some b ∧ is_Some (nodes s !! b).
Proof.
  intros Hs Hi Hlt Hin.
  destruct (lookup_lt_is_Some_2 g.*2 (S i)) as [r' Hi']; [by rewrite length_fmap|].
  destruct (stowers_lookup _ _ _ _ _ (safe_towers _ _ _ _ _ Hs) Hi Hi' a k Hin)
    as (n & b & ? & ? & ? & _).
  by exists n, b.
Qed.

End SafeSearch.

(** ** Splicing a node into a level, in any state *)

Section SafeInsert.
Implicit Types (nd : gmap loc (Node E)) (ln : gmap loc LNode) (r pre post U L : row E).
Implicit Types (rs : list (row E)) (g : grid E) (s z : SkipListSet E).

Lemma bracketed_insert_inv pre (c d x : loc * SkipListKey E) post :
  bracketed (pre ++ c :: x :: d :: post) → bracketed (pre ++ c :: d :: post).
Proof.
  intros [(a & k & H0 & Hk) (b & k' & Hl & Hk')]. split.
  - exists a, k. split; [|done]. by destruct pre.
  - exists b, k'. split; [|done].
    rewrite last_app in Hl |- *. simpl in *. done.
Qed.

Lemma opened_insert pre (c d x : loc * SkipListKey E) post :
  opened (pre ++ c :: x :: d :: post)
  ↔ opened (pre ++ c :: d :: post).
Proof. unfold opened. by destruct pre. Qed.

Lemma stower_frame nd nd' U L :
  (∀ a k, (a, k) ∈ U → nd' !! a = nd !! a) →
  (∀ x, is_Some (nd !! x) → is_Some (nd' !! x)) →
  stower nd U L → stower nd' U L.
Proof.
  intros Hsame Hal Ht a k Hin. destruct (Ht a k Hin) as (n & b & ? & ? & ? & ? & ?).
  exists n, b. rewrite (Hsame a k) by done. split_and!; [done|done|by apply Hal|done..].
Qed.

Lemma stower_mono nd U L L' :
  L ⊆ L' → (bracketed L' → bracketed L) → last L' = last L →
  stower nd U L → stower nd U L'.
Proof.
  intros Hsub Hbr Hl Ht a k Hin. destruct (Ht a k Hin) as (n & b & ? & ? & ? & Hnp & Hp).
  exists n, b. split_and!; [done..| |].
  - intros Hk. destruct (Hnp Hk) as (k' & ? & ?). exists k'. split; [by apply Hsub|done].
  - intros Hk Hb. rewrite Hl. by apply Hp, Hbr.
Qed.

Lemma stowers_frame nd nd' rs :
  (∀ a k, (a, k) ∈ mjoin rs → nd' !! a = nd !! a) →
  (∀ x, is_Some (nd !! x) → is_Some (nd' !! x)) →
  stowers nd rs → stowers nd' rs.
Proof.
  induction rs as [|r rs IH]; simpl; [done|]. intros Hsame Hal [H1 H2]. split.
  - destruct rs.
    + eapply grounded_frame; [|done]. intros a k ?. apply (Hsame a k). set_solver.
    + eapply stower_frame; [|done|done]. intros a k ?. apply (Hsame a k). set_solver.
  - apply IH; [|done|done]. intros a k ?. apply (Hsame a k). set_solver.
Qed.

Lemma stowers_update nd nd' rs1 r r' rs2 :
  stowers nd (rs1 ++ r :: rs2) →
  (∀ a k, (a, k) ∈ mjoin rs1 ++ mjoin rs2 → nd' !! a = nd !! a) →
  (∀ x, is_Some (nd !! x) → is_Some (nd' !! x)) →
  r ⊆ r' → (bracketed r' → bracketed r) → last r' = last r →
  match rs2 with
  | [] => grounded nd' r'
  | rb :: _ => stower nd' r' rb
  end →
  stowers nd' (rs1 ++ r' :: rs2).
Proof.
  intros Ht Hsame Hal Hsub Hbr Hl Hr'. induction rs1 as [|r0 rs1 IH]; simpl in *.
  - destruct Ht as [_ Ht]. split; [done|].
    eapply stowers_frame; [|done|done]. intros a k ?. by apply (Hsame a k).
  - destruct Ht as [Ht0 Ht]. split.
    + assert (∀ a k, (a, k) ∈ r0 → nd' !! a = nd !! a) as Hr0.
      { intros a k ?. apply (Hsame a k). rewrite <- app_assoc, elem_of_app. by left. }
      destruct rs1 as [|r1 rs1]; simpl in *.
      * eapply stower_frame; [done|done|]. by eapply stower_mono.
      * by eapply stower_frame.
    + apply IH; [done|]. intros a k ?. apply (Hsame a k).
      rewrite <- app_assoc, elem_of_app. by right.
Qed.

Lemma level0_middle g1 (x x' : loc * row E) g2 :
  g2 ≠ [] → level0 (g1 ++ x' :: g2) = level0 (g1 ++ x :: g2).
Proof.
  intros Hne. unfold level0. rewrite !last_app. destruct (exists_last Hne) as (g & y & ->).
  by rewrite !last_cons, !last_snoc.
Qed.

Lemma safe_insert hd tl ln nd g1 la pre c kc d kd post g2 e bl nc a :
  safe_at hd tl ln nd (g1 ++ (la, pre ++ (c, kc) :: (d, kd) :: post) :: g2) →
  key_ltb kc (nkey e) = true → key_ltb (nkey e) kd = true →
  nd !! c = Some nc → nd !! a = None →
  match g2 with
  | [] => bl = None
  | (_, rb) :: _ => ∃ t k', bl = Some t ∧ (t, k') ∈ rb ∧ key_eqb (nkey e) k' = true
  end →
  safe_at hd tl ln
    (<[c := {| value := value nc; below := below nc; next := Some a |}]>
       (<[a := {| value := nkey e; below := bl; next := Some d |}]> nd))
    (g1 ++ (la, pre ++ (c, kc) :: (a, nkey e) :: (d, kd) :: post) :: g2).
Proof.
  intros [Hsh Hrows Hun Hbot Htow Hnd Htl Hlv] Hlt Hgt Hc Ha Hbl.
  set (r := pre ++ (c, kc) :: (d, kd) :: post) in *.
  set (r' := pre ++ (c, kc) :: (a, nkey e) :: (d, kd) :: post).
  set (nd' := <[c:=_]> _).
  assert (a ≠ c) as Hac by congruence.
  assert (∀ x, is_Some (nd !! x) → is_Some (nd' !! x)) as Hkeep.
  { intros x Hx. unfold nd'. destruct (decide (x = c)) as [->|?].
    - rewrite lookup_insert_eq. eauto.
    - rewrite lookup_insert_ne by done. destruct (decide (x = a)) as [->|?].
      + rewrite lookup_insert_eq. eauto.
      + by rewrite lookup_insert_ne. }
  assert (∀ x k, (x, k) ∈ mjoin (g1 ++ (la, r) :: g2).*2 → is_Some (nd !! x)) as Halloc.
  { intros x k ?. by eapply lchain_nodes_alloc. }
  assert (r ⊆ r') as Hsub.
  { intros x. unfold r, r'. rewrite !elem_of_app, !elem_of_cons. naive_solver. }
  assert (∀ x k, (x, k) ∈ r → x ≠ c → nd' !! x = nd !! x) as Hrow.
  { intros x k Hin Hxc. unfold nd'. rewrite !lookup_insert_ne; [done| |done].
    intros ->. destruct (Halloc x k) as [? ?]; [|congruence].
    rewrite fmap_app, join_app. apply elem_of_app. right. simpl.
    apply elem_of_app. by left. }
  assert (∀ x k, (x, k) ∈ mjoin g1.*2 ++ mjoin g2.*2 → nd' !! x = nd !! x) as Hframe.
  { intros x k Hin. unfold nd'.
    assert ((x, k) ∈ mjoin (g1 ++ (la, r) :: g2).*2) as Hin'.
    { rewrite fmap_app, join_app. simpl. rewrite !elem_of_app in *. naive_solver. }
    destruct (Halloc x k Hin') as [? ?].
    rewrite !lookup_insert_ne; [done|congruence|].
    intros ->. rewrite fmap_app, join_app, fmap_app in Hnd. simpl in Hnd.
    rewrite fmap_app in Hnd.
    assert (x ∈ r.*1) as Hxr.
    { apply list_elem_of_fmap. exists (x, kc). split; [done|]. unfold r.
      apply elem_of_app. right. left. }
    assert (x ∈ (mjoin g1.*2).*1 ∨ x ∈ (mjoin g2.*2).*1) as Hx.
    { apply elem_of_app in Hin as [?|?]; [left|right];
        apply list_elem_of_fmap; by exists (x, k). }
    apply NoDup_app in Hnd as (_ & Hd1 & Hnd).
    apply NoDup_app in Hnd as (_ & Hd2 & _).
    destruct Hx as [Hx|Hx].
    - apply (Hd1 x Hx). apply elem_of_app. by left.
    - by apply (Hd2 x Hxr). }
  assert (NoDup r.*1) as Hndr.
  { rewrite fmap_app, join_app, fmap_app in Hnd. simpl in Hnd. rewrite fmap_app in Hnd.
    apply NoDup_app in Hnd as (_ & _ & Hnd). by apply NoDup_app in Hnd as (? & _). }
  assert (chain nd (first_addr r) r) as Hchr.
  { apply lchain_rows in Hsh. rewrite Forall_forall in Hsh. apply Hsh.
    rewrite fmap_app. apply elem_of_app. right. left. }
  assert (bracketed r' → bracketed r) as Hbr' by apply bracketed_insert_inv.
  assert (last r' = last r) as Hlast by apply last_insert.
  split.
  - eapply lchain_update_row; [done|done|].
    unfold r, r' in *.
    rewrite <- (first_addr_insert pre (c, kc) (d, kd) (a, nkey e) post).
    rewrite (first_addr_insert pre (c, kc) (d, kd) (a, nkey e) post).
    by apply chain_insert.
  - rewrite fmap_app, fmap_cons, Forall_app, Forall_cons in Hrows |- *. simpl in *.
    destruct Hrows as (? & [Hasc Hop] & ?). split_and!; [done| | |done].
    + by apply ascending_insert.
    + right. apply opened_insert. destruct Hop as [Hop|Hop]; [|done].
      unfold r in Hop. by destruct pre.
  - destruct g1 as [|y g1]; [exact Hun|].
    rewrite <- !app_comm_cons, !fmap_cons in Hun |- *. cbn [drop] in Hun |- *.
    rewrite drop_0, fmap_app, fmap_cons, Forall_app, Forall_cons in Hun |- *.
    destruct Hun as (? & _ & ?). split_and!; [done| |done]. unfold r'. by destruct pre.
  - left. destruct Hbot as [Hbot|Hbot]; [|by destruct g1].
    destruct g2 as [|y g2].
    + rewrite level0_snoc in *. by apply bracketed_insert.
    + by rewrite (level0_middle g1 (la, r) (la, r') (y :: g2)).
  - rewrite fmap_app, fmap_cons in Htow |- *. simpl in *.
    eapply stowers_update; [done|done|done|done|done|done|].
    assert (∀ x k, (x, k) ∈ r' → (x, k) = (a, nkey e) ∨ (x, k) ∈ r) as Hr'.
    { intros x k. unfold r, r'. rewrite !elem_of_app, !elem_of_cons. naive_solver. }
    assert (match g2.*2 with
            | [] => grounded nd r
            | rb :: _ => stower nd r rb
            end) as Hold.
    { clear -Htow. induction g1 as [|? g1 IH]; simpl in *; [by destruct Htow|].
      apply IH. by destruct Htow. }
    destruct g2 as [|[lb rb] g2]; simpl in *.
    + intros x k [Heq|Hin]%Hr'.
      * simplify_eq. eexists. unfold nd'.
        rewrite lookup_insert_ne, lookup_insert_eq by done. done.
      * destruct (Hold x k Hin) as (n & Hn & Hb).
        destruct (decide (x = c)) as [->|Hxc].
        -- simplify_eq. eexists. unfold nd'. rewrite lookup_insert_eq. done.
        -- exists n. by rewrite (Hrow x k).
    + intros x k [Heq|Hin]%Hr'.
      * simplify_eq. destruct Hbl as (t & k' & -> & Hin & Hk).
        eexists _, t. unfold nd'.
        rewrite lookup_insert_ne, lookup_insert_eq by done.
        split_and!; [done|done| | |done].
        -- apply Hkeep. apply (Halloc t k'). rewrite fmap_app, join_app. simpl.
           rewrite !elem_of_app. right. right. by left.
        -- intros _. by exists k'.
      * destruct (Hold x k Hin) as (n & b & Hn & Hb & Hal & Hnp & Hp).
        destruct (decide (x = c)) as [->|Hxc].
        -- simplify_eq. eexists _, b. unfold nd'. rewrite lookup_insert_eq.
           split_and!; [done|done|by apply Hkeep|done..].
        -- exists n, b. rewrite (Hrow x k) by done.
           split_and!; [done|done|by apply Hkeep|done..].
  - unfold r'. rewrite addrs_insert. apply NoDup_cons. split; [|done].
    simpl. intros ((x & k) & -> & Hin)%list_elem_of_fmap.
    destruct (Halloc _ _ Hin) as [? ?]. simpl in *. congruence.
  - unfold stail in *. destruct g1 as [|[l1 r1] g1]; simpl in *.
    + destruct Htl as (t & -> & Hal & Hb). exists t. split_and!; [done|by apply Hkeep|].
      intros Hb'. rewrite Hlast. by apply Hb, Hbr'.
    + destruct Htl as (t & -> & Hal & Hb). exists t. split_and!; [done|by apply Hkeep|done].
  - by rewrite length_app in Hlv |- *.
Qed.

Lemma apart_empty ln nd g : apart ∅ ∅ ln nd g.
Proof. split; intros a x Ha; by rewrite lookup_empty in Ha. Qed.

Lemma apart_insert lf nf ln nd g1 la pre (c d x : loc * SkipListKey E) post g2 nc nx :
  apart lf nf ln nd (g1 ++ (la, pre ++ c :: d :: post) :: g2) →
  nd !! x.1 = None →
  apart lf nf ln (<[c.1 := nc]> (<[x.1 := nx]> nd))
    (g1 ++ (la, pre ++ c :: x :: d :: post) :: g2).
Proof.
  intros [Hl Hn] Hx. split.
  - intros a y Ha. destruct (Hl a y Ha) as [? Hni]. split; [done|].
    by rewrite fmap_app, fmap_cons in Hni |- *.
  - intros a y Ha. destruct (Hn a y Ha) as [Hy Hni].
    assert (a ≠ c.1) as Hac.
    { intros ->. apply Hni. apply list_elem_of_fmap. exists c. split; [done|].
      rewrite fmap_app, join_app. simpl. rewrite !elem_of_app, !elem_of_cons.
      naive_solver. }
    assert (a ≠ x.1) as Hax by congruence.
    split; [by rewrite !lookup_insert_ne|].
    rewrite addrs_insert. apply not_elem_of_cons. done.
Qed.

Lemma apart_push lf nf ln nd ln' nd' g top tr :
  apart lf nf ln nd g →
  (∀ x, is_Some (nd !! x) → nd' !! x = nd !! x) →
  (∀ x, is_Some (ln !! x) → ln' !! x = ln !! x) →
  ln !! top = None → (∀ a k, (a, k) ∈ tr → nd !! a = None) →
  apart lf nf ln' nd' ((top, tr) :: g).
Proof.
  intros [Hl Hn] Hfn Hfl Htop Htr. split.
  - intros a y Ha. destruct (Hl a y Ha) as [Hy Hni]. split.
    + rewrite Hfl; [done|by eauto].
    + rewrite fmap_cons. apply not_elem_of_cons. split; [|done]. simpl. congruence.
  - intros a y Ha. destruct (Hn a y Ha) as [Hy Hni]. split.
    + rewrite Hfn; [done|by eauto].
    + rewrite fmap_cons. cbn [snd mjoin]. change (a ∉ (tr ++ mjoin g.*2).*1).
      rewrite fmap_app. apply not_elem_of_app. split; [|done].
      intros ((a' & k) & -> & Hin)%list_elem_of_fmap. simpl in *.
      rewrite (Htr _ _ Hin) in Hy. done.
Qed.

End SafeInsert.

(** ** A new top level, whole or in part *)

Section SafePush.
Implicit Types (nd : gmap loc (Node E)) (ln : gmap loc LNode) (r pre post U L : row E).
Implicit Types (rs : list (row E)) (g : grid E) (s z : SkipListSet E).

Lemma safe_push hd tl tl' ln nd ln' nd' la r g top tr :
  safe_at hd tl ln nd ((la, r) :: g) → r ≠ [] →
  (∀ x, is_Some (nd !! x) → nd' !! x = nd !! x) →
  (∀ x, is_Some (ln !! x) → ln' !! x = ln !! x) →
  ln' !! top = Some {| lvalue := Z.of_nat (S (length g)); lbelow := hd;
                       lnext := first_addr tr |} →
  chain nd' (first_addr tr) tr →
  (∀ a k, (a, k) ∈ tr → nd !! a = None) → NoDup tr.*1 →
  ascending tr → (tr = [] ∨ opened tr) → stower nd' tr r →
  stail tl' nd' ((top, tr) :: (la, r) :: g) →
  Z.of_nat (S (length g)) ≤ INT_MAX →
  safe_at (Some top) tl' ln' nd' ((top, tr) :: (la, r) :: g).
Proof.
  intros [Hsh Hrows Hun Hbot Htow Hnd Htl Hlv] Hne Hfn Hfl Htop Hch Hfresh Hndt
    Hasc Hop Hst Htl' Hmax.
  assert (∀ x k, (x, k) ∈ mjoin ((la, r) :: g).*2 → nd' !! x = nd !! x) as Hframe.
  { intros x k ?. apply Hfn. by eapply lchain_nodes_alloc. }
  assert (∀ x, x ∈ (mjoin ((la, r) :: g).*2).*1 → is_Some (nd !! x)) as Halloc.
  { intros x ((y & k) & -> & Hin)%list_elem_of_fmap. by eapply lchain_nodes_alloc. }
  assert (∀ x, is_Some (nd !! x) → is_Some (nd' !! x)) as Hkeep.
  { intros x Hx. by rewrite Hfn. }
  split.
  - apply lchain_cons. split; [done|]. eexists. split; [done|]. split; [done|]. split.
    + done.
    + eapply lchain_frame; [| |done].
      * intros x r' ?. apply Hfl. by eapply lchain_lnodes_alloc.
      * done.
  - rewrite fmap_cons. apply Forall_cons. by split.
  - rewrite !fmap_cons in Hun |- *. cbn [drop] in Hun |- *. rewrite drop_0 in Hun |- *.
    apply Forall_cons. by split.
  - left. destruct Hbot as [Hbot|?]; [|done]. unfold level0 in *.
    by rewrite last_cons_cons.
  - rewrite fmap_cons. split; [done|]. by eapply stowers_frame.
  - change (NoDup (tr ++ mjoin ((la, r) :: g).*2).*1). rewrite fmap_app. apply NoDup_app.
    split_and!; [done| |done].
    intros x ((y & k) & -> & Hin)%list_elem_of_fmap Hin'.
    destruct (Halloc _ Hin') as [? Hx]. simpl in Hx. rewrite (Hfresh _ _ Hin) in Hx. done.
  - done.
  - simpl in *. lia.
Qed.

Lemma safe_top_opened s la r g : safe s ((la, r) :: g) → r ≠ [] → opened r.
Proof.
  intros Hs Hne. pose proof (safe_rows _ _ _ _ _ Hs) as Hr. rewrite fmap_cons in Hr.
  apply Forall_inv in Hr as [_ [?|?]]; done.
Qed.

(** A lookup at an address that was allocated before the new nodes. *)
Ltac old_lookup Hx :=
  rewrite ?lookup_insert_ne; [done|intros ->; destruct Hx; congruence..].

Lemma createNewLevel_keeps lf nf s0 la r g e t kt :
  safe_apart lf nf s0 ((la, r) :: g) → (t, kt) ∈ r → key_eqb (nkey e) kt = true →
  Z.of_nat (S (length g)) ≤ INT_MAX →
  keeps (is_ s0) (createNewLevel e (Some t))
    (λ _ s _, ∃ top neg mid pos,
        safe_apart lf nf s
          ((top, [(neg, neg_key); (mid, nkey e); (pos, pos_key)]) :: (la, r) :: g))
    (λ s, ∃ g', safe_apart lf nf s g').
Proof.
  intros [Hwf Hap] Ht Hkt Hmax.
  destruct (safe_head _ _ _ _ Hwf) as (Hh & h & Hl & Hv & Hnx & Hch).
  assert (r ≠ []) as Hne by (intros ->; by apply elem_of_nil in Ht).
  destruct (safe_top_opened _ _ _ _ Hwf Hne) as (a0 & k0 & Hr0 & Hk0).
  assert ((a0, k0) ∈ r) as Hin0 by by eapply list_elem_of_lookup_2.
  assert (first_addr r = Some a0) as Hfa.
  { destruct r as [|[? ?] r]; [done|]. simpl in Hr0. by simplify_eq. }
  pose proof (safe_tail _ _ _ _ _ Hwf) as (t0 & Htl & Htal & Htb).
  assert (∀ x k, (x, k) ∈ r → is_Some (nodes s0 !! x)) as Hral.
  { intros x k Hin. eapply lchain_nodes_alloc; [apply Hwf|].
    rewrite fmap_cons. simpl. apply elem_of_app. by left. }
  pose proof (Hral _ _ Hin0) as Ha0. pose proof (Hral _ _ Ht) as Hta.
  assert ((lvalue h + 1) mod UINT_MOD = Z.of_nat (S (length g))) as Hlv.
  { rewrite Hv, Z.mod_small; [lia|]. unfold INT_MAX, UINT_MOD in *. lia. }
  assert (key_eqb neg_key k0 = true) as Hnk0.
  { unfold key_eqb. simpl. by rewrite Hk0. }
  unfold createNewLevel.
  eapply keeps_alloc; [by eexists|].
  eapply keeps_step; [intros b; reflexivity|].
  eapply keeps_lift. simpl. rewrite Hh. simpl. rewrite Hl.
  eapply keeps_store_LNode. intros top Htop.
  eapply keeps_step; [intros b; reflexivity|].
  assert (top ≠ la) as Hnela by congruence.
  match goal with |- keeps (is_ ?s) _ _ _ =>
    assert (safe_apart lf nf s ((top, []) :: (la, r) :: g)) as HsA end.
  { assert (∀ x, is_Some (lnodes s0 !! x) →
              <[top:={| lvalue := (lvalue h + 1) mod UINT_MOD; lbelow := Some la;
                        lnext := None |}]> (lnodes s0) !! x = lnodes s0 !! x) as Hfl.
    { intros x [? Hx]. rewrite lookup_insert_ne; [done|congruence]. }
    split.
    - eapply (safe_push (head s0) (tail s0) (tail s0) (lnodes s0) (nodes s0)); try done.
      + simpl. rewrite lookup_insert_eq, Hh, Hlv. done.
      + intros a k Hin. by apply elem_of_nil in Hin.
      + constructor.
      + constructor.
      + by left.
      + intros a k Hin. by apply elem_of_nil in Hin.
      + exists t0. split_and!; [done|done|]. by intros [(? & ? & ? & _) _].
    - eapply (apart_push lf nf (lnodes s0) (nodes s0)); try done.
      intros a k Hin. by apply elem_of_nil in Hin. }
  eapply keeps_alloc; [by eexists|]. eapply keeps_alloc; [by eexists|].
  eapply keeps_lift. simpl. rewrite lookup_insert_eq.
  eapply keeps_lift. simpl. rewrite lookup_insert_ne by done. rewrite Hl.
  eapply keeps_store_Node. simpl. intros neg Hneg.
  eapply keeps_step; [intros b; reflexivity|].
  eapply keeps_step; [intros b; apply set_lnext_ok; simpl; apply lookup_insert_eq|].
  simpl. rewrite insert_insert_eq.
  match goal with |- keeps (is_ ?s) _ _ _ =>
    assert (safe_apart lf nf s ((top, [(neg, neg_key)]) :: (la, r) :: g)) as HsB;
    [assert (∀ x, is_Some (nodes s0 !! x) → nodes s !! x = nodes s0 !! x) as Hfn
       by (intros x Hx; simpl; old_lookup Hx);
     assert (∀ x, is_Some (lnodes s0 !! x) → lnodes s !! x = lnodes s0 !! x) as Hfl
       by (intros x [? Hx]; simpl; rewrite lookup_insert_ne; [done|congruence])|]
  end.
  { assert (∀ a k, (a, k) ∈ [(neg, neg_key)] → nodes s0 !! a = None) as Hfr.
    { intros a k Hin. apply list_elem_of_singleton in Hin. by simplify_eq. }
    split; [|by eapply (apart_push lf nf (lnodes s0) (nodes s0))].
    eapply (safe_push (head s0) (tail s0) (tail s0) (lnodes s0) (nodes s0)); try done.
    - simpl. rewrite lookup_insert_eq, Hh, Hlv. done.
    - simpl. split; [done|]. eexists. rewrite lookup_insert_eq. done.
    - simpl. apply NoDup_singleton.
    - repeat constructor.
    - right. by exists neg, neg_key.
    - intros a k Hin. apply list_elem_of_singleton in Hin. simplify_eq.
      eexists _, a0. simpl. rewrite lookup_insert_eq.
      split_and!; [done|by rewrite Hnx, Hfa| | |done].
      + old_lookup Ha0.
      + intros _. by exists k0.
    - exists t0. split_and!; [done| |].
      + simpl. old_lookup Htal.
      + intros [_ (b & k & Hl' & Hk')]. simpl in Hl'. by simplify_eq. }
  eapply keeps_alloc; [by eexists|]. eapply keeps_alloc; [by eexists|].
  eapply keeps_store_Node. simpl. intros mid Hmid.
  assert (mid ≠ neg) as Hmn by (intros ->; by rewrite lookup_insert_eq in Hmid).
  rewrite lookup_insert_ne in Hmid by done.
  eapply keeps_lift. simpl. rewrite lookup_insert_eq.
  eapply keeps_step; [intros b; apply set_next_ok; simpl|].
  { rewrite lookup_insert_ne by done. apply lookup_insert_eq. }
  simpl.
  match goal with |- keeps (is_ ?s) _ _ _ =>
    assert (safe_apart lf nf s ((top, [(neg, neg_key); (mid, nkey e)]) :: (la, r) :: g))
      as HsC;
    [assert (∀ x, is_Some (nodes s0 !! x) → nodes s !! x = nodes s0 !! x) as Hfn
       by (intros x Hx; simpl; old_lookup Hx);
     assert (∀ x, is_Some (lnodes s0 !! x) → lnodes s !! x = lnodes s0 !! x) as Hfl
       by (intros x [? Hx]; simpl; rewrite lookup_insert_ne; [done|congruence])|]
  end.
  { assert (∀ a k, (a, k) ∈ [(neg, neg_key); (mid, nkey e)] → nodes s0 !! a = None)
      as Hfr.
    { intros a k Hin. apply elem_of_cons in Hin as [Hin|Hin]; [by simplify_eq|].
      apply list_elem_of_singleton in Hin. by simplify_eq. }
    split; [|by eapply (apart_push lf nf (lnodes s0) (nodes s0))].
    eapply (safe_push (head s0) (tail s0) (tail s0) (lnodes s0) (nodes s0)); try done.
    - simpl. rewrite lookup_insert_eq, Hh, Hlv. done.
    - simpl. split; [done|]. eexists. rewrite lookup_insert_eq. split; [done|].
      split; [done|]. simpl. split; [done|]. eexists.
      rewrite lookup_insert_ne, lookup_insert_eq by done. done.
    - simpl. rewrite !NoDup_cons, !elem_of_cons, !elem_of_nil.
      split_and!; [naive_solver..|constructor].
    - repeat constructor.
    - right. by exists neg, neg_key.
    - intros a k Hin. apply elem_of_cons in Hin as [Hin|Hin].
      + simplify_eq. eexists _, a0. simpl. rewrite lookup_insert_eq.
        split_and!; [done|by rewrite Hnx, Hfa| | |done].
        * old_lookup Ha0.
        * intros _. by exists k0.
      + apply list_elem_of_singleton in Hin. simplify_eq.
        eexists _, t. simpl. rewrite lookup_insert_ne, lookup_insert_eq by done.
        split_and!; [done|done| | |done].
        * old_lookup Hta.
        * intros _. by exists kt.
    - exists t0. split_and!; [done| |].
      + simpl. old_lookup Htal.
      + intros [_ (b & k & Hl' & Hk')]. simpl in Hl'. by simplify_eq. }
  eapply keeps_alloc; [by eexists|]. eapply keeps_alloc; [by eexists|].
  eapply keeps_step; [intros b; reflexivity|].
  eapply keeps_store_Node. simpl. intros pos Hpos.
  assert (pos ≠ neg) by (intros ->; by rewrite lookup_insert_eq in Hpos).
  rewrite lookup_insert_ne in Hpos by done.
  assert (pos ≠ mid) by (intros ->; by rewrite lookup_insert_eq in Hpos).
  rewrite lookup_insert_ne in Hpos by done.
  rewrite lookup_insert_ne in Hpos by done.
  eapply keeps_lift. simpl. rewrite lookup_insert_eq.
  eapply keeps_lift. simpl. rewrite lookup_insert_ne, lookup_insert_eq by done.
  eapply keeps_step; [intros b; apply set_next_ok; simpl|].
  { rewrite !lookup_insert_ne by done. apply lookup_insert_eq. }
  simpl.
  match goal with |- keeps (is_ ?s) _ _ _ => set (s1 := s) end.
  assert (∀ x, is_Some (nodes s0 !! x) → nodes s1 !! x = nodes s0 !! x) as Hfn
    by (intros x Hx; unfold s1; simpl; old_lookup Hx).
  assert (∀ x, is_Some (lnodes s0 !! x) → lnodes s1 !! x = lnodes s0 !! x) as Hfl
    by (intros x [? Hx]; unfold s1; simpl; rewrite lookup_insert_ne; [done|congruence]).
  assert (∀ a k, (a, k) ∈ [(neg, neg_key); (mid, nkey e); (pos, pos_key)] →
            nodes s0 !! a = None) as Hfr.
  { intros a k Hin. apply elem_of_cons in Hin as [Hin|Hin]; [by simplify_eq|].
    apply elem_of_cons in Hin as [Hin|Hin]; [by simplify_eq|].
    apply list_elem_of_singleton in Hin. by simplify_eq. }
  assert (safe_at (Some top) (Some pos) (lnodes s1) (nodes s1)
            ((top, [(neg, neg_key); (mid, nkey e); (pos, pos_key)]) :: (la, r) :: g))
    as Hs1.
  { eapply (safe_push (head s0) (tail s0) (Some pos) (lnodes s0) (nodes s0)); try done.
    - unfold s1. simpl. rewrite lookup_insert_eq, Hh, Hlv. done.
    - unfold s1. simpl. split; [done|]. eexists.
      rewrite lookup_insert_ne, lookup_insert_ne, lookup_insert_eq by done.
      split; [done|]. split; [done|]. simpl. split; [done|]. eexists.
      rewrite lookup_insert_eq. split; [done|]. split; [done|]. simpl.
      split; [done|]. eexists.
      rewrite lookup_insert_ne, lookup_insert_eq by done. done.
    - simpl. rewrite !NoDup_cons, !elem_of_cons, !elem_of_nil.
      split_and!; [naive_solver..|constructor].
    - repeat constructor.
    - right. by exists neg, neg_key.
    - intros a k Hin. unfold s1. simpl. apply elem_of_cons in Hin as [Hin|Hin].
      { simplify_eq. eexists _, a0.
        rewrite lookup_insert_ne, lookup_insert_ne, lookup_insert_eq by done.
        split_and!; [done|by rewrite Hnx, Hfa| | |done].
        * old_lookup Ha0.
        * intros _. by exists k0. }
      apply elem_of_cons in Hin as [Hin|Hin].
      { simplify_eq. eexists _, t. rewrite lookup_insert_eq.
        split_and!; [done|done| | |done].
        * old_lookup Hta.
        * intros _. by exists kt. }
      apply list_elem_of_singleton in Hin. simplify_eq.
      eexists _, t0. rewrite lookup_insert_ne, lookup_insert_eq by done.
      split_and!; [done|by rewrite Htl| |done|].
      * old_lookup Htal.
      * intros _ Hbr. specialize (Htb Hbr). destruct (last r) as [[x kx]|]; [|done].
        simpl in Htb. simplify_eq. by exists kx.
    - exists pos. split_and!; [done| |done].
      unfold s1. simpl. rewrite lookup_insert_ne, lookup_insert_eq by done. done. }
  eapply keeps_last.
  - intros b. eapply (updateTail_ok s1 top _ [(neg, neg_key); (mid, nkey e); (pos, pos_key)]).
    + done.
    + unfold s1. simpl. apply lookup_insert_eq.
    + destruct Hs1 as [Hsh _ _ _ _ _ _ _].
      apply lchain_cons in Hsh as (_ & l & Hl1 & _ & Hc & _).
      unfold s1 in Hl1. simpl in Hl1. rewrite lookup_insert_eq in Hl1. simplify_eq. done.
    + simpl. rewrite !NoDup_cons, !elem_of_cons, !elem_of_nil.
      split_and!; [naive_solver..|constructor].
    + done.
  - intros b. exists top, neg, mid, pos. split.
    + destruct Hs1. split; done.
    + by eapply (apart_push lf nf (lnodes s0) (nodes s0)).
Qed.

End SafePush.

(** ** [add] in any state *)

Section SafeAdd.
Implicit Types (nd : gmap loc (Node E)) (ln : gmap loc LNode) (r pre post U L : row E).
Implicit Types (rs : list (row E)) (g : grid E) (s z : SkipListSet E).

Lemma insertNewNode_keeps lf nf s0 g1 la pre c kc d kd post g2 e bl :
  safe_apart lf nf s0 (g1 ++ (la, pre ++ (c, kc) :: (d, kd) :: post) :: g2) →
  key_ltb kc (nkey e) = true → key_ltb (nkey e) kd = true →
  match g2 with
  | [] => bl = None
  | (_, rb) :: _ => ∃ t k', bl = Some t ∧ (t, k') ∈ rb ∧ key_eqb (nkey e) k' = true
  end →
  keeps (is_ s0) (insertNewNode (Some c) bl e)
    (λ res s _, ∃ a, res = Some a
        ∧ safe_apart lf nf s
            (g1 ++ (la, pre ++ (c, kc) :: (a, nkey e) :: (d, kd) :: post) :: g2))
    (λ s, ∃ g', safe_apart lf nf s g').
Proof.
  intros [Hwf Hap] Hlt Hgt Hbl.
  destruct (safe_row_node _ _ _ _ _ _ _ _ Hwf) as (nc & Hc & Hk & Hnx). simpl in Hnx.
  unfold insertNewNode.
  eapply keeps_alloc; [by eexists|]. eapply keeps_alloc; [by eexists|].
  eapply keeps_lift. simpl. rewrite Hc.
  eapply keeps_store_Node. intros a Ha. assert (a ≠ c) by congruence.
  eapply keeps_step; [intros b; apply set_next_ok; simpl|].
  { rewrite lookup_insert_ne by done. exact Hc. }
  eapply keeps_lift. simpl. rewrite lookup_insert_eq.
  eapply keeps_last; [intros b; reflexivity|].
  intros b. exists a. split; [done|]. split.
  - unfold safe. simpl. rewrite Hnx. by eapply safe_insert.
  - simpl. by apply (apart_insert lf nf _ _ g1 la pre (c, kc) (d, kd) (a, nkey e)).
Qed.

(** Without a node to link behind, [insertNewNode] throws or reads through
    the null pointer. *)
Lemma insertNewNode_null s0 bl e (X : SkipListSet E → Prop) Q :
  X s0 → keeps (is_ s0) (insertNewNode None bl e) Q X.
Proof.
  intros HX. unfold insertNewNode.
  eapply keeps_alloc; [done|]. eapply keeps_alloc; [done|].
  eapply keeps_lift. done.
Qed.

Lemma add_loop_keeps lf nf e fuel : ∀ g1 la r g2 t s0,
  safe_apart lf nf s0 (g1 ++ (la, r) :: g2) → (t, nkey e) ∈ r →
  keeps (is_ s0) (add_loop fuel e (Some t) (Z.of_nat (length g2)))
    (λ _ s' _, ∃ g', safe_apart lf nf s' g') (λ s', ∃ g', safe_apart lf nf s' g').
Proof.
  induction fuel as [|fuel IH]; intros g1 la r g2 t s0 Hwf Ht.
  { by intros s b _. }
  cbn [add_loop].
  eapply keeps_step; [intros b; reflexivity|].
  eapply keeps_step; [intros b; reflexivity|].
  destruct (shouldOccupyNextLevel e (levelTester s0)) as [ans t'] eqn:Hans. cbn [fst snd].
  assert (safe_apart lf nf (set_levelTester t' s0) (g1 ++ (la, r) :: g2)) as Hwf1
    by exact Hwf.
  set (s1 := set_levelTester t' s0) in *. clearbody s1. clear Hans Hwf s0.
  destruct ans.
  2:{ apply keeps_ret. intros s b ->. by eexists. }
  eapply keeps_lift. unfold int_incr.
  destruct (Z.eqb_spec (Z.of_nat (length g2)) INT_MAX) as [|Hmax]; [done|].
  pose proof Hwf1 as [Hwf _].
  pose proof (safe_levels _ _ _ _ _ Hwf) as Hlv.
  assert (Z.of_nat (length g2) < INT_MAX) as Hmax'.
  { rewrite length_app in Hlv. simpl in Hlv. lia. }
  destruct (decide (g1 = [])) as [->|Hg1].
  - rewrite app_nil_l in *.
    destruct (safe_head _ _ _ _ Hwf) as (Hh & h & Hl & Hv & _).
    eapply keeps_lift. simpl. rewrite Hh. simpl. rewrite Hl.
    unfold to_unsigned. rewrite Z.mod_small by (unfold INT_MAX, UINT_MOD in *; lia).
    rewrite Hv. destruct (Z.gtb_spec (Z.of_nat (length g2) + 1) (Z.of_nat (length g2)));
      [|lia].
    eapply keeps_bind.
    { eapply (createNewLevel_keeps lf nf s1); [done|done|apply key_eqb_refl|lia]. }
    intros [] s2 b2 (top & neg & mid & pos & Hwf2).
    pose proof Hwf2 as [Hwf2' _].
    destruct (safe_head _ _ _ _ Hwf2') as (Hh2 & h2 & Hl2 & _ & Hnx2 & Hch2).
    unfold mbind at 1, lift at 1. simpl. rewrite Hh2. simpl. rewrite Hl2.
    apply chain_cons in Hch2 as (Hnx2' & n2 & Hn2 & _ & Hch2).
    pose proof (chain_head _ _ _ Hch2) as Hnn. simpl in Hnn.
    unfold mbind at 1, lift at 1. simpl. rewrite Hnx2'. simpl. rewrite Hn2. rewrite Hnn.
    replace (Z.of_nat (length g2) + 1) with (Z.of_nat (length ((la, r) :: g2)))
      by (simpl; lia).
    eapply (IH [] top _ ((la, r) :: g2) mid s2); [done| |done]. set_solver.
  - destruct (exists_last Hg1) as (g1' & [la' r'] & ->).
    assert (∃ h, head s1 = Some h ∧ ∃ l, lnodes s1 !! h = Some l
              ∧ lvalue l = Z.of_nat (length g1' + length g2 + 1)) as (hd & Hh & l & Hl & Hv).
    { destruct g1' as [|[l0 r0] g1']; simpl in Hwf;
        destruct (safe_head _ _ _ _ Hwf) as (Hh & h & Hl & Hv & _);
        exists l0 || exists la'; (split; [done|]); exists h; (split; [done|]);
        rewrite Hv; simpl; rewrite ?length_app; simpl; lia. }
    eapply keeps_lift. simpl. rewrite Hh. simpl. rewrite Hl.
    unfold to_unsigned. rewrite Z.mod_small by (unfold INT_MAX, UINT_MOD in *; lia).
    rewrite Hv.
    destruct (Z.gtb_spec (Z.of_nat (length g2) + 1) (Z.of_nat (length g1' + length g2 + 1)));
      [lia|].
    destruct (ssearch_spec s1 _ e (Z.of_nat (length g2) + 1) Hwf) as (res & Hres & Hpost).
    { by destruct g1'. }
    { rewrite !length_app. simpl. lia. }
    eapply keeps_lift. rewrite Hres.
    rewrite <- app_assoc in Hwf1, Hpost. simpl in Hwf1, Hpost.
    destruct res as [c|].
    2:{ eapply keeps_bind; [apply insertNewNode_null; by eexists|].
        intros res s b Hf. exact Hf. }
    destruct (Hpost c eq_refl) as (r0 & Hi & pre & kc & d & kd & post & -> & Hlt & Hgt).
    rewrite fmap_app, fmap_cons in Hi.
    replace (Z.to_nat _) with (length g1'.*2) in Hi.
    2:{ rewrite length_app. simpl. rewrite !length_fmap. lia. }
    rewrite list_lookup_middle in Hi by done. simpl in Hi. simplify_eq.
    eapply keeps_bind.
    { eapply (insertNewNode_keeps lf nf s1); [done..|].
      exists t, (nkey e). split_and!; [done..|]. apply key_eqb_refl. }
    intros res s2 b2 (a & -> & Hwf2).
    replace (Z.of_nat (length g2) + 1) with (Z.of_nat (length ((la, r) :: g2)))
      by (simpl; lia).
    eapply (IH g1' la' (pre ++ (c, kc) :: (a, nkey e) :: (d, kd) :: post)
              ((la, r) :: g2) a s2); [done| |done]. set_solver.
Qed.

(** Whatever [add] does to a set that has the invariant, and whether it
    returns or throws, the set has the invariant afterwards, and what
    was no part of the set is as it was. *)
Lemma add_keeps lf nf s0 g e :
  safe_apart lf nf s0 g →
  keeps (is_ s0) (add e) (λ _ s' _, ∃ g', safe_apart lf nf s' g')
    (λ s', ∃ g', safe_apart lf nf s' g').
Proof.
  intros Hwf0. pose proof Hwf0 as [Hwf Hap]. unfold add.
  destruct (decide (g = [])) as [->|Hne].
  { eapply keeps_lift. unfold search. pose proof (safe_shape _ _ _ _ _ Hwf) as Hsh.
    simpl in Hsh. rewrite Hsh. done. }
  destruct (ssearch_spec s0 g e 0 Hwf Hne) as (res & Hs & Hp).
  { destruct g; [done|]. simpl. lia. }
  eapply keeps_lift. rewrite Hs.
  destruct res as [c|].
  2:{ intros s b ->. unfold mbind, catch_rethrow, alloc, lift, mret. simpl.
      destruct b as [|[|b]]; simpl; by eauto. }
  destruct (exists_last Hne) as (g1 & [l0 r0] & ->).
  destruct (Hp c eq_refl) as (r1 & Hi & pre & kc & d & kd & post & -> & Hlt & Hgt).
  rewrite fmap_app in Hi. simpl in Hi.
  replace (Z.to_nat _) with (length g1.*2) in Hi
    by (rewrite length_app; simpl; lia).
  rewrite list_lookup_middle in Hi by done. simplify_eq.
  destruct (safe_row_node _ _ _ _ _ _ _ _ Hwf) as (nc & Hc & Hk & Hnx). simpl in Hnx.
  eapply keeps_bind.
  { instantiate (1 := λ temp s _, ∃ a, temp = Some a
       ∧ safe_apart lf nf s
           (g1 ++ [(l0, pre ++ (c, kc) :: (a, nkey e) :: (d, kd) :: post)])).
    intros s b ->. unfold catch_rethrow.
    assert (keeps (is_ s0)
              (alloc;; alloc;;
               let! c0 := lift (λ s, deref (nodes s) (Some c)) in
               let! temp := store_Node {| value := {| kind := Normal; element := e |};
                                          below := None; next := next c0 |} in
               set_next (Some c) (Some temp);;
               let! n := lift (λ s, int_incr (elements s)) in
               update (set_elements n);;
               mret (Some temp))
              (λ temp s _, ∃ a, temp = Some a
                 ∧ safe_apart lf nf s
                     (g1 ++ [(l0, pre ++ (c, kc) :: (a, nkey e) :: (d, kd) :: post)]))
              (λ s, ∃ g', safe_apart lf nf s g')) as Hbody.
    { eapply keeps_alloc; [by eexists|]. eapply keeps_alloc; [by eexists|].
      eapply keeps_lift. simpl. rewrite Hc.
      eapply keeps_store_Node. intros a Ha. assert (a ≠ c) by congruence.
      eapply keeps_step; [intros b'; apply set_next_ok; simpl|].
      { rewrite lookup_insert_ne by done. exact Hc. }
      eapply keeps_lift. simpl. unfold int_incr.
      destruct (Z.eqb_spec (elements s0) INT_MAX); [done|].
      eapply keeps_step; [intros b'; reflexivity|].
      eapply keeps_last; [intros b'; reflexivity|].
      intros b'. exists a. split; [done|]. split.
      - unfold safe. simpl. rewrite Hnx. by eapply safe_insert.
      - simpl. by apply (apart_insert lf nf _ _ g1 l0 pre (c, kc) (d, kd) (a, nkey e)). }
    specialize (Hbody s0 b eq_refl).
    match goal with |- match match ?m with _ => _ end with _ => _ end =>
      destruct m as [temp s' b'|s' b'|f] end; [done| |done].
    unfold mret. done. }
  intros temp s1 b (a & -> & Hwf1).
  apply (add_loop_keeps lf nf e (S b) g1 l0 _ [] a s1 Hwf1); [set_solver|done].
Qed.

End SafeAdd.

(** ** Copying a set on which [add] has failed *)

Section SafeCopy.
Implicit Types (nd : gmap loc (Node E)) (ln : gmap loc LNode) (r pre post U L : row E).
Implicit Types (rs : list (row E)) (g : grid E) (s z : SkipListSet E).

(** [linkBelow] writes [below] members and nothing else. *)
Lemma linkBelow_row_links fuel : ∀ p curr z b z' b',
  linkBelow_row fuel p curr z b = Ok tt z' b' →
  links_same (nodes z) (nodes z') ∧ lnodes z' = lnodes z ∧ head z' = head z.
Proof.
  induction fuel as [|fuel IH]; intros p curr z b z' b'.
  { destruct p; simpl; [done|]. intros [= <- _]. split; [apply links_same_refl|done]. }
  destruct p as [pa|]; simpl.
  2:{ intros [= <- _]. split; [apply links_same_refl|done]. }
  unfold mbind at 1, lift at 1. destruct curr as [ca|]; simpl; [|done].
  destruct (nodes z !! ca) as [cn|] eqn:Hcn; [|done].
  unfold mbind at 1, lift at 1. simpl.
  destruct (nodes z !! pa) as [pn|] eqn:Hpn; [|done].
  destruct (key_eqb (value cn) (value pn)).
  - unfold mbind at 1. rewrite (set_below_ok z ca cn (Some pa) b Hcn).
    unfold mbind at 1, lift at 1. simpl. rewrite lookup_insert_eq.
    unfold mbind at 1, lift at 1. simpl.
    destruct (<[ca:=_]> (nodes z) !! pa) as [pn'|]; [|done].
    intros Hrun. apply IH in Hrun as (Hl & ? & ?). simpl in *. split; [|done].
    eapply links_same_trans; [|exact Hl]. intros a n Hn.
    destruct (decide (a = ca)) as [->|?].
    + simplify_eq. eexists. rewrite lookup_insert_eq. done.
    + exists n. by rewrite lookup_insert_ne.
  - apply IH.
Qed.

Lemma short_no_posinf U :
  ascending U → (U = [] ∨ opened U) → ¬ bracketed U →
  ∀ a k, (a, k) ∈ U → kind k ≠ PosInf.
Proof.
  intros Ha Hop Hnb a k Hin Hk. destruct Hop as [->|Hop]; [by apply elem_of_nil in Hin|].
  apply list_elem_of_split in Hin as (pre & post & ->).
  destruct post as [|x post].
  - apply Hnb. split; [done|]. exists a, k. by rewrite last_snoc.
  - unfold ascending in Ha. apply StronglySorted_app in Ha as (_ & _ & Ha).
    apply StronglySorted_cons in Ha as [Ha _]. apply Forall_inv in Ha.
    unfold key_lt, key_ltb in Ha. simpl in Ha. by rewrite Hk in Ha.
Qed.

(** A level that lacks its +INF sentinel, over one that has it: the walk
    of [linkBelow] runs out of nodes above while there are nodes left
    beneath, and reads the key of a null pointer. *)
Lemma linkBelow_row_short fuel : ∀ L p U z b,
  chain (nodes z) p L → chain (nodes z) (first_addr U) U →
  ascending U → ascending L →
  (∀ a k, (a, k) ∈ U → ∃ c k', (c, k') ∈ L ∧ key_eqb k k' = true) →
  (∀ a k, (a, k) ∈ U → kind k ≠ PosInf) →
  (∃ c kc, last L = Some (c, kc) ∧ kind kc = PosInf) →
  ∀ z' b', linkBelow_row fuel p (first_addr U) z b ≠ Ok tt z' b'.
Proof.
  induction fuel as [|fuel IH]; intros L p U z b HL HU HaU HaL Hsub Hnp Hlast z' b'.
  { destruct L as [|[b0 l0] L]; [by destruct Hlast as (? & ? & ? & _)|].
    apply chain_cons in HL as (-> & _). done. }
  destruct L as [|[b0 l0] L]; [by destruct Hlast as (? & ? & ? & _)|].
  apply chain_cons in HL as (-> & pn & Hpn & Hpk & HL).
  destruct U as [|[a0 u0] U]; [done|].
  apply chain_cons in HU as (_ & cn & Hcn & Hck & HU).
  simpl first_addr. cbn [linkBelow_row].
  unfold mbind at 1, lift at 1. simpl. rewrite Hcn.
  unfold mbind at 1, lift at 1. simpl. rewrite Hpn.
  subst u0 l0. set (u0 := value cn) in *. set (l0 := value pn) in *.
  apply ascending_cons in HaU as [HaU0 HaU]. apply ascending_cons in HaL as [HaL0 HaL].
  rewrite Forall_forall in HaU0, HaL0.
  assert (L ≠ [] → ∃ c kc, last L = Some (c, kc) ∧ kind kc = PosInf) as HlastL.
  { intros HLn. destruct Hlast as (c & kc & Hl & Hkc). exists c, kc. split; [|done].
    destruct L; [done|]. by rewrite last_cons_cons in Hl. }
  destruct (key_eqb u0 l0) eqn:Heq.
  - unfold mbind at 1. rewrite (set_below_ok z a0 cn (Some b0) b Hcn).
    unfold mbind at 1, lift at 1. simpl. rewrite lookup_insert_eq.
    unfold mbind at 1, lift at 1. simpl.
    set (nd1 := <[a0:=_]> (nodes z)).
    assert (links_same (nodes z) nd1) as Hls.
    { intros a n Hn. destruct (decide (a = a0)) as [->|?].
      - simplify_eq. eexists. unfold nd1. rewrite lookup_insert_eq. done.
      - exists n. unfold nd1. by rewrite lookup_insert_ne. }
    destruct (Hls b0 pn Hpn) as (pn' & -> & _ & Hnx'). simpl. rewrite Hnx'.
    pose proof (chain_head _ _ _ HU) as HhU. rewrite HhU.
    assert (L ≠ []) as HLn.
    { intros ->. destruct Hlast as (c & kc & Hl & Hkc). simpl in Hl.
      injection Hl as -> ->.
      eapply Hnp; [left|]. by rewrite (key_eqb_kind _ _ Heq). }
    eapply (IH L _ U); try done.
    + by eapply chain_links_same.
    + rewrite <- HhU. by eapply chain_links_same.
    + intros a k Hin. destruct (Hsub a k) as (c & k' & Hin' & Hk'); [by right|].
      apply elem_of_cons in Hin' as [[= -> ->]|?]; [|by eauto]. exfalso.
      specialize (HaU0 _ Hin). unfold key_lt in HaU0. simpl in HaU0.
      apply key_ltb_not_eqb in HaU0.
      rewrite (key_eqb_trans u0 l0 k Heq) in HaU0; [done|]. by rewrite key_eqb_sym.
    + intros a k Hin. apply (Hnp a k). by right.
    + by apply HlastL.
  - change (Some a0) with (first_addr ((a0, u0) :: U)).
    assert (∀ a k, (a, k) ∈ (a0, u0) :: U → ∃ c k', (c, k') ∈ L ∧ key_eqb k k' = true)
      as Hsub'.
    { assert (∃ c k', (c, k') ∈ L ∧ key_eqb u0 k' = true) as (c0 & k0 & Hin0 & Hk0).
      { destruct (Hsub a0 u0) as (c & k' & Hin' & Hk'); [left|].
        apply elem_of_cons in Hin' as [[= -> ->]|?]; [congruence|by eauto]. }
      intros a k [[= -> ->]|Hin]%elem_of_cons; [by eauto|].
      destruct (Hsub a k) as (c & k' & Hin' & Hk'); [by right|].
      apply elem_of_cons in Hin' as [[= -> ->]|?]; [|by eauto]. exfalso.
      (* [l0] below [k0], which equals [u0], which is below [k], which equals [l0] *)
      specialize (HaL0 _ Hin0). specialize (HaU0 _ Hin). unfold key_lt in *. simpl in *.
      rewrite <- (key_ltb_eqb_r _ _ _ Hk0) in HaL0.
      rewrite (key_ltb_eqb_r _ _ _ Hk') in HaU0.
      by rewrite (key_ltb_asym _ _ HaL0) in HaU0. }
    assert (L ≠ []) as HLn.
    { intros ->. destruct (Hsub' a0 u0) as (? & ? & ?%elem_of_nil & _); [left|done]. }
    eapply (IH L _ ((a0, u0) :: U)); try done.
    + apply chain_cons. split; [done|]. by exists cn.
    + apply ascending_cons. split; [by apply Forall_forall|done].
    + by apply HlastL.
Qed.

Lemma bracketed_dec r : bracketed r ∨ ¬ bracketed r.
Proof.
  destruct (r !! 0%nat) as [[a k]|] eqn:H0.
  2:{ right. intros [(? & ? & ? & _) _]. congruence. }
  destruct (last r) as [[c kc]|] eqn:Hl.
  2:{ right. intros [_ (? & ? & ? & _)]. congruence. }
  destruct (decide (kind k = NegInf)) as [Hk|Hk].
  2:{ right. intros [(? & ? & ? & ?) _]. congruence. }
  destruct (decide (kind kc = PosInf)) as [Hkc|Hkc].
  2:{ right. intros [_ (? & ? & ? & ?)]. congruence. }
  left. split; eauto.
Qed.

Lemma linkBelow_loop_short : ∀ g fuel ch U vs z b,
  vchain (lnodes z) (nodes z) (Some ch) ((ch, U) :: g) vs →
  skeys (U :: g.*2) →
  bracketed (level0 ((ch, U) :: g)) → ¬ Forall bracketed (U :: g.*2) →
  ∀ z' b', linkBelow_loop fuel (Some ch) z b ≠ Ok tt z' b'.
Proof.
  induction g as [|[cl L] g IH]; intros fuel ch U vs z b Hvc Hk Hbot Hnb z' b'.
  { exfalso. apply Hnb. by constructor. }
  destruct fuel as [|fuel]; [done|]. destruct vs as [|v vs]; [done|].
  simpl in Hvc. destruct Hvc as (_ & l & Hl & _ & HU & Hvc).
  destruct vs as [|v' vs]; [done|]. pose proof Hvc as Hvc1.
  destruct Hvc as (Hb & l2 & Hl2 & _ & HL & _).
  cbn [linkBelow_loop]. unfold mbind at 1, lift at 1. simpl. rewrite Hl. rewrite Hb.
  unfold mbind at 1, lift at 1. simpl. rewrite Hl2.
  pose proof (chain_head _ _ _ HU) as HhU. pose proof (chain_head _ _ _ HL) as HhL.
  rewrite fmap_cons in Hk, Hnb. cbn [snd] in Hk, Hnb.
  destruct Hk as (HaU & HoU & Hsub & Hk'). pose proof Hk' as (HaL & HoL & _).
  unfold mbind at 1.
  destruct (linkBelow_row (size (nodes z)) (lnext l2) (lnext l) z b)
    as [[] z1 b1|z1 b1|f] eqn:Hrow; [|done..].
  pose proof (linkBelow_row_links _ _ _ _ _ _ _ Hrow) as (Hls & Hln & Hhd).
  destruct (bracketed_dec U) as [HbU|HbU].
  - apply (IH fuel cl L (v' :: vs) z1 b1).
    + rewrite Hln, <- Hb. by eapply vchain_links_same.
    + done.
    + unfold level0 in *. by rewrite last_cons_cons in Hbot.
    + intros HF. apply Hnb. by constructor.
  - destruct (bracketed_dec L) as [HbL|HbL].
    + exfalso. rewrite HhU, HhL in Hrow. revert Hrow.
      apply (linkBelow_row_short _ L (first_addr L) U z b).
      * by rewrite <- HhL.
      * by rewrite <- HhU.
      * done.
      * done.
      * intros a k Hin. apply (Hsub a k Hin). exact (short_no_posinf U HaU HoU HbU a k Hin).
      * exact (short_no_posinf U HaU HoU HbU).
      * by destruct HbL as [_ ?].
    + apply (IH fuel cl L (v' :: vs) z1 b1).
      * rewrite Hln, <- Hb. by eapply vchain_links_same.
      * done.
      * unfold level0 in *. by rewrite last_cons_cons in Hbot.
      * intros HF. apply HbL. by apply Forall_inv in HF.
Qed.

Lemma opened_keys r r' : r'.*2 = r.*2 → opened r → opened r'.
Proof.
  intros Heq (a & k & H0 & Hk).
  assert (r'.*2 !! 0%nat = Some k) as H0'.
  { by rewrite Heq, list_lookup_fmap, H0. }
  rewrite list_lookup_fmap in H0'. destruct (r' !! 0%nat) as [[a' k0]|] eqn:Hr; [|done].
  simpl in H0'. simplify_eq. by exists a', k.
Qed.

Lemma skeys_keys rs rs' :
  Forall2 (λ r r', r'.*2 = r.*2) rs rs' → skeys rs → skeys rs'.
Proof.
  induction 1 as [|r r' rs rs' Hr Hrs IH]; [done|].
  intros (Ha & Ho & Hsub & Hk). split_and!.
  - by eapply ascending_keys.
  - destruct Ho as [->|Ho]; [left; by destruct r'|right; by eapply opened_keys].
  - destruct Hrs as [|r2 r2' rs rs' Hr2 _]; [done|].
    intros a k Hin Hnp. destruct (keys_elem _ _ _ _ Hr Hin) as (a0 & Hin0).
    destruct (Hsub a0 k Hin0 Hnp) as (c & k' & Hin' & Hk').
    assert (k' ∈ r2'.*2) as ((c' & k2) & -> & Hin2)%list_elem_of_fmap.
    { rewrite Hr2. apply list_elem_of_fmap. by exists (c, k'). }
    by exists c', k2.
  - by apply IH.
Qed.

Lemma stowers_skeys nd rs :
  Forall (λ r, ascending r ∧ (r = [] ∨ opened r)) rs → stowers nd rs → skeys rs.
Proof.
  induction rs as [|r rs IH]; [done|].
  intros [[Ha Ho] Hrs]%Forall_cons [Ht Hts]. split_and!; [done|done| |by apply IH].
  destruct rs as [|r' rs]; [done|]. intros a k Hin Hnp.
  destruct (Ht a k Hin) as (n & c & _ & _ & _ & Hk & _).
  destruct (Hk Hnp) as (k' & ? & ?). by exists c, k'.
Qed.

Lemma bracketed_all_keys rs rs' :
  Forall2 (λ r r', r'.*2 = r.*2) rs rs' → Forall bracketed rs' → Forall bracketed rs.
Proof.
  induction 1 as [|r r' rs rs' Hr _ IH]; [done|].
  intros [Hb Hbs]%Forall_cons. constructor; [|by apply IH].
  by eapply (bracketed_keys r').
Qed.

Lemma level0_bracketed_keys g g' :
  Forall2 (λ r r', r'.*2 = r.*2) g.*2 g'.*2 → bracketed (level0 g) → bracketed (level0 g').
Proof.
  intros Hk Hb. unfold level0 in *.
  destruct (last g) as [[l0 r0]|] eqn:Hl; [|by destruct Hb as [(? & ? & ? & _) _]].
  apply last_Some in Hl as (g1 & ->). rewrite fmap_app in Hk.
  apply Forall2_app_inv_l in Hk as (rs1 & rs2 & _ & Hk2 & Heq).
  apply Forall2_cons_inv_l in Hk2 as (r' & rs3 & Hr & Hnil & ->).
  apply Forall2_nil_inv_l in Hnil as ->.
  assert (last g'.*2 = Some r') as Hl' by (by rewrite Heq, last_snoc).
  rewrite fmap_last in Hl'. destruct (last g') as [[l1 r1]|]; [|done].
  simpl in *. simplify_eq. by eapply bracketed_keys.
Qed.

(** A set with a level that lacks its +INF sentinel cannot be copied: the
    three passes never return. *)
Lemma build_short s g z0 b :
  safe s g → ¬ Forall bracketed g.*2 → head z0 = None →
  ∀ z' b', build s z0 b ≠ Ok tt z' b'.
Proof.
  intros Hs Hnb Hz z' b' Hrun.
  assert (g ≠ []) as Hne by (intros ->; apply Hnb; constructor).
  pose proof (safe_shape _ _ _ _ _ Hs) as Hsh.
  pose proof (lchain_size _ _ _ _ Hsh) as Hsz.
  unfold build, mbind in Hrun.
  pose proof (linkLevels_loop_spec s g (size (lnodes s)) (head s) None z0 (S b)
                Hsh Hsz Hz z0 b (conj eq_refl (Nat.lt_succ_diag_r _))) as H1.
  unfold linkLevels in Hrun.
  destruct (linkLevels_loop (size (lnodes s)) s (head s) None z0 b)
    as [[] z1 b1| |]; [|done..].
  destruct H1 as (hs & Hlink & Hvals).
  destruct Hlink as (Hnd & _ & Hsk & Hhd & _ & Hn).
  assert (length hs = length g) as Hlen.
  { by rewrite <- (length_fmap snd hs), Hvals, lvals_length. }
  assert (Forall (λ r, (length r ≤ size (nodes s))%nat) g.*2) as Hrl.
  { apply Forall_forall. intros r Hr. etrans; [by apply row_length_weight|].
    by eapply safe_weight. }
  pose proof (linkNext_loop_spec s g (size (lnodes s)) (head s) hs z1 (S b1)
                Hsh Hrl Hsz Hsk Hnd Hlen z1 b1 (conj eq_refl (Nat.lt_succ_diag_r _))) as H2.
  unfold linkNext, mbind, lift in Hrun. rewrite Hhd in Hrun.
  destruct (linkNext_loop (size (lnodes s)) s (head s) (first_hdr hs) z1 b1)
    as [[] z2 b2| |]; [|done..].
  destruct H2 as (g' & Hgrid & Hkeys).
  destruct Hgrid as (Hg1 & Hvc & Hgr & Hnd' & _ & _ & _ & Hhd').
  destruct hs as [|[ch v] hs]; [by destruct g|].
  destruct g' as [|[ch2 U] g']; [done|].
  rewrite !fmap_cons in Hg1. simpl in Hg1. injection Hg1 as -> Hg1.
  unfold linkBelow in Hrun. rewrite Hhd', Hhd in Hrun. simpl first_hdr in Hrun.
  revert Hrun. apply (linkBelow_loop_short g' _ ch U _ z2 b2 Hvc).
  - change (U :: g'.*2) with (((ch, U) :: g').*2).
    eapply skeys_keys; [exact Hkeys|].
    eapply stowers_skeys; [apply Hs|apply Hs].
  - eapply level0_bracketed_keys; [exact Hkeys|]. by destruct (safe_bottom _ _ _ _ _ Hs).
  - intros HF. apply Hnb. eapply bracketed_all_keys; [exact Hkeys|]. exact HF.
Qed.

Lemma bracketed_all_dec rs : Forall bracketed rs ∨ ¬ Forall bracketed rs.
Proof.
  induction rs as [|r rs [IH|IH]]; [by left| |].
  - destruct (bracketed_dec r) as [Hr|Hr]; [left; by constructor|right].
    intros HF. by apply Forall_inv in HF.
  - right. intros HF. by apply Forall_inv_tail in HF.
Qed.

Lemma safe_partial s g : safe s g → partial s.
Proof.
  intros Hs. exists g, (lvals g). split_and!.
  - apply vchain_lchain, Hs.
  - apply Hs.
  - eapply lchain_nodup, Hs.
Qed.

Lemma copy_construct_short cl s g b c b' :
  safe s g → ¬ Forall bracketed g.*2 → copy_construct cl s b ≠ Ok tt c b'.
Proof.
  intros Hs Hnb. unfold copy_construct, catch_rethrow. unfold mbind at 1.
  pose proof (build_short s g (raw cl) b Hs Hnb eq_refl) as Hb.
  destruct (build s (raw cl) b) as [[] z bz|z bz|f]; [by destruct (Hb z bz)| |done].
  by destruct (mbind _ _ z bz).
Qed.

Lemma copy_assign_short cl s g t b :
  safe s g → ¬ Forall bracketed g.*2 →
  match copy_assign cl s t b with
  | Ok _ _ _ => False
  | Throw t' _ => t' = t
  | Abort _ => True
  end.
Proof.
  intros Hs Hnb. unfold copy_assign, catch_rethrow.
  pose proof (build_short s g (raw cl) b Hs Hnb eq_refl) as Hb.
  destruct (build s (raw cl) b) as [[] z bz|z bz|f]; [by destruct (Hb z bz)| |done].
  by destruct (mbind _ _ z bz).
Qed.

Lemma safe_nil s : head s = None → tail s = None → safe s [].
Proof.
  intros Hh Ht. split; simpl; [done|constructor|constructor|by right|done|constructor|done|done].
Qed.

(** Every state the public members can leave a set in has the invariant
    of [safe]. *)
Lemma attainable_safe s : attainable s → ∃ g, safe s g.
Proof.
  induction 1 as [t temp b s b' Hrun|e s b s' b' _ [g Hs] Hrun
                  |e s b s' b' _ [g Hs] Hrun
                  |cl s b c b' _ [g Hs] Hrun
                  |cl s t b t' b' _ [g Hs] _ [gt Hst] Hrun
                  |cl s t b t' b' _ [g Hs] _ [gt Hst] Hrun
                  |cl s _ [g Hs]|cl s _ [g Hs]
                  |cl t s _ [gt Hst] _ [g Hs]|cl t s _ [gt Hst] _ [g Hs]].
  - apply construct_spec in Hrun as ->. exists (empty_grid temp).
    apply wf_safe, wf_fresh_set.
  - pose proof (add_keeps ∅ ∅ s g e (conj Hs (apart_empty _ _ _)) s b eq_refl) as Hk.
    rewrite Hrun in Hk. destruct Hk as (g' & ? & _). by exists g'.
  - pose proof (add_keeps ∅ ∅ s g e (conj Hs (apart_empty _ _ _)) s b eq_refl) as Hk.
    rewrite Hrun in Hk. destruct Hk as (g' & ? & _). by exists g'.
  - destruct (bracketed_all_dec g.*2) as [Hb|Hb];
      [|by destruct (copy_construct_short cl s g b c b' Hs Hb)].
    pose proof (safe_wf s g Hs Hb) as Hwf.
    destruct (head s) eqn:Hh; [|by rewrite copy_construct_null in Hrun].
    assert (g ≠ []) as Hne by (eapply wf_head_some; [done|congruence]).
    pose proof (copy_construct_spec cl s g b Hwf Hne) as Hsp. rewrite Hrun in Hsp.
    destruct Hsp as (g' & ? & _). exists g'. by apply wf_safe.
  - destruct (bracketed_all_dec g.*2) as [Hb|Hb].
    2:{ pose proof (copy_assign_short cl s g t b Hs Hb) as Hsh. by rewrite Hrun in Hsh. }
    pose proof (safe_wf s g Hs Hb) as Hwf.
    destruct (head s) eqn:Hh; [|by rewrite copy_assign_null in Hrun].
    assert (g ≠ []) as Hne by (eapply wf_head_some; [done|congruence]).
    pose proof (copy_assign_spec cl s g t b Hwf Hne (safe_partial _ _ Hst)) as Hsp.
    rewrite Hrun in Hsp. destruct Hsp as (g' & ? & _). exists g'. by apply wf_safe.
  - destruct (bracketed_all_dec g.*2) as [Hb|Hb].
    2:{ pose proof (copy_assign_short cl s g t b Hs Hb) as Hsh. rewrite Hrun in Hsh.
        subst t'. by exists gt. }
    pose proof (safe_wf s g Hs Hb) as Hwf.
    destruct (head s) eqn:Hh; [|by rewrite copy_assign_null in Hrun].
    assert (g ≠ []) as Hne by (eapply wf_head_some; [done|congruence]).
    pose proof (copy_assign_spec cl s g t b Hwf Hne (safe_partial _ _ Hst)) as Hsp.
    rewrite Hrun in Hsp. destruct Hsp as [->|[_ (g' & ? & _)]]; [by exists gt|].
    exists g'. by apply wf_safe.
  - exists g. by destruct Hs.
  - exists []. by apply safe_nil.
  - exists g. by destruct Hs.
  - exists gt. by destruct Hst.
Qed.

End SafeCopy.

(** * The properties of [SkipListSet] *)

Section Properties.
Implicit Types (g : grid E) (s : SkipListSet E).

Lemma same_answers_refl s : same_answers s s.
Proof. by repeat split. Qed.

Lemma same_keys_answers s g (c : SkipListSet E) g' :
  wf s g → g ≠ [] → wf c g' → same_keys g g' → elements c = elements s →
  same_answers s c.
Proof.
  intros Hs Hne Hc Hk Hel.
  assert (g' ≠ []) as Hne'.
  { intros ->. apply same_keys_length in Hk. by destruct g. }
  split_and!.
  - unfold size_. by rewrite Hel.
  - rewrite (levelCount_spec s g), (levelCount_spec c g') by done.
    by rewrite (same_keys_length g g').
  - intros level. rewrite (elementsOnLevel_spec s g), (elementsOnLevel_spec c g') by done.
    by apply elements_on_keys.
  - intros e level.
    rewrite (isElementOnLevel_spec s g), (isElementOnLevel_spec c g') by done.
    f_equal. by apply is_on_keys.
  - intros e. by eapply contains_keys.
Qed.

Lemma reachable_fresh_set t temp : reachable (fresh_set t temp).
Proof. apply (reach_construct t temp 5 _ 0%nat). apply (construct_returns t temp 0). Qed.

Lemma reachable_member s e :
  reachable s → contains e s = Val true → ∃ g, wf s g ∧ g ≠ [] ∧ member e g.
Proof.
  intros [g Hwf]%reachable_wf Hc. exists g.
  assert (g ≠ []) as Hne.
  { intros ->. apply wf_nil in Hwf as [Hh _]. by rewrite contains_null in Hc. }
  destruct (contains_spec s g e Hwf Hne) as [[Hm _]|[_ Hf]]; [done|congruence].
Qed.

Lemma fresh_set_as_empty t temp : as_empty (fresh_set t temp).
Proof.
  split; [done|]. intros e.
  destruct (contains_spec _ (empty_grid temp) e (wf_fresh_set t temp) ltac:(done))
    as [[Hm _]|[_ ->]]; [|done].
  by apply empty_grid_no_member in Hm.
Qed.

(** What a copy is to its source. *)
Lemma copy_answers s g (c : SkipListSet E) g' :
  wf s g → g ≠ [] → wf c g' → same_keys g g' → elements c = elements s →
  same_answers s c
  ∧ ∀ e b1 c' b1', add e c b1 = Ok tt c' b1' →
      size_ c' = to_unsigned (size_ s + 1)
      ∧ contains e c' = Val true ∧ contains e s = Val false.
Proof.
  intros Hs Hne Hc Hk Hel. split; [by eapply same_keys_answers|].
  intros e b1 c' b1' Hadd.
  destruct (add_returns e c g' b1 c' b1' Hc Hadd)
    as (Hne' & Hnm & g'' & Hwf'' & Hne'' & Hsp & Hel').
  split_and!.
  - unfold size_, to_unsigned. rewrite Hel', Hel. by rewrite Zplus_mod_idemp_l.
  - destruct (contains_spec c' g'' e Hwf'' Hne'') as [[_ ->]|[Hn _]]; [done|].
    exfalso. apply Hn. unfold member. rewrite (spliced_found _ _ _ _ Hsp). by right.
  - destruct (contains_spec s g e Hs Hne) as [[Hm _]|[_ ->]]; [|done].
    exfalso. apply Hnm. by apply (member_keys e g g' Hk).
Qed.

(** Claim C1: [add(element)] with [element] already in the set.  The call is
    not the no-op its comment in the header promises: [search] returns
    [nullptr] for a key that is present and [add] reads [current->next]
    through it.  In every reachable state in which [contains(element)] is
    true, [add(element)] never returns: with two or more allocations left it
    dereferences the null pointer; with fewer, [new] throws first and the
    set is left as it was. *)
Theorem add_present_faults s e b :
  reachable s → contains e s = Val true →
  add e s b = if (b <? 2)%nat then Throw s 0%nat else Abort NullDeref.
Proof.
  intros Hr Hc. destruct (reachable_member s e Hr Hc) as (g & Hwf & Hne & Hm).
  destruct (search0_spec s g e Hwf Hne) as [[_ Hs]|[Hn _]]; [|done].
  destruct (Nat.ltb_spec b 2) as [Hb|Hb].
  - by eapply add_low_budget.
  - destruct b as [|[|b]]; [lia..|]. by eapply add_member.
Qed.

(** Claim C2: membership after a run of [add]s on a set just constructed
    (the constructor makes [fresh_set], and nothing else).  Whenever the
    [add]s of the elements [es], in order, all return, [contains(e)] is true
    for every [e] among them and false for every other element; [contains]
    is a function of the state and changes nothing.  A run that returns has
    no element twice, as the second [add] of an element does not return.
    With a tester that never promotes, elements that are distinct and two
    allocations for each, the run does return. *)
Theorem contains_after_adds t temp es :
  (∀ b s0 b', construct t temp b = Ok tt s0 b' → s0 = fresh_set t temp)
  ∧ (∀ b s' b', add_all es (fresh_set t temp) b = Ok tt s' b' →
       NoDup es ∧ ∀ e, contains e s' = Val (existsb (elt_eqb e) es))
  ∧ ((∀ h e, policy t h e = false) → NoDup es → Z.of_nat (length es) ≤ INT_MAX →
       ∀ b, ∃ s', add_all es (fresh_set t temp) (2 * length es + b)%nat = Ok tt s' b).
Proof.
  split_and!.
  - intros b s0 b'. apply construct_spec.
  - intros b s' b' Hrun.
    destruct (add_all_spec es _ (empty_grid temp) b s' b' (wf_fresh_set t temp)
                ltac:(done) Hrun) as ((Hnd & _) & g' & Hwf' & Hne' & Hmem).
    split; [done|]. intros e.
    destruct (contains_spec s' g' e Hwf' Hne') as [[Hm ->]|[Hm ->]]; f_equal; symmetry.
    + apply existsb_elt. apply Hmem in Hm as [Hm|Hm]; [|done].
      by apply empty_grid_no_member in Hm.
    + apply not_true_is_false. rewrite existsb_elt. intros Hin. apply Hm, Hmem. by right.
  - intros Hpol Hnd Hlen b.
    apply (add_all_returns es _ (empty_grid temp)); try done.
    + apply wf_fresh_set.
    + intros e _. apply empty_grid_no_member.
Qed.

(** What [search(element, minLevel)] returns as long as no [add] has
    thrown, for the level [r] numbered [minLevel]: [nullptr] when a key
    equal to [element] is on that level, and otherwise the node of that
    level after which [element] belongs: its key is less than [element]
    and the key of its right neighbour is greater. *)
Lemma search_intact s :
  reachable s →
  ∃ g, wf s g ∧ ∀ g1 la r g2 e, g = g1 ++ (la, r) :: g2 →
    (found_in (nkey e) r ∧ search e (Z.of_nat (length g2)) s = Val None)
    ∨ (¬ found_in (nkey e) r
       ∧ ∃ c, search e (Z.of_nat (length g2)) s = Val (Some c) ∧ pred_in (nkey e) r c).
Proof.
  intros [g Hwf]%reachable_wf. exists g. split; [done|].
  intros g1 la r g2 e ->. apply (search_level_spec s g1 la r g2 e Hwf).
Qed.

(** What [search(element, minLevel)] returns in any state the public
    members leave: [nullptr], or the node of level [minLevel] after
    which [element] belongs. *)
Lemma search_any s :
  attainable s →
  ∃ g, safe s g ∧ ∀ g1 la r g2 e, g = g1 ++ (la, r) :: g2 →
    ∃ res, search e (Z.of_nat (length g2)) s = Val res
           ∧ ∀ c, res = Some c → pred_in (nkey e) r c.
Proof.
  intros [g Hs]%attainable_safe. exists g. split; [done|].
  intros g1 la r g2 e ->. apply (ssearch_level_spec s g1 la r g2 e Hs).
Qed.

(** The two callers of [search(element, 0)], in any state: [contains]
    tests the result against [nullptr]; [add] does not, and reads
    [current->next] through it. *)
Lemma search_callers s e :
  (search e 0 s = Val None →
     contains e s = Val true ∧ ∀ b, add e s (S (S b)) = Abort NullDeref)
  ∧ (∀ c, search e 0 s = Val (Some c) → contains e s = Val false).
Proof.
  split.
  - intros Hs. split; [unfold contains; by rewrite Hs|].
    intros b. unfold add, mbind, lift. by rewrite Hs.
  - intros c Hs. unfold contains. by rewrite Hs.
Qed.

(** As long as no [add] has thrown, the levels form a grid [g] in which
    the keys of every level increase strictly from left to right, every
    level starts at a -INF sentinel and ends at a +INF sentinel, and every
    node of a level that has a level beneath points down to a node of that
    level with an equal key (a sentinel to the same sentinel). *)
Lemma sorted_towers_intact s :
  reachable s →
  ∃ g, lchain (lnodes s) (nodes s) (head s) g
       ∧ Forall ascending g.*2
       ∧ Forall bracketed g.*2
       ∧ ∀ i upper lower, g.*2 !! i = Some upper → g.*2 !! S i = Some lower →
           ∀ a k, (a, k) ∈ upper →
             ∃ n b k', nodes s !! a = Some n ∧ below n = Some b
                       ∧ (b, k') ∈ lower ∧ key_eqb k k' = true.
Proof.
  intros [g Hwf]%reachable_wf. exists g.
  pose proof (wf_rows _ _ _ _ _ Hwf) as Hrows. split_and!.
  - apply Hwf.
  - eapply Forall_impl; [exact Hrows|]. by intros r [_ ?].
  - eapply Forall_impl; [exact Hrows|]. by intros r [? _].
  - intros i upper lower Hi Hi'.
    exact (towers_lookup _ _ _ _ _ (wf_towers _ _ _ _ _ Hwf) Hi Hi').
Qed.

(** What is left of that in any state the public members leave: the keys
    of every level increase strictly from left to right, level 0 has both
    sentinels, and every node of a level above that is not a +INF
    sentinel points down to a node of the level beneath with an equal
    key. *)
Lemma sorted_towers_any s :
  attainable s →
  ∃ g, lchain (lnodes s) (nodes s) (head s) g
       ∧ Forall ascending g.*2
       ∧ (bracketed (level0 g) ∨ g = [])
       ∧ ∀ i upper lower, g.*2 !! i = Some upper → g.*2 !! S i = Some lower →
           ∀ a k, (a, k) ∈ upper → kind k ≠ PosInf →
             ∃ n b k', nodes s !! a = Some n ∧ below n = Some b
                       ∧ (b, k') ∈ lower ∧ key_eqb k k' = true.
Proof.
  intros [g Hs]%attainable_safe. exists g. split_and!.
  - apply Hs.
  - eapply Forall_impl; [exact (safe_rows _ _ _ _ _ Hs)|]. by intros r [? _].
  - apply Hs.
  - intros i upper lower Hi Hi' a k Hin Hk.
    destruct (stowers_lookup _ _ _ _ _ (safe_towers _ _ _ _ _ Hs) Hi Hi' a k Hin)
      as (n & b & ? & ? & _ & Hnp & _).
    destruct (Hnp Hk) as (k' & ? & ?). by exists n, b, k'.
Qed.

(** A source that a copy member has returned from is intact: no [add]
    on it has left a level without its +INF sentinel. *)
Lemma copied_intact cl s (t : SkipListSet E) c b b' :
  attainable s →
  copy_construct cl s b = Ok tt c b' ∨ copy_assign cl s t b = Ok tt c b' →
  ∃ g, wf s g ∧ g ≠ [].
Proof.
  intros [g Hs]%attainable_safe Hrun.
  destruct (bracketed_all_dec g.*2) as [Hb|Hb].
  2:{ destruct Hrun as [Hrun|Hrun].
      - by destruct (copy_construct_short cl s g b c b' Hs Hb).
      - pose proof (copy_assign_short cl s g t b Hs Hb) as Hsh. by rewrite Hrun in Hsh. }
  pose proof (safe_wf s g Hs Hb) as Hwf. exists g. split; [done|].
  destruct (head s) eqn:Hh; [eapply wf_head_some; [done|congruence]|].
  destruct Hrun as [Hrun|Hrun];
    [by rewrite copy_construct_null in Hrun|by rewrite copy_assign_null in Hrun].
Qed.

(** A copy answers as its source.  When the copy constructor, or the copy
    assignment to a target [t], returns the set [c], its tester is the
    clone, the two grids hold the same keys level by level, the observers
    agree on [s] and on [c], and an [add] of an element to [c] that
    returns leaves it in [c] with the size of [c] one more than the size
    of [s], while [s] does not contain it. *)
Lemma copy_returned cl s (t : SkipListSet E) c b b' :
  attainable s → attainable t →
  copy_construct cl s b = Ok tt c b' ∨ copy_assign cl s t b = Ok tt c b' →
  levelTester c = cl
  ∧ (∃ g g', wf s g ∧ wf c g' ∧ same_keys g g')
  ∧ same_answers s c
  ∧ ∀ e b1 c' b1', add e c b1 = Ok tt c' b1' →
      size_ c' = to_unsigned (size_ s + 1)
      ∧ contains e c' = Val true ∧ contains e s = Val false.
Proof.
  intros Has [gt Hst]%attainable_safe Hrun.
  destruct (copied_intact cl s t c b b' Has Hrun) as (g & Hwf & Hne).
  assert (∃ g', wf c g' ∧ same_keys g g' ∧ elements c = elements s ∧ levelTester c = cl)
    as (g' & Hwfc & Hk & Hel & Hcl).
  { destruct Hrun as [Hrun|Hrun].
    - pose proof (copy_construct_spec cl s g b Hwf Hne) as Hs. by rewrite Hrun in Hs.
    - pose proof (copy_assign_spec cl s g t b Hwf Hne (safe_partial _ _ Hst)) as Hs.
      by rewrite Hrun in Hs. }
  split; [done|]. split; [by exists g, g'|]. by eapply copy_answers.
Qed.

(** Both copy members return when no [add] on the source has thrown, the
    source was not moved from and there is an allocation for each of its
    level headers, two for each of its nodes and one for the tester. *)
Lemma copy_returns cl s (t : SkipListSet E) b :
  reachable s → attainable t → head s ≠ None →
  (size (lnodes s) + 2 * size (nodes s) + 1 ≤ b)%nat →
  (∃ c b', copy_construct cl s b = Ok tt c b')
  ∧ ∃ c b', copy_assign cl s t b = Ok tt c b'.
Proof.
  intros [g Hwf]%reachable_wf [gt Hst]%attainable_safe Hh Hb.
  pose proof (wf_head_some _ _ Hwf Hh) as Hne.
  pose proof (copy_cost_size s g Hwf). split.
  - apply (copy_construct_returns cl s g b Hwf Hne). lia.
  - apply (copy_assign_returns cl s g t b Hwf Hne (safe_partial _ _ Hst)). lia.
Qed.

(** Claim C8, as the code has it: a move hands the grid to the destination
    and leaves the source with null [head] and [tail] (move construction)
    or with the grid the target had (move assignment); in both cases the
    source keeps its element count.  After a move construction the source
    can be destroyed, and [elementsOnLevel] returns 0 on it, but
    [contains], [levelCount] and [add] dereference its null [head]. *)
Theorem move_leaves_source s (t : SkipListSet E) cl :
  reachable s → reachable t →
  (same_answers s (move_construct cl s).1
   ∧ head (move_construct cl s).1 = head s
   ∧ levelTester (move_construct cl s).1 = cl)
  ∧ (head (move_construct cl s).2 = None
     ∧ size_ (move_construct cl s).2 = size_ s
     ∧ (∀ e, contains e (move_construct cl s).2 = Crash NullDeref)
     ∧ levelCount (move_construct cl s).2 = Crash NullDeref
     ∧ (∀ e b, add e (move_construct cl s).2 b = Abort NullDeref)
     ∧ (∀ level, elementsOnLevel level (move_construct cl s).2 = Val 0)
     ∧ ∀ b, deleteSkipList None (move_construct cl s).2 b
            = Ok tt (move_construct cl s).2 b)
  ∧ (same_answers s (move_assign cl t s).1
     ∧ head (move_assign cl t s).1 = head s
     ∧ levelTester (move_assign cl t s).1 = cl)
  ∧ (head (move_assign cl t s).2 = head t
     ∧ lnodes (move_assign cl t s).2 = lnodes t
     ∧ nodes (move_assign cl t s).2 = nodes t
     ∧ size_ (move_assign cl t s).2 = size_ s
     ∧ (∀ e, contains e (move_assign cl t s).2 = contains e t)
     ∧ reachable (move_assign cl t s).2).
Proof.
  intros Hs Ht. split_and!; try done.
  - by apply reach_move_assigned_from.
Qed.

(** The copy assignment from a source that no [add] has thrown on and
    that was not moved from.  If [new] throws while the replacement grid is
    built, the exception reaches the caller with the target as it was;
    with an allocation for each level header of the source, two for each of
    its nodes and one for the tester the member returns; it never runs into
    undefined behaviour; when it returns, the target answers as the source;
    the one other way to fail is the allocation in [clone], which leaves
    the target with the new grid and the tester it had. *)
Lemma copy_assign_outcomes cl s (t : SkipListSet E) b :
  reachable s → attainable t → head s ≠ None →
  (∀ z b', build s (raw cl) b = Throw z b' → copy_assign cl s t b = Throw t b')
  ∧ ((size (lnodes s) + 2 * size (nodes s) + 1 ≤ b)%nat →
     ∃ t' b', copy_assign cl s t b = Ok tt t' b')
  ∧ match copy_assign cl s t b with
    | Ok _ t' _ => same_answers s t' ∧ levelTester t' = cl
    | Throw t' _ =>
        t' = t
        ∨ (∃ z b', build s (raw cl) b = Ok tt z b')
          ∧ same_answers s t' ∧ levelTester t' = levelTester t
    | Abort _ => False
    end
  ∧ match copy_assign cl s s b with
    | Ok _ s' _ | Throw s' _ => same_answers s s'
    | Abort _ => False
    end.
Proof.
  intros [g Hwf]%reachable_wf [gt Hwft]%attainable_safe Hh.
  pose proof (wf_head_some _ _ Hwf Hh) as Hne. split_and!.
  - intros z b' Hb. by eapply copy_assign_build_throws.
  - intros Hb. pose proof (copy_cost_size s g Hwf).
    apply (copy_assign_returns cl s g t b Hwf Hne (safe_partial _ _ Hwft)). lia.
  - pose proof (copy_assign_spec cl s g t b Hwf Hne (safe_partial _ _ Hwft)) as Hs.
    pose proof (copy_assign_no_overflow cl s t b) as Hno.
    destruct (copy_assign cl s t b) as [[] t' b'|t' b'|f].
    + destruct Hs as (g' & ? & ? & ? & ?). split; [|done]. by eapply same_keys_answers.
    + destruct Hs as [->|[Hb (g' & ? & ? & ? & ?)]]; [by left|right].
      split_and!; [done| |done]. by eapply same_keys_answers.
    + congruence.
  - pose proof (copy_assign_spec cl s g s b Hwf Hne (wf_partial _ _ Hwf)) as Hs.
    pose proof (copy_assign_no_overflow cl s s b) as Hno.
    destruct (copy_assign cl s s b) as [[] s' b'|s' b'|f].
    + destruct Hs as (g' & ? & ? & ? & ?). by eapply same_keys_answers.
    + destruct Hs as [->|[Hb (g' & ? & ? & ? & ?)]]; [apply same_answers_refl|].
      by eapply same_keys_answers.
    + congruence.
Qed.

(** Claim C10: in every state the public members can leave a set in, the
    state after an [add] that let [std::bad_alloc] through among them,
    every node of a level above level 0 points down to a node of the set;
    the loop of [search], at a node whose right neighbour holds a larger
    key, returns that node when its level is not above [minLevel] and
    follows [below] only when it is; and so [search], for a [minLevel] from
    0 to the top level, and [contains] return without a fault whenever the
    set has a grid (a set that was moved from has none: its [head] is
    null); and a node that [search(element, 0)] returns, the one [add]
    goes on to dereference, is a node of the set. *)
Theorem search_descent_safe s :
  attainable s →
  (∃ g, safe s g
        ∧ ∀ i r a k, g.*2 !! i = Some r → (S i < length g)%nat → (a, k) ∈ r →
            ∃ n b, nodes s !! a = Some n ∧ below n = Some b ∧ is_Some (nodes s !! b))
  ∧ (∀ fuel newKey minLevel a n a' n' level,
       nodes s !! a = Some n → key_eqb (value n) newKey = false →
       next n = Some a' → nodes s !! a' = Some n' →
       key_ltb newKey (value n') = true → level ≠ INT_MIN →
       search_loop (S fuel) (nodes s) newKey minLevel (Some a) level =
         if level - 1 <? minLevel then Val (Some a)
         else search_loop fuel (nodes s) newKey minLevel (below n) (level - 1))
  ∧ (∀ n e minLevel, levelCount s = Val n → 0 ≤ minLevel < n →
       ∃ res, search e minLevel s = Val res)
  ∧ (∀ e, head s ≠ None → ∃ v, contains e s = Val v)
  ∧ (∀ e c, search e 0 s = Val (Some c) →
       ∃ n d, nodes s !! c = Some n ∧ next n = Some d ∧ is_Some (nodes s !! d)).
Proof.
  intros [g Hs]%attainable_safe.
  assert (head s ≠ None → g ≠ []) as Hgne.
  { intros Hh ->. by destruct Hs as [Hsh _ _ _ _ _ _ _]. }
  assert (g ≠ [] → ∀ e, ∃ res, search e 0 s = Val res
            ∧ ∀ c, res = Some c → pred_in (nkey e) (level0 g) c) as Hs0.
  { intros Hne e. destruct (exists_last Hne) as (g1 & [l0 r0] & ->).
    rewrite level0_snoc. apply (ssearch_level_spec s g1 l0 r0 [] e Hs). }
  split_and!.
  - exists g. split; [done|]. intros i r a k. by apply safe_below.
  - intros fuel newKey minLevel a n a' n' level. by apply search_loop_down.
  - intros n e minLevel Hn Hmin.
    destruct g as [|[la r] g0] eqn:Hg.
    { destruct Hs as [Hsh _ _ _ _ _ _ _]. simpl in Hsh. unfold levelCount in Hn.
      by rewrite Hsh in Hn. }
    destruct (safe_head _ _ _ _ Hs) as (Hh & h & Hl & Hv & _).
    pose proof (safe_levels _ _ _ _ _ Hs) as Hlv. simpl in Hlv.
    unfold levelCount in Hn. rewrite Hh in Hn. simpl in Hn. rewrite Hl in Hn.
    simpl in Hn. injection Hn as <-. rewrite Hv in Hmin.
    rewrite Z.mod_small in Hmin by (unfold INT_MAX, UINT_MOD in *; lia).
    destruct (ssearch_spec s ((la, r) :: g0) e minLevel Hs) as (res & Hres & _);
      [done|simpl; lia|].
    by exists res.
  - intros e Hh. destruct (Hs0 (Hgne Hh) e) as (res & Hres & _).
    unfold contains. rewrite Hres. destruct res; by eexists.
  - intros e c Hc.
    assert (g ≠ []) as Hne.
    { apply Hgne. intros Hh. unfold search in Hc. by rewrite Hh in Hc. }
    destruct (Hs0 Hne e) as (res & Hres & Hp). rewrite Hc in Hres. injection Hres as <-.
    destruct (Hp c eq_refl) as (pre & kc & d & kd & post & Hr & _).
    destruct (exists_last Hne) as (g1 & [l0 r0] & ->). rewrite level0_snoc in Hr. subst r0.
    destruct (safe_row_node _ _ _ _ _ _ _ _ Hs) as (nc & Hnc & _ & Hnx). simpl in Hnx.
    exists nc, d. split_and!; [done|done|].
    eapply lchain_nodes_alloc; [apply Hs|]. rewrite fmap_app, join_app. simpl.
    rewrite !elem_of_app, !elem_of_cons. right. left. right. right. by left.
Qed.

(** What a copy assignment that throws leaves, whatever the states: the
    target as it was (the failure came while the replacement grid was
    built), or the target with the replacement grid, the source's element
    count and its own tester (the grid was built, the old one deleted, and
    the allocation in [clone] failed). *)
Lemma copy_assign_throws cl s (t : SkipListSet E) b t' b' :
  copy_assign cl s t b = Throw t' b' →
  t' = t
  ∨ ∃ z bz, build s (raw cl) b = Ok tt z bz
            ∧ head t' = head z ∧ lnodes t' = lnodes z ∧ nodes t' = nodes z
            ∧ elements t' = elements s ∧ levelTester t' = levelTester t.
Proof.
  unfold copy_assign, catch_rethrow.
  destruct (build s (raw cl) b) as [[] z bz|z bz|f] eqn:Hb.
  - destruct (deleteSkipList (head t) t bz) as [[] t0 b0|t0 b0|f];
      [|by intros [= <- _]; left|done].
    intros Hrun. right. exists z, bz. split; [done|].
    unfold updateTail, clone, mbind, lift, update, alloc, mret in Hrun. simpl in Hrun.
    destruct (deref (lnodes z) (head z)) as [h|]; [|done].
    destruct (updateTail_loop _ _ _ _) as [tl|]; [|done].
    destruct b0; [|done]. by injection Hrun as <- _.
  - destruct (mbind _ _ z bz) as [[] z' b0|z' b0|f]; [by intros [= <- _]; left..|done].
  - done.
Qed.

(** Assigning a set on which an [add] has left a level without its +INF
    sentinel never returns: when it throws the target is as it was. *)
Lemma copy_assign_torn cl s (t : SkipListSet E) b :
  attainable s →
  (∃ g, lchain (lnodes s) (nodes s) (head s) g ∧ ¬ Forall bracketed g.*2) →
  match copy_assign cl s t b with
  | Ok _ _ _ => False
  | Throw t' _ => t' = t
  | Abort _ => True
  end.
Proof.
  intros [g Hs]%attainable_safe (g0 & Hsh & Hnb).
  rewrite (lchain_inj _ _ _ _ _ Hsh (safe_shape _ _ _ _ _ Hs)) in Hnb.
  by apply (copy_assign_short cl s g t b Hs).
Qed.

(** Assigning a set that was moved from, to itself or to another set,
    reads [list->below] through the null [list] in [linkBelow]. *)
Lemma copy_assign_moved_from cl s (t : SkipListSet E) b :
  head s = None → copy_assign cl s t b = Abort NullDeref.
Proof. apply copy_assign_null. Qed.


End Properties.

(** * Further properties of the members *)

(** ** The order of the keys *)

Section KeyOrder.
Implicit Types x y z : SkipListKey E.

(** X1: [SkipListKey::operator==] is an equivalence and
    [SkipListKey::operator<] a strict total order that respects it: of
    [x < y], [x == y] and [y < x] exactly one holds.  A -INF key is below
    and a +INF key above every key of an element, and two sentinels of one
    kind are equal whatever their payloads. *)
Theorem key_order :
  (∀ x, key_eqb x x = true ∧ key_ltb x x = false)
  ∧ (∀ x y, key_eqb x y = key_eqb y x)
  ∧ (∀ x y z, key_eqb x y = true → key_eqb y z = true → key_eqb x z = true)
  ∧ (∀ x y z, key_ltb x y = true → key_ltb y z = true → key_ltb x z = true)
  ∧ (∀ x y z, key_eqb x y = true → key_ltb x z = key_ltb y z ∧ key_ltb z x = key_ltb z y)
  ∧ (∀ x y,
       (key_ltb x y = true ∧ key_eqb x y = false ∧ key_ltb y x = false)
       ∨ (key_ltb x y = false ∧ key_eqb x y = true ∧ key_ltb y x = false)
       ∨ (key_ltb x y = false ∧ key_eqb x y = false ∧ key_ltb y x = true))
  ∧ (∀ x e, (kind x = NegInf → key_ltb x (nkey e) = true)
            ∧ (kind x = PosInf → key_ltb (nkey e) x = true))
  ∧ (∀ x y, kind x = kind y → kind x ≠ Normal → key_eqb x y = true).
Proof.
  split_and!.
  - intros x. split; [apply key_eqb_refl|apply key_ltb_irrefl].
  - apply key_eqb_sym.
  - apply key_eqb_trans.
  - apply key_ltb_trans.
  - intros x y z Hxy. split; [by apply key_ltb_eqb_l|by apply key_ltb_eqb_r].
  - intros x y. destruct (key_ltb x y) eqn:Hlt.
    { left. split_and!; [done|by apply key_ltb_not_eqb|by apply key_ltb_asym]. }
    right. destruct (key_eqb x y) eqn:Heq.
    + left. split_and!; [done..|]. destruct (key_ltb y x) eqn:Hgt; [|done].
      apply key_ltb_not_eqb in Hgt. by rewrite key_eqb_sym, Heq in Hgt.
    + right. split_and!; [done..|]. apply key_ltb_total; [|done].
      by rewrite key_eqb_sym.
  - intros [[] ex] e; split; intros Hk; try done.
  - intros [[] ex] [[] ey] Hk Hn; try done.
Qed.

End KeyOrder.

(** ** The levels by their numbers *)

Section LevelNumbers.
Implicit Types (r : row E) (g : grid E) (s : SkipListSet E).

Lemma find_level_bound g level x :
  find_level g level = Some x → 0 ≤ level < Z.of_nat (length g).
Proof.
  induction g as [|[a r] g IH]; simpl; [done|].
  destruct (Z.eqb_spec (Z.of_nat (length g)) level); [intros _; lia|].
  intros H%IH. lia.
Qed.

Lemma find_level_middle g1 a r g2 :
  find_level (g1 ++ (a, r) :: g2) (Z.of_nat (length g2)) = Some (a, r).
Proof.
  induction g1 as [|[a' r'] g1 IH]; simpl.
  - by rewrite Z.eqb_refl.
  - rewrite length_app. simpl.
    by destruct (Z.eqb_spec (Z.of_nat (length g1 + S (length g2)))
                   (Z.of_nat (length g2))); [lia|].
Qed.

Lemma find_level_split g level a r :
  find_level g level = Some (a, r) →
  ∃ g1 g2, g = g1 ++ (a, r) :: g2 ∧ level = Z.of_nat (length g2).
Proof.
  induction g as [|[a' r'] g IH]; simpl; [done|].
  destruct (Z.eqb_spec (Z.of_nat (length g)) level) as [<-|].
  - intros [= -> ->]. by exists [], g.
  - intros (g1 & g2 & -> & ->)%IH. by exists ((a', r') :: g1), g2.
Qed.

Lemma found_existsb e r :
  existsb (key_eqb (nkey e)) r.*2 = true ↔ found_in (nkey e) r.
Proof.
  unfold found_in. rewrite existsb_exists. split.
  - intros (k' & Hin & Hk).
    apply list_elem_of_In, list_elem_of_fmap in Hin as ((a & k0) & -> & Hin).
    exists a, k0. split; [done|]. by rewrite key_eqb_sym.
  - intros (a & k' & Hin & Hk). exists k'. split; [|by rewrite key_eqb_sym].
    apply list_elem_of_In, list_elem_of_fmap. by exists (a, k').
Qed.

Lemma is_on_found e g level :
  is_on e g level = true ↔
  ∃ g1 a r g2, g = g1 ++ (a, r) :: g2 ∧ level = Z.of_nat (length g2)
               ∧ found_in (nkey e) r.
Proof.
  unfold is_on. split.
  - destruct (find_level g level) as [[a r]|] eqn:Hfl; [|done].
    intros Hf%found_existsb.
    apply find_level_split in Hfl as (g1 & g2 & -> & ->). by exists g1, a, r, g2.
  - intros (g1 & a & r & g2 & -> & -> & Hf).
    rewrite find_level_middle. by apply found_existsb.
Qed.

Lemma is_on_level0 e g : g ≠ [] → is_on e g 0 = existsb (key_eqb (nkey e)) (level0 g).*2.
Proof.
  intros Hne. destruct (exists_last Hne) as (g' & [a r] & ->).
  pose proof (find_level_middle g' a r []) as Hfl. change (Z.of_nat (length [])) with 0 in Hfl.
  unfold is_on. by rewrite Hfl, level0_snoc.
Qed.

Lemma found_down s g g1 a r g2 e :
  wf s g → g = g1 ++ (a, r) :: g2 → found_in (nkey e) r → member e g.
Proof.
  intros Hwf -> Hf. unfold member.
  destruct (decide (g2 = [])) as [->|Hne]; [by rewrite level0_snoc|].
  destruct (exists_last Hne) as (g2' & [a0 r0] & ->).
  replace (g1 ++ (a, r) :: g2' ++ [(a0, r0)])
    with ((g1 ++ (a, r) :: g2') ++ [(a0, r0)]) in * by by rewrite <- app_assoc.
  rewrite level0_snoc.
  pose proof (wf_towers _ _ _ _ _ Hwf) as Ht. rewrite fmap_app in Ht. simpl in Ht.
  eapply towers_found_down; [exact Ht| |done].
  rewrite fmap_app, fmap_cons. set_solver.
Qed.


(** [isElementOnLevel] against [contains], as long as no [add] has thrown:
    whatever [contains(e)] returns, [isElementOnLevel(e, 0)] returns too; an
    element on level [level + 1] is on level [level]; and an element on any
    level is in the set. *)
Lemma levels_nest_intact s e :
  reachable s →
  (∀ c, contains e s = Val c → isElementOnLevel e 0 s = Val c)
  ∧ (∀ level, 0 ≤ level → isElementOnLevel e (level + 1) s = Val true →
       isElementOnLevel e level s = Val true)
  ∧ (∀ level, isElementOnLevel e level s = Val true → contains e s = Val true).
Proof.
  intros [g Hwf]%reachable_wf. split_and!.
  - intros c Hc.
    assert (g ≠ []) as Hne.
    { intros ->. apply wf_nil in Hwf as [Hh _]. by rewrite contains_null in Hc. }
    rewrite (isElementOnLevel_spec s g e 0 Hwf), (is_on_level0 e g Hne).
    by rewrite <- (contains_existsb s g e Hwf Hne).
  - intros level Hlev. rewrite !(isElementOnLevel_spec s g e _ Hwf).
    intros [= Hon]. f_equal.
    apply is_on_found in Hon as (g1 & a & r & g2 & -> & Hl & Hf).
    destruct g2 as [|[a' r'] g2]; [simpl in Hl; lia|].
    apply is_on_found. exists (g1 ++ [(a, r)]), a', r', g2. split_and!.
    + by rewrite <- app_assoc.
    + simpl in Hl. lia.
    + pose proof (wf_towers _ _ _ _ _ Hwf) as Ht.
      eapply (tower_found (nodes s)); [|exact Hf].
      eapply (towers_lookup _ _ (length g1)); [exact Ht| |].
      * rewrite fmap_app. rewrite lookup_app_r by by rewrite length_fmap.
        by rewrite length_fmap, Nat.sub_diag.
      * rewrite fmap_app. rewrite lookup_app_r by (rewrite length_fmap; lia).
        rewrite length_fmap. by replace (S (length g1) - length g1)%nat with 1%nat by lia.
  - intros level. rewrite (isElementOnLevel_spec s g e _ Hwf). intros [= Hon].
    apply is_on_found in Hon as (g1 & a & r & g2 & Hg & _ & Hf).
    assert (g ≠ []) as Hne by (rewrite Hg; by destruct g1).
    destruct (contains_spec s g e Hwf Hne) as [[_ ->]|[Hn _]]; [done|].
    exfalso. apply Hn. by eapply found_down.
Qed.

End LevelNumbers.

(** ** How high [add] raises an element *)

Section Raise.
Implicit Types (nd : gmap loc (Node E)) (r pre post : row E) (rs : list (row E)) (g : grid E).
Implicit Types (s : SkipListSet E).

Lemma promotes_next (t : SkipListLevelTester E) e k :
  policy t (asked t) e = true →
  promotes (shouldOccupyNextLevel e t).2 e k → promotes t e (S k).
Proof.
  intros Hans [Htrue Hfalse]. simpl in *. split.
  - intros [|i] Hi; simpl.
    + by rewrite app_nil_r.
    + specialize (Htrue i ltac:(lia)). by rewrite <- app_assoc in Htrue.
  - by rewrite <- app_assoc in Hfalse.
Qed.

Lemma ask_again_next (t : SkipListLevelTester E) e k :
  ask_again (shouldOccupyNextLevel e t).2 e k = ask_again t e (S k).
Proof. unfold ask_again. simpl. by rewrite <- app_assoc. Qed.

(** The promotion loop, from the level [r] on which [e] was placed last:
    it raises [e] onto the next [k] levels, [k] being the number of times
    the tester answers true. *)
Lemma add_loop_raises e el fuel : ∀ g1 la r g2 t s0,
  wf s0 (g1 ++ (la, r) :: g2) → (t, nkey e) ∈ r →
  Forall (λ r', ¬ found_in (nkey e) r') g1.*2 → elements s0 = el →
  hoare (at_ s0 fuel) (add_loop fuel e (Some t) (Z.of_nat (length g2)))
    (λ _ s' _, ∃ k tops ga gb gb',
        wf s' (tops ++ ga ++ gb' ++ (la, r) :: g2)
        ∧ g1 = ga ++ gb
        ∧ Forall2 (level_spliced e) gb gb'
        ∧ Forall (level_of e) tops
        ∧ (tops ≠ [] → ga = [])
        ∧ k = (length tops + length gb)%nat
        ∧ elements s' = el
        ∧ promotes (levelTester s0) e k
        ∧ levelTester s' = ask_again (levelTester s0) e (S k)).
Proof.
  induction fuel as [|fuel IH]; intros g1 la r g2 t s0 Hwf Ht Hnf Hel.
  { intros s b [_ Hb]. lia. }
  cbn [add_loop].
  eapply hoare_step; [intros b; reflexivity|].
  eapply hoare_step; [intros b; reflexivity|].
  assert (∀ k, policy (levelTester s0) (asked (levelTester s0)) e = true →
               promotes (shouldOccupyNextLevel e (levelTester s0)).2 e k →
               promotes (levelTester s0) e (S k)) as Hprom
    by (intros k; apply promotes_next).
  pose proof (ask_again_next (levelTester s0) e) as Hask.
  destruct (shouldOccupyNextLevel e (levelTester s0)) as [ans t'] eqn:Hans.
  assert (ans = policy (levelTester s0) (asked (levelTester s0)) e) as Hansv
    by (by injection Hans as <- _).
  assert (t' = ask_again (levelTester s0) e 1) as Ht' by (by injection Hans as _ <-).
  cbn [fst snd] in *.
  apply (wf_set_levelTester _ t') in Hwf.
  set (s1 := set_levelTester t' s0) in *.
  assert (elements s1 = el) as Hel1 by done.
  assert (levelTester s1 = t') as Hlt1 by done.
  clearbody s1. clear Hel Hans.
  destruct ans.
  2:{ apply hoare_ret. intros s b [-> _]. exists 0%nat, [], g1, [], [].
      rewrite app_nil_r. split_and!; try done.
      - split; [intros i Hi; lia|]. simpl. by rewrite app_nil_r.
      - congruence. }
  assert (∀ k, promotes t' e k → promotes (levelTester s0) e (S k)) as Hprom'
    by (intros k; by apply Hprom).
  clear Hprom.
  eapply hoare_lift. unfold int_incr.
  destruct (Z.eqb_spec (Z.of_nat (length g2)) INT_MAX) as [|Hmax]; [done|].
  pose proof (wf_levels _ _ _ _ _ Hwf) as Hlv.
  assert (Z.of_nat (length g2) < INT_MAX) as Hmax'.
  { rewrite length_app in Hlv. simpl in Hlv. lia. }
  destruct (decide (g1 = [])) as [->|Hg1].
  - (* the level above does not exist yet *)
    rewrite app_nil_l in *.
    destruct (wf_head _ _ _ _ Hwf) as (Hh & h & Hl & Hv & _).
    eapply hoare_lift. simpl. rewrite Hh. simpl. rewrite Hl.
    unfold to_unsigned. rewrite Z.mod_small by (unfold INT_MAX, UINT_MOD in *; lia).
    rewrite Hv. destruct (Z.gtb_spec (Z.of_nat (length g2) + 1) (Z.of_nat (length g2)));
      [|lia].
    eapply hoare_bind.
    { eapply (createNewLevel_spec s1 fuel); [done|done|apply key_eqb_refl|lia]. }
    intros []. apply hoare_post_fix.
    intros s2 (top & neg & mid & pos & Hwf2 & Hel2 & Hlt2).
    destruct (wf_head _ _ _ _ Hwf2) as (Hh2 & h2 & Hl2 & _ & Hnx2 & Hch2).
    eapply hoare_lift. simpl. rewrite Hh2. simpl. rewrite Hl2.
    apply chain_cons in Hch2 as (Hnx2' & n2 & Hn2 & _ & Hch2).
    pose proof (chain_head _ _ _ Hch2) as Hnn. simpl in Hnn.
    eapply hoare_lift. simpl. rewrite Hnx2'. simpl. rewrite Hn2. rewrite Hnn.
    replace (Z.of_nat (length g2) + 1) with (Z.of_nat (length ((la, r) :: g2)))
      by (simpl; lia).
    eapply hoare_conseq; [done| |done|eapply (IH [] top _ ((la, r) :: g2) mid s2)].
    + intros _ s' b' (k & tops & ga & gb & gb' & Hwf' & Hg & Hsp & Htops & Hga & Hk
                      & Hel' & Hpr & Hlt').
      symmetry in Hg. apply app_eq_nil in Hg as [-> ->].
      apply Forall2_nil_inv_l in Hsp as ->. simpl in Hwf'.
      exists (S k), (tops ++ [(top, [(neg, neg_key); (mid, nkey e); (pos, pos_key)])]),
        [], [], [].
      rewrite <- app_assoc. simpl. split_and!; try done.
      * apply Forall_app. split; [done|]. by constructor.
      * rewrite length_app. simpl in *. lia.
      * apply Hprom'. by rewrite <- Hlt1, <- Hlt2.
      * rewrite Hlt', Hlt2, Hlt1. apply Hask.
    + done.
    + set_solver.
    + constructor.
    + congruence.
  - (* the level above exists: find the place there *)
    destruct (exists_last Hg1) as (g1' & [la' r'] & ->).
    assert (∃ h, head s1 = Some h ∧ ∃ l, lnodes s1 !! h = Some l
              ∧ lvalue l = Z.of_nat (length g1' + length g2 + 1)) as (hd & Hh & l & Hl & Hv).
    { destruct g1' as [|[l0 r0] g1']; simpl in Hwf;
        destruct (wf_head _ _ _ _ Hwf) as (Hh & h & Hl & Hv & _);
        exists l0 || exists la'; (split; [done|]); exists h; (split; [done|]);
        rewrite Hv; simpl; rewrite ?length_app; simpl; lia. }
    eapply hoare_lift. simpl. rewrite Hh. simpl. rewrite Hl.
    unfold to_unsigned. rewrite Z.mod_small by (unfold INT_MAX, UINT_MOD in *; lia).
    rewrite Hv.
    destruct (Z.gtb_spec (Z.of_nat (length g2) + 1) (Z.of_nat (length g1' + length g2 + 1)));
      [lia|].
    destruct (search_spec s1 _ e (Z.of_nat (length g2) + 1) Hwf) as (res & Hres & Hpost).
    { by destruct g1'. }
    { rewrite !length_app. simpl. lia. }
    eapply hoare_lift. rewrite Hres.
    rewrite <- app_assoc in Hwf, Hpost. simpl in Hwf, Hpost.
    rewrite fmap_app, fmap_cons in Hnf. apply Forall_app in Hnf as [Hnf1 Hnf2].
    apply Forall_inv in Hnf2. simpl in Hnf2.
    destruct res as [c|]; simpl in Hpost.
    2:{ (* the element is on no level above *)
      exfalso. destruct Hpost as (i & r0 & Hi & Hle & Hf).
      rewrite fmap_app, fmap_cons in Hi. rewrite length_fmap, length_app in Hle.
      simpl in Hle.
      destruct (decide (i < length g1'.*2)%nat) as [Hlt|Hge].
      - rewrite lookup_app_l in Hi by done.
        rewrite Forall_forall in Hnf1. apply (Hnf1 r0); [|done].
        by eapply list_elem_of_lookup_2.
      - rewrite length_fmap in Hge.
        assert (i = length g1'.*2) as -> by (rewrite length_fmap; lia).
        rewrite list_lookup_middle in Hi by done. by simplify_eq. }
    destruct Hpost as (r0 & Hi & pre & kc & d & kd & post & -> & Hlt & Hgt).
    rewrite fmap_app, fmap_cons in Hi.
    replace (Z.to_nat _) with (length g1'.*2) in Hi.
    2:{ rewrite length_app. simpl. rewrite !length_fmap. lia. }
    rewrite list_lookup_middle in Hi by done. simpl in Hi. simplify_eq.
    eapply hoare_bind.
    { eapply (insertNewNode_spec s1 fuel); [done..|].
      exists t, (nkey e). split_and!; [done..|]. apply key_eqb_refl. }
    intros res. apply hoare_post_fix.
    intros s2 (a & -> & Hwf2 & Hel2 & Hlt2).
    replace (Z.of_nat (length g2) + 1) with (Z.of_nat (length ((la, r) :: g2)))
      by (simpl; lia).
    eapply hoare_conseq;
      [done| |done
      |eapply (IH g1' la' (pre ++ (c, kc) :: (a, nkey e) :: (d, kd) :: post)
                 ((la, r) :: g2) a s2)].
    + intros _ s' b' (k & tops & ga & gb & gb' & Hwf' & Hg & Hsp & Htops & Hga & Hk
                      & Hel' & Hpr & Hlt').
      exists (S k), tops, ga,
        (gb ++ [(la', pre ++ (c, kc) :: (d, kd) :: post)]),
        (gb' ++ [(la', pre ++ (c, kc) :: (a, nkey e) :: (d, kd) :: post)]).
      split_and!; try done.
      * by rewrite <- app_assoc.
      * by rewrite Hg, <- app_assoc.
      * apply Forall2_app; [done|]. constructor; [|done]. split; [done|].
        by exists pre, c, kc, a, d, kd, post.
      * rewrite length_app. simpl. lia.
      * apply Hprom'. by rewrite <- Hlt1, <- Hlt2.
      * rewrite Hlt', Hlt2, Hlt1. apply Hask.
    + done.
    + set_solver.
    + done.
    + congruence.
Qed.

(** [add] of an element that is not in the set. *)
Lemma add_raises s0 g e :
  wf s0 g → g ≠ [] → ¬ member e g →
  hoare (λ s _, s = s0) (add e)
    (λ _ s' _, ∃ k g', wf s' g' ∧ raised e k g g'
                       ∧ elements s' = elements s0 + 1 ∧ elements s0 ≠ INT_MAX
                       ∧ promotes (levelTester s0) e k
                       ∧ levelTester s' = ask_again (levelTester s0) e (S k)).
Proof.
  intros Hwf Hne Hnm s b ->.
  cut (hoare (at_ s0 (S b)) (add e)
         (λ _ s' _, ∃ k g', wf s' g' ∧ raised e k g g'
                       ∧ elements s' = elements s0 + 1 ∧ elements s0 ≠ INT_MAX
                       ∧ promotes (levelTester s0) e k
                       ∧ levelTester s' = ask_again (levelTester s0) e (S k))).
  { intros H. apply H. split; [done|lia]. }
  destruct (search0_spec s0 g e Hwf Hne) as [[? _]|[_ (c & Hs & Hp)]]; [done|].
  destruct (exists_last Hne) as (g1 & [l0 r0] & ->). rewrite level0_snoc in *.
  destruct Hp as (pre & kc & d & kd & post & -> & Hlt & Hgt).
  destruct (wf_row_node _ _ _ _ _ _ _ _ Hwf) as (nc & Hc & Hk & Hnx). simpl in Hnx.
  assert (Forall (λ r', ¬ found_in (nkey e) r') g1.*2) as Hnf.
  { apply Forall_forall. intros r' Hr' Hf. apply Hnm. unfold member.
    rewrite level0_snoc. pose proof (wf_towers _ _ _ _ _ Hwf) as Ht.
    rewrite fmap_app in Ht. by eapply towers_found_down. }
  unfold add.
  eapply hoare_lift. rewrite Hs.
  eapply hoare_bind.
  { apply hoare_catch; [|by intros ? ? ?].
    eapply hoare_alloc'. eapply hoare_alloc'.
    eapply hoare_lift. simpl. rewrite Hc.
    eapply hoare_store_Node. intros a Ha. assert (a ≠ c) by congruence.
    eapply hoare_step; [intros b'; apply set_next_ok; simpl|].
    { rewrite lookup_insert_ne by done. exact Hc. }
    eapply hoare_lift. simpl. unfold int_incr.
    destruct (Z.eqb_spec (elements s0) INT_MAX) as [|Hel0]; [done|].
    eapply hoare_step; [intros b'; reflexivity|].
    eapply (hoare_last _ _ _ _ _
              (λ temp s _, ∃ a, temp = Some a ∧ elements s = elements s0 + 1
                 ∧ elements s0 ≠ INT_MAX ∧ levelTester s = levelTester s0
                 ∧ wf s (g1 ++ [(l0, pre ++ (c, kc) :: (a, nkey e) :: (d, kd) :: post)])));
      [intros b'; reflexivity|].
    intros b' _. exists a. split_and!; [done..|].
    unfold wf. simpl. rewrite Hnx. by eapply wf_insert. }
  intros temp s1 b1 (a & -> & Hel & Hel0 & Hlt1 & Hwf1).
  assert ((a, nkey e) ∈ pre ++ (c, kc) :: (a, nkey e) :: (d, kd) :: post) as Hin
    by set_solver.
  pose proof (add_loop_raises e (elements s0 + 1) (S b1) g1 l0 _ [] a s1 Hwf1 Hin Hnf Hel
                s1 b1 (conj eq_refl (Nat.lt_succ_diag_r _))) as Hloop.
  change (Z.of_nat (length (@nil (loc * list (loc * SkipListKey E))))) with 0 in Hloop.
  cbn beta.
  destruct (add_loop (S b1) e (Some a) 0 s1 b1) as [[] s' b'| |]; [|done..].
  destruct Hloop as (k & tops & ga & gb & gb' & Hwf' & -> & Hsp & Htops & Hga & Hkk
                     & Hel' & Hpr & Hlt').
  exists k, (tops ++ ga ++ gb' ++ [(l0, pre ++ (c, kc) :: (a, nkey e) :: (d, kd) :: post)]).
  rewrite Hlt1 in Hpr, Hlt'. split_and!; try done.
  exists tops, ga, (gb ++ [(l0, pre ++ (c, kc) :: (d, kd) :: post)]),
    (gb' ++ [(l0, pre ++ (c, kc) :: (a, nkey e) :: (d, kd) :: post)]).
  split_and!; try done.
  - by rewrite <- app_assoc.
  - apply Forall2_app; [done|]. constructor; [|done]. split; [done|].
    by exists pre, c, kc, a, d, kd, post.
  - rewrite fmap_app in Hnf. apply Forall_app in Hnf as [Hnf _].
    by rewrite Forall_fmap in Hnf.
  - rewrite length_app. simpl. lia.
Qed.

Lemma add_returns_raised e s g b s' b' :
  wf s g → add e s b = Ok tt s' b' →
  g ≠ [] ∧ ¬ member e g
  ∧ ∃ k g', wf s' g' ∧ raised e k g g'
            ∧ elements s' = elements s + 1 ∧ elements s ≠ INT_MAX
            ∧ promotes (levelTester s) e k
            ∧ levelTester s' = ask_again (levelTester s) e (S k).
Proof.
  intros Hwf Hrun.
  destruct (add_returns e s g b s' b' Hwf Hrun) as (Hne & Hnm & _).
  split_and!; [done..|].
  pose proof (add_raises s g e Hwf Hne Hnm s b eq_refl) as Hs. by rewrite Hrun in Hs.
Qed.

(** *** The grid after [add], level by level *)












End Raise.

(** ** Counting the elements of a level *)

Section Counting.
Implicit Types (r : row E) (g : grid E) (s : SkipListSet E).

Lemma count_from_spec n : ∀ c,
  c ≤ INT_MAX →
  count_from n c = if c + Z.of_nat n <=? INT_MAX then Val (c + Z.of_nat n)
                   else Crash SignedOverflow.
Proof.
  induction n as [|n IH]; intros c Hc.
  - simpl. rewrite Z.add_0_r. by destruct (Z.leb_spec c INT_MAX); [|lia].
  - cbn [count_from]. unfold int_incr.
    destruct (Z.eqb_spec c INT_MAX) as [->|Hne]; simpl.
    + by destruct (Z.leb_spec (INT_MAX + Z.of_nat (S n)) INT_MAX); [lia|].
    + rewrite IH by lia. by replace (c + 1 + Z.of_nat n) with (c + Z.of_nat (S n)) by lia.
Qed.

Lemma bracketed_two r : bracketed r → (2 ≤ length r)%nat.
Proof.
  intros [(a & k & H0 & Hk) (b & k' & Hl & Hk')].
  destruct r as [|x [|y r]]; simpl in *; [done| |lia]. simplify_eq. congruence.
Qed.

Lemma wf_row_two s g a r : wf s g → (a, r) ∈ g → (2 ≤ length r)%nat.
Proof.
  intros Hwf Hin. pose proof (wf_rows _ _ _ _ _ Hwf) as Hrows.
  rewrite Forall_forall in Hrows. apply bracketed_two, (Hrows r).
  apply list_elem_of_fmap. by exists (a, r).
Qed.

(** [elementsOnLevel] counts the elements of the level, as long as its
    [int] counter can hold the number of nodes. *)
Lemma elements_on_count s g level :
  wf s g →
  elements_on g level =
    if Z.of_nat (level_elements g level) + 2 <=? INT_MAX
    then Val (Z.of_nat (level_elements g level))
    else Crash SignedOverflow.
Proof.
  intros Hwf. unfold elements_on, level_elements.
  destruct (find_level g level) as [[a r]|] eqn:Hfl; [|done].
  apply find_level_elem in Hfl. pose proof (wf_row_two _ _ _ _ Hwf Hfl) as Htwo.
  rewrite count_from_spec by (unfold INT_MAX; lia). rewrite Z.add_0_l.
  replace (Z.of_nat (length r - 2) + 2) with (Z.of_nat (length r)) by lia.
  destruct (Z.leb_spec (Z.of_nat (length r)) INT_MAX) as [Hle|]; [|done]. simpl.
  destruct (Z.ltb_spec (Z.of_nat (length r) - 2) INT_MIN) as [Hlt|_].
  { unfold INT_MIN in Hlt. lia. }
  unfold to_unsigned. rewrite Z.mod_small by (unfold INT_MAX, UINT_MOD in *; lia).
  f_equal. lia.
Qed.

Lemma level_elements_cons x g level :
  level_elements (x :: g) level =
    if Z.of_nat (length g) =? level then (length x.2 - 2)%nat else level_elements g level.
Proof.
  unfold level_elements. destruct x as [a r]. simpl.
  by destruct (Z.of_nat (length g) =? level).
Qed.

Lemma level_elements_above g level :
  Z.of_nat (length g) ≤ level → level_elements g level = 0%nat.
Proof.
  intros Hl. unfold level_elements. destruct (find_level g level) as [x|] eqn:Hx; [|done].
  apply find_level_bound in Hx. lia.
Qed.

Lemma spliced_length e r r' : spliced e r r' → (length r' - 2 = S (length r - 2))%nat.
Proof.
  intros (pre & c & kc & a & d & kd & post & -> & -> & _).
  rewrite !length_app. simpl. lia.
Qed.

Lemma level_of_length e x : level_of e x → (length x.2 - 2 = 1)%nat.
Proof.
  unfold level_of. intros Hk. apply (f_equal length) in Hk.
  rewrite length_fmap in Hk. simpl in Hk. lia.
Qed.

(** One more element on each of the levels 0 to [k], the others as they
    were. *)
Lemma raised_level_elements e k g g' level :
  raised e k g g' →
  level_elements g' level
  = (level_elements g level
     + if bool_decide (0 ≤ level ≤ Z.of_nat k)%Z then 1 else 0)%nat.
Proof.
  intros (tops & ga & gb & gb' & -> & -> & Hsp & Htops & Hga & _ & Hk).
  pose proof (Forall2_length _ _ _ Hsp) as Hlen.
  assert (level_elements gb' level
          = (level_elements gb level
             + if bool_decide (0 ≤ level < Z.of_nat (length gb))%Z then 1 else 0)%nat)
    as Hb.
  { clear Hk Hlen. induction Hsp as [|x x' gb gb' [_ Hx] Hsp IH].
    { by rewrite bool_decide_eq_false_2 by (simpl; lia). }
    pose proof (Forall2_length _ _ _ Hsp) as Hl.
    rewrite !level_elements_cons. cbn [length]. rewrite Hl in *.
    destruct (Z.eqb_spec (Z.of_nat (length gb')) level) as [<-|Hne].
    - rewrite bool_decide_eq_true_2 by lia.
      rewrite (spliced_length _ _ _ Hx). lia.
    - rewrite IH. f_equal. apply (f_equal (λ b : bool, if b then 1%nat else 0%nat)).
      apply bool_decide_ext. lia. }
  destruct (decide (tops = [])) as [->|Hne].
  - clear Htops Hga. simpl in *.
    induction ga as [|x ga IH]; simpl.
    + rewrite Hb. f_equal. apply (f_equal (λ b : bool, if b then 1%nat else 0%nat)).
      apply bool_decide_ext. lia.
    + rewrite !level_elements_cons, !length_app, Hlen.
      destruct (Z.eqb_spec (Z.of_nat (length ga + length gb')) level) as [<-|]; [|done].
      rewrite bool_decide_eq_false_2 by lia. lia.
  - rewrite (Hga Hne) in *. rewrite !app_nil_l. clear Hga Hne.
    revert k Hk. induction Htops as [|x tops Hx _ IH]; intros k Hk; simpl in *.
    + rewrite Hb. f_equal. apply (f_equal (λ b : bool, if b then 1%nat else 0%nat)).
      apply bool_decide_ext. lia.
    + rewrite level_elements_cons, length_app.
      destruct (Z.eqb_spec (Z.of_nat (length tops + length gb')) level) as [<-|Hne].
      * rewrite (level_of_length _ _ Hx), level_elements_above by lia.
        rewrite bool_decide_eq_true_2 by lia. done.
      * destruct (decide (tops = [])) as [->|Htne].
        -- simpl in *. rewrite Hb. f_equal.
           apply (f_equal (λ b : bool, if b then 1%nat else 0%nat)).
           apply bool_decide_ext. lia.
        -- destruct k as [|k]; [destruct tops; [done|simpl in Hk; lia]|].
           rewrite (IH k) by lia. f_equal.
           apply (f_equal (λ b : bool, if b then 1%nat else 0%nat)).
           apply bool_decide_ext. lia.
Qed.

(** The element count stays within [int] and never goes below 0. *)
Lemma reachable_elements s : reachable s → 0 ≤ elements s ≤ INT_MAX.
Proof.
  induction 1 as [t temp b s b' Hrun|e s b s' b' Hr IH Hrun
                  |cl s b c b' Hr IH Hrun
                  |cl s t b t' b' Hr IH Hrt IHt Hrun
                  |cl s t b t' b' Hr IH Hrt IHt Hrun
                  |cl s _ IH|cl s _ IH
                  |cl t s _ IHt _ IH|cl t s _ IHt _ IH]; try done.
  - apply construct_spec in Hrun as ->. simpl. unfold INT_MAX. lia.
  - destruct (reachable_wf s Hr) as [g Hwf].
    destruct (add_returns_raised e s g b s' b' Hwf Hrun)
      as (_ & _ & k & g' & _ & _ & -> & Hmax & _). lia.
  - destruct (reachable_wf s Hr) as [g Hwf].
    destruct (head s) eqn:Hh; [|by rewrite copy_construct_null in Hrun].
    assert (g ≠ []) as Hne by (eapply wf_head_some; [done|congruence]).
    pose proof (copy_construct_spec cl s g b Hwf Hne) as Hs. rewrite Hrun in Hs.
    destruct Hs as (g' & _ & _ & -> & _). done.
  - destruct (reachable_wf s Hr) as [g Hwf]. destruct (reachable_wf t Hrt) as [gt Hwft].
    destruct (head s) eqn:Hh; [|by rewrite copy_assign_null in Hrun].
    assert (g ≠ []) as Hne by (eapply wf_head_some; [done|congruence]).
    pose proof (copy_assign_spec cl s g t b Hwf Hne (wf_partial _ _ Hwft)) as Hs.
    rewrite Hrun in Hs. destruct Hs as (g' & _ & _ & -> & _). done.
  - destruct (reachable_wf s Hr) as [g Hwf]. destruct (reachable_wf t Hrt) as [gt Hwft].
    destruct (head s) eqn:Hh; [|by rewrite copy_assign_null in Hrun].
    assert (g ≠ []) as Hne by (eapply wf_head_some; [done|congruence]).
    pose proof (copy_assign_spec cl s g t b Hwf Hne (wf_partial _ _ Hwft)) as Hs.
    rewrite Hrun in Hs. destruct Hs as [->|[_ (g' & _ & _ & -> & _)]]; done.
Qed.

Lemma reachable_size s : reachable s → size_ s = elements s.
Proof.
  intros Hr%reachable_elements. unfold size_, to_unsigned.
  apply Z.mod_small. unfold INT_MAX, UINT_MOD in *. lia.
Qed.

End Counting.

(** ** What [add] does to a set *)

Section AddEffects.
Implicit Types (r : row E) (g : grid E) (s : SkipListSet E).





End AddEffects.

(** ** A run of [add]s on a new set *)

Section Runs.
Implicit Types (r : row E) (g : grid E) (s : SkipListSet E).

Lemma add_all_counts es : ∀ s g b s' b',
  wf s g → add_all es s b = Ok tt s' b' →
  ∃ g', wf s' g' ∧ elements s' = elements s + Z.of_nat (length es)
        ∧ level_elements g' 0 = (level_elements g 0 + length es)%nat.
Proof.
  induction es as [|e es IH]; intros s g b s' b' Hwf Hrun.
  - simpl in Hrun. injection Hrun as <- _. exists g.
    split_and!; [done|simpl; lia|simpl; lia].
  - simpl in Hrun. unfold mbind in Hrun.
    destruct (add e s b) as [[] s1 b1| |] eqn:Hadd; [|done..].
    destruct (add_returns_raised e s g b s1 b1 Hwf Hadd)
      as (_ & _ & k & g1 & Hwf1 & Hra & Hel & _).
    destruct (IH s1 g1 b1 s' b' Hwf1 Hrun) as (g' & Hwf' & Hel' & Hlev).
    exists g'. split_and!; [done|simpl; lia|].
    rewrite Hlev, (raised_level_elements e k g g1 0 Hra).
    rewrite bool_decide_eq_true_2 by lia. simpl. lia.
Qed.

Lemma add_all_reachable es : ∀ s b s' b',
  reachable s → add_all es s b = Ok tt s' b' → reachable s'.
Proof.
  induction es as [|e es IH]; intros s b s' b' Hr Hrun.
  - simpl in Hrun. by injection Hrun as <- _.
  - simpl in Hrun. unfold mbind in Hrun.
    destruct (add e s b) as [[] s1 b1| |] eqn:Hadd; [|done..].
    eapply IH; [|done]. by eapply reach_add.
Qed.

(** X13: [size()] and [elementsOnLevel(0)] after a run of [add]s.  On a
    set the constructor has made, when the [add]s of the elements [es], in
    order, all return, [size()] is the number of [es], and so is
    [elementsOnLevel(0)], unless that number and the two sentinels are more
    than its [int] counter holds, when the counter overflows. *)
Theorem size_after_adds t temp b0 s0 b0' es b s b' :
  construct t temp b0 = Ok tt s0 b0' → add_all es s0 b = Ok tt s b' →
  size_ s = Z.of_nat (length es)
  ∧ elementsOnLevel 0 s = (if Z.of_nat (length es) + 2 <=? INT_MAX
                           then Val (Z.of_nat (length es))
                           else Crash SignedOverflow).
Proof.
  intros ->%construct_spec Hrun.
  destruct (add_all_counts es _ _ b s b' (wf_fresh_set t temp) Hrun)
    as (g' & Hwf' & Hel & Hlev).
  pose proof (add_all_reachable es _ b s b' (reachable_fresh_set t temp) Hrun) as Hr.
  split.
  - rewrite (reachable_size s Hr), Hel. simpl. lia.
  - rewrite (elementsOnLevel_spec s g' 0 Hwf'), (elements_on_count s g' 0 Hwf'), Hlev.
    by change (level_elements (empty_grid temp) 0) with 0%nat.
Qed.

End Runs.

(** ** The constructor *)

Section Construction.
Implicit Types (g : grid E) (s : SkipListSet E).

Lemma construct_throws t temp b :
  (b < 5)%nat → ∃ s b', construct t temp b = Throw s b'.
Proof.
  intros Hb. destruct b as [|[|[|[|[|b]]]]]; [..|lia];
    eexists _, _; vm_compute; reflexivity.
Qed.

(** X2: the constructor.  With the five allocations it asks for (the
    header of level 0, two sentinels and their keys) it returns an empty
    set: [size()] is 0, [levelCount()] is 1, no level holds an element and
    [contains] is false of every element.  With fewer, [std::bad_alloc]
    reaches the caller; the handler's [deleteSkipList(head)] finds [head]
    null or pointing at the one header, and runs into no fault. *)
Theorem construct_outcome t temp b :
  if (5 <=? b)%nat then
    ∃ s, construct t temp b = Ok tt s (b - 5)%nat
         ∧ levelTester s = t ∧ size_ s = 0 ∧ levelCount s = Val 1
         ∧ (∀ level, elementsOnLevel level s = Val 0)
         ∧ (∀ e level, isElementOnLevel e level s = Val false)
         ∧ (∀ e, contains e s = Val false)
  else ∃ s b', construct t temp b = Throw s b'.
Proof.
  destruct (Nat.leb_spec 5 b) as [Hb|Hb]; [|by apply construct_throws].
  exists (fresh_set t temp). split_and!; try done.
  - replace b with (5 + (b - 5))%nat at 1 by lia. apply construct_returns.
  - intros level.
    rewrite (elementsOnLevel_spec _ _ level (wf_fresh_set t temp)).
    by destruct level.
  - intros e level.
    rewrite (isElementOnLevel_spec _ _ e level (wf_fresh_set t temp)).
    by destruct level.
Qed.

End Construction.

(** ** The destructor *)

Section Teardown.
Implicit Types (nd : gmap loc (Node E)) (ln : gmap loc LNode) (r : row E).
Implicit Types (g : grid E) (s z : SkipListSet E).

Lemma deleteNode_loop_frees r : ∀ nd p fuel,
  chain nd p r → NoDup r.*1 → (length r ≤ fuel)%nat →
  ∃ nd', deleteNode_loop fuel nd p = Val nd'
         ∧ (∀ a, a ∈ r.*1 → nd' !! a = None)
         ∧ (∀ a, a ∉ r.*1 → nd' !! a = nd !! a).
Proof.
  induction r as [|[a k] r IH]; intros nd p fuel Hc Hnd Hfuel.
  - simpl in Hc. subst. exists nd. split_and!; [by destruct fuel| |done].
    intros a Ha. by apply elem_of_nil in Ha.
  - apply chain_cons in Hc as (-> & n & Hn & _ & Hc).
    destruct fuel as [|fuel]; [simpl in Hfuel; lia|].
    rewrite fmap_cons in Hnd. apply NoDup_cons in Hnd as [Ha Hnd].
    simpl. rewrite Hn. simpl.
    destruct (IH (delete a nd) (next n) fuel) as (nd' & Hd & Hfree & Hf).
    + eapply chain_frame; [|done]. intros a' k' Hin. apply lookup_delete_ne. intros ->.
      apply Ha. apply list_elem_of_fmap. by exists (a', k').
    + done.
    + simpl in Hfuel. lia.
    + exists nd'. split_and!; [done| |].
      * intros a' [->|Ha']%elem_of_cons; [|by apply Hfree].
        rewrite Hf by done. apply lookup_delete_eq.
      * intros a' Ha'. apply not_elem_of_cons in Ha' as [? ?]. rewrite Hf by done.
        by apply lookup_delete_ne.
Qed.

Lemma deleteSkipList_loop_frees g : ∀ ln nd p vs fuel,
  vchain ln nd p g vs → NoDup (mjoin g.*2).*1 → NoDup g.*1 → (length g ≤ fuel)%nat →
  ∃ ln' nd', deleteSkipList_loop fuel ln nd p = Val (ln', nd')
    ∧ (∀ a, a ∈ g.*1 → ln' !! a = None)
    ∧ (∀ a, a ∉ g.*1 → ln' !! a = ln !! a)
    ∧ (∀ a, a ∈ (mjoin g.*2).*1 → nd' !! a = None)
    ∧ (∀ a, a ∉ (mjoin g.*2).*1 → nd' !! a = nd !! a).
Proof.
  induction g as [|[a r] g IH]; intros ln nd p vs fuel Hvc Hnd Hndh Hfuel.
  - destruct vs; [|done]. simpl in Hvc. subst. exists ln, nd.
    split_and!; [by destruct fuel|..]; try done; intros a Ha; by apply elem_of_nil in Ha.
  - destruct vs as [|v vs]; [done|]. simpl in Hvc.
    destruct Hvc as (-> & l & Hl & _ & Hc & Hvc).
    destruct fuel as [|fuel]; [simpl in Hfuel; lia|].
    rewrite fmap_cons in Hnd. rewrite fmap_cons in Hndh. simpl in Hnd.
    rewrite fmap_app in Hnd.
    apply NoDup_app in Hnd as (Hndr & Hdisj & Hnd). apply NoDup_cons in Hndh as [Ha Hndh].
    simpl. rewrite Hl. simpl. unfold deleteNode.
    destruct (deleteNode_loop_frees r nd (lnext l) (size nd)) as (nd1 & -> & Hfree1 & Hf1);
      [done|done|by eapply chain_length|]. simpl.
    destruct (IH (delete a ln) nd1 (lbelow l) vs fuel)
      as (ln' & nd' & Hrun & Hlfree & Hlf & Hfree & Hf); [|done|done|simpl in Hfuel; lia|].
    { eapply vchain_frame; [| |done].
      + intros a' r' Hin. apply lookup_delete_ne. intros ->. apply Ha.
        apply list_elem_of_fmap. by exists (a', r').
      + intros a' k' Hin. apply Hf1. intros Hin'. apply (Hdisj a' Hin').
        apply list_elem_of_fmap. by exists (a', k'). }
    exists ln', nd'. split_and!; [done|..].
    + intros a' [->|Ha']%elem_of_cons; [|by apply Hlfree].
      rewrite Hlf by done. apply lookup_delete_eq.
    + intros a' Ha'. apply not_elem_of_cons in Ha' as [? ?]. rewrite Hlf by done.
      by apply lookup_delete_ne.
    + simpl. rewrite fmap_app. intros a' [Ha'|Ha']%elem_of_app; [|by apply Hfree].
      rewrite Hf by (intros ?; by apply (Hdisj a')). by apply Hfree1.
    + simpl. rewrite fmap_app. intros a' Ha'. apply not_elem_of_app in Ha' as [? ?].
      rewrite Hf by done. by apply Hf1.
Qed.


End Teardown.

(** ** [tail] *)

Section Tail.
Implicit Types (r : row E) (g : grid E) (s : SkipListSet E).

(** [tail] and [updateTail], as long as no [add] has thrown: in a state
    with a grid, [tail] points at a node of the set that holds the +INF
    sentinel and has no right neighbour, and it is the node [updateTail]
    finds: a call leaves the set as it is.  A set that was moved from has a
    null [tail]. *)
Lemma tail_is_last_intact s :
  reachable s →
  match head s with
  | None => tail s = None
  | Some _ =>
      ∃ a n, tail s = Some a ∧ nodes s !! a = Some n
             ∧ kind (value n) = PosInf ∧ next n = None
             ∧ ∀ b, updateTail s b = Ok tt s b
  end.
Proof.
  intros [g Hwf]%reachable_wf. destruct (head s) as [h|] eqn:Hh.
  2:{ rewrite (wf_head_null s g Hwf Hh) in Hwf. by apply wf_nil in Hwf as [_ ?]. }
  destruct g as [|[la r] g]; [apply wf_nil in Hwf as [? _]; congruence|].
  destruct (wf_head _ _ _ _ Hwf) as (Hh' & l & Hl & _ & _ & Hc).
  pose proof (wf_rows _ _ _ _ _ Hwf) as Hrows. rewrite fmap_cons in Hrows.
  apply Forall_cons in Hrows as [[Hbr _] _]. simpl in Hbr.
  pose proof (wf_nodup _ _ _ _ _ Hwf) as Hnd. rewrite fmap_cons in Hnd. simpl in Hnd.
  rewrite fmap_app in Hnd. apply NoDup_app in Hnd as [Hndr _].
  pose proof (wf_tail _ _ _ _ _ Hwf) as Htl. simpl in Htl.
  destruct Hbr as [Hfirst (b0 & k' & Hlast & Hk')].
  assert (r ≠ []) as Hne by (intros ->; done).
  destruct (exists_last Hne) as (pre & x & ->). rewrite last_snoc in Hlast, Htl.
  injection Hlast as ->. simpl in Htl.
  destruct (chain_next _ _ _ _ _ _ Hc) as (n & Hn & Hv & Hnx).
  exists b0, n. split_and!; [done|done|by rewrite Hv|done|].
  intros b. rewrite (updateTail_ok s la l _ b Hh' Hl Hc Hndr Hne).
  rewrite last_snoc. simpl. rewrite <- Htl. by destruct s.
Qed.

End Tail.

(** ** The levels thin out upwards *)

Section Thinning.
Implicit Types (nd : gmap loc (Node E)) (r U L : row E) (g : grid E) (s : SkipListSet E).

(** A sorted level each of whose keys is on another sorted level is no
    longer than that one. *)
Lemma sub_length U : ∀ L,
  ascending U → ascending L →
  (∀ a k, (a, k) ∈ U → ∃ b k', (b, k') ∈ L ∧ key_eqb k k' = true) →
  (length U ≤ length L)%nat.
Proof.
  induction U as [|[a u] U IH]; intros L HU HL Hsub; [simpl; lia|].
  apply ascending_cons in HU as [Hlt HU].
  destruct (Hsub a u ltac:(left)) as (b & l & Hin & Heq).
  apply list_elem_of_split in Hin as (L1 & L2 & ->).
  apply StronglySorted_app in HL as (Hord & _ & HL2).
  apply ascending_cons in HL2 as [Hl2 HL2].
  assert (length U ≤ length L2)%nat as Hle.
  { apply IH; [done|done|]. intros a' k Hin'.
    destruct (Hsub a' k ltac:(by right)) as (b' & k' & Hin2 & Heq').
    rewrite Forall_forall in Hlt. specialize (Hlt _ Hin'). unfold key_lt in Hlt.
    simpl in Hlt.
    rewrite elem_of_app, elem_of_cons in Hin2. destruct Hin2 as [Hin2|[[= -> ->]|Hin2]].
    - exfalso. specialize (Hord _ _ Hin2 ltac:(left)). unfold key_lt in Hord.
      simpl in Hord.
      rewrite <- (key_ltb_eqb_l _ _ _ Heq'), <- (key_ltb_eqb_r _ _ _ Heq) in Hord.
      apply key_ltb_asym in Hord. congruence.
    - exfalso. apply key_ltb_not_eqb in Hlt.
      rewrite (key_eqb_sym k l) in Heq'.
      by rewrite (key_eqb_trans _ _ _ Heq Heq') in Hlt.
    - by exists b', k'. }
  rewrite length_app. simpl. lia.
Qed.

Lemma level_elements_mono s g level :
  wf s g → 0 ≤ level →
  (level_elements g (level + 1) ≤ level_elements g level)%nat.
Proof.
  intros Hwf Hlev. unfold level_elements at 1.
  destruct (find_level g (level + 1)) as [[a U]|] eqn:Hfl; [|lia].
  apply find_level_split in Hfl as (g1 & g2 & -> & Hl).
  destruct g2 as [|[a' L] g2]; [simpl in Hl; lia|].
  assert (level = Z.of_nat (length g2)) as -> by (simpl in Hl; lia).
  unfold level_elements.
  replace (g1 ++ (a, U) :: (a', L) :: g2) with ((g1 ++ [(a, U)]) ++ (a', L) :: g2) in *
    by by rewrite <- app_assoc.
  rewrite find_level_middle.
  pose proof (wf_rows _ _ _ _ _ Hwf) as Hrows. rewrite Forall_forall in Hrows.
  assert (tower (nodes s) U L) as Ht.
  { eapply (towers_lookup _ _ (length g1)); [exact (wf_towers _ _ _ _ _ Hwf)| |].
    - rewrite !fmap_app. rewrite <- app_assoc, lookup_app_r by by rewrite length_fmap.
      by rewrite length_fmap, Nat.sub_diag.
    - rewrite !fmap_app. rewrite <- app_assoc, lookup_app_r by (rewrite length_fmap; lia).
      rewrite length_fmap. by replace (S (length g1) - length g1)%nat with 1%nat by lia. }
  cut (length U ≤ length L)%nat; [lia|].
  apply sub_length.
  - apply (Hrows U). rewrite !fmap_app. set_solver.
  - apply (Hrows L). rewrite !fmap_app. set_solver.
  - intros a0 k Hin. destruct (Ht a0 k Hin) as (n & b & k' & _ & _ & ? & ?). eauto.
Qed.

(** A level holds no more elements than the level beneath it, as long as
    no [add] has thrown: what [elementsOnLevel(level + 1)] returns is at
    most what [elementsOnLevel(level)] returns. *)
Lemma levels_thin_out_intact s level n m :
  reachable s → 0 ≤ level →
  elementsOnLevel level s = Val n → elementsOnLevel (level + 1) s = Val m →
  0 ≤ m ≤ n.
Proof.
  intros [g Hwf]%reachable_wf Hlev.
  rewrite !(elementsOnLevel_spec s g _ Hwf), !(elements_on_count s g _ Hwf).
  pose proof (level_elements_mono s g level Hwf Hlev) as Hle.
  destruct (Z.leb_spec (Z.of_nat (level_elements g level) + 2) INT_MAX); [|done].
  destruct (Z.leb_spec (Z.of_nat (level_elements g (level + 1)) + 2) INT_MAX); [|done].
  intros [= <-] [= <-]. lia.
Qed.

End Thinning.

(** ** What a member leaves alone *)

Section Kept.
Implicit Types (s z : SkipListSet E).

Lemma kept_ret {A X} (f : SkipListSet E → X) (a : A) : kept f (mret a).
Proof. by intros s b. Qed.

Lemma kept_bind {A B X} (f : SkipListSet E → X) (m : M A) (k : A → M B) :
  kept f m → (∀ a, kept f (k a)) → kept f (mbind m k).
Proof.
  intros Hm Hk s b. unfold mbind. specialize (Hm s b).
  destruct (m s b) as [a s1 b1|s1 b1|]; [|done..].
  specialize (Hk a s1 b1). destruct (k a s1 b1); congruence.
Qed.

Lemma kept_lift {A X} (f : SkipListSet E → X) (h : SkipListSet E → result A) :
  kept f (lift h).
Proof. intros s b. unfold lift. by destruct (h s). Qed.

Lemma kept_update {X} (f : SkipListSet E → X) (u : SkipListSet E → SkipListSet E) :
  (∀ s, f (u s) = f s) → kept f (update u).
Proof. intros Hu s b. apply Hu. Qed.

Lemma kept_alloc {X} (f : SkipListSet E → X) : kept f alloc.
Proof. intros s b. by destruct b. Qed.

Lemma kept_store_Node {X} (f : SkipListSet E → X) n :
  (∀ m s, f (set_nodes m s) = f s) → kept f (store_Node n).
Proof. intros Hf s b. apply Hf. Qed.

Lemma kept_store_LNode {X} (f : SkipListSet E → X) l :
  (∀ m s, f (set_lnodes m s) = f s) → kept f (store_LNode l).
Proof. intros Hf s b. apply Hf. Qed.

Lemma kept_write_Node {X} (f : SkipListSet E → X) h p :
  (∀ m s, f (set_nodes m s) = f s) → kept f (write_Node h p).
Proof.
  intros Hf. apply kept_bind; [apply kept_lift|]. intros n.
  destruct p; [by apply kept_update|apply kept_ret].
Qed.

Lemma kept_write_LNode {X} (f : SkipListSet E → X) h p :
  (∀ m s, f (set_lnodes m s) = f s) → kept f (write_LNode h p).
Proof.
  intros Hf. apply kept_bind; [apply kept_lift|]. intros n.
  destruct p; [by apply kept_update|apply kept_ret].
Qed.

End Kept.

(** ** The copy constructor and its uninitialised [head] *)

Section CopyOutcome.
Implicit Types (nd : gmap loc (Node E)) (ln : gmap loc LNode) (r : row E).
Implicit Types (g : grid E) (s z : SkipListSet E).

(** Once [list] has its first header, [linkLevels] assigns no more to it;
    [linkNext] and [linkBelow] never do. *)
Lemma kept_head_linkLevels_loop s fuel : ∀ p c,
  kept head (linkLevels_loop fuel s p (Some c)).
Proof.
  induction fuel as [|fuel IH]; intros [a|] c; try apply kept_ret; [by intros ? ?|].
  cbn [linkLevels_loop].
  apply kept_bind; [apply kept_alloc|]. intros _.
  apply kept_bind; [apply kept_lift|]. intros pl.
  apply kept_bind; [by apply kept_store_LNode|]. intros temp.
  apply kept_bind; [by apply kept_write_LNode|]. intros _. apply IH.
Qed.

Lemma kept_head_linkNext_row s fuel : ∀ n current curr,
  kept head (linkNext_row fuel s n current curr).
Proof.
  induction fuel as [|fuel IH]; intros [a|] current curr; try apply kept_ret;
    [by intros ? ?|].
  cbn [linkNext_row].
  apply kept_bind; [apply kept_alloc|]. intros _.
  apply kept_bind; [apply kept_alloc|]. intros _.
  apply kept_bind; [apply kept_lift|]. intros sn.
  apply kept_bind; [by apply kept_store_Node|]. intros temp.
  apply kept_bind; [|intros _; apply IH].
  destruct curr; [by apply kept_write_Node|by apply kept_write_LNode].
Qed.

Lemma kept_head_linkNext_loop s fuel : ∀ p current,
  kept head (linkNext_loop fuel s p current).
Proof.
  induction fuel as [|fuel IH]; intros [a|] current; try apply kept_ret;
    [by intros ? ?|].
  cbn [linkNext_loop].
  apply kept_bind; [apply kept_lift|]. intros pl.
  apply kept_bind; [apply kept_head_linkNext_row|]. intros _.
  apply kept_bind; [apply kept_lift|]. intros c. apply IH.
Qed.

Lemma kept_head_linkBelow_row fuel : ∀ p curr,
  kept head (linkBelow_row (E:=E) fuel p curr).
Proof.
  induction fuel as [|fuel IH]; intros [a|] curr; try apply kept_ret;
    [by intros ? ?|].
  cbn [linkBelow_row].
  apply kept_bind; [apply kept_lift|]. intros cn.
  apply kept_bind; [apply kept_lift|]. intros pn.
  destruct (key_eqb (value cn) (value pn)); [|apply IH].
  apply kept_bind; [by apply kept_write_Node|]. intros _.
  apply kept_bind; [apply kept_lift|]. intros cn'.
  apply kept_bind; [apply kept_lift|]. intros pn'. apply IH.
Qed.

Lemma kept_head_linkBelow_loop fuel : ∀ current,
  kept head (linkBelow_loop (E:=E) fuel current).
Proof.
  induction fuel as [|fuel IH]; intros current; [by intros ? ?|].
  cbn [linkBelow_loop].
  apply kept_bind; [apply kept_lift|]. intros c.
  destruct (lbelow c); [|apply kept_ret].
  apply kept_bind; [apply kept_lift|]. intros cb.
  apply kept_bind; [|intros _; apply IH].
  intros z b. apply kept_head_linkBelow_row.
Qed.

Lemma kept_head_rest s fuel p c :
  kept head (linkLevels_loop fuel s p (Some c);; linkNext s;; linkBelow).
Proof.
  apply kept_bind; [apply kept_head_linkLevels_loop|]. intros _.
  apply kept_bind.
  - apply kept_bind; [apply kept_lift|]. intros list. apply kept_head_linkNext_loop.
  - intros _ z b. apply kept_head_linkBelow_loop.
Qed.

Lemma wf_lnodes_size s la r g : wf s ((la, r) :: g) → ∃ n, size (lnodes s) = S n.
Proof.
  intros Hwf. destruct (wf_head _ _ _ _ Hwf) as (_ & l & Hl & _).
  destruct (size (lnodes s)) as [|n] eqn:Hsz; [|by eexists].
  apply map_size_empty_inv in Hsz. rewrite Hsz in Hl. by rewrite lookup_empty in Hl.
Qed.

(** With the first header allocated, [build] goes on in a state whose
    [head] is assigned. *)
Lemma build_first_step cl s la r g b :
  wf s ((la, r) :: g) →
  ∃ fuel p c z, head z = Some c
    ∧ build s (raw cl) (S b)
      = (linkLevels_loop fuel s p (Some c);; linkNext s;; linkBelow) z b.
Proof.
  intros Hwf. destruct (wf_lnodes_size _ _ _ _ Hwf) as [n Hsz].
  destruct (wf_head _ _ _ _ Hwf) as (Hh & l & Hl & _).
  exists n, (lbelow l), (fresh_loc (lnodes (raw cl))).
  eexists. split; [|unfold build, linkLevels; rewrite Hh, Hsz; cbn [linkLevels_loop];
                    unfold mbind, alloc, lift, store_LNode, update; simpl; rewrite Hl;
                    reflexivity].
  done.
Qed.

Lemma build_throw_head cl s g b z b' :
  wf s g → g ≠ [] → build s (raw cl) (S b) = Throw z b' → head z ≠ None.
Proof.
  intros Hwf Hne Hrun. destruct g as [|[la r] g]; [done|].
  destruct (build_first_step cl s la r g b Hwf) as (fuel & p & c & z0 & Hz0 & Heq).
  rewrite Heq in Hrun. pose proof (kept_head_rest s fuel p c z0 b) as Hk.
  rewrite Hrun in Hk. congruence.
Qed.

Lemma copy_construct_no_budget cl s g :
  wf s g → g ≠ [] → copy_construct cl s 0 = Abort Uninitialised.
Proof.
  intros Hwf Hne. destruct g as [|[la r] g]; [done|].
  destruct (wf_lnodes_size _ _ _ _ Hwf) as [n Hsz].
  destruct (wf_head _ _ _ _ Hwf) as (Hh & _).
  unfold copy_construct, catch_rethrow, build, linkLevels. rewrite Hh, Hsz. reflexivity.
Qed.

Lemma copy_construct_budget cl s g b :
  wf s g → g ≠ [] →
  match copy_construct cl s (S b) with
  | Ok _ _ _ | Throw _ _ => True
  | Abort _ => False
  end.
Proof.
  intros Hwf Hne. unfold copy_construct, catch_rethrow.
  pose proof (build_spec s g cl (S (S b)) Hwf Hne (raw cl) (S b)
                (conj eq_refl (Nat.lt_succ_diag_r _))) as Hb.
  pose proof (build_throw_head cl s g b) as Hhd.
  pose proof (noov_build s (raw cl) (S b)) as Hno.
  unfold mbind at 1.
  destruct (build s (raw cl) (S b)) as [[] z b'|z b'|f].
  - destruct Hb as (g' & Hb).
    pose proof (finish_copy g z g' (elements s) cl b' Hne
                  (wf_rows _ _ _ _ _ Hwf) (wf_levels _ _ _ _ _ Hwf) Hb) as Hf.
    match type of Hf with match ?m with _ => _ end =>
      destruct m as [[] c b''|c b''|f] end; [done| |done].
    destruct Hf as (Hwfc & _).
    destruct (deleteSkipList_ok c b'' (wf_partial _ _ Hwfc)) as (c' & Hdel).
    unfold mbind, lift.
    destruct (head c) eqn:Hhc; [by rewrite Hdel|].
    apply (wf_head_null _ _ Hwfc) in Hhc. subst g'.
    destruct Hb as (_ & _ & _ & Hk). apply Forall2_length in Hk.
    rewrite !length_fmap in Hk. by destruct g.
  - destruct (deleteSkipList_ok z b' Hb) as (z' & Hdel).
    unfold mbind, lift. specialize (Hhd z b' Hwf Hne eq_refl).
    destruct (head z) eqn:Hhz; [by rewrite Hdel|done].
  - subst f. done.
Qed.

(** The copy constructor and its uninitialised [head], for a source that
    was not moved from and on which no [add] has thrown: if the very first
    allocation fails, [linkLevels] throws before it has assigned [head],
    and the handler passes the uninitialised member to [deleteSkipList];
    once the first allocation has succeeded, the constructor either returns
    or lets [std::bad_alloc] through after it has taken down what it
    built. *)
Lemma copy_construct_first_allocation_intact cl s :
  reachable s → head s ≠ None →
  copy_construct cl s 0 = Abort Uninitialised
  ∧ ∀ b, match copy_construct cl s (S b) with
         | Ok _ _ _ | Throw _ _ => True
         | Abort _ => False
         end.
Proof.
  intros [g Hwf]%reachable_wf Hh. pose proof (wf_head_some _ _ Hwf Hh) as Hne.
  split; [by eapply copy_construct_no_budget|].
  intros b. by eapply copy_construct_budget.
Qed.

End CopyOutcome.

(** ** An [add] that fails *)

Section AddFailure.
Implicit Types (g : grid E) (s : SkipListSet E).

Ltac kept_step :=
  first [ apply kept_ret | apply kept_alloc | apply kept_lift
        | apply kept_update; done
        | apply kept_store_Node; done | apply kept_store_LNode; done
        | apply kept_write_Node; done | apply kept_write_LNode; done
        | apply kept_bind; [|intros ?] ].

Lemma kept_elements_updateTail : kept elements (updateTail (E:=E)).
Proof. unfold updateTail. repeat kept_step. Qed.







End AddFailure.

(** ** A copy in the heap of its source *)

Section DeepCopy.
Implicit Types (nd : gmap loc (Node E)) (ln : gmap loc LNode) (r pre post U L : row E).
Implicit Types (rs : list (row E)) (g : grid E) (s z c : SkipListSet E).

Lemma copy_construct_in_empty cl s b :
  copy_construct_in ∅ ∅ cl s b = copy_construct cl s b.
Proof. reflexivity. Qed.

Lemma wf_frame hd tl ln nd ln' nd' g :
  wf_at hd tl ln nd g →
  (∀ a r, (a, r) ∈ g → ln' !! a = ln !! a) →
  (∀ a k, (a, k) ∈ mjoin g.*2 → nd' !! a = nd !! a) →
  wf_at hd tl ln' nd' g.
Proof.
  intros [Hsh Hrows Htow Hnd Htl Hlv] Hl Hn. split; try done.
  - by eapply lchain_frame.
  - by eapply towers_frame.
Qed.

(** The three passes, started on stores that hold other objects: what
    they build is made of new objects, and the objects that were there are
    as they were. *)
Lemma build_in s g z0 n :
  wf s g → g ≠ [] → head z0 = None →
  hoarex (at_ z0 n) (build s)
    (λ _ z' _, ∃ g', built g z' g'
                     ∧ apart (lnodes z0) (nodes z0) (lnodes z') (nodes z') g')
    partial.
Proof.
  intros Hwf Hne Hz0. pose proof (wf_shape _ _ _ _ _ Hwf) as Hsh.
  pose proof (lchain_size _ _ _ _ Hsh) as Hsz.
  unfold build. eapply hoare_bind.
  { eapply hoare_conseq;
      [done|intros a z1 b1 H; exact H|
      |apply (linkLevels_loop_spec s g (size (lnodes s)) (head s) None z0 n);
         [done|done|done]].
    intros z' (hs & Hnd & _ & Hsk & Hhd & _ & Hn). exists (empty_levels hs), hs.*2.
    rewrite empty_levels_nodes, empty_levels_fst. split_and!; [|constructor|done].
    rewrite Hhd. by apply hskel_vchain. }
  intros []. apply hoare_post_any. intros z1 n1 (hs & Hlink & Hvals).
  destruct Hlink as (Hnd & Hfresh1 & Hsk & Hhd & Hfl1 & Hn).
  assert (length hs = length g) as Hlen.
  { by rewrite <- (length_fmap snd hs), Hvals, lvals_length. }
  eapply hoare_bind.
  { unfold linkNext. eapply hoare_step; [intros b; reflexivity|]. rewrite Hhd.
    eapply hoare_conseq;
      [done|intros a z2 b2 H; exact H|
      |apply (linkNext_loop_spec s g (size (lnodes s)) (head s) hs z1 n1); try done].
    - intros z' (g' & Hg1 & Hvc & _ & Hnd' & _ & _ & _ & Hhd'). exists g', hs.*2.
      split_and!; [|done|by rewrite Hg1]. by rewrite Hhd', Hhd.
    - apply Forall_forall. intros r Hr. etrans; [by apply row_length_weight|].
      by eapply wf_weight. }
  intros []. intros z2 b2 (g' & Hgrid & Hkeys).
  destruct Hgrid as (Hg1 & Hvc & Hgr & Hnd' & Hfresh2 & Hfn2 & Hfl2 & Hhd').
  destruct hs as [|[ch v] hs]; [by destruct g|].
  destruct g' as [|[ch2 U] g']; [done|].
  pose proof Hg1 as Hg1'.
  rewrite !fmap_cons in Hg1. simpl in Hg1. injection Hg1 as -> Hg1.
  unfold linkBelow. rewrite Hhd', Hhd. simpl first_hdr.
  assert (matchings (U :: g'.*2)) as Hm.
  { eapply (matchings_keys g.*2); [done|]. by eapply wf_matchings. }
  assert (length g' < size (lnodes z2))%nat as Hfuel.
  { cut (length ((ch, U) :: g') ≤ size (lnodes z2))%nat; [simpl; lia|].
    rewrite <- (length_fmap fst). apply alloc_size.
    - rewrite fmap_cons. simpl. by rewrite Hg1.
    - intros x ((a & r) & -> & Hin)%list_elem_of_fmap. by eapply vchain_alloc. }
  pose proof (linkBelow_loop_spec partial g' (S (size (lnodes z2))) ch U _ z2 (S b2)
                Hvc Hm Hnd' Hgr (Nat.lt_lt_succ_r _ _ Hfuel) z2 b2
                (conj eq_refl (Nat.lt_succ_diag_r _))) as Hlb.
  destruct (linkBelow_loop (S (size (lnodes z2))) (Some ch) z2 b2) as [[] z3 b3| |];
    [|done..].
  destruct Hlb as (Ht & Hs & Hfn3 & Hln & Hhd3).
  exists ((ch, U) :: g'). split.
  - split_and!; [|done|done|done].
    apply vchain_lchain. rewrite Hhd3, Hhd', Hhd, Hln. simpl first_hdr.
    replace (lvals ((ch, U) :: g')) with (((ch, v) :: hs).*2).
    + by eapply vchain_links_same.
    + rewrite Hvals. apply lvals_same. apply Forall2_length in Hkeys.
      by rewrite !length_fmap in Hkeys.
  - split.
    + intros a x Ha.
      assert (a ∉ ((ch, v) :: hs).*1) as Hni.
      { intros ((a' & v') & -> & Hin)%list_elem_of_fmap. simpl in Ha.
        rewrite (Hfresh1 _ _ Hin) in Ha. done. }
      split; [|by rewrite Hg1'].
      rewrite Hln, Hfl2 by done. rewrite Hfl1; [done|by eauto|done].
    + intros a x Ha. rewrite <- Hn in Ha.
      assert (a ∉ (mjoin ((ch, U) :: g').*2).*1) as Hni.
      { intros ((a' & k) & -> & Hin)%list_elem_of_fmap. simpl in Ha.
        rewrite (Hfresh2 _ _ Hin) in Ha. done. }
      split; [|done]. rewrite Hfn3 by done. rewrite Hfn2; [done|by eauto].
Qed.

(** The tail of the copy, its element count and its tester; the stores
    stay as the three passes left them. *)
Lemma finish_copy_in g z g' el cl b :
  g ≠ [] →
  Forall (λ r, bracketed r ∧ ascending r) g.*2 →
  Z.of_nat (length g) ≤ INT_MAX + 1 →
  built g z g' →
  match (updateTail;; update (set_elements el);;
         let! t := clone cl in update (set_levelTester t)) z b with
  | Ok _ c _ => wf c g' ∧ elements c = el ∧ levelTester c = cl
                ∧ lnodes c = lnodes z ∧ nodes c = nodes z
  | Throw c _ => wf c g' ∧ elements c = el ∧ levelTester c = levelTester z
  | Abort _ => False
  end.
Proof.
  intros Hne Hrows Hlev Hb.
  pose proof (built_wf _ _ _ Hrows Hlev Hb) as Hwf.
  destruct Hb as (Hsh & _ & Hnd & Hk).
  destruct g' as [|[la r] g''].
  { apply same_keys_length in Hk. destruct g; [done|discriminate Hk]. }
  apply lchain_cons in Hsh as (Hh & l & Hl & _ & Hc & _).
  assert (bracketed r) as Hbr.
  { pose proof (wf_rows _ _ _ _ _ Hwf) as Hr. rewrite fmap_cons in Hr.
    by apply Forall_cons in Hr as [[? _] _]. }
  assert (NoDup r.*1) as Hndr.
  { rewrite fmap_cons in Hnd. simpl in Hnd. rewrite fmap_app in Hnd.
    by apply NoDup_app in Hnd as [? _]. }
  unfold mbind at 1.
  rewrite (updateTail_ok z la l r b Hh Hl Hc Hndr (bracketed_nonempty _ Hbr)).
  unfold mbind, update, clone, alloc, mret. destruct b; simpl; by split_and!.
Qed.

(** The copy constructor in a heap that holds other objects: when it
    returns, the new object holds a grid with the keys of the source, made
    of objects that were not in the heap before, and the objects that were
    there are as they were. *)
Lemma copy_construct_in_spec ln nd cl s g b :
  wf s g → g ≠ [] →
  match copy_construct_in ln nd cl s b with
  | Ok _ c _ =>
      ∃ g', wf c g' ∧ same_keys g g' ∧ elements c = elements s ∧ levelTester c = cl
            ∧ apart ln nd (lnodes c) (nodes c) g'
  | Throw _ _ => True
  | Abort f => f = SignedOverflow ∨ f = Uninitialised
  end.
Proof.
  intros Hwf Hne. unfold copy_construct_in, catch_rethrow.
  pose proof (build_in s g (raw_in ln nd cl) (S b) Hwf Hne eq_refl (raw_in ln nd cl) b
                (conj eq_refl (Nat.lt_succ_diag_r _))) as Hb.
  unfold mbind at 1.
  destruct (build s (raw_in ln nd cl) b) as [[] z b'|z b'|f].
  - destruct Hb as (g' & Hb & Hap).
    pose proof (finish_copy_in g z g' (elements s) cl b' Hne
                  (wf_rows _ _ _ _ _ Hwf) (wf_levels _ _ _ _ _ Hwf) Hb) as Hf.
    match type of Hf with match ?m with _ => _ end =>
      destruct m as [[] c b''|c b''|f] end; [| |done].
    + destruct Hf as (? & ? & ? & Hl & Hn). exists g'. rewrite Hl, Hn.
      split_and!; try done. apply Hb.
    + destruct Hf as (Hwfc & _).
      destruct (deleteSkipList_ok c b'' (wf_partial _ _ Hwfc)) as (c' & Hdel).
      unfold mbind, lift.
      destruct (head c) eqn:Hhc; [|by right]. by rewrite Hdel.
  - destruct (deleteSkipList_ok z b' Hb) as (z' & Hdel).
    unfold mbind, lift. destruct (head z) eqn:Hhz; [|by right]. by rewrite Hdel.
  - by left.
Qed.

(** An object whose grid is untouched answers as before. *)
Lemma in_heap_answers s g h :
  wf s g → g ≠ [] → untouched g s h →
  wf (in_heap_of h s) g ∧ same_answers s (in_heap_of h s).
Proof.
  intros Hwf Hne [Hl Hn].
  assert (wf (in_heap_of h s) g) as Hwf'.
  { unfold wf, in_heap_of. simpl. eapply wf_frame; [exact Hwf| |].
    - intros a r Hin. apply Hl. apply list_elem_of_fmap. by exists (a, r).
    - intros a k Hin. apply Hn. apply list_elem_of_fmap. by exists (a, k). }
  split; [done|]. apply (same_keys_answers s g _ g); try done. apply same_keys_refl.
Qed.

Lemma apart_untouched s g h g' :
  wf s g → apart (lnodes s) (nodes s) (lnodes h) (nodes h) g' →
  untouched g s h ∧ disjoint_grids g g'.
Proof.
  intros Hwf [Hl Hn]. pose proof (wf_shape _ _ _ _ _ Hwf) as Hsh.
  assert (∀ a, a ∈ g.*1 → ∃ x, lnodes s !! a = Some x) as Hgl.
  { intros a ((a' & r) & -> & Hin)%list_elem_of_fmap. by eapply lchain_lnodes_alloc. }
  assert (∀ a, a ∈ (mjoin g.*2).*1 → ∃ x, nodes s !! a = Some x) as Hgn.
  { intros a ((a' & k) & -> & Hin)%list_elem_of_fmap. by eapply lchain_nodes_alloc. }
  split; split.
  - intros a Ha. destruct (Hgl a Ha) as [x Hx]. rewrite Hx. by destruct (Hl a x Hx).
  - intros a Ha. destruct (Hgn a Ha) as [x Hx]. rewrite Hx. by destruct (Hn a x Hx).
  - intros a Ha. destruct (Hgl a Ha) as [x Hx]. by destruct (Hl a x Hx).
  - intros a Ha. destruct (Hgn a Ha) as [x Hx]. by destruct (Hn a x Hx).
Qed.

(** [add] on a set next to other objects: they are as they were, whether
    it returns or throws. *)
Lemma add_beside lf nf c g e b :
  wf c g → apart lf nf (lnodes c) (nodes c) g →
  match add e c b with
  | Ok _ c' _ | Throw c' _ =>
      (∀ a x, lf !! a = Some x → lnodes c' !! a = Some x)
      ∧ (∀ a x, nf !! a = Some x → nodes c' !! a = Some x)
  | Abort _ => True
  end.
Proof.
  intros Hwf Hap.
  pose proof (add_keeps lf nf c g e (conj (wf_safe _ _ Hwf) Hap) c b eq_refl) as Hk.
  destruct (add e c b) as [[] c' b'|c' b'|f]; [| |done];
    destruct Hk as (g' & _ & Hl & Hn); (split; intros a x Ha);
    [by destruct (Hl a x Ha)|by destruct (Hn a x Ha)
    |by destruct (Hl a x Ha)|by destruct (Hn a x Ha)].
Qed.

(** The headers and the nodes of a grid, as maps. *)
Lemma add_beside_grid s g c g' e b :
  wf s g → g ≠ [] → wf c g' → untouched g s c → disjoint_grids g g' →
  match add e c b with
  | Ok _ c' _ | Throw c' _ => untouched g s c' ∧ same_answers s (in_heap_of c' s)
  | Abort _ => True
  end.
Proof.
  intros Hwf Hne Hwfc [Hul Hun] [Hdl Hdn].
  set (lf := filter (λ p : loc * LNode, p.1 ∈ g.*1) (lnodes s)).
  set (nf := filter (λ p : loc * Node E, p.1 ∈ (mjoin g.*2).*1) (nodes s)).
  assert (apart lf nf (lnodes c) (nodes c) g') as Hap.
  { split.
    - intros a x [Hx Ha]%map_lookup_filter_Some. simpl in Ha.
      split; [by rewrite Hul|by apply Hdl].
    - intros a x [Hx Ha]%map_lookup_filter_Some. simpl in Ha.
      split; [by rewrite Hun|by apply Hdn]. }
  pose proof (add_beside lf nf c g' e b Hwfc Hap) as Hadd.
  pose proof (wf_shape _ _ _ _ _ Hwf) as Hsh.
  assert (∀ c', (∀ a x, lf !! a = Some x → lnodes c' !! a = Some x) →
                (∀ a x, nf !! a = Some x → nodes c' !! a = Some x) →
                untouched g s c') as Hun'.
  { intros c' Hl Hn. split.
    - intros a Ha. pose proof Ha as ((a' & r) & -> & Hin)%list_elem_of_fmap.
      destruct (lchain_lnodes_alloc _ _ _ _ _ _ Hsh Hin) as [x Hx]. simpl in *.
      rewrite Hx. apply Hl. by apply map_lookup_filter_Some.
    - intros a Ha. pose proof Ha as ((a' & k) & -> & Hin)%list_elem_of_fmap.
      destruct (lchain_nodes_alloc _ _ _ _ _ _ Hsh Hin) as [x Hx]. simpl in *.
      rewrite Hx. apply Hn. by apply map_lookup_filter_Some. }
  destruct (add e c b) as [[] c' b'|c' b'|f]; [| |done]; destruct Hadd as [Hl Hn];
    (split; [by apply Hun'|]); by apply (in_heap_answers s g c' Hwf Hne), Hun'.
Qed.

Lemma built_frame g z z' g' :
  built g z g' → head z' = head z →
  (∀ a, a ∈ g'.*1 → lnodes z' !! a = lnodes z !! a) →
  (∀ a, a ∈ (mjoin g'.*2).*1 → nodes z' !! a = nodes z !! a) →
  built g z' g'.
Proof.
  intros (Hsh & Htow & Hnd & Hk) Hh Hl Hn. split_and!; [| |done|done].
  - rewrite Hh. eapply lchain_frame; [| |done].
    + intros a r Hin. apply Hl. apply list_elem_of_fmap. by exists (a, r).
    + intros a k Hin. apply Hn. apply list_elem_of_fmap. by exists (a, k).
  - eapply towers_frame; [|done].
    intros a k Hin. apply Hn. apply list_elem_of_fmap. by exists (a, k).
Qed.

(** The copy assignment in one heap: when it returns, the target holds a
    grid with the keys of the source, made of objects that were not in
    the heap before; the objects of its old grid are gone, and every other
    object of the heap is as it was. *)
Lemma copy_assign_in_spec cl s g this gt b :
  wf s g → g ≠ [] → wf this gt →
  lnodes s = lnodes this → nodes s = nodes this →
  match copy_assign_in cl s this b with
  | Ok _ t' _ =>
      ∃ g', wf t' g' ∧ same_keys g g' ∧ elements t' = elements s ∧ levelTester t' = cl
            ∧ (∀ a, a ∈ g'.*1 → lnodes this !! a = None)
            ∧ (∀ a, a ∈ (mjoin g'.*2).*1 → nodes this !! a = None)
            ∧ (∀ a, lnodes this !! a ≠ None →
                 lnodes t' !! a = if bool_decide (a ∈ gt.*1) then None
                                  else lnodes this !! a)
            ∧ (∀ a, nodes this !! a ≠ None →
                 nodes t' !! a = if bool_decide (a ∈ (mjoin gt.*2).*1) then None
                                 else nodes this !! a)
  | Throw _ _ => True
  | Abort f => f = SignedOverflow
  end.
Proof.
  intros Hwf Hne Hwft Hls Hns. unfold copy_assign_in, catch_rethrow.
  set (z0 := raw_in (lnodes this) (nodes this) cl).
  pose proof (build_in s g z0 (S b) Hwf Hne eq_refl z0 b
                (conj eq_refl (Nat.lt_succ_diag_r _))) as Hb.
  destruct (build s z0 b) as [[] z b'|z b'|f]; [| |done].
  2:{ destruct (deleteSkipList_ok z b' Hb) as (z' & Hdel).
      unfold mbind, lift. by rewrite Hdel. }
  destruct Hb as (g' & Hb & Hapl & Hapn). simpl in Hapl, Hapn.
  pose proof (wf_shape _ _ _ _ _ Hwft) as Hsht.
  assert (∀ a, a ∈ gt.*1 → is_Some (lnodes this !! a)) as Hgtl.
  { intros a ((a' & r) & -> & Hin)%list_elem_of_fmap. by eapply lchain_lnodes_alloc. }
  assert (∀ a, a ∈ (mjoin gt.*2).*1 → is_Some (nodes this !! a)) as Hgtn.
  { intros a ((a' & k) & -> & Hin)%list_elem_of_fmap. by eapply lchain_nodes_alloc. }
  assert (lchain (lnodes z) (nodes z) (head this) gt) as Hsht'.
  { eapply lchain_frame; [| |exact Hsht].
    - intros a r Hin. destruct (Hgtl a) as [x Hx].
      { apply list_elem_of_fmap. by exists (a, r). }
      rewrite Hx. by destruct (Hapl a x Hx).
    - intros a k Hin. destruct (Hgtn a) as [x Hx].
      { apply list_elem_of_fmap. by exists (a, k). }
      rewrite Hx. by destruct (Hapn a x Hx). }
  destruct (deleteSkipList_loop_frees gt (lnodes z) (nodes z) (head this) (lvals gt)
              (size (lnodes z)))
    as (ln' & nd' & Hrun & Hlfree & Hlf & Hfree & Hf).
  { by apply vchain_lchain. }
  { apply Hwft. }
  { by eapply lchain_nodup. }
  { by eapply lchain_size. }
  unfold deleteSkipList at 1, mbind at 1, lift at 1, update at 1. simpl.
  rewrite Hrun. simpl.
  match goal with |- match ?m ?st _ with _ => _ end => set (z2 := st) end.
  assert (∀ a, a ∈ g'.*1 → lnodes this !! a = None) as Hfl.
  { intros a Ha. destruct (lnodes this !! a) as [x|] eqn:Hx; [|done].
    by destruct (Hapl a x Hx). }
  assert (∀ a, a ∈ (mjoin g'.*2).*1 → nodes this !! a = None) as Hfn.
  { intros a Ha. destruct (nodes this !! a) as [x|] eqn:Hx; [|done].
    by destruct (Hapn a x Hx). }
  assert (built g z2 g') as Hb2.
  { eapply built_frame; [exact Hb|done| |].
    - intros a Ha. unfold z2. simpl. apply Hlf. intros Hin.
      destruct (Hgtl a Hin) as [x Hx]. by rewrite (Hfl a Ha) in Hx.
    - intros a Ha. unfold z2. simpl. apply Hf. intros Hin.
      destruct (Hgtn a Hin) as [x Hx]. by rewrite (Hfn a Ha) in Hx. }
  pose proof (finish_copy_in g z2 g' (elements s) cl b' Hne
                (wf_rows _ _ _ _ _ Hwf) (wf_levels _ _ _ _ _ Hwf) Hb2) as Hfin.
  match type of Hfin with match ?m with _ => _ end =>
    destruct m as [[] c b''|c b''|f] end; [|done|done].
  destruct Hfin as (? & ? & ? & Hl & Hn). exists g'.
  split_and!; try done; [apply Hb| |].
  - intros a Ha. rewrite Hl. unfold z2. simpl. case_bool_decide as Hin.
    + by apply Hlfree.
    + rewrite Hlf by done. destruct (lnodes this !! a) as [x|] eqn:Hx; [|done].
      by destruct (Hapl a x Hx).
  - intros a Ha. rewrite Hn. unfold z2. simpl. case_bool_decide as Hin.
    + by apply Hfree.
    + rewrite Hf by done. destruct (nodes this !! a) as [x|] eqn:Hx; [|done].
      by destruct (Hapn a x Hx).
Qed.

Lemma reachable_attainable s : reachable s → attainable s.
Proof.
  induction 1 as [t temp b s b' Hrun|e s b s' b' _ IH Hrun
                  |cl s b c b' _ IH Hrun
                  |cl s t b t' b' _ IHs _ IHt Hrun
                  |cl s t b t' b' _ IHs _ IHt Hrun
                  |cl s _ IH|cl s _ IH
                  |cl t s _ IHt _ IHs|cl t s _ IHt _ IHs].
  - exact (att_construct t temp b s b' Hrun).
  - exact (att_add e s b s' b' IH Hrun).
  - exact (att_copy_construct cl s b c b' IH Hrun).
  - exact (att_copy_assign cl s t b t' b' IHs IHt Hrun).
  - exact (att_copy_assign_throw cl s t b t' b' IHs IHt Hrun).
  - exact (att_move_construct cl s IH).
  - exact (att_moved_from cl s IH).
  - exact (att_move_assign cl t s IHt IHs).
  - exact (att_move_assigned_from cl t s IHt IHs).
Qed.

Lemma copy_construct_in_intact ln nd cl s c b b' :
  attainable s → copy_construct_in ln nd cl s b = Ok tt c b' → ∃ g, wf s g ∧ g ≠ [].
Proof.
  intros [g Hs]%attainable_safe Hrun.
  destruct (bracketed_all_dec g.*2) as [Hb|Hb].
  2:{ exfalso. revert Hrun. unfold copy_construct_in, catch_rethrow. unfold mbind at 1.
      pose proof (build_short s g (raw_in ln nd cl) b Hs Hb eq_refl) as Hbs.
      destruct (build s (raw_in ln nd cl) b) as [[] z bz|z bz|f];
        [by destruct (Hbs z bz)| |done].
      by destruct (mbind _ _ z bz). }
  pose proof (safe_wf s g Hs Hb) as Hwf. exists g. split; [done|].
  destruct (head s) eqn:Hh; [eapply wf_head_some; [done|congruence]|].
  exfalso. revert Hrun. unfold copy_construct_in, catch_rethrow. unfold mbind at 1.
  assert (build s (raw_in ln nd cl) b = Abort NullDeref) as ->; [|done].
  unfold build, linkLevels, linkNext, linkBelow, mbind, lift. rewrite Hh.
  destruct (size (lnodes s)); simpl; done.
Qed.

(** Claim C7: a copy is a set of its own that answers as its source.  For
    a source [s] and a target [t] in any state the public members leave:
    when the copy constructor, or the copy assignment to [t], returns the
    set [c], the tester of [c] is the clone, the two grids hold the same
    keys level by level, so that [size], [levelCount], [elementsOnLevel],
    [isElementOnLevel] and [contains] agree on [s] and on [c]; and an
    [add] of an element to [c] that returns leaves it in [c] with the
    size of [c] one more than the size of [s], while [s] does not contain
    it.  Both members return when no [add] on the source has thrown, it
    was not moved from and there is an allocation for each of its level
    headers, two for each of its nodes and one for the tester.  In the
    heap that holds the source, the grid of the copy is made of headers
    and nodes that were not there before: the two grids share none, the
    headers and nodes of the source are as they were, and they still are
    after any [add] on the copy, so that the source answers as before;
    the copy assignment, run in the heap that holds source and target,
    also deletes the headers and nodes the target had. *)
Theorem copy_fidelity :
  (∀ cl s (t : SkipListSet E) c b b',
     attainable s → attainable t →
     copy_construct cl s b = Ok tt c b' ∨ copy_assign cl s t b = Ok tt c b' →
     levelTester c = cl
     ∧ (∃ g g', wf s g ∧ wf c g' ∧ same_keys g g')
     ∧ same_answers s c
     ∧ ∀ e b1 c' b1', add e c b1 = Ok tt c' b1' →
         size_ c' = to_unsigned (size_ s + 1)
         ∧ contains e c' = Val true ∧ contains e s = Val false)
  ∧ (∀ cl s (t : SkipListSet E) b,
       reachable s → attainable t → head s ≠ None →
       (size (lnodes s) + 2 * size (nodes s) + 1 ≤ b)%nat →
       (∃ c b', copy_construct cl s b = Ok tt c b')
       ∧ ∃ c b', copy_assign cl s t b = Ok tt c b')
  ∧ (∀ cl s c b b',
       attainable s →
       copy_construct_in (lnodes s) (nodes s) cl s b = Ok tt c b' →
       ∃ g g', wf s g ∧ wf c g' ∧ same_keys g g'
         ∧ levelTester c = cl ∧ elements c = elements s
         ∧ (∀ a, a ∈ g'.*1 → lnodes s !! a = None)
         ∧ (∀ a, a ∈ (mjoin g'.*2).*1 → nodes s !! a = None)
         ∧ disjoint_grids g g'
         ∧ untouched g s c
         ∧ same_answers s (in_heap_of c s)
         ∧ ∀ e b1, match add e c b1 with
                   | Ok _ c' _ | Throw c' _ =>
                       untouched g s c' ∧ same_answers s (in_heap_of c' s)
                   | Abort _ => True
                   end)
  ∧ (∀ cl s this g gt t' b b',
       wf s g → g ≠ [] → wf this gt →
       lnodes s = lnodes this → nodes s = nodes this →
       copy_assign_in cl s this b = Ok tt t' b' →
       ∃ g', wf t' g' ∧ same_keys g g'
         ∧ levelTester t' = cl ∧ elements t' = elements s
         ∧ (∀ a, a ∈ g'.*1 → lnodes this !! a = None)
         ∧ (∀ a, a ∈ (mjoin g'.*2).*1 → nodes this !! a = None)
         ∧ (∀ a, a ∈ gt.*1 → lnodes t' !! a = None)
         ∧ (∀ a, a ∈ (mjoin gt.*2).*1 → nodes t' !! a = None)
         ∧ (disjoint_grids g gt →
              disjoint_grids g g'
              ∧ untouched g s t'
              ∧ same_answers s (in_heap_of t' s)
              ∧ ∀ e b1, match add e t' b1 with
                        | Ok _ c' _ | Throw c' _ =>
                            untouched g s c' ∧ same_answers s (in_heap_of c' s)
                        | Abort _ => True
                        end)).
Proof.
  split_and!.
  - intros cl s t c b b' Hs Ht Hrun. by eapply copy_returned.
  - intros cl s t b Hs Ht Hh Hb. by apply copy_returns.
  - intros cl s c b b' Hs Hrun.
    destruct (copy_construct_in_intact _ _ cl s c b b' Hs Hrun) as (g & Hwf & Hne).
    pose proof (copy_construct_in_spec (lnodes s) (nodes s) cl s g b Hwf Hne) as Hsp.
    rewrite Hrun in Hsp. destruct Hsp as (g' & Hwfc & Hk & Hel & Hcl & Hap).
    destruct (apart_untouched s g c g' Hwf Hap) as [Hun Hdis].
    exists g, g'. split_and!; try done.
    + intros a Ha. destruct (lnodes s !! a) as [x|] eqn:Hx; [|done].
      by destruct (proj1 Hap a x Hx).
    + intros a Ha. destruct (nodes s !! a) as [x|] eqn:Hx; [|done].
      by destruct (proj2 Hap a x Hx).
    + by apply (in_heap_answers s g c Hwf Hne).
    + intros e b1. by apply (add_beside_grid s g c g').
  - intros cl s this g gt t' b b' Hwf Hne Hwft Hls Hns Hrun.
    pose proof (copy_assign_in_spec cl s g this gt b Hwf Hne Hwft Hls Hns) as Hsp.
    rewrite Hrun in Hsp.
    destruct Hsp as (g' & Hwfc & Hk & Hel & Hcl & Hfl & Hfn & Hl & Hn).
    pose proof (wf_shape _ _ _ _ _ Hwft) as Hsht.
    pose proof (wf_shape _ _ _ _ _ Hwf) as Hsh.
    assert (∀ a, a ∈ gt.*1 → lnodes this !! a ≠ None) as Hgtl.
    { intros a ((a' & r) & -> & Hin)%list_elem_of_fmap.
      destruct (lchain_lnodes_alloc _ _ _ _ _ _ Hsht Hin) as [x Hx]. simpl. congruence. }
    assert (∀ a, a ∈ (mjoin gt.*2).*1 → nodes this !! a ≠ None) as Hgtn.
    { intros a ((a' & k) & -> & Hin)%list_elem_of_fmap.
      destruct (lchain_nodes_alloc _ _ _ _ _ _ Hsht Hin) as [x Hx]. simpl. congruence. }
    assert (∀ a, a ∈ g.*1 → lnodes this !! a ≠ None) as Hgl.
    { intros a ((a' & r) & -> & Hin)%list_elem_of_fmap. rewrite <- Hls.
      destruct (lchain_lnodes_alloc _ _ _ _ _ _ Hsh Hin) as [x Hx]. simpl. congruence. }
    assert (∀ a, a ∈ (mjoin g.*2).*1 → nodes this !! a ≠ None) as Hgn.
    { intros a ((a' & k) & -> & Hin)%list_elem_of_fmap. rewrite <- Hns.
      destruct (lchain_nodes_alloc _ _ _ _ _ _ Hsh Hin) as [x Hx]. simpl. congruence. }
    exists g'. split_and!; try done.
    + intros a Ha. rewrite (Hl a (Hgtl a Ha)). by rewrite bool_decide_eq_true_2.
    + intros a Ha. rewrite (Hn a (Hgtn a Ha)). by rewrite bool_decide_eq_true_2.
    + intros [Hdl Hdn].
      assert (disjoint_grids g g') as Hdis.
      { split; intros a Ha Ha'; [by apply (Hgl a Ha), Hfl|by apply (Hgn a Ha), Hfn]. }
      assert (untouched g s t') as Hun.
      { split; intros a Ha.
        - rewrite (Hl a (Hgl a Ha)), bool_decide_eq_false_2 by by apply Hdl.
          by rewrite Hls.
        - rewrite (Hn a (Hgn a Ha)), bool_decide_eq_false_2 by by apply Hdn.
          by rewrite Hns. }
      split_and!; [done|done|by apply (in_heap_answers s g t' Hwf Hne)|].
      intros e b1. by apply (add_beside_grid s g t' g').
Qed.

End DeepCopy.

End Verification.

(** * Scenarios *)

Lemma add_7 : add 7 (fresh_set never 0) 2%nat = Ok tt set7 0%nat.
Proof. vm_compute. reflexivity. Qed.

Lemma reachable_set7 : reachable set7.
Proof. exact (reach_add 7 _ 2%nat set7 0%nat (reachable_fresh_set never 0) add_7). Qed.

Lemma add_5_torn_empty : add 5 (fresh_set once 0) 3%nat = Throw torn_top_empty 0%nat.
Proof. vm_compute. reflexivity. Qed.

Lemma add_5_torn_neg : add 5 (fresh_set once 0) 5%nat = Throw torn_top_neg 0%nat.
Proof. vm_compute. reflexivity. Qed.

Lemma attainable_fresh_set t temp : attainable (fresh_set t temp).
Proof. apply (att_construct t temp 5 _ 0%nat). apply (construct_returns t temp 0). Qed.

Lemma attainable_torn_empty : attainable torn_top_empty.
Proof.
  exact (att_add_throw 5 _ 3%nat _ 0%nat (attainable_fresh_set once 0) add_5_torn_empty).
Qed.

Lemma attainable_torn_neg : attainable torn_top_neg.
Proof.
  exact (att_add_throw 5 _ 5%nat _ 0%nat (attainable_fresh_set once 0) add_5_torn_neg).
Qed.

Lemma add_5_torn_short : add 5 (fresh_set once 0) 7%nat = Throw torn_top_short 0%nat.
Proof. vm_compute. reflexivity. Qed.

Lemma attainable_torn_short : attainable torn_top_short.
Proof.
  exact (att_add_throw 5 _ 7%nat _ 0%nat (attainable_fresh_set once 0) add_5_torn_short).
Qed.

(** Claim C3, as the specification has it, fails on the set that holds 7:
    [contains(7)] is true and [search(7, 0)] returns [nullptr], not the node
    that holds 7. *)
Lemma search_present_is_null :
  reachable set7 ∧ contains 7 set7 = Val true
  ∧ search 7 0 set7 = Val None ∧ ¬ yields_matching_node set7 7 0.
Proof.
  assert (search 7 0 set7 = Val None) as Hs by (vm_compute; reflexivity).
  split_and!; [exact reachable_set7|vm_compute; reflexivity|done|].
  intros (a & n & Hs' & _). congruence.
Qed.

(** Claim C4 fails on a set just constructed whose tester promotes 5.
    With one allocation left, [add(5)] throws out of the guarded splice at
    level 0 and the set is as it was.  With three, the third request being
    the header of the new top level, the exception leaves [createNewLevel]
    with nothing to undo it: the caller is left with 5 in the set, a second
    level that has no nodes, [elementsOnLevel(1)] at 2^32 - 2, and
    [contains(9)] true; the state holds no grid that meets the invariant. *)
Theorem add_failure_not_undone :
  add 5 (fresh_set once 0) 1%nat = Throw (fresh_set once 0) 0%nat
  ∧ ∃ s', add 5 (fresh_set once 0) 3%nat = Throw s' 0%nat
          ∧ size_ s' = 1 ∧ contains 5 s' = Val true
          ∧ levelCount s' = Val 2 ∧ elementsOnLevel 1 s' = Val 4294967294
          ∧ contains 9 s' = Val true
          ∧ size_ (fresh_set once 0) = 0
          ∧ levelCount (fresh_set once 0) = Val 1
          ∧ contains 9 (fresh_set once 0) = Val false
          ∧ ¬ ∃ g, wf s' g.
Proof.
  split; [vm_compute; reflexivity|]. eexists.
  split; [vm_compute; reflexivity|].
  do 8 (split; [vm_compute; reflexivity|]).
  intros ([|[la r] g] & Hwf).
  - apply wf_nil in Hwf as [Hh _]. discriminate.
  - pose proof (wf_rows _ _ _ _ _ Hwf) as Hrows.
    apply Forall_cons in Hrows as [[[(a & k & H0 & _) _] _] _].
    destruct (wf_head _ _ _ _ Hwf) as (Hh & l & Hl & _ & _ & Hc).
    injection Hh as <-. vm_compute in Hl. injection Hl as <-.
    destruct r as [|[a' k'] r]; [done|].
    apply chain_cons in Hc as (Hc & _). discriminate.
Qed.

(** Claim C5 fails in a state the public members reach: the one [add(5)]
    leaves on a set just constructed when its fourth allocation fails (see
    C4).  The caller holds a set with two levels of which the top one has
    no nodes, so that no grid whose levels are all bracketed by sentinels
    hangs off [head].  As long as no [add] has thrown the claim holds:
    every level is sorted and bracketed, and every node above level 0
    points down to a node of the level beneath with an equal key.  In any
    state the public members leave, the levels are sorted, level 0 has
    both sentinels and every node above level 0 but a +INF sentinel points
    down to a node of the level beneath with an equal key. *)
Theorem sorted_towers_lost_by_failed_add :
  (add 5 (fresh_set once 0) 3%nat = Throw torn_top_empty 0%nat
   ∧ attainable torn_top_empty
   ∧ levelCount torn_top_empty = Val 2
   ∧ elementsOnLevel 1 torn_top_empty = Val 4294967294
   ∧ ¬ ∃ g, lchain (lnodes torn_top_empty) (nodes torn_top_empty) (head torn_top_empty) g
            ∧ Forall bracketed g.*2)
  ∧ (∀ (E : Type) (ET : ElementType E) (s : SkipListSet E),
       reachable s →
       ∃ g, lchain (lnodes s) (nodes s) (head s) g
            ∧ Forall ascending g.*2
            ∧ Forall bracketed g.*2
            ∧ ∀ i upper lower, g.*2 !! i = Some upper → g.*2 !! S i = Some lower →
                ∀ a k, (a, k) ∈ upper →
                  ∃ n b k', nodes s !! a = Some n ∧ below n = Some b
                            ∧ (b, k') ∈ lower ∧ key_eqb k k' = true)
  ∧ ∀ (E : Type) (ET : ElementType E) (s : SkipListSet E),
      attainable s →
      ∃ g, lchain (lnodes s) (nodes s) (head s) g
           ∧ Forall ascending g.*2
           ∧ (bracketed (level0 g) ∨ g = [])
           ∧ ∀ i upper lower, g.*2 !! i = Some upper → g.*2 !! S i = Some lower →
               ∀ a k, (a, k) ∈ upper → kind k ≠ PosInf →
                 ∃ n b k', nodes s !! a = Some n ∧ below n = Some b
                           ∧ (b, k') ∈ lower ∧ key_eqb k k' = true.
Proof.
  split; [|split; [intros E ET s; apply sorted_towers_intact
                  |intros E ET s; apply sorted_towers_any]].
  split; [exact add_5_torn_empty|]. split; [exact attainable_torn_empty|].
  do 2 (split; [vm_compute; reflexivity|]).
  intros ([|[la r] g] & Hsh & Hbr).
  - simpl in Hsh. discriminate.
  - apply Forall_cons in Hbr as [[(a & k & H0 & _) _] _].
    apply lchain_cons in Hsh as (Hh & l & Hl & _ & Hc & _).
    injection Hh as <-. vm_compute in Hl. injection Hl as <-.
    destruct r as [|[a' k'] r]; [done|].
    apply chain_cons in Hc as (Hc & _). discriminate.
Qed.

(** Claim C6 (scenario B): on a set constructed with the tester [once],
    with the 22 allocations the run asks for available, [add(5)], [add(1)],
    [add(3)] return and leave a set with two levels, on both of which each
    of the three elements is found. *)
Theorem scenario_B (b : nat) :
  ∃ s, (construct_body 0;; add 5;; add 1;; add 3) (raw once) (22 + b)%nat = Ok tt s b
       ∧ levelCount s = Val 2
       ∧ Forall (λ e, isElementOnLevel e 1 s = Val true
                      ∧ isElementOnLevel e 0 s = Val true) [5; 1; 3].
Proof.
  eexists. split; [vm_compute; reflexivity|].
  split; [vm_compute; reflexivity|].
  repeat constructor; vm_compute; reflexivity.
Qed.

(** Claim C9 fails when the allocation that fails is the one inside
    [levelTester->clone()]: the member has by then deleted the target's old
    grid and installed the new one, under the comment "allocation was
    successful".  Copying the set that holds 7 to an empty set with seven
    allocations available (the seven of the grid) throws and leaves the
    target holding 7, with size 1.  What does hold: in any states an
    exception leaves the target as it was unless the whole replacement
    grid had been built; for a source that no [add] has thrown on and that
    was not moved from, and any target, a failure while the grid is built
    leaves the target as it was, the member returns when the allocations
    suffice and never runs into undefined behaviour, and self-assignment
    leaves the same answers; a source on which [add] has left a level
    without its +INF sentinel is never copied, and an exception then
    leaves the target as it was (with all allocations granted,
    [linkBelow] dereferences a null pointer); a source that was moved
    from makes [linkBelow] dereference a null pointer, in self-assignment
    too. *)
Theorem copy_assign_clone_failure :
  (∃ t', copy_assign never set7 (fresh_set never 0) 7%nat = Throw t' 0%nat
         ∧ size_ (fresh_set never 0) = 0 ∧ contains 7 (fresh_set never 0) = Val false
         ∧ size_ t' = 1 ∧ contains 7 t' = Val true ∧ levelTester t' = never)
  ∧ (∀ (E : Type) (ET : ElementType E) cl (s t : SkipListSet E) b t' b',
       copy_assign cl s t b = Throw t' b' →
       t' = t
       ∨ ∃ z bz, build s (raw cl) b = Ok tt z bz
                 ∧ head t' = head z ∧ lnodes t' = lnodes z ∧ nodes t' = nodes z
                 ∧ elements t' = elements s ∧ levelTester t' = levelTester t)
  ∧ (∀ (E : Type) (ET : ElementType E) cl (s t : SkipListSet E) b,
       reachable s → attainable t → head s ≠ None →
       (∀ z b', build s (raw cl) b = Throw z b' → copy_assign cl s t b = Throw t b')
       ∧ ((size (lnodes s) + 2 * size (nodes s) + 1 ≤ b)%nat →
          ∃ t' b', copy_assign cl s t b = Ok tt t' b')
       ∧ match copy_assign cl s t b with
         | Ok _ t' _ => same_answers s t' ∧ levelTester t' = cl
         | Throw t' _ =>
             t' = t
             ∨ (∃ z b', build s (raw cl) b = Ok tt z b')
               ∧ same_answers s t' ∧ levelTester t' = levelTester t
         | Abort _ => False
         end
       ∧ match copy_assign cl s s b with
         | Ok _ s' _ | Throw s' _ => same_answers s s'
         | Abort _ => False
         end)
  ∧ (∀ (E : Type) (ET : ElementType E) cl (s t : SkipListSet E) b,
       attainable s →
       (∃ g, lchain (lnodes s) (nodes s) (head s) g ∧ ¬ Forall bracketed g.*2) →
       match copy_assign cl s t b with
       | Ok _ _ _ => False
       | Throw t' _ => t' = t
       | Abort _ => True
       end)
  ∧ (attainable torn_top_empty
     ∧ ∀ b, copy_assign never torn_top_empty (fresh_set never 0) (8 + b)%nat
            = Abort NullDeref)
  ∧ (∀ (E : Type) (ET : ElementType E) cl (s t : SkipListSet E) b,
       head s = None → copy_assign cl s t b = Abort NullDeref).
Proof.
  split_and!.
  - eexists. split; [vm_compute; reflexivity|].
    do 4 (split; [vm_compute; reflexivity|]). vm_compute. reflexivity.
  - intros E ET cl s t b t' b'. apply copy_assign_throws.
  - intros E ET cl s t b. apply copy_assign_outcomes.
  - intros E ET cl s t b. apply copy_assign_torn.
  - exact attainable_torn_empty.
  - intros b. vm_compute. reflexivity.
  - intros E ET cl s t b. apply copy_assign_moved_from.
Qed.

(** Claim C8, as the specification has it, fails on the set that holds 7:
    moved from, it still reports size 1 and [contains(7)] dereferences its
    null [head]; move-assigned to an empty set, it is left with the empty
    grid and size 1. *)
Lemma moved_from_not_as_empty :
  reachable set7 ∧ as_empty (fresh_set never 0)
  ∧ size_ (move_construct never set7).2 = 1
  ∧ contains 7 (move_construct never set7).2 = Crash NullDeref
  ∧ ¬ as_empty (move_construct never set7).2
  ∧ size_ (move_assign never (fresh_set never 0) set7).2 = 1
  ∧ ¬ as_empty (move_assign never (fresh_set never 0) set7).2.
Proof.
  split_and!; [exact reachable_set7|apply fresh_set_as_empty|done|done| |done|].
  - intros [Hsz _]. vm_compute in Hsz. discriminate.
  - intros [Hsz _]. vm_compute in Hsz. discriminate.
Qed.

(** *** Instances *)

Lemma add_present_faults_witness :
  reachable set7 ∧ contains 7 set7 = Val true ∧ add 7 set7 2%nat = Abort NullDeref.
Proof.
  split; [exact reachable_set7|]. split; [vm_compute; reflexivity|].
  exact (add_present_faults set7 7 2%nat reachable_set7 ltac:(vm_compute; reflexivity)).
Defined.

Lemma contains_after_adds_witness :
  (∀ h e, policy never h e = false) ∧ NoDup [5; 1; 3; 8; 2]
  ∧ ∃ s', add_all [5; 1; 3; 8; 2] (fresh_set never 0) 10%nat = Ok tt s' 0%nat
          ∧ ∀ e, contains e s' = Val (existsb (Z.eqb e) [5; 1; 3; 8; 2]).
Proof.
  assert (NoDup [5; 1; 3; 8; 2]) as Hnd.
  { repeat (apply NoDup_cons; split; [set_solver|]). apply NoDup_nil_2. }
  split; [done|]. split; [exact Hnd|].
  destruct (contains_after_adds never 0 [5; 1; 3; 8; 2]) as (_ & Hsound & Htotal).
  destruct (Htotal ltac:(done) Hnd ltac:(simpl; unfold INT_MAX; lia) 0%nat) as (s' & Hrun).
  exists s'. split; [exact Hrun|]. exact (proj2 (Hsound _ _ _ Hrun)).
Defined.

(** Claim C3, as the code has it: [search(element, minLevel)] has one
    nullable result.  In a state that the public members reach without an
    [add] having let [std::bad_alloc] through, for the level [r] numbered
    [minLevel], it returns [nullptr] when a key equal to [element] is on
    that level, and otherwise the node of that level after which [element]
    belongs: its key is less than [element] and the key of its right
    neighbour is greater.  Of its two callers, [contains] tests the result
    of [search(element, 0)] against [nullptr], and [add] does not: it
    reads [current->next] through a null result.  In any state the public
    members leave, a node that [search] returns is still the node after
    which [element] belongs on level [minLevel]; but after an [add] that
    threw in [createNewLevel], [nullptr] also comes back for an element
    that is on no level: in the set that [add(5)] leaves when the fourth
    allocation fails, [search(9, 0)] returns [nullptr]. *)
Theorem search_null_or_predecessor :
  (∀ (E : Type) (ET : ElementType E) (s : SkipListSet E),
     reachable s →
     ∃ g, wf s g ∧ ∀ g1 la r g2 e, g = g1 ++ (la, r) :: g2 →
       (found_in (nkey e) r ∧ search e (Z.of_nat (length g2)) s = Val None)
       ∨ (¬ found_in (nkey e) r
          ∧ ∃ c, search e (Z.of_nat (length g2)) s = Val (Some c)
                 ∧ pred_in (nkey e) r c))
  ∧ (∀ (E : Type) (ET : ElementType E) (s : SkipListSet E) (e : E),
       (search e 0 s = Val None →
          contains e s = Val true ∧ ∀ b, add e s (S (S b)) = Abort NullDeref)
       ∧ (∀ c, search e 0 s = Val (Some c) → contains e s = Val false))
  ∧ (∀ (E : Type) (ET : ElementType E) (s : SkipListSet E),
       attainable s →
       ∃ g, safe s g ∧ ∀ g1 la r g2 e, g = g1 ++ (la, r) :: g2 →
         ∃ res, search e (Z.of_nat (length g2)) s = Val res
                ∧ ∀ c, res = Some c → pred_in (nkey e) r c)
  ∧ add 5 (fresh_set once 0) 3%nat = Throw torn_top_empty 0%nat
  ∧ attainable torn_top_empty
  ∧ levelCount torn_top_empty = Val 2
  ∧ search 9 0 torn_top_empty = Val None
  ∧ isElementOnLevel 9 0 torn_top_empty = Val false
  ∧ isElementOnLevel 9 1 torn_top_empty = Val false.
Proof.
  split; [intros E ET s; apply search_intact|].
  split; [intros E ET s e; apply search_callers|].
  split; [intros E ET s; apply search_any|].
  split; [exact add_5_torn_empty|]. split; [exact attainable_torn_empty|].
  split_and!; vm_compute; reflexivity.
Qed.

Lemma search_null_or_predecessor_witness :
  reachable set7
  ∧ ∃ g, wf set7 g ∧ ∀ g1 la r g2 e, g = g1 ++ (la, r) :: g2 →
      (found_in (nkey e) r ∧ search e (Z.of_nat (length g2)) set7 = Val None)
      ∨ (¬ found_in (nkey e) r
         ∧ ∃ c, search e (Z.of_nat (length g2)) set7 = Val (Some c)
                ∧ pred_in (nkey e) r c).
Proof.
  split; [exact reachable_set7|].
  exact (proj1 search_null_or_predecessor Z _ set7 reachable_set7).
Defined.

Lemma copy_7_in :
  copy_construct_in (lnodes set7) (nodes set7) never set7 8%nat = Ok tt set7_copy 0%nat.
Proof. vm_compute. reflexivity. Qed.

Lemma assign_7_in :
  copy_assign_in never (in_heap_of set7_copy set7) set7_copy 8%nat
  = Ok tt set7_assigned 0%nat.
Proof. vm_compute. reflexivity. Qed.

Lemma copy_fidelity_witness :
  copy_construct_in (lnodes set7) (nodes set7) never set7 8%nat = Ok tt set7_copy 0%nat
  ∧ levelTester set7_copy = never
  ∧ same_answers set7 (in_heap_of set7_copy set7)
  ∧ copy_assign_in never (in_heap_of set7_copy set7) set7_copy 8%nat
    = Ok tt set7_assigned 0%nat
  ∧ levelTester set7_assigned = never
  ∧ same_answers (in_heap_of set7_copy set7)
      (in_heap_of set7_assigned (in_heap_of set7_copy set7)).
Proof.
  split; [exact copy_7_in|].
  destruct (proj1 (proj2 (proj2 copy_fidelity)) never set7 set7_copy 8%nat 0%nat
              (reachable_attainable _ reachable_set7) copy_7_in)
    as (g & g' & Hwf & Hwfc & _ & Hcl & _ & _ & _ & Hdis & Hun & Hans & _).
  split; [exact Hcl|]. split; [exact Hans|]. split; [exact assign_7_in|].
  assert (g ≠ []) as Hne.
  { intros ->. by destruct Hwf as [Hsh _ _ _ _ _]. }
  destruct (proj2 (proj2 (proj2 copy_fidelity)) never (in_heap_of set7_copy set7)
              set7_copy g g' set7_assigned 8%nat 0%nat
              (proj1 (in_heap_answers set7 g set7_copy Hwf Hne Hun)) Hne Hwfc
              eq_refl eq_refl assign_7_in)
    as (g'' & _ & _ & Hcl' & _ & _ & _ & _ & _ & Hd).
  split; [exact Hcl'|]. exact (proj1 (proj2 (proj2 (Hd Hdis)))).
Defined.

Lemma move_leaves_source_witness :
  reachable set7 ∧ reachable (fresh_set never 0)
  ∧ head (move_construct never set7).2 = None
  ∧ size_ (move_construct never set7).2 = size_ set7
  ∧ size_ (move_assign never (fresh_set never 0) set7).2 = size_ set7.
Proof.
  pose proof (move_leaves_source set7 (fresh_set never 0) never reachable_set7
                (reachable_fresh_set never 0)) as (_ & (H1 & H2 & _) & _ & (_ & _ & _ & H3 & _)).
  split; [exact reachable_set7|]. split; [apply reachable_fresh_set|].
  split; [exact H1|]. split; [exact H2|exact H3].
Defined.

Lemma search_descent_safe_witness :
  add 5 (fresh_set once 0) 7%nat = Throw torn_top_short 0%nat
  ∧ attainable torn_top_short
  ∧ levelCount torn_top_short = Val 2
  ∧ (∃ res, search 3 1 torn_top_short = Val res)
  ∧ (∃ v, contains 3 torn_top_short = Val v)
  ∧ ∃ v, contains 9 torn_top_short = Val v.
Proof.
  split; [exact add_5_torn_short|]. split; [exact attainable_torn_short|].
  pose proof (search_descent_safe _ attainable_torn_short) as (_ & _ & Hs & Hc & _).
  split; [vm_compute; reflexivity|].
  split; [apply (Hs 2 3 1); [vm_compute; reflexivity|lia]|].
  split; apply Hc; discriminate.
Defined.

(** *** Instances of the further properties *)



(** X5: [isElementOnLevel] against [contains].  In every state that the
    public members reach without an [add] having let [std::bad_alloc]
    through: whatever [contains(e)] returns, [isElementOnLevel(e, 0)]
    returns too; an element on level [level + 1] is on level [level]; and
    an element on any level is in the set.  Not so after [add] has thrown
    in [createNewLevel]: in the set that [add(5)] leaves when the fourth
    allocation fails, [contains(9)] returns true and
    [isElementOnLevel(9, 0)] returns false. *)
Theorem levels_nest :
  (∀ (E : Type) (ET : ElementType E) (s : SkipListSet E) (e : E),
     reachable s →
     (∀ c, contains e s = Val c → isElementOnLevel e 0 s = Val c)
     ∧ (∀ level, 0 ≤ level → isElementOnLevel e (level + 1) s = Val true →
          isElementOnLevel e level s = Val true)
     ∧ (∀ level, isElementOnLevel e level s = Val true → contains e s = Val true))
  ∧ add 5 (fresh_set once 0) 3%nat = Throw torn_top_empty 0%nat
  ∧ attainable torn_top_empty
  ∧ contains 9 torn_top_empty = Val true
  ∧ isElementOnLevel 9 0 torn_top_empty = Val false.
Proof.
  split; [intros E ET s e; apply levels_nest_intact|].
  split; [exact add_5_torn_empty|]. split; [exact attainable_torn_empty|].
  split; vm_compute; reflexivity.
Qed.

(** X6: a level holds no more elements than the level beneath it.  In
    every state that the public members reach without an [add] having let
    [std::bad_alloc] through, what [elementsOnLevel(level + 1)] returns is
    at most what [elementsOnLevel(level)] returns.  Not so after [add] has
    thrown in [createNewLevel]: in the set that [add(5)] leaves when the
    fourth allocation fails, [elementsOnLevel(0)] is 1 and
    [elementsOnLevel(1)], for the level without nodes, is 4294967294. *)
Theorem levels_thin_out :
  (∀ (E : Type) (ET : ElementType E) (s : SkipListSet E) level n m,
     reachable s → 0 ≤ level →
     elementsOnLevel level s = Val n → elementsOnLevel (level + 1) s = Val m →
     0 ≤ m ≤ n)
  ∧ add 5 (fresh_set once 0) 3%nat = Throw torn_top_empty 0%nat
  ∧ attainable torn_top_empty
  ∧ elementsOnLevel 0 torn_top_empty = Val 1
  ∧ elementsOnLevel 1 torn_top_empty = Val 4294967294.
Proof.
  split; [intros E ET s level n m; apply levels_thin_out_intact|].
  split; [exact add_5_torn_empty|]. split; [exact attainable_torn_empty|].
  split; vm_compute; reflexivity.
Qed.

(** X8: [tail] and [updateTail].  In every state with a grid that the
    public members reach without an [add] having let [std::bad_alloc]
    through, [tail] points at a node of the set that holds the +INF
    sentinel and has no right neighbour, and it is the node [updateTail]
    finds: a call leaves the set as it is; a set that was moved from has a
    null [tail].  Not so after [add] has thrown in [createNewLevel]: in the
    set that [add(5)] leaves when the sixth allocation fails, [tail] is
    still the +INF sentinel of level 0, and [updateTail] moves it to the
    -INF sentinel that is alone on the top level. *)
Theorem tail_is_last :
  (∀ (E : Type) (ET : ElementType E) (s : SkipListSet E),
     reachable s →
     match head s with
     | None => tail s = None
     | Some _ =>
         ∃ a n, tail s = Some a ∧ nodes s !! a = Some n
                ∧ kind (value n) = PosInf ∧ next n = None
                ∧ ∀ b, updateTail s b = Ok tt s b
     end)
  ∧ add 5 (fresh_set once 0) 5%nat = Throw torn_top_neg 0%nat
  ∧ attainable torn_top_neg
  ∧ head torn_top_neg = Some 2%positive
  ∧ tail torn_top_neg = Some 1%positive
  ∧ (∃ n, nodes torn_top_neg !! 1%positive = Some n ∧ kind (value n) = PosInf
          ∧ below n = None)
  ∧ (∃ n, nodes torn_top_neg !! 4%positive = Some n ∧ kind (value n) = NegInf
          ∧ below n = Some 2%positive)
  ∧ ∀ b, updateTail torn_top_neg b = Ok tt (set_tail (Some 4%positive) torn_top_neg) b.
Proof.
  split; [intros E ET s; apply tail_is_last_intact|].
  split; [exact add_5_torn_neg|]. split; [exact attainable_torn_neg|].
  split; [reflexivity|]. split; [reflexivity|].
  split; [eexists; split; [vm_compute; reflexivity|split; reflexivity]|].
  split; [eexists; split; [vm_compute; reflexivity|split; reflexivity]|].
  intros b. vm_compute. reflexivity.
Qed.

(** X9: the copy constructor reads an uninitialised [head].  Whatever the
    source, as long as it was not moved from and no [add] on it has let
    [std::bad_alloc] through: if the very first allocation fails,
    [linkLevels] throws before it has assigned [head], and the handler
    passes the uninitialised member to [deleteSkipList]; once the first
    allocation has succeeded, the constructor either returns or lets
    [std::bad_alloc] through after it has taken down what it built.  Not
    so for a source on which [add] has thrown in [createNewLevel]: copying
    the set that [add(5)] leaves when the fourth allocation fails, with
    every allocation of the copy granted, dereferences a null pointer in
    [linkBelow]. *)
Theorem copy_construct_first_allocation :
  (∀ (E : Type) (ET : ElementType E) cl (s : SkipListSet E),
     reachable s → head s ≠ None →
     copy_construct cl s 0 = Abort Uninitialised
     ∧ ∀ b, match copy_construct cl s (S b) with
            | Ok _ _ _ | Throw _ _ => True
            | Abort _ => False
            end)
  ∧ add 5 (fresh_set once 0) 3%nat = Throw torn_top_empty 0%nat
  ∧ attainable torn_top_empty
  ∧ head torn_top_empty ≠ None
  ∧ copy_construct never torn_top_empty 0%nat = Abort Uninitialised
  ∧ ∀ b, copy_construct never torn_top_empty (8 + b)%nat = Abort NullDeref.
Proof.
  split; [intros E ET cl s; apply copy_construct_first_allocation_intact|].
  split; [exact add_5_torn_empty|]. split; [exact attainable_torn_empty|].
  split; [discriminate|]. split; [vm_compute; reflexivity|].
  intros b. vm_compute. reflexivity.
Qed.

Lemma levels_nest_witness :
  ∃ s, add 5 (fresh_set once 0) 9%nat = Ok tt s 0%nat
       ∧ reachable s
       ∧ isElementOnLevel 5 1 s = Val true
       ∧ isElementOnLevel 5 0 s = Val true
       ∧ contains 5 s = Val true.
Proof.
  eexists. split; [vm_compute; reflexivity|].
  match goal with |- reachable ?s ∧ _ => assert (reachable s) as Hr end.
  { eapply (reach_add 5 _ 9%nat _ 0%nat (reachable_fresh_set once 0)).
    vm_compute. reflexivity. }
  split; [exact Hr|].
  pose proof (proj1 levels_nest Z _ _ 5 Hr) as (_ & Hdown & Hin).
  match goal with |- ?P ∧ _ => assert P as H1 by (vm_compute; reflexivity) end.
  split; [exact H1|]. split; [exact (Hdown 0 ltac:(lia) H1)|exact (Hin 1 H1)].
Defined.

Lemma levels_thin_out_witness :
  ∃ s2 s, add 5 (fresh_set once 0) 9%nat = Ok tt s2 0%nat
          ∧ add 1 (move_construct never s2).1 2%nat = Ok tt s 0%nat
          ∧ reachable s
          ∧ elementsOnLevel 0 s = Val 2 ∧ elementsOnLevel 1 s = Val 1
          ∧ 0 ≤ 1 ≤ 2.
Proof.
  eexists. eexists. split; [vm_compute; reflexivity|].
  match goal with |- add 1 (move_construct never ?s2).1 _ = _ ∧ _ =>
    assert (reachable s2) as Hr2 end.
  { eapply (reach_add 5 _ 9%nat _ 0%nat (reachable_fresh_set once 0)).
    vm_compute. reflexivity. }
  pose proof (reach_move_construct never _ Hr2) as Hr3.
  split; [vm_compute; reflexivity|].
  match goal with |- reachable ?s ∧ _ => assert (reachable s) as Hr end.
  { eapply (reach_add 1 _ 2%nat _ 0%nat Hr3). vm_compute. reflexivity. }
  split; [exact Hr|].
  match goal with |- ?P ∧ ?Q ∧ _ =>
    assert P as H0 by (vm_compute; reflexivity);
    assert Q as H1 by (vm_compute; reflexivity) end.
  split; [exact H0|]. split; [exact H1|].
  exact (proj1 levels_thin_out Z _ _ 0 2 1 Hr ltac:(lia) H0 H1).
Defined.


Lemma tail_is_last_witness :
  reachable set7
  ∧ ∃ a n, tail set7 = Some a ∧ nodes set7 !! a = Some n
           ∧ kind (value n) = PosInf ∧ next n = None
           ∧ ∀ b, updateTail set7 b = Ok tt set7 b.
Proof.
  split; [exact reachable_set7|]. exact (proj1 tail_is_last Z _ set7 reachable_set7).
Defined.

Lemma copy_construct_first_allocation_witness :
  reachable set7 ∧ head set7 ≠ None
  ∧ copy_construct never set7 0%nat = Abort Uninitialised
  ∧ match copy_construct never set7 3%nat with
    | Ok _ _ _ | Throw _ _ => True
    | Abort _ => False
    end.
Proof.
  assert (head set7 ≠ None) as Hh by discriminate.
  pose proof (proj1 copy_construct_first_allocation Z _ never set7 reachable_set7 Hh)
    as [H0 Hb].
  split; [exact reachable_set7|]. split; [exact Hh|]. split; [exact H0|exact (Hb 2%nat)].
Defined.




Lemma size_after_adds_witness :
  ∃ s, construct never 0 5%nat = Ok tt (fresh_set never 0) 0%nat
       ∧ add_all [5; 1; 3] (fresh_set never 0) 6%nat = Ok tt s 0%nat
       ∧ size_ s = 3 ∧ elementsOnLevel 0 s = Val 3.
Proof.
  eexists.
  assert (construct never 0 5%nat = Ok tt (fresh_set never 0) 0%nat) as Hc
    by (vm_compute; reflexivity).
  split; [exact Hc|].
  match goal with |- ?P ∧ _ => assert P as Hrun by (vm_compute; reflexivity) end.
  split; [exact Hrun|].
  pose proof (size_after_adds never 0 5%nat _ 0%nat [5; 1; 3] 6%nat _ 0%nat Hc Hrun)
    as [Hs He].
  split; [exact Hs|exact He].
Defined.

